(** * ExprScript: a shallow embedding of the evaluator of [src/main.cpp]

    The interpreter is one C++ translation unit.  This development embeds
    its runtime (values, environments, control stack, heap, the [step]
    dispatcher, the intrinsics and the moving collector) and the static
    analyses it relies on, and states properties of them.

    Conventions.
    - [int] is a 32-bit two's complement integer.  An [int] operation
      whose result is not an [int] (signed overflow, also of [INT_MIN / -1]
      and [INT_MIN % -1]) is undefined behaviour; the model stops with
      [Undefined].
    - Container sizes converted to [int] ([static_cast<int>(v.size())]) are
      taken exactly: containers are assumed smaller than 2^31.
    - [std::vector::operator[]] outside the vector, and reading an
      uninitialised variable, are undefined behaviour; the model stops
      with [Undefined].
    - [std::shared_ptr<Env>] is a reference into a store of environments
      ([Memory]); copies of the pointer alias the same environment. *)

From Stdlib Require Import ZArith String Ascii List Lia Bool DecimalString DecimalPos DecimalZ.
From stdpp Require Import base option list gmap sets strings.

Set Warnings "-register-all,-clear-no-such-hyp".

Open Scope Z_scope.
Open Scope list_scope.

(** ** Errors *)

Record SourceLocation := mkSL { line : Z; column : Z }.

(** [panic] throws [std::runtime_error]; its default location is (0, 0). *)
Definition noSL : SourceLocation := mkSL 0 0.

Inductive error :=
| Panic (type msg : string) (sl : SourceLocation)
| Exception (what : string)
| Undefined (what : string).

Inductive result (A : Type) :=
| Ok (a : A)
| Err (e : error).
Arguments Ok {A} a.
Arguments Err {A} e.

Definition rbind {A B} (r : result A) (k : A -> result B) : result B :=
  match r with
  | Ok a => k a
  | Err e => Err e
  end.

Global Instance result_bind : MBind result := fun A B k r => rbind r k.
Global Instance result_ret : MRet result := @Ok.

(** A computation that the model runs with a bound on its depth or on
    its number of iterations. *)
Inductive outcome (A : Type) :=
| Done (r : result A)
| OutOfFuel.
Arguments Done {A} r.
Arguments OutOfFuel {A}.

Definition panic {A} (type msg : string) (sl : SourceLocation) : result A :=
  Err (Panic type msg sl).

Definition is_Ok {A} (r : result A) : Prop := exists a, r = Ok a.

(** ** Machine integers and vectors *)

Definition INT_MIN : Z := - 2 ^ 31.
Definition INT_MAX : Z := 2 ^ 31 - 1.

Definition in_int (z : Z) : Prop := INT_MIN <= z <= INT_MAX.

(** What the undefined behaviour of an overflowing [int] operation is
    called. *)
Definition overflow : string := "signed integer overflow".

(** An [int] operation whose mathematical result is [z]: defined when
    [z] is an [int]. *)
Definition int_arith (z : Z) : result Z :=
  if (INT_MIN <=? z) && (z <=? INT_MAX) then Ok z
  else Err (Undefined overflow).

(** [static_cast<int>(v.size())] *)
Definition zlen {A} (l : list A) : Z := Z.of_nat (length l).

(** [v[i]] for an [int] index. *)
Definition vec_at {A} (v : list A) (i : Z) : option A :=
  if i <? 0 then None else v !! Z.to_nat i.

(** [v[i] = x] *)
Definition vec_set {A} (v : list A) (i : Z) (x : A) : option (list A) :=
  if (0 <=? i) && (i <? zlen v) then Some (<[Z.to_nat i := x]> v) else None.

(** ** Lexer helpers: [quote] and [unquote] *)

Definition ch_backslash : ascii := "092"%char.
Definition ch_dquote : ascii := "034"%char.
Definition ch_tab : ascii := "009"%char.
Definition ch_newline : ascii := "010"%char.

Definition push_back (r : string) (c : ascii) : string :=
  (r ++ String c EmptyString)%string.

(** The [for (char c : s)] loop of [quote]; [r] is the output so far. *)
Fixpoint quote_loop (s : string) (r : string) : string :=
  match s with
  | EmptyString => r
  | String c s' =>
      if Ascii.eqb c ch_backslash then
        quote_loop s' (push_back (push_back r ch_backslash) ch_backslash)
      else if Ascii.eqb c ch_dquote then
        quote_loop s' (push_back (push_back r ch_backslash) ch_dquote)
      else
        quote_loop s' (push_back r c)
  end.

Definition quote (s : string) : string :=
  push_back (quote_loop s (push_back EmptyString ch_dquote)) ch_dquote.

(** The [while (s.size())] loop of [unquote].  The source reverses [s] and
    consumes it with [back]/[pop_back]; here [s] is kept in reading order
    and consumed from its head, which visits the same characters in the
    same order. *)
Fixpoint unquote_loop (s : string) (r : string) : result string :=
  match s with
  | EmptyString => Ok r
  | String c s' =>
      if Ascii.eqb c ch_backslash then
        match s' with
        | String c1 s'' =>
            if Ascii.eqb c1 ch_backslash then unquote_loop s'' (push_back r ch_backslash)
            else if Ascii.eqb c1 ch_dquote then unquote_loop s'' (push_back r ch_dquote)
            else if Ascii.eqb c1 "t"%char then unquote_loop s'' (push_back r ch_tab)
            else if Ascii.eqb c1 "n"%char then unquote_loop s'' (push_back r ch_newline)
            else panic "unquote" "invalid escape sequence" noSL
        | EmptyString => panic "unquote" "incomplete escape sequence" noSL
        end
      else unquote_loop s' (push_back r c)
  end.

(** [s[i]] on a [std::string] *)
Definition str_at (s : string) (i : Z) : option ascii :=
  if i <? 0 then None else String.get (Z.to_nat i) s.

Definition unquote (s : string) : result string :=
  let n := Z.of_nat (String.length s) in
  if (2 <=? n)
     && bool_decide (str_at s 0 = Some ch_dquote)
     && bool_decide (str_at s (n - 1) = Some ch_dquote)
  then unquote_loop (String.substring 1 (Z.to_nat (n - 2)) s) EmptyString
  else panic "unquote" "invalid quoted string" noSL.

(** [std::stoi]: leading white space, an optional sign, then the longest
    run of decimal digits; [std::invalid_argument] without a digit and
    [std::out_of_range] outside [int]. *)
Definition is_digit (c : ascii) : bool :=
  let n := nat_of_ascii c in (48 <=? n)%nat && (n <=? 57)%nat.

Definition is_space (c : ascii) : bool :=
  let n := nat_of_ascii c in (n =? 32)%nat || ((9 <=? n)%nat && (n <=? 13)%nat).

Fixpoint skip_space (s : string) : string :=
  match s with
  | String c s' => if is_space c then skip_space s' else s
  | EmptyString => s
  end.

Fixpoint digits_value (s : string) (acc : Z) : Z :=
  match s with
  | String c s' =>
      if is_digit c then digits_value s' (10 * acc + (Z.of_nat (nat_of_ascii c) - 48))
      else acc
  | EmptyString => acc
  end.

Definition stoi (s : string) : result Z :=
  let s := skip_space s in
  let '(neg, s) :=
    match s with
    | String c s' =>
        if Ascii.eqb c "-"%char then (true, s')
        else if Ascii.eqb c "+"%char then (false, s')
        else (false, s)
    | EmptyString => (false, s)
    end in
  match s with
  | String c _ =>
      if is_digit c then
        let v := digits_value s 0 in
        let v := if neg then - v else v in
        if (INT_MIN <=? v) && (v <=? INT_MAX) then Ok v
        else Err (Exception "stoi: out of range")
      else Err (Exception "stoi: invalid argument")
  | EmptyString => Err (Exception "stoi: invalid argument")
  end.

(** [std::to_string(int)] *)
Definition to_string (z : Z) : string := NilZero.string_of_int (Z.to_int z).

Definition SourceLocation_toString (s : SourceLocation) : string :=
  if (line s <=? 0) || (column s <=? 0) then "(SourceLocation N/A)"%string
  else ("(SourceLocation " ++ to_string (line s) ++ " " ++ to_string (column s) ++ ")")%string.

(** ** AST and static analysis *)

(** every value is accessed by reference to its location on the heap *)
Definition Location := Z.

(** The members of the base class [ExprNode]. *)
Record ExprMeta := mkMeta {
  sl : SourceLocation;
  freeVars : gset string;
  tail : bool
}.

Record VariableNode := mkVariable {
  var_meta : ExprMeta;
  name : string
}.

Inductive ExprNode :=
| IntegerNode (m : ExprMeta) (val : string) (loc : Location)
| StringNode (m : ExprMeta) (val : string) (loc : Location)
| VarNode (v : VariableNode)
| LambdaNode (m : ExprMeta) (varList : list VariableNode) (expr : ExprNode)
| LetrecNode (m : ExprMeta) (varExprList : list (VariableNode * ExprNode)) (expr : ExprNode)
| IfNode (m : ExprMeta) (cond branch1 branch2 : ExprNode)
| SequenceNode (m : ExprMeta) (exprList : list ExprNode)
| IntrinsicCallNode (m : ExprMeta) (intrinsic : string) (argList : list ExprNode)
| ExprCallNode (m : ExprMeta) (expr : ExprNode) (argList : list ExprNode)
| AtNode (m : ExprMeta) (var : VariableNode) (expr : ExprNode).

Definition meta (e : ExprNode) : ExprMeta :=
  match e with
  | IntegerNode m _ _ | StringNode m _ _ | LambdaNode m _ _ | LetrecNode m _ _
  | IfNode m _ _ _ | SequenceNode m _ | IntrinsicCallNode m _ _
  | ExprCallNode m _ _ | AtNode m _ _ => m
  | VarNode v => var_meta v
  end.

(** A node as its constructor leaves it: no free variables yet, not in
    tail position; a literal's [loc] is -1. *)
Definition fresh_meta (s : SourceLocation) : ExprMeta := mkMeta s ∅ false.

Definition set_freeVars (m : ExprMeta) (fv : gset string) : ExprMeta :=
  mkMeta (sl m) fv (tail m).
Definition set_tail (m : ExprMeta) (t : bool) : ExprMeta :=
  mkMeta (sl m) (freeVars m) t.

Definition names (varList : list VariableNode) : list string := map name varList.
Definition bound_names (varExprList : list (VariableNode * ExprNode)) : list string :=
  map (fun ve => name (fst ve)) varExprList.

(** [for (auto var : varList) freeVars.erase(var->name)] *)
Definition erase_all (fv : gset string) (ns : list string) : gset string :=
  fold_left (fun s n => s ∖ {[n]}) ns fv.

(** [freeVars.insert(e->freeVars.begin(), e->freeVars.end())] for each [e] *)
Definition insert_all (fv : gset string) (es : list ExprNode) : gset string :=
  fold_left (fun s e => s ∪ freeVars (meta e)) es fv.

Fixpoint computeFreeVars (e : ExprNode) : ExprNode :=
  match e with
  | IntegerNode _ _ _ => e
  | StringNode _ _ _ => e
  | VarNode v =>
      VarNode (mkVariable (set_freeVars (var_meta v) (freeVars (var_meta v) ∪ {[name v]})) (name v))
  | LambdaNode m varList expr =>
      let expr := computeFreeVars expr in
      let fv := freeVars m ∪ freeVars (meta expr) in
      LambdaNode (set_freeVars m (erase_all fv (names varList))) varList expr
  | LetrecNode m varExprList expr =>
      let expr := computeFreeVars expr in
      let fv := freeVars m ∪ freeVars (meta expr) in
      let varExprList := map (fun ve => (fst ve, computeFreeVars (snd ve))) varExprList in
      let fv := insert_all fv (map snd varExprList) in
      LetrecNode (set_freeVars m (erase_all fv (bound_names varExprList))) varExprList expr
  | IfNode m cond branch1 branch2 =>
      let cond := computeFreeVars cond in
      let branch1 := computeFreeVars branch1 in
      let branch2 := computeFreeVars branch2 in
      IfNode (set_freeVars m (insert_all (freeVars m) [cond; branch1; branch2]))
             cond branch1 branch2
  | SequenceNode m exprList =>
      let exprList := map computeFreeVars exprList in
      SequenceNode (set_freeVars m (insert_all (freeVars m) exprList)) exprList
  | IntrinsicCallNode m intrinsic argList =>
      let argList := map computeFreeVars argList in
      IntrinsicCallNode (set_freeVars m (insert_all (freeVars m) argList)) intrinsic argList
  | ExprCallNode m expr argList =>
      let expr := computeFreeVars expr in
      let argList := map computeFreeVars argList in
      ExprCallNode (set_freeVars m (insert_all (freeVars m) (expr :: argList))) expr argList
  | AtNode m var expr =>
      let expr := computeFreeVars expr in
      AtNode (set_freeVars m (freeVars m ∪ freeVars (meta expr))) var expr
  end.

Definition VariableNode_computeTail (v : VariableNode) (parentTail : bool) : VariableNode :=
  mkVariable (set_tail (var_meta v) parentTail) (name v).

(** A [SequenceNode] has at least one expression (the parser rejects the
    empty ones), so [exprList[n - 1]] exists. *)
Fixpoint computeTail (e : ExprNode) (parentTail : bool) : ExprNode :=
  match e with
  | IntegerNode m val loc => IntegerNode (set_tail m parentTail) val loc
  | StringNode m val loc => StringNode (set_tail m parentTail) val loc
  | VarNode v => VarNode (VariableNode_computeTail v parentTail)
  | LambdaNode m varList expr =>
      LambdaNode (set_tail m parentTail)
                 (map (fun v => VariableNode_computeTail v false) varList)
                 (computeTail expr true)
  | LetrecNode m varExprList expr =>
      LetrecNode (set_tail m parentTail)
                 (map (fun ve => (VariableNode_computeTail (fst ve) false,
                                  computeTail (snd ve) false)) varExprList)
                 (computeTail expr parentTail)
  | IfNode m cond branch1 branch2 =>
      IfNode (set_tail m parentTail) (computeTail cond false)
             (computeTail branch1 parentTail) (computeTail branch2 parentTail)
  | SequenceNode m exprList =>
      SequenceNode (set_tail m parentTail)
        ((fix go (es : list ExprNode) : list ExprNode :=
            match es with
            | [] => []
            | [x] => [computeTail x parentTail]
            | x :: xs => computeTail x false :: go xs
            end) exprList)
  | IntrinsicCallNode m intrinsic argList =>
      IntrinsicCallNode (set_tail m parentTail) intrinsic
                        (map (fun a => computeTail a false) argList)
  | ExprCallNode m expr argList =>
      ExprCallNode (set_tail m parentTail) (computeTail expr false)
                   (map (fun a => computeTail a false) argList)
  | AtNode m var expr =>
      AtNode (set_tail m parentTail) (VariableNode_computeTail var false)
             (computeTail expr false)
  end.

(** The loop of [checkDuplicate]: [varNames] is the set seen so far. *)
Fixpoint has_duplicate (ns : list string) (varNames : gset string) : bool :=
  match ns with
  | [] => false
  | n :: ns' =>
      if decide (n ∈ varNames) then true else has_duplicate ns' (varNames ∪ {[n]})
  end.

(** [expr->traverse(TraversalMode::topDown, checkDuplicate)] *)
Fixpoint checkDuplicate (e : ExprNode) : result unit :=
  match e with
  | IntegerNode _ _ _ | StringNode _ _ _ | VarNode _ => Ok tt
  | LambdaNode m varList expr =>
      if has_duplicate (names varList) ∅
      then panic "sema" "duplicate parameter names" (sl m)
      else checkDuplicate expr
  | LetrecNode m varExprList expr =>
      if has_duplicate (bound_names varExprList) ∅
      then panic "sema" "duplicate binding names" (sl m)
      else
        _ ← (fix go (ves : list (VariableNode * ExprNode)) : result unit :=
               match ves with
               | [] => Ok tt
               | ve :: ves' => _ ← checkDuplicate (snd ve); go ves'
               end) varExprList;
        checkDuplicate expr
  | IfNode _ cond branch1 branch2 =>
      _ ← checkDuplicate cond; _ ← checkDuplicate branch1; checkDuplicate branch2
  | SequenceNode _ exprList | IntrinsicCallNode _ _ exprList =>
      (fix go (es : list ExprNode) : result unit :=
         match es with
         | [] => Ok tt
         | x :: es' => _ ← checkDuplicate x; go es'
         end) exprList
  | ExprCallNode _ expr argList =>
      _ ← checkDuplicate expr;
      (fix go (es : list ExprNode) : result unit :=
         match es with
         | [] => Ok tt
         | x :: es' => _ ← checkDuplicate x; go es'
         end) argList
  | AtNode _ _ expr => checkDuplicate expr
  end.

(** [ExprNode::clone]: a deep copy that carries [sl], [freeVars] and
    [tail]; the literal nodes are built by their constructor, so the
    copy's [loc] is -1. *)
Definition VariableNode_clone (v : VariableNode) : VariableNode :=
  mkVariable (mkMeta (sl (var_meta v)) (freeVars (var_meta v)) (tail (var_meta v))) (name v).

Fixpoint clone (e : ExprNode) : ExprNode :=
  match e with
  | IntegerNode m val _ => IntegerNode m val (-1)
  | StringNode m val _ => StringNode m val (-1)
  | VarNode v => VarNode (VariableNode_clone v)
  | LambdaNode m varList expr =>
      LambdaNode m (map VariableNode_clone varList) (clone expr)
  | LetrecNode m varExprList expr =>
      LetrecNode m (map (fun ve => (VariableNode_clone (fst ve), clone (snd ve))) varExprList)
                 (clone expr)
  | IfNode m cond branch1 branch2 => IfNode m (clone cond) (clone branch1) (clone branch2)
  | SequenceNode m exprList => SequenceNode m (map clone exprList)
  | IntrinsicCallNode m intrinsic argList => IntrinsicCallNode m intrinsic (map clone argList)
  | ExprCallNode m expr argList => ExprCallNode m (clone expr) (map clone argList)
  | AtNode m var expr => AtNode m (VariableNode_clone var) (clone expr)
  end.

(** ** Runtime values *)

(** variable environment; newer variables have larger indices *)
Definition Env := list (string * Location).

(** [lookup]: the newest binding of [name]. *)
Definition lookup_env (nm : string) (env : Env) : option Location :=
  match find (fun p => String.eqb (fst p) nm) (rev env) with
  | Some p => Some (snd p)
  | None => None
  end.

(** What a [const LambdaNode *] gives access to. *)
Record Lambda := mkLambda {
  lam_meta : ExprMeta;
  lam_varList : list VariableNode;
  lam_expr : ExprNode
}.

Inductive Value :=
| Void
| Integer (value : Z)
| StringV (value : string)
| Closure (env : Env) (fn : Lambda).

Definition valueToString (v : Value) : string :=
  match v with
  | Void => "<void>"
  | Integer z => to_string z
  | StringV s => quote s
  | Closure _ fn =>
      ("<closure evaluated at " ++ SourceLocation_toString (sl (lam_meta fn)) ++ ">")%string
  end.

(** [heap.push_back(v); return heap.size() - 1] *)
Definition _new (heap : list Value) (v : Value) : list Value * Location :=
  (heap ++ [v], zlen heap).

(** [expr->traverse(TraversalMode::topDown, preAllocate)]: every literal
    gets a heap slot, in top-down order. *)
Fixpoint preAllocate (e : ExprNode) (heap : list Value) : result (ExprNode * list Value) :=
  let go_list :=
    fix go (es : list ExprNode) (heap : list Value) : result (list ExprNode * list Value) :=
      match es with
      | [] => Ok ([], heap)
      | x :: es' =>
          '(x', heap) ← preAllocate x heap;
          '(es'', heap) ← go es' heap;
          Ok (x' :: es'', heap)
      end in
  match e with
  | IntegerNode m val _ =>
      v ← stoi val;
      let '(heap, loc) := _new heap (Integer v) in
      Ok (IntegerNode m val loc, heap)
  | StringNode m val _ =>
      v ← unquote val;
      let '(heap, loc) := _new heap (StringV v) in
      Ok (StringNode m val loc, heap)
  | VarNode _ => Ok (e, heap)
  | LambdaNode m varList expr =>
      '(expr, heap) ← preAllocate expr heap;
      Ok (LambdaNode m varList expr, heap)
  | LetrecNode m varExprList expr =>
      '(varExprList, heap) ←
        (fix go (ves : list (VariableNode * ExprNode)) (heap : list Value)
           : result (list (VariableNode * ExprNode) * list Value) :=
           match ves with
           | [] => Ok ([], heap)
           | ve :: ves' =>
               '(x', heap) ← preAllocate (snd ve) heap;
               '(ves'', heap) ← go ves' heap;
               Ok ((fst ve, x') :: ves'', heap)
           end) varExprList heap;
      '(expr, heap) ← preAllocate expr heap;
      Ok (LetrecNode m varExprList expr, heap)
  | IfNode m cond branch1 branch2 =>
      '(cond, heap) ← preAllocate cond heap;
      '(branch1, heap) ← preAllocate branch1 heap;
      '(branch2, heap) ← preAllocate branch2 heap;
      Ok (IfNode m cond branch1 branch2, heap)
  | SequenceNode m exprList =>
      '(exprList, heap) ← go_list exprList heap;
      Ok (SequenceNode m exprList, heap)
  | IntrinsicCallNode m intrinsic argList =>
      '(argList, heap) ← go_list argList heap;
      Ok (IntrinsicCallNode m intrinsic argList, heap)
  | ExprCallNode m expr argList =>
      '(expr, heap) ← preAllocate expr heap;
      '(argList, heap) ← go_list argList heap;
      Ok (ExprCallNode m expr argList, heap)
  | AtNode m var expr =>
      '(expr, heap) ← preAllocate expr heap;
      Ok (AtNode m var expr, heap)
  end.

(** ** Stack layers and the state *)

(** A [std::shared_ptr<Env>]: the address of an environment in [Memory]. *)
Definition EnvRef := nat.
Definition Memory := list Env.

(** [std::make_shared<Env>(e)] *)
Definition make_shared (mem : Memory) (e : Env) : Memory * EnvRef :=
  (mem ++ [e], length mem).

Definition deref (mem : Memory) (r : EnvRef) : result Env :=
  match mem !! r with
  | Some e => Ok e
  | None => Err (Undefined "dangling environment pointer")
  end.

Record Layer := mkLayer {
  (** one env per frame (closure call layer) *)
  layer_env : EnvRef;
  (** [nullptr] for the main frame *)
  layer_expr : option ExprNode;
  (** whether this is a frame *)
  layer_frame : bool;
  (** program counter inside this expr *)
  layer_pc : Z;
  (** temporary local information for evaluation *)
  layer_local : list Location
}.

(** [Layer(e, x, f)] *)
Definition new_layer (e : EnvRef) (x : option ExprNode) (f : bool) : Layer :=
  mkLayer e x f 0 [].

Definition set_pc (l : Layer) (pc : Z) : Layer :=
  mkLayer (layer_env l) (layer_expr l) (layer_frame l) pc (layer_local l).
Definition push_local (l : Layer) (loc : Location) : Layer :=
  mkLayer (layer_env l) (layer_expr l) (layer_frame l) (layer_pc l) (layer_local l ++ [loc]).
Definition set_local (l : Layer) (locs : list Location) : Layer :=
  mkLayer (layer_env l) (layer_expr l) (layer_frame l) (layer_pc l) locs.

(** The members of [State].  [stack] is kept with its top ([back()]) at
    the head of the list; [heap] is in index order. *)
Record State := mkState {
  st_expr : ExprNode;
  stack : list Layer;
  heap : list Value;
  numLiterals : Z;
  resultLoc : Location
}.

Definition set_stack (s : State) (stk : list Layer) : State :=
  mkState (st_expr s) stk (heap s) (numLiterals s) (resultLoc s).
Definition set_heap (s : State) (h : list Value) : State :=
  mkState (st_expr s) (stack s) h (numLiterals s) (resultLoc s).
Definition set_resultLoc (s : State) (l : Location) : State :=
  mkState (st_expr s) (stack s) (heap s) (numLiterals s) l.

(** [State(std::string source)] after [parse(lex(source))] has returned
    [e].  The member [resultLoc] has no initialiser: [uninit] is the
    indeterminate value it starts with. *)
Definition State_new (e : ExprNode) (uninit : Location) (mem : Memory)
  : result (Memory * State) :=
  _ ← checkDuplicate e;
  let e := computeFreeVars e in
  let e := computeTail e false in
  '(e, heap) ← preAllocate e [];
  let numLiterals := zlen heap in
  (* the main frame (which cannot be removed by TCO) *)
  let '(mem, r) := make_shared mem [] in
  let main := new_layer r None true in
  (* the first expression (using the env of the main frame) *)
  let first := new_layer r (Some e) false in
  Ok (mem, mkState e [first; main] heap numLiterals uninit).

(** [State(const State &)] and the copying [operator=]: the members are
    copied one by one; copying a [Layer] copies its [shared_ptr]. *)
Definition State_copy (s : State) : State :=
  mkState (clone (st_expr s)) (stack s) (heap s) (numLiterals s) (resultLoc s).

Definition heap_at (heap : list Value) (l : Location) : result Value :=
  match vec_at heap l with
  | Some v => Ok v
  | None => Err (Undefined "heap index out of range")
  end.

Definition getResult (s : State) : result Value := heap_at (heap s) (resultLoc s).

(** ** Intrinsics *)

(** The alternatives that [_typecheck] is instantiated with. *)
Inductive Alt := AnyValue | IsVoid | IsInteger | IsString | IsClosure.

Definition holds_alternative (a : Alt) (v : Value) : bool :=
  match a, v with
  | AnyValue, _ => true
  | IsVoid, Void => true
  | IsInteger, Integer _ => true
  | IsString, StringV _ => true
  | IsClosure, Closure _ _ => true
  | _, _ => false
  end.

(** The fold [(true && ... && check(Alt))], left to right with the short
    circuit of [&&]; [args] and [alts] have the same length. *)
Fixpoint typecheck_fold (heap : list Value) (alts : list Alt) (args : list Location)
  : result bool :=
  match alts, args with
  | a :: alts', l :: args' =>
      ok ← match a with
           | AnyValue => Ok true
           | _ => v ← heap_at heap l; Ok (holds_alternative a v)
           end;
      if (ok : bool) then typecheck_fold heap alts' args' else Ok false
  | _, _ => Ok true
  end.

Definition _typecheck (heap : list Value) (sl : SourceLocation)
    (alts : list Alt) (args : list Location) : result unit :=
  ok ← (if (length args =? length alts)%nat then typecheck_fold heap alts args
        else Ok false);
  if (ok : bool) then Ok tt
  else panic "runtime" "type error on intrinsic call" sl.

(** [std::get<Integer>(heap[args[i]]).value] and its siblings. *)
Definition arg_at (args : list Location) (i : Z) : result Location :=
  match vec_at args i with
  | Some l => Ok l
  | None => Err (Undefined "args index out of range")
  end.

Definition get_Integer (heap : list Value) (args : list Location) (i : Z) : result Z :=
  l ← arg_at args i; v ← heap_at heap l;
  match v with
  | Integer z => Ok z
  | _ => Err (Exception "bad_variant_access")
  end.

Definition get_String (heap : list Value) (args : list Location) (i : Z) : result string :=
  l ← arg_at args i; v ← heap_at heap l;
  match v with
  | StringV z => Ok z
  | _ => Err (Exception "bad_variant_access")
  end.

(** [b ? 1 : 0] *)
Definition bool_to_Integer (b : bool) : Value := Integer (if b then 1 else 0).

(** An [int] as a condition. *)
Definition truthy (z : Z) : bool := negb (z =? 0).

(** What the evaluator asks of its host: the two input operations on
    [std::cin], the two output operations on [std::cout], and the nested
    run of [.eval] ([State state(src); state.execute(); state.getResult()]),
    a State of its own that the host runs. *)
Record Host := mkHost {
  World : Type;
  cin_get : World -> option ascii * World;
  cin_int : World -> option Z * World;
  cout_put : string -> World -> World;
  cout_flush : World -> World;
  eval_source : string -> World -> result (Value * World)
}.

Section Machine.

Context (H : Host).

Definition int_binop (heap : list Value) (sl : SourceLocation) (args : list Location)
    (w : World H) (f : Z -> Z -> result Value) : result (Value * World H) :=
  _ ← _typecheck heap sl [IsInteger; IsInteger] args;
  a ← get_Integer heap args 0;
  b ← get_Integer heap args 1;
  v ← f a b;
  Ok (v, w).

Definition str_binop (heap : list Value) (sl : SourceLocation) (args : list Location)
    (w : World H) (f : string -> string -> Value) : result (Value * World H) :=
  _ ← _typecheck heap sl [IsString; IsString] args;
  a ← get_String heap args 0;
  b ← get_String heap args 1;
  Ok (f a b, w).

(** intrinsic dispatch *)
Definition _callIntrinsic (heap : list Value) (sl : SourceLocation) (name : string)
    (args : list Location) (w : World H) : result (Value * World H) :=
  if String.eqb name ".void" then
    _ ← _typecheck heap sl [] args; Ok (Void, w)
  else if String.eqb name ".+" then
    int_binop heap sl args w (fun a b => v ← int_arith (a + b); Ok (Integer v))
  else if String.eqb name ".-" then
    int_binop heap sl args w (fun a b => v ← int_arith (a - b); Ok (Integer v))
  else if String.eqb name ".*" then
    int_binop heap sl args w (fun a b => v ← int_arith (a * b); Ok (Integer v))
  else if String.eqb name "./" then
    int_binop heap sl args w (fun a d =>
      if d =? 0 then panic "runtime" "division by zero" sl
      else v ← int_arith (a ÷ d); Ok (Integer v))
  else if String.eqb name ".%" then
    (* [a % d] is defined when [a / d] is *)
    int_binop heap sl args w (fun a d =>
      if d =? 0 then panic "runtime" "division by zero" sl
      else _ ← int_arith (a ÷ d); Ok (Integer (Z.rem a d)))
  else if String.eqb name ".<" then
    int_binop heap sl args w (fun a b => Ok (bool_to_Integer (a <? b)))
  else if String.eqb name ".<=" then
    int_binop heap sl args w (fun a b => Ok (bool_to_Integer (a <=? b)))
  else if String.eqb name ".>" then
    int_binop heap sl args w (fun a b => Ok (bool_to_Integer (a >? b)))
  else if String.eqb name ".>=" then
    int_binop heap sl args w (fun a b => Ok (bool_to_Integer (a >=? b)))
  else if String.eqb name ".=" then
    int_binop heap sl args w (fun a b => Ok (bool_to_Integer (a =? b)))
  else if String.eqb name "./=" then
    int_binop heap sl args w (fun a b => Ok (bool_to_Integer (negb (a =? b))))
  else if String.eqb name ".and" then
    int_binop heap sl args w (fun a b => Ok (bool_to_Integer (truthy a && truthy b)))
  else if String.eqb name ".or" then
    int_binop heap sl args w (fun a b => Ok (bool_to_Integer (truthy a || truthy b)))
  else if String.eqb name ".not" then
    _ ← _typecheck heap sl [IsInteger] args;
    a ← get_Integer heap args 0;
    Ok (Integer (if truthy a then 0 else 1), w)
  else if String.eqb name ".s+" then
    str_binop heap sl args w (fun a b => StringV (a ++ b))
  else if String.eqb name ".s<" then
    str_binop heap sl args w (fun a b => bool_to_Integer (String.ltb a b))
  else if String.eqb name ".s<=" then
    str_binop heap sl args w (fun a b => bool_to_Integer (String.leb a b))
  else if String.eqb name ".s>" then
    str_binop heap sl args w (fun a b => bool_to_Integer (String.ltb b a))
  else if String.eqb name ".s>=" then
    str_binop heap sl args w (fun a b => bool_to_Integer (String.leb b a))
  else if String.eqb name ".s=" then
    str_binop heap sl args w (fun a b => bool_to_Integer (String.eqb a b))
  else if String.eqb name ".s/=" then
    str_binop heap sl args w (fun a b => bool_to_Integer (negb (String.eqb a b)))
  else if String.eqb name ".s||" then
    _ ← _typecheck heap sl [IsString] args;
    a ← get_String heap args 0;
    Ok (Integer (Z.of_nat (String.length a)), w)
  else if String.eqb name ".s[]" then
    _ ← _typecheck heap sl [IsString; IsInteger; IsInteger] args;
    s ← get_String heap args 0;
    let n := Z.of_nat (String.length s) in
    l ← get_Integer heap args 1;
    r ← get_Integer heap args 2;
    if negb (((0 <=? l) && (l <? n)) && ((0 <=? r) && (r <? n)) && (l <=? r))
    then panic "runtime" "invalid substring range" sl
    else Ok (StringV (String.substring (Z.to_nat l) (Z.to_nat (r - l)) s), w)
  else if String.eqb name ".quote" then
    _ ← _typecheck heap sl [IsString] args;
    s ← get_String heap args 0;
    Ok (StringV (quote s), w)
  else if String.eqb name ".unquote" then
    _ ← _typecheck heap sl [IsString] args;
    s ← get_String heap args 0;
    u ← unquote s;
    Ok (StringV u, w)
  else if String.eqb name ".s->i" then
    _ ← _typecheck heap sl [IsString] args;
    s ← get_String heap args 0;
    v ← stoi s;
    Ok (Integer v, w)
  else if String.eqb name ".i->s" then
    _ ← _typecheck heap sl [IsInteger] args;
    a ← get_Integer heap args 0;
    Ok (StringV (to_string a), w)
  else if String.eqb name ".type" then
    _ ← _typecheck heap sl [AnyValue] args;
    l ← arg_at args 0;
    v ← heap_at heap l;
    let label :=
      if holds_alternative IsVoid v then 0
      else if holds_alternative IsInteger v then 1
      else 2 in
    Ok (Integer label, w)
  else if String.eqb name ".eval" then
    _ ← _typecheck heap sl [IsString] args;
    s ← get_String heap args 0;
    eval_source H s w
  else if String.eqb name ".getchar" then
    _ ← _typecheck heap sl [] args;
    match cin_get H w with
    | (None, w) => Ok (Void, w)
    | (Some c, w) => Ok (StringV (String c EmptyString), w)
    end
  else if String.eqb name ".getint" then
    _ ← _typecheck heap sl [] args;
    match cin_int H w with
    | (Some v, w) => Ok (Integer v, w)
    | (None, w) => Ok (Void, w)
    end
  else if String.eqb name ".putstr" then
    _ ← _typecheck heap sl [IsString] args;
    s ← get_String heap args 0;
    Ok (Void, cout_put H s w)
  else if String.eqb name ".flush" then
    _ ← _typecheck heap sl [] args;
    Ok (Void, cout_flush H w)
  else panic "runtime" "unrecognized intrinsic call" sl.

(** ** The step dispatcher *)

Record Config := mkConfig {
  world : World H;
  memory : Memory;
  state : State
}.

(** The minimal captured environment of a closure: the loop of the
    [LambdaNode] case over [layer.env] from [rbegin()] to [rend()]. *)
Fixpoint capture_loop (renv : Env) (usedVars : gset string) (savedEnv : Env) : Env :=
  match renv with
  | [] => savedEnv
  | p :: renv' =>
      if decide (usedVars = ∅) then savedEnv
      else if decide (fst p ∈ usedVars)
           then capture_loop renv' (usedVars ∖ {[fst p]}) (savedEnv ++ [p])
           else capture_loop renv' usedVars savedEnv
  end.

Definition capture (env : Env) (fv : gset string) : Env :=
  rev (capture_loop (rev env) fv []).

(** [stack.emplace_back(layer.env, x)] above the current layer. *)
Definition push_child (c : Config) (layer : Layer) (below : list Layer) (x : ExprNode)
  : Config :=
  mkConfig (world c) (memory c)
           (set_stack (state c) (new_layer (layer_env layer) (Some x) false :: layer :: below)).

(** [resultLoc = loc; stack.pop_back()] *)
Definition publish (c : Config) (below : list Layer) (s : State) (loc : Location) : Config :=
  mkConfig (world c) (memory c) (set_stack (set_resultLoc s loc) below).

Definition step_Variable (c : Config) (layer : Layer) (below : list Layer)
    (v : VariableNode) : result Config :=
  env ← deref (memory c) (layer_env layer);
  match lookup_env (name v) env with
  | None => panic "runtime" ("undefined variable " ++ name v) (sl (var_meta v))
  | Some loc => Ok (publish c below (state c) loc)
  end.

Definition step_Lambda (c : Config) (layer : Layer) (below : list Layer)
    (m : ExprMeta) (varList : list VariableNode) (expr : ExprNode) : result Config :=
  env ← deref (memory c) (layer_env layer);
  let savedEnv := capture env (freeVars m) in
  let '(heap, loc) := _new (heap (state c)) (Closure savedEnv (mkLambda m varList expr)) in
  Ok (publish c below (set_heap (state c) heap) loc).

(** [for (...) layer.env->push_back({var->name, _new<Void>()})] *)
Definition letrec_alloc (varExprList : list (VariableNode * ExprNode))
    (env : Env) (heap : list Value) : Env * list Value :=
  fold_left (fun '(env, heap) ve =>
               let '(heap, loc) := _new heap Void in
               (env ++ [(name (fst ve), loc)], heap))
            varExprList (env, heap).

(** [n] times [pop_back()] *)
Definition pop_n {A} (n : nat) (v : list A) : result (list A) :=
  if (n <=? length v)%nat then Ok (take (length v - n) v)
  else Err (Undefined "pop_back() on an empty vector").

Definition step_Letrec (c : Config) (layer : Layer) (below : list Layer)
    (m : ExprMeta) (varExprList : list (VariableNode * ExprNode)) (expr : ExprNode)
  : result Config :=
  let s := state c in
  let n := zlen varExprList in
  let pc := layer_pc layer in
  (* unified argument recording *)
  heap1 ←
    (if (1 <? pc) && (pc <=? n + 1) then
       match vec_at varExprList (pc - 2) with
       | None => Err (Undefined "varExprList index out of range")
       | Some ve =>
           env ← deref (memory c) (layer_env layer);
           match lookup_env (name (fst ve)) env with
           | None => panic "runtime" ("undefined variable " ++ name (fst ve)) (sl m)
           | Some loc =>
               (* copy (inherited resultLoc) *)
               v ← heap_at (heap s) (resultLoc s);
               match vec_set (heap s) loc v with
               | Some h => Ok h
               | None => Err (Undefined "heap index out of range")
               end
           end
       end
     else Ok (heap s));
  let s := set_heap s heap1 in
  if pc =? 0 then
    (* create all new locations *)
    env ← deref (memory c) (layer_env layer);
    let '(env, heap2) := letrec_alloc varExprList env heap1 in
    Ok (mkConfig (world c) (<[layer_env layer := env]> (memory c))
                 (set_stack (set_heap s heap2) (set_pc layer (pc + 1) :: below)))
  else if pc <=? n then
    (* evaluate bindings *)
    match vec_at varExprList (pc + 1 - 2) with
    | None => Err (Undefined "varExprList index out of range")
    | Some ve =>
        Ok (push_child (mkConfig (world c) (memory c) s) (set_pc layer (pc + 1)) below (snd ve))
    end
  else if pc =? n + 1 then
    (* evaluate body *)
    Ok (push_child (mkConfig (world c) (memory c) s) (set_pc layer (pc + 1)) below expr)
  else
    (* finish letrec *)
    env ← deref (memory c) (layer_env layer);
    env ← pop_n (length varExprList) env;
    Ok (mkConfig (world c) (<[layer_env layer := env]> (memory c)) (set_stack s below)).

Definition step_If (c : Config) (layer : Layer) (below : list Layer)
    (m : ExprMeta) (cond branch1 branch2 : ExprNode) : result Config :=
  let s := state c in
  let pc := layer_pc layer in
  if pc =? 0 then Ok (push_child c (set_pc layer (pc + 1)) below cond)
  else if pc =? 1 then
    v ← heap_at (heap s) (resultLoc s);
    match v with
    | Integer z =>
        if truthy z then Ok (push_child c (set_pc layer (pc + 1)) below branch1)
        else Ok (push_child c (set_pc layer (pc + 1)) below branch2)
    | _ => panic "runtime" "wrong cond type" (sl m)
    end
  else Ok (mkConfig (world c) (memory c) (set_stack s below)).

Definition step_Sequence (c : Config) (layer : Layer) (below : list Layer)
    (m : ExprMeta) (exprList : list ExprNode) : result Config :=
  let pc := layer_pc layer in
  if pc <? zlen exprList then
    match vec_at exprList (pc + 1 - 1) with
    | None => Err (Undefined "exprList index out of range")
    | Some x => Ok (push_child c (set_pc layer (pc + 1)) below x)
    end
  else Ok (mkConfig (world c) (memory c) (set_stack (state c) below)).

Definition step_IntrinsicCall (c : Config) (layer : Layer) (below : list Layer)
    (m : ExprMeta) (intrinsic : string) (argList : list ExprNode) : result Config :=
  let s := state c in
  let pc := layer_pc layer in
  (* unified argument recording *)
  let layer :=
    if (0 <? pc) && (pc <=? zlen argList) then push_local layer (resultLoc s) else layer in
  if pc <? zlen argList then
    match vec_at argList (pc + 1 - 1) with
    | None => Err (Undefined "argList index out of range")
    | Some x => Ok (push_child c (set_pc layer (pc + 1)) below x)
    end
  else
    '(value, w) ← _callIntrinsic (heap s) (sl m) intrinsic (layer_local layer) (world c);
    let '(heap, loc) := _new (heap s) value in
    Ok (mkConfig w (memory c) (set_stack (set_resultLoc (set_heap s heap) loc) below)).

(** [while (!(stack.back().frame)) stack.pop_back()] *)
Fixpoint pop_to_frame (stk : list Layer) : result (list Layer) :=
  match stk with
  | [] => Err (Undefined "back() on an empty stack")
  | l :: below => if layer_frame l then Ok stk else pop_to_frame below
  end.

(** [stack.pop_back()] *)
Definition pop_back {A} (v : list A) : result (list A) :=
  match v with
  | [] => Err (Undefined "pop_back() on an empty vector")
  | _ :: below => Ok below
  end.

(** [newEnv.push_back({varList[i]->name, layer.local[i + 1]})] for [i] from [i0] *)
Fixpoint bind_params (varList : list VariableNode) (local : list Location) (i : Z)
    (newEnv : Env) : result Env :=
  match varList with
  | [] => Ok newEnv
  | v :: varList' =>
      match vec_at local (i + 1) with
      | None => Err (Undefined "local index out of range")
      | Some l => bind_params varList' local (i + 1) (newEnv ++ [(name v, l)])
      end
  end.

Definition step_ExprCall (c : Config) (layer : Layer) (below : list Layer)
    (m : ExprMeta) (expr : ExprNode) (argList : list ExprNode) : result Config :=
  let s := state c in
  let pc := layer_pc layer in
  let n := zlen argList in
  (* unified argument recording *)
  let layer :=
    if (2 <? pc) && (pc <=? n + 2) then push_local layer (resultLoc s) else layer in
  if pc =? 0 then
    (* evaluate the callee *)
    Ok (push_child c (set_pc layer (pc + 1)) below expr)
  else if pc =? 1 then
    (* inherited callee location *)
    Ok (mkConfig (world c) (memory c)
                 (set_stack s (push_local (set_pc layer (pc + 1)) (resultLoc s) :: below)))
  else if pc <=? n + 1 then
    (* evaluate arguments *)
    match vec_at argList (pc + 1 - 3) with
    | None => Err (Undefined "argList index out of range")
    | Some x => Ok (push_child c (set_pc layer (pc + 1)) below x)
    end
  else if pc =? n + 2 then
    (* call *)
    let layer := set_pc layer (pc + 1) in
    exprLoc ← arg_at (layer_local layer) 0;
    v ← heap_at (heap s) exprLoc;
    match v with
    | Closure cenv fn =>
        if negb (zlen (layer_local layer) - 1 =? zlen (lam_varList fn)) then
          panic "runtime" "wrong number of arguments" (sl m)
        else
          (* lexical scope: copy the env from the closure definition place *)
          newEnv ← bind_params (lam_varList fn) (layer_local layer) 0 cenv;
          (* tail call optimization *)
          stk ← (if tail m then
                   stk ← pop_to_frame (layer :: below);
                   (* pop the frame *)
                   pop_back stk
                 else Ok (layer :: below));
          (* evaluation of the closure body; new frame has new env *)
          let '(mem, r) := make_shared (memory c) newEnv in
          Ok (mkConfig (world c) mem
                       (set_stack s (new_layer r (Some (lam_expr fn)) true :: stk)))
    | _ => panic "runtime" "calling a non-callable" (sl m)
    end
  else
    (* finish *)
    Ok (mkConfig (world c) (memory c) (set_stack s (below))).

Definition step_At (c : Config) (layer : Layer) (below : list Layer)
    (m : ExprMeta) (var : VariableNode) (expr : ExprNode) : result Config :=
  let s := state c in
  let pc := layer_pc layer in
  if pc =? 0 then Ok (push_child c (set_pc layer (pc + 1)) below expr)
  else
    v ← heap_at (heap s) (resultLoc s);
    match v with
    | Closure cenv _ =>
        match lookup_env (name var) cenv with
        | None => panic "runtime" ("undefined variable " ++ name var) (sl m)
        | Some loc => Ok (publish c below s loc)
        end
    | _ => panic "runtime" "@ wrong type" (sl m)
    end.

(** [State::step]: [false] exactly when the main frame is on top. *)
Definition step (c : Config) : result (bool * Config) :=
  match stack (state c) with
  | [] => Err (Undefined "back() on an empty stack")
  | layer :: below =>
      match layer_expr layer with
      | None => Ok (false, c)
      | Some e =>
          c' ← match e with
               | IntegerNode _ _ loc => Ok (publish c below (state c) loc)
               | StringNode _ _ loc => Ok (publish c below (state c) loc)
               | VarNode v => step_Variable c layer below v
               | LambdaNode m varList expr => step_Lambda c layer below m varList expr
               | LetrecNode m varExprList expr => step_Letrec c layer below m varExprList expr
               | IfNode m cond b1 b2 => step_If c layer below m cond b1 b2
               | SequenceNode m exprList => step_Sequence c layer below m exprList
               | IntrinsicCallNode m intrinsic argList =>
                   step_IntrinsicCall c layer below m intrinsic argList
               | ExprCallNode m expr argList => step_ExprCall c layer below m expr argList
               | AtNode m var expr => step_At c layer below m var expr
               end;
          Ok (true, c')
      end
  end.

(** ** Memory management *)

(** [traverseLocation] of [_mark]: a depth-first walk that follows the
    environments of closures; [depth] bounds the depth of the recursion. *)
Fixpoint traverseLocation (depth : nat) (heap : list Value) (loc : Location)
    (visited : gset Z) : outcome (gset Z) :=
  if decide (loc ∈ visited) then Done (Ok visited)
  else
    match depth with
    | O => OutOfFuel
    | S depth' =>
        let visited := visited ∪ {[loc]} in
        match vec_at heap loc with
        | None => Done (Err (Undefined "heap index out of range"))
        | Some (Closure env _) =>
            (fix go (locs : list Location) (visited : gset Z) : outcome (gset Z) :=
               match locs with
               | [] => Done (Ok visited)
               | l :: locs' =>
                   match traverseLocation depth' heap l visited with
                   | Done (Ok visited) => go locs' visited
                   | r => r
                   end
               end) (map snd env) visited
        | Some _ => Done (Ok visited)
        end
    end.

Fixpoint traverse_all (depth : nat) (heap : list Value) (locs : list Location)
    (visited : gset Z) : outcome (gset Z) :=
  match locs with
  | [] => Done (Ok visited)
  | l :: locs' =>
      match traverseLocation depth heap l visited with
      | Done (Ok visited) => traverse_all depth heap locs' visited
      | r => r
      end
  end.

(** The locations that the walk over the stack starts from, in the order
    of the walk: for each layer from the bottom, the environment of a
    frame and then the locals. *)
Fixpoint stack_roots (mem : Memory) (layers : list Layer) : result (list Location) :=
  match layers with
  | [] => Ok []
  | layer :: layers' =>
      env_locs ← (if layer_frame layer
                  then env ← deref mem (layer_env layer); Ok (map snd env)
                  else Ok []);
      rest ← stack_roots mem layers';
      Ok (env_locs ++ layer_local layer ++ rest)
  end.

Definition roots (c : Config) : result (list Location) :=
  locs ← stack_roots (memory c) (rev (stack (state c)));
  Ok (locs ++ [resultLoc (state c)]).

Definition _mark (c : Config) : outcome (gset Z) :=
  match roots c with
  | Err e => Done (Err e)
  | Ok locs => traverse_all (S (length (heap (state c)))) (heap (state c)) locs ∅
  end.

(** The loop of [_sweepAndCompact]; [k] iterations remain ([n - j]).  A
    moved-from slot [heap[j]] is never read again: it is overwritten or
    cut off by the [resize], so the move is written as a copy. *)
Fixpoint sweep_loop (k : nat) (visited : gset Z) (heap : list Value) (i j : Location)
    (relocation : gmap Z Z) : list Value * Location * gmap Z Z :=
  match k with
  | O => (heap, i, relocation)
  | S k' =>
      if decide (j ∈ visited) then
        let '(heap, relocation) :=
          if i <? j then
            match vec_at heap j with
            | Some v => (<[Z.to_nat i := v]> heap, <[j := i]> relocation)
            | None => (heap, relocation)
            end
          else (heap, relocation) in
        sweep_loop k' visited heap (i + 1) (j + 1) relocation
      else sweep_loop k' visited heap i (j + 1) relocation
  end.

Definition _sweepAndCompact (s : State) (visited : gset Z) : Z * gmap Z Z * State :=
  let n := zlen (heap s) in
  let '(heap, i, relocation) :=
    sweep_loop (Z.to_nat (n - numLiterals s)) visited (heap s)
               (numLiterals s) (numLiterals s) ∅ in
  (n - i, relocation, set_heap s (take (Z.to_nat i) heap)).

Definition reloc (relocation : gmap Z Z) (loc : Location) : Location :=
  match relocation !! loc with
  | Some l => l
  | None => loc
  end.

Definition reloc_env (relocation : gmap Z Z) (env : Env) : Env :=
  map (fun p => (fst p, reloc relocation (snd p))) env.

Definition reloc_value (relocation : gmap Z Z) (v : Value) : Value :=
  match v with
  | Closure env fn => Closure (reloc_env relocation env) fn
  | _ => v
  end.

Definition reloc_layer (relocation : gmap Z Z) (l : Layer) : Layer :=
  set_local l (map (reloc relocation) (layer_local l)).

(** The walk of [_relocate] over the stack, from the bottom: the
    environment of every frame is rewritten in place. *)
Fixpoint reloc_frames (relocation : gmap Z Z) (layers : list Layer) (mem : Memory)
  : result Memory :=
  match layers with
  | [] => Ok mem
  | layer :: layers' =>
      mem ← (if layer_frame layer
             then env ← deref mem (layer_env layer);
                  Ok (<[layer_env layer := reloc_env relocation env]> mem)
             else Ok mem);
      reloc_frames relocation layers' mem
  end.

Definition _relocate (c : Config) (relocation : gmap Z Z) : result Config :=
  let s := state c in
  mem ← reloc_frames relocation (rev (stack s)) (memory c);
  Ok (mkConfig (world c) mem
        (mkState (st_expr s)
                 (map (reloc_layer relocation) (stack s))
                 (map (reloc_value relocation) (heap s))
                 (numLiterals s)
                 (reloc relocation (resultLoc s)))).

Definition _gc (c : Config) : outcome (Z * Config) :=
  match _mark c with
  | OutOfFuel => OutOfFuel
  | Done (Err e) => Done (Err e)
  | Done (Ok visited) =>
      let '(removed, relocation, s) := _sweepAndCompact (state c) visited in
      Done (c' ← _relocate (mkConfig (world c) (memory c) s) relocation;
            Ok (removed, c'))
  end.

(** [State::execute]: [fuel] bounds the number of calls of [step]. *)
Fixpoint execute_loop (fuel : nat) (gc_threshold : Z) (c : Config) : outcome Config :=
  match fuel with
  | O => OutOfFuel
  | S fuel' =>
      match step c with
      | Err e => Done (Err e)
      | Ok (false, c) => Done (Ok c)
      | Ok (true, c) =>
          let total := zlen (heap (state c)) in
          if gc_threshold <? total then
            match _gc c with
            | OutOfFuel => OutOfFuel
            | Done (Err e) => Done (Err e)
            | Done (Ok (removed, c)) =>
                let live := total - removed in
                execute_loop fuel' (live * 2) c
            end
          else execute_loop fuel' gc_threshold c
      end
  end.

Definition execute (fuel : nat) (c : Config) : outcome Config :=
  execute_loop fuel (numLiterals (state c) + 64) c.

(** The run that never collects: [while (step()) {}]. *)
Fixpoint run (fuel : nat) (c : Config) : outcome Config :=
  match fuel with
  | O => OutOfFuel
  | S fuel' =>
      match step c with
      | Err e => Done (Err e)
      | Ok (false, c) => Done (Ok c)
      | Ok (true, c) => run fuel' c
      end
  end.

(** What [main] prints after [<end-of-stdout>]. *)
Definition printed (o : outcome Config) : outcome string :=
  match o with
  | OutOfFuel => OutOfFuel
  | Done (Err e) => Done (Err e)
  | Done (Ok c) => Done (v ← getResult (state c); Ok (valueToString v))
  end.

End Machine.

Arguments world {H} c.
Arguments memory {H} c.
Arguments state {H} c.
Arguments mkConfig {H} world memory state.

(** A host without input: [.getchar] and [.getint] meet the end of the
    input, output is dropped, and [.eval] is not available. *)
Definition no_host : Host :=
  mkHost unit (fun w => (None, w)) (fun w => (None, w)) (fun _ w => w) (fun w => w)
         (fun _ _ => Err (Exception "eval: no nested interpreter")).

(** ** Programs as the parser builds them *)

Module Syntax.
Definition at_ (l c : Z) : ExprMeta := fresh_meta (mkSL l c).
Definition V (x : string) : VariableNode := mkVariable (at_ 1 1) x.
Definition EInt (v : string) : ExprNode := IntegerNode (at_ 1 1) v (-1).
Definition EStr (v : string) : ExprNode := StringNode (at_ 1 1) v (-1).
Definition EVar (x : string) : ExprNode := VarNode (V x).
Definition ELambda (xs : list string) (b : ExprNode) : ExprNode :=
  LambdaNode (at_ 1 1) (map V xs) b.
Definition ELetrec (bs : list (string * ExprNode)) (b : ExprNode) : ExprNode :=
  LetrecNode (at_ 1 1) (map (fun p => (V (fst p), snd p)) bs) b.
Definition EIf (c a b : ExprNode) : ExprNode := IfNode (at_ 1 1) c a b.
Definition ESeq (es : list ExprNode) : ExprNode := SequenceNode (at_ 1 1) es.
Definition EIntrinsic (f : string) (args : list ExprNode) : ExprNode :=
  IntrinsicCallNode (at_ 1 1) f args.
Definition ECall (f : ExprNode) (args : list ExprNode) : ExprNode :=
  ExprCallNode (at_ 1 1) f args.
Definition EAt (x : string) (e : ExprNode) : ExprNode := AtNode (at_ 1 1) (V x) e.
End Syntax.

(** The machine right after [State state(source)], in a process whose
    memory holds no environment yet. *)
Definition boot (H : Host) (w : World H) (e : ExprNode) (uninit : Location)
  : result (Config H) :=
  '(mem, s) ← State_new e uninit [];
  Ok (mkConfig w mem s).

(** The bindings that the capture loop copies, in the order of the scan
    (newest first), without the accumulator. *)
Fixpoint pick (renv : Env) (usedVars : gset string) : Env :=
  match renv with
  | [] => []
  | p :: renv' =>
      if decide (usedVars = ∅) then []
      else if decide (fst p ∈ usedVars)
           then p :: pick renv' (usedVars ∖ {[fst p]})
           else pick renv' usedVars
  end.

(** The number of bindings of [x] in an environment. *)
Definition count_name (x : string) (env : Env) : nat :=
  length (List.filter (fun p => String.eqb (fst p) x) env).

(** [k] calls of [step], as a host that drives the machine would make
    them; a call that returns [false] leaves the machine where it is. *)
Fixpoint steps {H : Host} (k : nat) (c : Config H) : result (Config H) :=
  match k with
  | O => Ok c
  | S k' => '(_, c) ← step H c; steps k' c
  end.

(** A machine for a copy of a State: the copy lives in the same process,
    so in the same [Memory]. *)
Definition copy_of {H : Host} (c : Config H) : Config H :=
  mkConfig (world c) (memory c) (State_copy (state c)).

(** The original State, in the memory as another machine left it. *)
Definition resume_in {H : Host} (c other : Config H) : Config H :=
  mkConfig (world c) (memory other) (state c).

Module Examples.
Import Syntax.

(** [letrec (y 1) { letrec (y 2) 0 y }] *)
Definition shadow : ExprNode :=
  ELetrec [("y", EInt "1")]%string
          (ESeq [ELetrec [("y", EInt "2")]%string (EInt "0"); EVar "y"]).

(** [letrec (v0 0 v1 0 ... ) 0] with [n] bindings *)
Definition wide_letrec (n : nat) : ExprNode :=
  ELetrec (map (fun i => (("v" ++ to_string (Z.of_nat i))%string, EInt "0")) (seq 0 n))
          (EInt "0").
End Examples.

(** The number of frame layers on a stack. *)
Definition frames (stk : list Layer) : nat := length (List.filter layer_frame stk).

Module Loop.
Import Syntax.

(** [letrec (loop lambda (n) (if (.= n 0) 0 (loop (.- n 1)))) (loop N)],
    where [lit] is the literal N. *)
Definition program (lit : string) : ExprNode :=
  ELetrec [("loop", ELambda ["n"]
                      (EIf (EIntrinsic ".=" [EVar "n"; EInt "0"])
                           (EInt "0")
                           (ECall (EVar "loop") [EIntrinsic ".-" [EVar "n"; EInt "1"]])))]%string
          (ECall (EVar "loop") [EInt lit]).

(** The same program after the static analysis and the pre-allocation. *)
Definition fv_n : gset string := {["n"%string]}.
Definition fv_loop : gset string := {["loop"%string]}.
Definition fv_both : gset string := {["loop"%string; "n"%string]}.
Definition mt (fv : gset string) (t : bool) : ExprMeta := mkMeta (mkSL 1 1) fv t.
Definition var_n : ExprNode := VarNode (mkVariable (mt fv_n false) "n").
Definition var_loop : ExprNode := VarNode (mkVariable (mt fv_loop false) "loop").
Definition cond : ExprNode :=
  IntrinsicCallNode (mt fv_n false) ".=" [var_n; IntegerNode (mt ∅ false) "0" 0].
Definition done : ExprNode := IntegerNode (mt ∅ true) "0" 1.
Definition dec : ExprNode :=
  IntrinsicCallNode (mt fv_n false) ".-" [var_n; IntegerNode (mt ∅ false) "1" 2].
Definition again : ExprNode := ExprCallNode (mt fv_both true) var_loop [dec].
Definition body : ExprNode := IfNode (mt fv_both true) cond done again.
Definition params : list VariableNode := [mkVariable (mt ∅ false) "n"].
Definition lam : ExprNode := LambdaNode (mt fv_loop false) params body.
Definition first (lit : string) : ExprNode :=
  ExprCallNode (mt fv_loop false) var_loop [IntegerNode (mt ∅ false) lit 3].
Definition root (lit : string) : ExprNode :=
  LetrecNode (mt ∅ false) [(mkVariable (mt ∅ false) "loop", lam)] (first lit).

(** The value of [loop], stored at [lf]. *)
Definition closure (lf : Location) : Value :=
  Closure [("loop"%string, lf)] (mkLambda (mt fv_loop false) params body).

(** The layers under the frames of [loop]: the call [(loop N)], the
    Letrec and the main frame. *)
Definition rest (lit : string) : list Layer :=
  [mkLayer 0%nat (Some (first lit)) false 4 [4; 3];
   mkLayer 0%nat (Some (root lit)) false 3 [];
   new_layer 0%nat None true].

(** The machine when a call of [loop] starts on its body: the frame's
    environment [r] binds [loop] and [n]. *)
Definition head {H : Host} (w : World H) (lit : string) (M : Memory) (h : list Value)
    (r : EnvRef) (rl : Location) : Config H :=
  mkConfig w M (mkState (root lit) (new_layer r (Some body) true :: rest lit) h 4 rl).
End Loop.

(** [reach B k c c']: [k] calls of [step] lead from [c] to [c'], each
    returns [true], and the stack holds at most [B] layers all along. *)
Inductive reach {H : Host} (B : nat) : nat -> Config H -> Config H -> Prop :=
| reach_0 c :
    (length (stack (state c)) <= B)%nat -> reach B 0 c c
| reach_S k c c1 c2 :
    (length (stack (state c)) <= B)%nat ->
    step H c = Ok (true, c1) -> reach B k c1 c2 -> reach B (S k) c c2.

(** The escaped body that [quote] writes between the two quotes. *)
Fixpoint escaped (s : string) : string :=
  match s with
  | EmptyString => EmptyString
  | String c s' =>
      if Ascii.eqb c ch_backslash then String ch_backslash (String ch_backslash (escaped s'))
      else if Ascii.eqb c ch_dquote then String ch_backslash (String ch_dquote (escaped s'))
      else String c (escaped s')
  end.

(** ** Runs of the machine *)

(** What a host can make a State do between two observations: one call
    of [step], or one collection (as [execute] does between steps). *)
Inductive event := Step | Collect.

(** The relocation map that [_gc] computes and applies in [c]. *)
Definition gc_relocation {H : Host} (c : Config H) : gmap Z Z :=
  match _mark H c with
  | Done (Ok visited) => snd (fst (_sweepAndCompact (state c) visited))
  | _ => ∅
  end.

Definition after {H : Host} (e : event) (c : Config H) : option (Config H) :=
  match e with
  | Step => match step H c with
            | Ok (_, c') => Some c'
            | Err _ => None
            end
  | Collect => match _gc H c with
               | Done (Ok (_, c')) => Some c'
               | _ => None
               end
  end.

Fixpoint run_events {H : Host} (c : Config H) (evs : list event) : option (Config H) :=
  match evs with
  | [] => Some c
  | e :: evs' =>
      match after e c with
      | Some c' => run_events c' evs'
      | None => None
      end
  end.

(** Where the collections of the run [evs] from [c] have moved the
    slot that was at [l] in [c]. *)
Fixpoint reloc_along {H : Host} (c : Config H) (evs : list event) (l : Location) : Location :=
  match evs with
  | [] => l
  | e :: evs' =>
      match after e c with
      | Some c' =>
          reloc_along c' evs'
            match e with
            | Collect => reloc (gc_relocation c) l
            | Step => l
            end
      | None => l
      end
  end.

(** The direct subexpressions of a node that [step] evaluates in a child
    layer, and the body of a Lambda. *)
Definition children (e : ExprNode) : list ExprNode :=
  match e with
  | IntegerNode _ _ _ | StringNode _ _ _ | VarNode _ => []
  | LambdaNode _ _ expr => [expr]
  | LetrecNode _ varExprList expr => map snd varExprList ++ [expr]
  | IfNode _ cond branch1 branch2 => [cond; branch1; branch2]
  | SequenceNode _ exprList => exprList
  | IntrinsicCallNode _ _ argList => argList
  | ExprCallNode _ expr argList => expr :: argList
  | AtNode _ _ expr => [expr]
  end.

(** No Letrec inside [e] binds a name twice: what [checkDuplicate]
    establishes for Letrec nodes. *)
Fixpoint distinct_bindings (e : ExprNode) : Prop :=
  let all := fix all (es : list ExprNode) : Prop :=
               match es with
               | [] => True
               | x :: es' => distinct_bindings x /\ all es'
               end in
  match e with
  | IntegerNode _ _ _ | StringNode _ _ _ | VarNode _ => True
  | LambdaNode _ _ expr => distinct_bindings expr
  | LetrecNode _ varExprList expr =>
      NoDup (bound_names varExprList)
      /\ (fix go (ves : list (VariableNode * ExprNode)) : Prop :=
            match ves with
            | [] => True
            | ve :: ves' => distinct_bindings (snd ve) /\ go ves'
            end) varExprList
      /\ distinct_bindings expr
  | IfNode _ cond branch1 branch2 =>
      distinct_bindings cond /\ distinct_bindings branch1 /\ distinct_bindings branch2
  | SequenceNode _ exprList => all exprList
  | IntrinsicCallNode _ _ argList => all argList
  | ExprCallNode _ expr argList => distinct_bindings expr /\ all argList
  | AtNode _ _ expr => distinct_bindings expr
  end.

Definition distinct_value (v : Value) : Prop :=
  match v with
  | Closure _ fn => distinct_bindings (lam_expr fn)
  | _ => True
  end.

(** The locations that a Letrec's first step allocates: [n] from [h] on. *)
Definition fresh_locs (h : Z) (n : nat) : list Location :=
  map (fun k => h + Z.of_nat k) (seq 0 n).

(** *** The shapes of a step *)

Definition same_layer (l l' : Layer) : Prop :=
  layer_env l' = layer_env l /\ layer_expr l' = layer_expr l
  /\ layer_frame l' = layer_frame l.

Definition is_Letrec (e : ExprNode) : Prop :=
  match e with
  | LetrecNode _ _ _ => True
  | _ => False
  end.

(** A value that a step appends to the heap: the closure of the Lambda
    under evaluation, or the result of an intrinsic. *)
Definition produced {H : Host} (e : ExprNode) (v : Value) : Prop :=
  (exists m varList expr env,
      e = LambdaNode m varList expr /\ v = Closure env (mkLambda m varList expr))
  \/ (exists heap sl name args w w', _callIntrinsic H heap sl name args w = Ok (v, w')).

(** The heap after a step of a Letrec layer that goes on to a binding or
    to the body: from the second such step on, the result of the binding
    just evaluated is copied over one slot. *)
Definition knot {H : Host} (c : Config H) (layer : Layer)
    (varExprList : list (VariableNode * ExprNode)) (heap' : list Value) : Prop :=
  if layer_pc layer <? 2 then heap' = heap (state c)
  else exists ve env L v,
      vec_at varExprList (layer_pc layer - 2) = Some ve
      /\ memory c !! layer_env layer = Some env
      /\ lookup_env (name (fst ve)) env = Some L
      /\ heap_at (heap (state c)) (resultLoc (state c)) = Ok v
      /\ 0 <= L < zlen (heap (state c))
      /\ heap' = <[Z.to_nat L := v]> (heap (state c)).

(** Every successful step of a layer [layer] on a node [e], with the
    layers [below] it, is of one of these shapes. *)
Inductive transition {H : Host} (c c' : Config H) (layer : Layer) (below : list Layer)
    (e : ExprNode) : Prop :=
| t_pop vs :
    ~ is_Letrec e ->
    memory c' = memory c ->
    stack (state c') = below ->
    heap (state c') = heap (state c) ++ vs ->
    Forall (produced (H:=H) e) vs ->
    transition c c' layer below e
| t_push layer' x :
    ~ is_Letrec e ->
    same_layer layer layer' ->
    In x (children e) ->
    memory c' = memory c ->
    stack (state c') = new_layer (layer_env layer) (Some x) false :: layer' :: below ->
    heap (state c') = heap (state c) ->
    transition c c' layer below e
| t_stay layer' :
    ~ is_Letrec e ->
    same_layer layer layer' ->
    memory c' = memory c ->
    stack (state c') = layer' :: below ->
    heap (state c') = heap (state c) ->
    transition c c' layer below e
| t_enter m varExprList expr env :
    e = LetrecNode m varExprList expr ->
    layer_pc layer = 0 ->
    memory c !! layer_env layer = Some env ->
    memory c' = <[layer_env layer :=
                    env ++ combine (bound_names varExprList)
                             (fresh_locs (zlen (heap (state c))) (length varExprList))]>
                  (memory c) ->
    stack (state c') = set_pc layer 1 :: below ->
    heap (state c') = heap (state c) ++ replicate (length varExprList) Void ->
    transition c c' layer below e
| t_letrec_push m varExprList expr x :
    e = LetrecNode m varExprList expr ->
    1 <= layer_pc layer <= zlen varExprList + 1 ->
    In x (children e) ->
    memory c' = memory c ->
    stack (state c') = new_layer (layer_env layer) (Some x) false
                         :: set_pc layer (layer_pc layer + 1) :: below ->
    knot c layer varExprList (heap (state c')) ->
    transition c c' layer below e
| t_exit m varExprList expr env :
    e = LetrecNode m varExprList expr ->
    zlen varExprList + 2 <= layer_pc layer ->
    memory c !! layer_env layer = Some env ->
    (length varExprList <= length env)%nat ->
    memory c' = <[layer_env layer := take (length env - length varExprList) env]> (memory c) ->
    stack (state c') = below ->
    heap (state c') = heap (state c) ->
    transition c c' layer below e
| t_call layer' loc cenv fn newEnv :
    ~ is_Letrec e ->
    same_layer layer layer' ->
    heap_at (heap (state c)) loc = Ok (Closure cenv fn) ->
    memory c' = memory c ++ [newEnv] ->
    stack (state c') = new_layer (length (memory c)) (Some (lam_expr fn)) true
                         :: layer' :: below ->
    heap (state c') = heap (state c) ->
    transition c c' layer below e
| t_tailcall above f rest loc cenv fn newEnv :
    ~ is_Letrec e ->
    layer :: below = above ++ f :: rest ->
    Forall (fun l => layer_frame l = false) above ->
    layer_frame f = true ->
    heap_at (heap (state c)) loc = Ok (Closure cenv fn) ->
    memory c' = memory c ++ [newEnv] ->
    stack (state c') = new_layer (length (memory c)) (Some (lam_expr fn)) true :: rest ->
    heap (state c') = heap (state c) ->
    transition c c' layer below e.

(** *** The environments of the stack *)

(** The layer at depth [d], the bottom of the stack being at depth 0. *)
Definition at_depth {A} (d : nat) (stk : list A) : option A := rev stk !! d.

(** A layer that evaluates a Letrec and has allocated its bindings. *)
Definition active (l : Layer) : Prop :=
  exists m varExprList expr,
    layer_expr l = Some (LetrecNode m varExprList expr) /\ 1 <= layer_pc l.

Definition letrec_names (l : Layer) : list string :=
  match layer_expr l with
  | Some (LetrecNode _ varExprList _) => bound_names varExprList
  | _ => []
  end.

(** The bindings that a tracked layer has pushed on its environment. *)
Definition own (g : (Layer * list Location)) : Env := combine (letrec_names (fst g)) (snd g).

(** The bindings that the layers of the topmost frame have pushed on the
    environment they share, oldest first. *)
Fixpoint pending (gs : list (Layer * list Location)) : Env :=
  match gs with
  | [] => []
  | g :: rest => (if layer_frame (fst g) then [] else pending rest) ++ own g
  end.

(** The environment of the top layer ends with the pending bindings. *)
Definition top_ok (mem : Memory) (gs : list (Layer * list Location)) : Prop :=
  match gs with
  | [] => True
  | g :: _ => exists base, mem !! layer_env (fst g) = Some (base ++ pending gs)
  end.

(** ... and so does the environment of each caller, under its callee's
    frame. *)
Fixpoint envs_ok (mem : Memory) (gs : list (Layer * list Location)) : Prop :=
  match gs with
  | [] => True
  | g :: rest => (layer_frame (fst g) = true -> top_ok mem rest) /\ envs_ok mem rest
  end.

(** A layer that is no frame shares the environment of the layer under
    it; a frame has an environment of its own. *)
Fixpoint refs_ok (stk : list Layer) : Prop :=
  match stk with
  | [] => True
  | l :: rest =>
      (if layer_frame l then ~ In (layer_env l) (map layer_env rest)
       else match rest with
            | r :: _ => layer_env l = layer_env r
            | [] => False
            end)
      /\ refs_ok rest
  end.

(** The environments of the frames of a stack. *)
Definition frame_refs (stk : list Layer) : list EnvRef :=
  map layer_env (List.filter layer_frame stk).

Definition reloc_tracked (rho : gmap Z Z) (g : Layer * list Location)
  : Layer * list Location :=
  (reloc_layer rho (fst g), map (reloc rho) (snd g)).

Definition tracked_ok (g : (Layer * list Location)) : Prop :=
  match layer_expr (fst g) with
  | Some (LetrecNode _ varExprList _) =>
      if layer_pc (fst g) <? 1 then snd g = []
      else length (snd g) = length varExprList
  | _ => True
  end.

Definition layer_distinct (l : Layer) : Prop :=
  match layer_expr l with
  | Some e => distinct_bindings e
  | None => True
  end.

(** The Letrec layer [l], at depth [d] after the run [evs] from [c0],
    is the one that allocated [locs]: an earlier step of the run was the
    first step of this layer, the layer has been on the stack ever
    since, and [locs] are the slots that this step appended to the heap,
    where the collections have moved them since. *)
Definition born {H : Host} (c0 : Config H) (evs : list event) (d : nat)
    (l : Layer) (locs : list Location) : Prop :=
  exists evs1 evs2 c1 c1' l1 below1 m varExprList expr,
    evs = evs1 ++ Step :: evs2
    /\ run_events c0 evs1 = Some c1
    /\ stack (state c1) = l1 :: below1
    /\ length below1 = d
    /\ layer_expr l1 = Some (LetrecNode m varExprList expr)
    /\ layer_pc l1 = 0
    /\ same_layer l1 l
    /\ step H c1 = Ok (true, c1')
    /\ heap (state c1') = heap (state c1) ++ replicate (length varExprList) Void
    /\ locs = map (reloc_along c1' evs2)
                  (fresh_locs (zlen (heap (state c1))) (length varExprList))
    /\ (forall k c2, run_events c1' (take k evs2) = Some c2 ->
          exists l2, at_depth d (stack (state c2)) = Some l2 /\ same_layer l1 l2).

(** What holds of the machine after the run [evs] from [c0]; [gs] is
    the stack, each layer with the locations of its Letrec. *)
Record Inv {H : Host} (c0 : Config H) (evs : list event) (c : Config H)
    (gs : list (Layer * list Location)) : Prop := mkInv {
  inv_stack : map fst gs = stack (state c);
  inv_refs : refs_ok (stack (state c));
  inv_valid : Forall (fun l => (layer_env l < length (memory c))%nat) (stack (state c));
  inv_top : top_ok (memory c) gs;
  inv_envs : envs_ok (memory c) gs;
  inv_tracked : Forall tracked_ok gs;
  inv_layers : Forall layer_distinct (stack (state c));
  inv_heap : Forall distinct_value (heap (state c));
  inv_lits : 0 <= numLiterals (state c);
  inv_born : forall d g, at_depth d gs = Some g -> active (fst g) ->
             born c0 evs d (fst g) (snd g)
}.

(** *** The statement about the heap *)

(** A step that leaves every slot of the heap as it is (and may append
    slots). *)
Definition unchanged {H : Host} (c c' : Config H) : Prop :=
  exists vs, heap (state c') = heap (state c) ++ vs.

(** A step that ties the knot: the top layer evaluates a Letrec, the
    binding of index [pc - 2] has just been evaluated, and its value is
    copied to the slot that the first step of this layer allocated for
    it. *)
Definition knot_tied {H : Host} (c0 : Config H) (evs : list event) (c c' : Config H)
  : Prop :=
  exists layer below m varExprList expr ve v evs1 evs2 c1 c1' l1 below1,
    stack (state c) = layer :: below
    /\ layer_expr layer = Some (LetrecNode m varExprList expr)
    /\ vec_at varExprList (layer_pc layer - 2) = Some ve
    /\ heap_at (heap (state c)) (resultLoc (state c)) = Ok v
    (* the first step of this layer *)
    /\ evs = evs1 ++ Step :: evs2
    /\ run_events c0 evs1 = Some c1
    /\ stack (state c1) = l1 :: below1
    /\ length below1 = length below
    /\ same_layer l1 layer
    /\ layer_pc l1 = 0
    /\ step H c1 = Ok (true, c1')
    /\ heap (state c1') = heap (state c1) ++ replicate (length varExprList) Void
    /\ (forall k c2, run_events c1' (take k evs2) = Some c2 ->
          exists l2, at_depth (length below) (stack (state c2)) = Some l2
                     /\ same_layer l1 l2)
    (* the slot *)
    /\ let L := reloc_along c1' evs2 (zlen (heap (state c1)) + (layer_pc layer - 2)) in
       0 <= L < zlen (heap (state c))
       /\ heap (state c') = <[Z.to_nat L := v]> (heap (state c)).

(** The slots that a collection keeps: the literals and what the mark
    phase has visited. *)
Definition kept {H : Host} (c : Config H) (L : Location) : Prop :=
  match _mark H c with
  | Done (Ok visited) => L < numLiterals (state c) \/ L ∈ visited
  | _ => False
  end.

(** A collection moves the slots that it keeps and renames the
    locations in their values; it changes nothing else of them, and two
    slots that it keeps stay apart. *)
Definition relocated {H : Host} (c c' : Config H) : Prop :=
  (forall L v,
      kept c L -> vec_at (heap (state c)) L = Some v ->
      vec_at (heap (state c')) (reloc (gc_relocation c) L)
      = Some (reloc_value (gc_relocation c) v))
  /\ (forall L1 L2,
        kept c L1 -> kept c L2 ->
        is_Some (vec_at (heap (state c)) L1) -> is_Some (vec_at (heap (state c)) L2) ->
        reloc (gc_relocation c) L1 = reloc (gc_relocation c) L2 -> L1 = L2).

(** *** Collections *)

(** What the loop of [_sweepAndCompact] keeps true of the heap [heap]
    and the map [rel] when it is about to look at slot [j] and the next
    free slot is [i]; [heap0] is the heap at the start and [nl] is
    [numLiterals].  The slots from [j] on and the literals are as at the
    start, and each visited slot before [j] now lives at its new index,
    before [i]; the new indices are in the order of the old ones. *)
Definition sweep_inv (heap0 : list Value) (nl : Z) (visited : gset Z)
    (heap : list Value) (i j : Location) (rel : gmap Z Z) : Prop :=
  nl <= i <= j
  /\ zlen heap = zlen heap0
  /\ (forall x, j <= x -> vec_at heap x = vec_at heap0 x /\ rel !! x = None)
  /\ (forall x, x < nl -> vec_at heap x = vec_at heap0 x /\ rel !! x = None)
  /\ (forall x, nl <= x < j -> x ∈ visited ->
        nl <= reloc rel x < i /\ vec_at heap (reloc rel x) = vec_at heap0 x)
  /\ (forall x y, nl <= x -> x < y -> y < j -> x ∈ visited -> y ∈ visited ->
        reloc rel x < reloc rel y).

(** The slots of a heap, and how many of them a walk of the mark phase
    has not visited yet. *)
Definition slots (heap : list Value) : gset Z := list_to_set (seqZ 0 (zlen heap)).

Definition unvisited (heap : list Value) (visited : gset Z) : nat :=
  size (slots heap ∖ visited).

(** A walk that still has a level of depth for each unvisited slot
    returns, with a set that has grown. *)
Definition returns (visited : gset Z) (o : outcome (gset Z)) : Prop :=
  match o with
  | OutOfFuel => False
  | Done (Ok visited') => visited ⊆ visited'
  | Done (Err _) => True
  end.

(** *** Static analysis *)

(** What [preAllocate] keeps: the shape of the tree, and with
    it the bindings of every Letrec; the heap gets literals only. *)
Definition preAllocate_keeps (e : ExprNode) : Prop :=
  forall heap e' heap',
    distinct_bindings e -> Forall distinct_value heap ->
    preAllocate e heap = Ok (e', heap') ->
    distinct_bindings e' /\ Forall distinct_value heap'.

(** *** Induction over the tree, through the lists of subexpressions *)

Section ExprNode_induction.

Variable P : ExprNode -> Prop.
Hypothesis HInteger : forall m val loc, P (IntegerNode m val loc).
Hypothesis HString : forall m val loc, P (StringNode m val loc).
Hypothesis HVar : forall v, P (VarNode v).
Hypothesis HLambda : forall m varList expr, P expr -> P (LambdaNode m varList expr).
Hypothesis HLetrec : forall m varExprList expr,
  Forall (fun ve => P (snd ve)) varExprList -> P expr -> P (LetrecNode m varExprList expr).
Hypothesis HIf : forall m cond b1 b2, P cond -> P b1 -> P b2 -> P (IfNode m cond b1 b2).
Hypothesis HSequence : forall m exprList, Forall P exprList -> P (SequenceNode m exprList).
Hypothesis HIntrinsicCall : forall m intrinsic argList,
  Forall P argList -> P (IntrinsicCallNode m intrinsic argList).
Hypothesis HExprCall : forall m expr argList,
  P expr -> Forall P argList -> P (ExprCallNode m expr argList).
Hypothesis HAt : forall m var expr, P expr -> P (AtNode m var expr).

Fixpoint ExprNode_nested_ind (e : ExprNode) : P e :=
  let all := fix all (es : list ExprNode) : Forall P es :=
               match es with
               | [] => @List.Forall_nil _ P
               | x :: es' => @List.Forall_cons _ P x es' (ExprNode_nested_ind x) (all es')
               end in
  match e with
  | IntegerNode m val loc => HInteger m val loc
  | StringNode m val loc => HString m val loc
  | VarNode v => HVar v
  | LambdaNode m varList expr => HLambda m varList expr (ExprNode_nested_ind expr)
  | LetrecNode m varExprList expr =>
      HLetrec m varExprList expr
        ((fix go (ves : list (VariableNode * ExprNode))
            : Forall (fun ve => P (snd ve)) ves :=
            match ves with
            | [] => @List.Forall_nil _ _
            | ve :: ves' =>
                @List.Forall_cons _ (fun ve => P (snd ve)) ve ves'
                  (ExprNode_nested_ind (snd ve)) (go ves')
            end) varExprList)
        (ExprNode_nested_ind expr)
  | IfNode m cond b1 b2 =>
      HIf m cond b1 b2 (ExprNode_nested_ind cond) (ExprNode_nested_ind b1)
          (ExprNode_nested_ind b2)
  | SequenceNode m exprList => HSequence m exprList (all exprList)
  | IntrinsicCallNode m intrinsic argList => HIntrinsicCall m intrinsic argList (all argList)
  | ExprCallNode m expr argList =>
      HExprCall m expr argList (ExprNode_nested_ind expr) (all argList)
  | AtNode m var expr => HAt m var expr (ExprNode_nested_ind expr)
  end.

End ExprNode_induction.

(** *** A program with garbage before a Letrec *)

(** [{ (.+ 1 2) letrec (x 5) x }]: the sum is garbage when the binding
    of [x] has been evaluated. *)
Definition garbage_then_letrec : ExprNode :=
  Syntax.ESeq [Syntax.EIntrinsic ".+" [Syntax.EInt "1"; Syntax.EInt "2"];
               Syntax.ELetrec [("x", Syntax.EInt "5")]%string (Syntax.EVar "x")].

(** * More of the interpreter: the front end, the signatures and the collector *)

(** *** Decimal numbers *)

(** The value of a decimal number read from its first digit on, after
    the digits of [acc]. *)
Fixpoint uint_value (d : Decimal.uint) (acc : Z) : Z :=
  match d with
  | Decimal.Nil => acc
  | Decimal.D0 l => uint_value l (10 * acc)
  | Decimal.D1 l => uint_value l (10 * acc + 1)
  | Decimal.D2 l => uint_value l (10 * acc + 2)
  | Decimal.D3 l => uint_value l (10 * acc + 3)
  | Decimal.D4 l => uint_value l (10 * acc + 4)
  | Decimal.D5 l => uint_value l (10 * acc + 5)
  | Decimal.D6 l => uint_value l (10 * acc + 6)
  | Decimal.D7 l => uint_value l (10 * acc + 7)
  | Decimal.D8 l => uint_value l (10 * acc + 8)
  | Decimal.D9 l => uint_value l (10 * acc + 9)
  end.

(** No Lambda inside [e] names a parameter twice and no Letrec binds a
    name twice. *)
Fixpoint distinct_names (e : ExprNode) : Prop :=
  let all := fix all (es : list ExprNode) : Prop :=
               match es with
               | [] => True
               | x :: es' => distinct_names x /\ all es'
               end in
  match e with
  | IntegerNode _ _ _ | StringNode _ _ _ | VarNode _ => True
  | LambdaNode _ varList expr => NoDup (names varList) /\ distinct_names expr
  | LetrecNode _ varExprList expr =>
      NoDup (bound_names varExprList)
      /\ (fix go (ves : list (VariableNode * ExprNode)) : Prop :=
            match ves with
            | [] => True
            | ve :: ves' => distinct_names (snd ve) /\ go ves'
            end) varExprList
      /\ distinct_names expr
  | IfNode _ cond branch1 branch2 =>
      distinct_names cond /\ distinct_names branch1 /\ distinct_names branch2
  | SequenceNode _ exprList => all exprList
  | IntrinsicCallNode _ _ argList => all argList
  | ExprCallNode _ expr argList => distinct_names expr /\ all argList
  | AtNode _ _ expr => distinct_names expr
  end.

(** The error that [checkDuplicate] raises. *)
Definition is_sema_error {A} (r : result A) : Prop :=
  exists msg sl, r = Err (Panic "sema" msg sl)
                 /\ (msg = "duplicate parameter names" \/ msg = "duplicate binding names")%string.

(** What [checkDuplicate] returns on a tree: nothing when the names are
    distinct, and a "sema" panic otherwise. *)
Definition checked (e : ExprNode) : Prop :=
  (distinct_names e /\ checkDuplicate e = Ok tt)
  \/ (~ distinct_names e /\ is_sema_error (checkDuplicate e)).

(** *** The signatures of the intrinsics *)

(** The alternatives that each intrinsic gives to [_typecheck], in the
    order of the dispatch. *)
Definition intrinsic_signatures : list (string * list Alt) :=
  [(".void", []);
   (".+", [IsInteger; IsInteger]); (".-", [IsInteger; IsInteger]);
   (".*", [IsInteger; IsInteger]); ("./", [IsInteger; IsInteger]);
   (".%", [IsInteger; IsInteger]);
   (".<", [IsInteger; IsInteger]); (".<=", [IsInteger; IsInteger]);
   (".>", [IsInteger; IsInteger]); (".>=", [IsInteger; IsInteger]);
   (".=", [IsInteger; IsInteger]); ("./=", [IsInteger; IsInteger]);
   (".and", [IsInteger; IsInteger]); (".or", [IsInteger; IsInteger]);
   (".not", [IsInteger]);
   (".s+", [IsString; IsString]);
   (".s<", [IsString; IsString]); (".s<=", [IsString; IsString]);
   (".s>", [IsString; IsString]); (".s>=", [IsString; IsString]);
   (".s=", [IsString; IsString]); (".s/=", [IsString; IsString]);
   (".s||", [IsString]);
   (".s[]", [IsString; IsInteger; IsInteger]);
   (".quote", [IsString]); (".unquote", [IsString]);
   (".s->i", [IsString]); (".i->s", [IsInteger]);
   (".type", [AnyValue]);
   (".eval", [IsString]);
   (".getchar", []); (".getint", []);
   (".putstr", [IsString]); (".flush", [])]%string.

Fixpoint signature_in (sigs : list (string * list Alt)) (name : string)
  : option (list Alt) :=
  match sigs with
  | [] => None
  | p :: sigs' => if String.eqb name (fst p) then Some (snd p) else signature_in sigs' name
  end.

Definition signature (name : string) : option (list Alt) :=
  signature_in intrinsic_signatures name.

(** The arguments have the number and the alternatives of a signature. *)
Fixpoint args_match (heap : list Value) (alts : list Alt) (args : list Location) : bool :=
  match alts, args with
  | [], [] => true
  | a :: alts', l :: args' =>
      match heap_at heap l with
      | Ok v => holds_alternative a v && args_match heap alts' args'
      | Err _ => false
      end
  | _, _ => false
  end.

(** The errors of an access that [_typecheck] is there to prevent:
    [std::get] on the wrong alternative, and an index outside a vector,
    which is every undefined behaviour but the overflow of an [int]
    operation. *)
Definition bad_access {A} (r : result A) : Prop :=
  r = Err (Exception "bad_variant_access")
  \/ exists what, r = Err (Undefined what) /\ what <> overflow.

(** The intrinsics that compute with [int] operations that can
    overflow. *)
Definition arithmetic_intrinsics : list string := [".+"; ".-"; ".*"; "./"; ".%"]%string.

(** *** Reachability in the heap *)

(** [l'] is one of the locations in the environment of the closure at
    [l]. *)
Definition edge (heap : list Value) (l l' : Location) : Prop :=
  exists env fn, vec_at heap l = Some (Closure env fn) /\ In l' (map snd env).

(** What can be reached from [locs] through the environments of
    closures. *)
Definition reachable (heap : list Value) (locs : list Location) (l : Location) : Prop :=
  exists r, In r locs /\ rtc (edge heap) r l.

(** What a walk of the mark phase from [locs] has added to [visited]
    when it returns [visited']: the locations of [locs], and with each
    closure the locations of its environment; it has added only slots
    of the heap that can be reached from [locs]. *)
Definition walked (heap : list Value) (locs : list Location)
    (visited visited' : gset Z) : Prop :=
  visited ⊆ visited'
  /\ (forall l, In l locs -> l ∈ visited')
  /\ (forall l, l ∈ visited' -> l ∉ visited ->
        is_Some (vec_at heap l) /\ reachable heap locs l
        /\ forall l', edge heap l l' -> l' ∈ visited').

(** What the loop of [_sweepAndCompact] also keeps true: each slot
    between the literals and the next free slot [i] holds a visited
    slot.  *)
Definition sweep_onto (heap0 : list Value) (nl : Z) (visited : gset Z)
    (heap : list Value) (i j : Location) (rel : gmap Z Z) : Prop :=
  nl <= i <= j
  /\ zlen heap = zlen heap0
  /\ (forall x, j <= x -> rel !! x = None)
  /\ (forall y, nl <= y < i -> exists x, nl <= x < j /\ x ∈ visited /\ reloc rel x = y).

(** *** The main frame *)

(** No call in [e] outside the body of a Lambda is marked as a tail
    call. *)
Fixpoint no_tail_call (e : ExprNode) : Prop :=
  let all := fix all (es : list ExprNode) : Prop :=
               match es with
               | [] => True
               | x :: es' => no_tail_call x /\ all es'
               end in
  match e with
  | IntegerNode _ _ _ | StringNode _ _ _ | VarNode _ => True
  | LambdaNode _ _ _ => True
  | LetrecNode _ varExprList expr =>
      (fix go (ves : list (VariableNode * ExprNode)) : Prop :=
         match ves with
         | [] => True
         | ve :: ves' => no_tail_call (snd ve) /\ go ves'
         end) varExprList
      /\ no_tail_call expr
  | IfNode _ cond branch1 branch2 =>
      no_tail_call cond /\ no_tail_call branch1 /\ no_tail_call branch2
  | SequenceNode _ exprList => all exprList
  | IntrinsicCallNode _ _ argList => all argList
  | ExprCallNode m expr argList => tail m = false /\ no_tail_call expr /\ all argList
  | AtNode _ _ expr => no_tail_call expr
  end.

(** The layers [upper] above the main frame, top first: each evaluates
    a node, and the ones under every frame evaluate nodes without tail
    calls. *)
Fixpoint main_region (upper : list Layer) : Prop :=
  match upper with
  | [] => True
  | l :: rest =>
      match layer_expr l with
      | None => False
      | Some e => Forall (fun l => layer_frame l = false) (l :: rest) -> no_tail_call e
      end
      /\ main_region rest
  end.

(** The main frame is at the bottom of the stack. *)
Definition main_kept (stk : list Layer) : Prop :=
  exists upper main,
    stk = upper ++ [main]
    /\ layer_expr main = None /\ layer_frame main = true
    /\ main_region upper.

(** What a successful step of the layer [layer] on the node [e] does to
    the stack [layer :: below]. *)
Inductive stack_move (e : ExprNode) (layer : Layer) (below : list Layer)
    (stk' : list Layer) : Prop :=
| m_pop :
    stk' = below ->
    stack_move e layer below stk'
| m_push layer' x :
    same_layer layer layer' ->
    In x (children e) ->
    (forall m varList expr, e <> LambdaNode m varList expr) ->
    stk' = new_layer (layer_env layer) (Some x) false :: layer' :: below ->
    stack_move e layer below stk'
| m_stay layer' :
    same_layer layer layer' ->
    stk' = layer' :: below ->
    stack_move e layer below stk'
| m_call layer' r body :
    same_layer layer layer' ->
    stk' = new_layer r (Some body) true :: layer' :: below ->
    stack_move e layer below stk'
| m_tailcall m expr argList layer' r body f rest :
    e = ExprCallNode m expr argList ->
    tail m = true ->
    same_layer layer layer' ->
    pop_to_frame (layer' :: below) = Ok (f :: rest) ->
    stk' = new_layer r (Some body) true :: rest ->
    stack_move e layer below stk'.

(** ** The lexer *)

(** [SourceLocation::update] *)
Definition SourceLocation_update (l : SourceLocation) (c : ascii) : SourceLocation :=
  if Ascii.eqb c ch_newline then mkSL (line l + 1) 1
  else mkSL (line l) (column l + 1).

(** The characters that [SourceStream] accepts, in the order of
    [charstr]. *)
Definition charstr : string :=
  ("`1234567890-=~!@#$%^&*()_+"
   ++ "qwertyuiopasdfghjklzxcvbnmQWERTYUIOPASDFGHJKLZXCVBNM"
   ++ "[]\;',./{}|:" ++ String ch_dquote ("<>? " ++ String ch_tab (String ch_newline EmptyString)))%string.

(** [charset.contains(c)] *)
Definition charset_contains (c : ascii) : bool :=
  existsb (Ascii.eqb c) (list_ascii_of_string charstr).

(** [std::isalpha] in the "C" locale; [std::isdigit] and [std::isspace]
    are [is_digit] and [is_space]. *)
Definition is_alpha (c : ascii) : bool :=
  let n := nat_of_ascii c in
  ((65 <=? n)%nat && (n <=? 90)%nat) || ((97 <=? n)%nat && (n <=? 122)%nat).

(** A [SourceStream].  The source reverses the text and reads it with
    [back]/[pop_back]; here [ss_source] is what is left of the text, in
    reading order. *)
Record SourceStream := mkSS {
  ss_source : string;
  ss_sl : SourceLocation
}.

(** The loop of the constructor of [SourceStream]. *)
Fixpoint check_chars (s : string) (l : SourceLocation) : result unit :=
  match s with
  | EmptyString => Ok tt
  | String c s' =>
      if charset_contains c then check_chars s' (SourceLocation_update l c)
      else panic "lexer" "unsupported character" l
  end.

Definition SourceStream_new (s : string) : result SourceStream :=
  _ ← check_chars s (mkSL 1 1);
  Ok (mkSS s (mkSL 1 1)).

Record Token := mkToken {
  tok_sl : SourceLocation;
  tok_text : string
}.

(** [while (ss.hasNext() && p(ss.peekNext())) text += ss.popNext()] *)
Fixpoint pop_while (p : ascii -> bool) (src : string) (l : SourceLocation) (text : string)
  : string * SourceStream :=
  match src with
  | String c src' =>
      if p c then pop_while p src' (SourceLocation_update l c) (push_back text c)
      else (text, mkSS src l)
  | EmptyString => (text, mkSS src l)
  end.

(** The loop of an integer literal, with its flag [hasDigit]. *)
Fixpoint digits_loop (src : string) (l : SourceLocation) (text : string) (hasDigit : bool)
  : string * SourceStream * bool :=
  match src with
  | String c src' =>
      if is_digit c
      then digits_loop src' (SourceLocation_update l c) (push_back text c) true
      else (text, mkSS src l, hasDigit)
  | EmptyString => (text, mkSS src l, hasDigit)
  end.

(** The loop of a string literal, with its flags [escape] and
    [complete]. *)
Fixpoint string_loop (src : string) (l : SourceLocation) (text : string) (escape : bool)
  : string * SourceStream * bool :=
  match src with
  | String c src' =>
      if negb escape && Ascii.eqb c ch_dquote
      then (push_back text c, mkSS src' (SourceLocation_update l c), true)
      else string_loop src' (SourceLocation_update l c) (push_back text c)
                       (Ascii.eqb c ch_backslash)
  | EmptyString => (text, mkSS src l, false)
  end.

(** [std::string("(){}@").find(c) != std::string::npos] *)
Definition is_special (c : ascii) : bool :=
  existsb (Ascii.eqb c) (list_ascii_of_string "(){}@").

(** [nextToken]; [fuel] bounds the depth of its recursion after a
    comment. *)
Fixpoint nextToken (fuel : nat) (ss : SourceStream)
  : outcome (option Token * SourceStream) :=
  match fuel with
  | O => OutOfFuel
  | S fuel' =>
      (* skip whitespaces *)
      let '(_, ss) := pop_while is_space (ss_source ss) (ss_sl ss) EmptyString in
      match ss_source ss with
      | EmptyString => Done (Ok (None, ss))
      | String c rest =>
          (* read the next token *)
          let startsl := ss_sl ss in
          if is_digit c || Ascii.eqb c "-" || Ascii.eqb c "+" then
            (* integer literal *)
            let '(text, ss) :=
              if Ascii.eqb c "-" || Ascii.eqb c "+"
              then (push_back EmptyString c, mkSS rest (SourceLocation_update (ss_sl ss) c))
              else (EmptyString, ss) in
            let '(text, ss, hasDigit) := digits_loop (ss_source ss) (ss_sl ss) text false in
            if negb hasDigit
            then Done (panic "lexer" "incomplete integer literal" startsl)
            else Done (Ok (Some (mkToken startsl text), ss))
          else if Ascii.eqb c ch_dquote then
            (* string literal *)
            let '(text, ss, complete) :=
              string_loop rest (SourceLocation_update (ss_sl ss) c) (push_back EmptyString c) false in
            if negb complete
            then Done (panic "lexer" "incomplete string literal" startsl)
            else Done (Ok (Some (mkToken startsl text), ss))
          else if is_alpha c || Ascii.eqb c "_" then
            (* variable / keyword *)
            let '(text, ss) :=
              pop_while (fun c => is_alpha c || is_digit c || Ascii.eqb c "_")
                        (ss_source ss) (ss_sl ss) EmptyString in
            Done (Ok (Some (mkToken startsl text), ss))
          else if Ascii.eqb c "." then
            (* intrinsic *)
            let '(text, ss) :=
              pop_while (fun c => negb (is_space c || Ascii.eqb c ")"))
                        (ss_source ss) (ss_sl ss) EmptyString in
            Done (Ok (Some (mkToken startsl text), ss))
          else if is_special c then
            (* special symbol *)
            Done (Ok (Some (mkToken startsl (push_back EmptyString c)),
                      mkSS rest (SourceLocation_update (ss_sl ss) c)))
          else if Ascii.eqb c "#" then
            (* comment *)
            let '(_, ss) :=
              pop_while (fun c => negb (Ascii.eqb c ch_newline))
                        (ss_source ss) (ss_sl ss) EmptyString in
            (* nextToken() will consume the \n and recursively continue *)
            nextToken fuel' ss
          else Done (panic "lexer" "unsupported starting character" startsl)
      end
  end.

(** The loop of [lex]; [fuel] bounds the number of tokens. *)
Fixpoint lex_loop (fuel : nat) (ss : SourceStream) (tokens : list Token)
  : outcome (list Token) :=
  match fuel with
  | O => OutOfFuel
  | S fuel' =>
      match nextToken (S (String.length (ss_source ss))) ss with
      | OutOfFuel => OutOfFuel
      | Done (Err e) => Done (Err e)
      | Done (Ok (Some t, ss)) => lex_loop fuel' ss (tokens ++ [t])
      | Done (Ok (None, _)) => Done (Ok tokens)
      end
  end.

Definition lex (source : string) : outcome (list Token) :=
  match SourceStream_new source with
  | Err e => Done (Err e)
  | Ok ss => lex_loop (S (String.length source)) ss []
  end.

(** ** The parser *)

(** A function of [parse]: it reads the tokens at the front of the
    deque [tokens] and returns what is left of it. *)
Definition parser (A : Type) : Type := list Token -> outcome (A * list Token).

Definition parser_ret {A} (a : A) : parser A := fun tokens => Done (Ok (a, tokens)).

Definition parser_panic {A} (type msg : string) (l : SourceLocation) : parser A :=
  fun _ => Done (panic type msg l).

Definition parser_bind_def {A B} (p : parser A) (k : A -> parser B) : parser B :=
  fun tokens =>
    match p tokens with
    | OutOfFuel => OutOfFuel
    | Done (Err e) => Done (Err e)
    | Done (Ok (a, tokens)) => k a tokens
    end.

Global Instance parser_bind : MBind parser := fun A B k p => parser_bind_def p k.
Global Instance parser_mret : MRet parser := @parser_ret.

(** The first character of the text of a token satisfies [p]. *)
Definition first_char (p : ascii -> bool) (t : Token) : bool :=
  match tok_text t with
  | String c _ => p c
  | EmptyString => false
  end.

Definition isIntegerToken : Token -> bool :=
  first_char (fun c => is_digit c || Ascii.eqb c "-" || Ascii.eqb c "+").
Definition isStringToken : Token -> bool := first_char (fun c => Ascii.eqb c ch_dquote).
Definition isIntrinsicToken : Token -> bool := first_char (fun c => Ascii.eqb c ".").
Definition isVariableToken : Token -> bool :=
  first_char (fun c => is_alpha c || Ascii.eqb c "_").
Definition isTheToken (s : string) (t : Token) : bool := String.eqb (tok_text t) s.

Definition consume (predicate : Token -> bool) : parser Token :=
  fun tokens =>
    match tokens with
    | [] => Done (panic "parser" "incomplete token stream" noSL)
    | token :: tokens =>
        if predicate token then Done (Ok (token, tokens))
        else Done (panic "parser" "unexpected token" (tok_sl token))
    end.

Definition parseInteger : parser ExprNode :=
  token ← consume isIntegerToken;
  mret (IntegerNode (fresh_meta (tok_sl token)) (tok_text token) (-1)).

(** don't unquote here: AST keeps raw tokens *)
Definition parseString : parser ExprNode :=
  token ← consume isStringToken;
  mret (StringNode (fresh_meta (tok_sl token)) (tok_text token) (-1)).

Definition parseVariable : parser VariableNode :=
  token ← consume isVariableToken;
  mret (mkVariable (fresh_meta (tok_sl token)) (tok_text token)).

(** [while (tokens.size() && isVariableToken(tokens[0]))
       varList.push_back(parseVariable())]; [n] bounds the number of
    iterations. *)
Fixpoint parseVariables (n : nat) (varList : list VariableNode)
  : parser (list VariableNode) :=
  fun tokens =>
    match tokens with
    | t :: _ =>
        if isVariableToken t then
          match n with
          | O => OutOfFuel
          | S n' => (v ← parseVariable; parseVariables n' (varList ++ [v])) tokens
          end
        else Done (Ok (varList, tokens))
    | [] => Done (Ok (varList, tokens))
    end.

Section Parse.

(** [parseExpr], as the functions below call it. *)
Variable parseExpr : parser ExprNode.

Definition parseLambda (n : nat) : parser ExprNode :=
  start ← consume (isTheToken "lambda");
  _ ← consume (isTheToken "(");
  varList ← parseVariables n [];
  _ ← consume (isTheToken ")");
  expr ← parseExpr;
  mret (LambdaNode (fresh_meta (tok_sl start)) varList expr).

(** The loop of [parseLetrec]. *)
Fixpoint parseBindings (n : nat) (varExprList : list (VariableNode * ExprNode))
  : parser (list (VariableNode * ExprNode)) :=
  fun tokens =>
    match tokens with
    | t :: _ =>
        if isVariableToken t then
          match n with
          | O => OutOfFuel
          | S n' =>
              (* enforce the evaluation order of v; e *)
              (v ← parseVariable;
               e ← parseExpr;
               parseBindings n' (varExprList ++ [(v, e)])) tokens
          end
        else Done (Ok (varExprList, tokens))
    | [] => Done (Ok (varExprList, tokens))
    end.

Definition parseLetrec (n : nat) : parser ExprNode :=
  start ← consume (isTheToken "letrec");
  _ ← consume (isTheToken "(");
  varExprList ← parseBindings n [];
  _ ← consume (isTheToken ")");
  expr ← parseExpr;
  mret (LetrecNode (fresh_meta (tok_sl start)) varExprList expr).

Definition parseIf : parser ExprNode :=
  start ← consume (isTheToken "if");
  cond ← parseExpr;
  branch1 ← parseExpr;
  branch2 ← parseExpr;
  mret (IfNode (fresh_meta (tok_sl start)) cond branch1 branch2).

(** [while (tokens.size() && tokens[0].text != closing)
       exprList.push_back(parseExpr())] *)
Fixpoint parseExprs (n : nat) (closing : string) (exprList : list ExprNode)
  : parser (list ExprNode) :=
  fun tokens =>
    match tokens with
    | t :: _ =>
        if negb (String.eqb (tok_text t) closing) then
          match n with
          | O => OutOfFuel
          | S n' => (e ← parseExpr; parseExprs n' closing (exprList ++ [e])) tokens
          end
        else Done (Ok (exprList, tokens))
    | [] => Done (Ok (exprList, tokens))
    end.

Definition parseSequence (n : nat) : parser ExprNode :=
  start ← consume (isTheToken "{");
  exprList ← parseExprs n "}" [];
  _ ← (if (length exprList =? 0)%nat
       then parser_panic "parser" "zero-length sequence" (tok_sl start)
       else mret tt);
  _ ← consume (isTheToken "}");
  mret (SequenceNode (fresh_meta (tok_sl start)) exprList).

Definition parseIntrinsicCall (n : nat) : parser ExprNode :=
  start ← consume (isTheToken "(");
  intrinsic ← consume isIntrinsicToken;
  argList ← parseExprs n ")" [];
  _ ← consume (isTheToken ")");
  mret (IntrinsicCallNode (fresh_meta (tok_sl start)) (tok_text intrinsic) argList).

Definition parseExprCall (n : nat) : parser ExprNode :=
  start ← consume (isTheToken "(");
  expr ← parseExpr;
  argList ← parseExprs n ")" [];
  _ ← consume (isTheToken ")");
  mret (ExprCallNode (fresh_meta (tok_sl start)) expr argList).

Definition parseAt : parser ExprNode :=
  start ← consume (isTheToken "@");
  var ← parseVariable;
  expr ← parseExpr;
  mret (AtNode (fresh_meta (tok_sl start)) var expr).

(** The body of [parseExpr]. *)
Definition parseExpr_body (n : nat) : parser ExprNode :=
  fun tokens =>
    match tokens with
    | [] => Done (panic "parser" "incomplete token stream" noSL)
    | t0 :: rest =>
        if isIntegerToken t0 then parseInteger tokens
        else if isStringToken t0 then parseString tokens
        else if String.eqb (tok_text t0) "lambda" then parseLambda n tokens
        else if String.eqb (tok_text t0) "letrec" then parseLetrec n tokens
        else if String.eqb (tok_text t0) "if" then parseIf tokens
        (* check keywords before var to avoid recognizing keywords as vars *)
        else if isVariableToken t0 then (v ← parseVariable; mret (VarNode v)) tokens
        else if String.eqb (tok_text t0) "{" then parseSequence n tokens
        else if String.eqb (tok_text t0) "(" then
          match rest with
          | [] => Done (panic "parser" "incomplete token stream" noSL)
          | t1 :: _ =>
              if isIntrinsicToken t1 then parseIntrinsicCall n tokens
              else parseExprCall n tokens
          end
        else if String.eqb (tok_text t0) "@" then parseAt tokens
        else Done (panic "parser" "unrecognized token" (tok_sl t0))
    end.

End Parse.

(** [parseExpr]; [fuel] bounds the depth of the recursion, and the
    number of iterations of each loop. *)
Fixpoint parseExpr (fuel : nat) : parser ExprNode :=
  match fuel with
  | O => fun _ => OutOfFuel
  | S fuel' => parseExpr_body (parseExpr fuel') fuel'
  end.

Definition parse (tokens : list Token) : outcome ExprNode :=
  match parseExpr (S (length tokens)) tokens with
  | OutOfFuel => OutOfFuel
  | Done (Err e) => Done (Err e)
  | Done (Ok (expr, [])) => Done (Ok expr)
  | Done (Ok (expr, t :: _)) => Done (panic "parser" "redundant token(s)" (tok_sl t))
  end.

(** *** What the lexer returns *)

(** The location after the characters of [s]. *)
Fixpoint advance (l : SourceLocation) (s : string) : SourceLocation :=
  match s with
  | EmptyString => l
  | String c s' => advance (SourceLocation_update l c) s'
  end.

(** The longest prefix of [s] whose characters satisfy [p], and what
    follows it. *)
Fixpoint take_while (p : ascii -> bool) (s : string) : string :=
  match s with
  | String c s' => if p c then String c (take_while p s') else EmptyString
  | EmptyString => EmptyString
  end.

Fixpoint drop_while (p : ascii -> bool) (s : string) : string :=
  match s with
  | String c s' => if p c then drop_while p s' else s
  | EmptyString => EmptyString
  end.

Definition all_chars (p : ascii -> bool) (s : string) : bool :=
  forallb p (list_ascii_of_string s).

(** Whether the last character of [s] is a backslash; [b] for the
    empty String. *)
Fixpoint last_is_backslash (s : string) (b : bool) : bool :=
  match s with
  | EmptyString => b
  | String c s' => last_is_backslash s' (Ascii.eqb c ch_backslash)
  end.

Definition ends_with_backslash (s : string) : bool := last_is_backslash s false.

(** The text of an integer literal: a sign or none, and digits. *)
Definition integer_text (t : string) : Prop :=
  exists sign digits,
    t = (sign ++ digits)%string
    /\ (sign = EmptyString \/ sign = "-" \/ sign = "+")%string
    /\ digits <> EmptyString /\ all_chars is_digit digits = true.

(** The text of a string literal: a body between two double quotes;
    the body does not end with a backslash. *)
Definition string_text (t : string) : Prop :=
  exists body,
    t = String ch_dquote (body ++ String ch_dquote EmptyString)
    /\ ends_with_backslash body = false.

(** One of the five kinds of token that [parseExpr] tells apart. *)
Definition is_special_token (t : Token) : bool :=
  match tok_text t with
  | String c EmptyString => is_special c
  | _ => false
  end.

Definition classified (t : Token) : bool :=
  isIntegerToken t || isStringToken t || isVariableToken t || isIntrinsicToken t
  || is_special_token t.

(** What holds of a token that [lex] returns. *)
Definition lexed (t : Token) : Prop :=
  classified t = true
  /\ (isIntegerToken t = true -> integer_text (tok_text t))
  /\ (isStringToken t = true -> string_text (tok_text t)).

Definition lexer_messages : list string :=
  ["unsupported character"; "incomplete integer literal"; "incomplete string literal";
   "unsupported starting character"]%string.

Definition lexer_error (e : error) : Prop :=
  exists msg l, e = Panic "lexer" msg l /\ In msg lexer_messages.

(** What [nextToken] returns. *)
Definition nextToken_ok (ss : SourceStream) (o : outcome (option Token * SourceStream))
  : Prop :=
  match o with
  | OutOfFuel => False
  | Done (Err e) => lexer_error e
  | Done (Ok (Some t, ss')) =>
      lexed t /\ (String.length (ss_source ss') < String.length (ss_source ss))%nat
  | Done (Ok (None, ss')) => True
  end.

(** *** What the parser returns *)

Definition parser_messages : list string :=
  ["incomplete token stream"; "unexpected token"; "zero-length sequence";
   "unrecognized token"; "redundant token(s)"]%string.

Definition parser_error (e : error) : Prop :=
  exists msg l, e = Panic "parser" msg l /\ In msg parser_messages.

(** A tree that the parser builds from tokens that satisfy [Q]: each
    literal is the text of an integer or string token, the name of an
    intrinsic is the text of an intrinsic token, and no Sequence is
    empty. *)
Fixpoint built_from (Q : Token -> Prop) (e : ExprNode) : Prop :=
  let all := fix all (es : list ExprNode) : Prop :=
               match es with
               | [] => True
               | x :: es' => built_from Q x /\ all es'
               end in
  match e with
  | IntegerNode _ val _ => exists t, Q t /\ isIntegerToken t = true /\ val = tok_text t
  | StringNode _ val _ => exists t, Q t /\ isStringToken t = true /\ val = tok_text t
  | VarNode _ => True
  | LambdaNode _ _ expr => built_from Q expr
  | LetrecNode _ varExprList expr =>
      (fix go (ves : list (VariableNode * ExprNode)) : Prop :=
         match ves with
         | [] => True
         | ve :: ves' => built_from Q (snd ve) /\ go ves'
         end) varExprList
      /\ built_from Q expr
  | IfNode _ cond branch1 branch2 =>
      built_from Q cond /\ built_from Q branch1 /\ built_from Q branch2
  | SequenceNode _ exprList => exprList <> [] /\ all exprList
  | IntrinsicCallNode _ intrinsic argList =>
      (exists t, Q t /\ isIntrinsicToken t = true /\ intrinsic = tok_text t)
      /\ all argList
  | ExprCallNode _ expr argList => built_from Q expr /\ all argList
  | AtNode _ _ expr => built_from Q expr
  end.

(** What a function of the parser returns on [tokens], which satisfy
    [Q]: it returns, with an error of the parser or with a result that
    satisfies [P] and the tokens that it has not read, fewer than
    [tokens] when [strict]. *)
Definition parses {A} (Q : Token -> Prop) (P : A -> Prop) (strict : bool)
    (tokens : list Token) (o : outcome (A * list Token)) : Prop :=
  match o with
  | OutOfFuel => False
  | Done (Err e) => parser_error e
  | Done (Ok (a, rest)) =>
      P a /\ Forall Q rest
      /\ (if strict then length rest < length tokens else length rest <= length tokens)%nat
  end.

(** *** The construction of a State from a text *)

(** [State(std::string source)]: [parse(lex(source))], and then the
    static analysis and the preallocation of the literals. *)
Definition State_of_source (source : string) (uninit : Location) (mem : Memory)
  : outcome (Memory * State) :=
  match lex source with
  | OutOfFuel => OutOfFuel
  | Done (Err e) => Done (Err e)
  | Done (Ok tokens) =>
      match parse tokens with
      | OutOfFuel => OutOfFuel
      | Done (Err e) => Done (Err e)
      | Done (Ok expr) => Done (State_new expr uninit mem)
      end
  end.

(** The literals of a tree, in the order of the top-down traversal:
    [true] with the text of an integer literal, [false] with the text
    of a string literal. *)
Fixpoint literals (e : ExprNode) : list (bool * string) :=
  match e with
  | IntegerNode _ val _ => [(true, val)]
  | StringNode _ val _ => [(false, val)]
  | VarNode _ => []
  | LambdaNode _ _ expr => literals expr
  | LetrecNode _ varExprList expr =>
      flat_map (fun ve => literals (snd ve)) varExprList ++ literals expr
  | IfNode _ cond branch1 branch2 =>
      literals cond ++ literals branch1 ++ literals branch2
  | SequenceNode _ exprList => flat_map literals exprList
  | IntrinsicCallNode _ _ argList => flat_map literals argList
  | ExprCallNode _ expr argList => literals expr ++ flat_map literals argList
  | AtNode _ _ expr => literals expr
  end.

(** The value that [preAllocate] stores for a literal. *)
Definition literal_value (l : bool * string) : result Value :=
  if fst l then v ← stoi (snd l); Ok (Integer v)
  else v ← unquote (snd l); Ok (StringV v).

Definition sema_error (e : error) : Prop :=
  exists msg l, e = Panic "sema" msg l
                /\ (msg = "duplicate parameter names" \/ msg = "duplicate binding names")%string.

Definition is_literal_value (v : Value) : Prop :=
  (exists z, v = Integer z) \/ (exists s, v = StringV s).

(** A literal that is the text of a token that satisfies [Q]. *)
Definition literal_of (Q : Token -> Prop) (l : bool * string) : Prop :=
  exists t, Q t /\ (if fst l then isIntegerToken t else isStringToken t) = true
            /\ snd l = tok_text t.

(** The locations of the literals of a tree, in the same order. *)
Fixpoint literal_locs (e : ExprNode) : list Location :=
  match e with
  | IntegerNode _ _ loc => [loc]
  | StringNode _ _ loc => [loc]
  | VarNode _ => []
  | LambdaNode _ _ expr => literal_locs expr
  | LetrecNode _ varExprList expr =>
      flat_map (fun ve => literal_locs (snd ve)) varExprList ++ literal_locs expr
  | IfNode _ cond branch1 branch2 =>
      literal_locs cond ++ literal_locs branch1 ++ literal_locs branch2
  | SequenceNode _ exprList => flat_map literal_locs exprList
  | IntrinsicCallNode _ _ argList => flat_map literal_locs argList
  | ExprCallNode _ expr argList => literal_locs expr ++ flat_map literal_locs argList
  | AtNode _ _ expr => literal_locs expr
  end.

(** What a part of [preAllocate] does on the literals [ls] from the
    heap [heap]: it appends their values to the heap and returns a
    tree (or trees) whose literals are [done_lits] and then [ls], at
    the locations [done_locs] and then the new ones; or it fails at
    the first literal that has no value. *)
Definition preallocated {A} (lits : A -> list (bool * string)) (locs : A -> list Location)
    (done_lits : list (bool * string)) (done_locs : list Location)
    (ls : list (bool * string)) (heap : list Value) (r : result (A * list Value)) : Prop :=
  match r with
  | Ok (a, heap') =>
      lits a = done_lits ++ ls
      /\ locs a = done_locs ++ seqZ (zlen heap) (zlen ls)
      /\ exists vs, Forall2 (fun l v => literal_value l = Ok v) ls vs /\ heap' = heap ++ vs
  | Err err => exists l, In l ls /\ literal_value l = Err err
  end.

(** What [preAllocate] returns on a tree. *)
Definition preAllocate_ok (e : ExprNode) : Prop :=
  forall heap, preallocated literals literal_locs [] [] (literals e) heap (preAllocate e heap).

(** *** Locations that are slots of the heap *)

(** [l] is a slot of a heap of size [n]. *)
Definition loc_ok (n : Z) (l : Location) : Prop := 0 <= l < n.

Definition env_locs_ok (n : Z) (env : Env) : Prop :=
  Forall (fun p => loc_ok n (snd p)) env.

(** The locations in an environment of a closure are slots of the
    heap, and the literals of its body are among the [nl] literals. *)
Definition value_locs_ok (n nl : Z) (v : Value) : Prop :=
  match v with
  | Closure env fn =>
      env_locs_ok n env /\ Forall (loc_ok nl) (literal_locs (lam_expr fn))
  | _ => True
  end.

(** The program counter of a layer is not negative, and a call that has
    evaluated its callee has recorded its location. *)
Definition layer_shape (l : Layer) : Prop :=
  0 <= layer_pc l
  /\ match layer_expr l with
     | Some (ExprCallNode _ _ _) => 2 <= layer_pc l -> layer_local l <> []
     | _ => True
     end.

Definition layer_locs_ok (mem : Memory) (n nl : Z) (l : Layer) : Prop :=
  Forall (loc_ok n) (layer_local l)
  /\ (exists env, mem !! layer_env l = Some env /\ env_locs_ok n env)
  /\ (forall e, layer_expr l = Some e -> Forall (loc_ok nl) (literal_locs e))
  /\ layer_shape l.

(** Every location that the machine holds is a slot of its heap. *)
Definition locs_ok {H : Host} (c : Config H) : Prop :=
  let n := zlen (heap (state c)) in
  let nl := numLiterals (state c) in
  0 <= nl <= n
  /\ Forall (layer_locs_ok (memory c) n nl) (stack (state c))
  /\ Forall (value_locs_ok n nl) (heap (state c))
  /\ loc_ok n (resultLoc (state c)).

Definition is_closure (v : Value) : Prop :=
  match v with
  | Closure _ _ => True
  | _ => False
  end.

(** [(.+ 2147483647 1)] *)
Definition overflowing_sum : ExprNode :=
  Syntax.EIntrinsic ".+" [Syntax.EInt "2147483647"; Syntax.EInt "1"].

(** *** Free variables *)

(** The free variables of a node: the names of the variables in it that
    no Lambda or Letrec of the node binds around them.  The name after
    [@] is looked up in a closure and is no variable of the node. *)
Fixpoint free_vars (e : ExprNode) : gset string :=
  let all := fix all (es : list ExprNode) : gset string :=
               match es with
               | [] => ∅
               | x :: es' => free_vars x ∪ all es'
               end in
  match e with
  | IntegerNode _ _ _ | StringNode _ _ _ => ∅
  | VarNode v => {[name v]}
  | LambdaNode _ varList expr => free_vars expr ∖ list_to_set (names varList)
  | LetrecNode _ varExprList expr =>
      ((fix go (ves : list (VariableNode * ExprNode)) : gset string :=
          match ves with
          | [] => ∅
          | ve :: ves' => free_vars (snd ve) ∪ go ves'
          end) varExprList
       ∪ free_vars expr) ∖ list_to_set (bound_names varExprList)
  | IfNode _ cond branch1 branch2 =>
      free_vars cond ∪ free_vars branch1 ∪ free_vars branch2
  | SequenceNode _ exprList => all exprList
  | IntrinsicCallNode _ _ argList => all argList
  | ExprCallNode _ expr argList => free_vars expr ∪ all argList
  | AtNode _ _ expr => free_vars expr
  end.

(** The name that a node refers to itself, and the names that it binds
    in its subexpressions. *)
Definition own_name (e : ExprNode) : gset string :=
  match e with
  | VarNode v => {[name v]}
  | _ => ∅
  end.

Definition binders (e : ExprNode) : list string :=
  match e with
  | LambdaNode _ varList _ => names varList
  | LetrecNode _ varExprList _ => bound_names varExprList
  | _ => []
  end.

(** [P] holds of every node of a tree. *)
Fixpoint every_node (P : ExprNode -> Prop) (e : ExprNode) : Prop :=
  let all := fix all (es : list ExprNode) : Prop :=
               match es with
               | [] => True
               | x :: es' => every_node P x /\ all es'
               end in
  P e
  /\ match e with
     | IntegerNode _ _ _ | StringNode _ _ _ | VarNode _ => True
     | LambdaNode _ _ expr => every_node P expr
     | LetrecNode _ varExprList expr =>
         (fix go (ves : list (VariableNode * ExprNode)) : Prop :=
            match ves with
            | [] => True
            | ve :: ves' => every_node P (snd ve) /\ go ves'
            end) varExprList
         /\ every_node P expr
     | IfNode _ cond branch1 branch2 =>
         every_node P cond /\ every_node P branch1 /\ every_node P branch2
     | SequenceNode _ exprList => all exprList
     | IntrinsicCallNode _ _ argList => all argList
     | ExprCallNode _ expr argList => every_node P expr /\ all argList
     | AtNode _ _ expr => every_node P expr
     end.

(** A tree as the parser builds it: no node has free variables
    recorded yet. *)
Definition unannotated (e : ExprNode) : Prop :=
  every_node (fun x => freeVars (meta x) = ∅) e.

(** A tree in which every node records its free variables. *)
Definition annotated (e : ExprNode) : Prop :=
  every_node (fun x => freeVars (meta x) = free_vars x) e.

(** [preAllocate] makes [e'] of [e], on some heap. *)
Definition preallocates (e e' : ExprNode) : Prop :=
  exists heap heap', preAllocate e heap = Ok (e', heap').

(** *** Variables in scope *)

Definition names_of (env : Env) : gset string := list_to_set (map fst env).

(** The number of bindings that a layer has pushed on the environment
    of its frame: those of a Letrec whose first step is done. *)
Definition pushed (l : Layer) : nat :=
  match layer_expr l with
  | Some (LetrecNode _ varExprList _) =>
      if layer_pc l =? 0 then 0%nat else length varExprList
  | _ => 0%nat
  end.

(** The names that the layer [l] on the node [e] looks up or lets its
    subexpressions look up. *)
Definition in_scope (l : Layer) (e : ExprNode) : gset string :=
  free_vars e
  ∪ match e with
    | LetrecNode _ varExprList _ =>
        if layer_pc l =? 0 then ∅ else list_to_set (bound_names varExprList)
    | _ => ∅
    end.

(** Every layer finds its names in the environment of its frame, as
    the environment will be when the layer is on top again: without the
    [hidden] bindings that the layers above it in the frame have
    pushed. *)
Fixpoint scoped_stack (mem : Memory) (stk : list Layer) (hidden : nat) : Prop :=
  match stk with
  | [] => True
  | l :: below =>
      (exists env, mem !! layer_env l = Some env /\ (hidden <= length env)%nat
         /\ forall e, layer_expr l = Some e ->
              annotated e /\ in_scope l e ⊆ names_of (take (length env - hidden) env))
      /\ scoped_stack mem below
           (if layer_frame l then 0%nat else (hidden + pushed l)%nat)
  end.

(** A closure binds the free variables of its body, by its environment
    or as parameters. *)
Definition scoped_value (v : Value) : Prop :=
  match v with
  | Closure env fn =>
      annotated (lam_expr fn)
      /\ free_vars (lam_expr fn) ⊆ names_of env ∪ list_to_set (names (lam_varList fn))
  | _ => True
  end.

Definition scope_ok {H : Host} (c : Config H) : Prop :=
  Forall scoped_value (heap (state c))
  /\ scoped_stack (memory c) (stack (state c)) 0.

(** *** A closure over a binding of a Letrec *)

(** [letrec (x 5) ((lambda (y) x) x)] *)
Definition closure_in_letrec : ExprNode :=
  Syntax.ELetrec [("x", Syntax.EInt "5")]%string
    (Syntax.ECall (Syntax.ELambda ["y"%string] (Syntax.EVar "x")) [Syntax.EVar "x"]).

(** What a function of the parser returns satisfies [P]. *)
Definition yields {A} (P : A -> Prop) (p : parser A) : Prop :=
  forall tokens a rest, p tokens = Done (Ok (a, rest)) -> P a.

(** *** The nodes that the machine holds *)

(** The Lambda node of a closure. *)
Definition lambda_node (fn : Lambda) : ExprNode :=
  LambdaNode (lam_meta fn) (lam_varList fn) (lam_expr fn).

Definition closure_ok (P : ExprNode -> Prop) (v : Value) : Prop :=
  match v with
  | Closure _ fn => P (lambda_node fn)
  | _ => True
  end.

(** [P] holds of the node of every layer and of the Lambda of every
    closure of the heap. *)
Definition nodes_ok {H : Host} (P : ExprNode -> Prop) (c : Config H) : Prop :=
  Forall (fun l => forall e, layer_expr l = Some e -> P e) (stack (state c))
  /\ Forall (closure_ok P) (heap (state c)).

(** The nodes of the tree [root]. *)
Inductive node_of (root : ExprNode) : ExprNode -> Prop :=
| node_root : node_of root root
| node_child e x : node_of root e -> In x (children e) -> node_of root x.

(** The literal that a node is, and its location. *)
Definition own_lit (e : ExprNode) : list (bool * string) :=
  match e with
  | IntegerNode _ val _ => [(true, val)]
  | StringNode _ val _ => [(false, val)]
  | _ => []
  end.

Definition own_loc (e : ExprNode) : list Location :=
  match e with
  | IntegerNode _ _ loc | StringNode _ _ loc => [loc]
  | _ => []
  end.

(** The slot [loc] of [heap] holds the value of the literal [l]. *)
Definition holds_literal (heap : list Value) (loc : Location) (l : bool * string) : Prop :=
  exists v, literal_value l = Ok v /\ vec_at heap loc = Some v.

(** Every literal of [e] has the location of its value in [heap]. *)
Definition literals_at (heap : list Value) (e : ExprNode) : Prop :=
  Forall2 (holds_literal heap) (literal_locs e) (literals e).

(** *** The stack trace *)

(** [_getFrameSLs]: the source locations of the frames, from the
    bottom of the stack; the main frame counts as line 1, column 1. *)
Definition _getFrameSLs (s : State) : list SourceLocation :=
  flat_map (fun l =>
              if layer_frame l then
                match layer_expr l with
                | None => [mkSL 1 1]
                | Some e => [sl (meta e)]
                end
              else [])
           (rev (stack s)).

Definition trace_line (l : SourceLocation) : string :=
  ("calling function body at " ++ SourceLocation_toString l
   ++ String ch_newline EmptyString)%string.

(** [_errorStack]: what it writes to [std::cerr]. *)
Definition _errorStack (s : State) : string :=
  (String ch_newline (">>> stack trace printed below" ++ String ch_newline EmptyString)
   ++ fold_right (fun l out => trace_line l ++ out) EmptyString (_getFrameSLs s))%string.

(** The frames of a stack, the main frame apart, evaluate bodies of
    Lambdas of the tree [root]. *)
Definition frame_bodies (root : ExprNode) (stk : list Layer) : Prop :=
  Forall (fun l => layer_frame l = true ->
            forall x, layer_expr l = Some x ->
              exists m varList, node_of root (LambdaNode m varList x)) stk.

(** The location that [_getFrameSLs] lists for a frame. *)
Definition frame_sl (l : Layer) : SourceLocation :=
  match layer_expr l with
  | None => mkSL 1 1
  | Some e => sl (meta e)
  end.

(** The frames of a stack, from its bottom. *)
Definition frames_of (stk : list Layer) : list Layer := rev (List.filter layer_frame stk).

(** The closure that the next step calls, with the tail mark of the
    call: the top layer is at the call step of an ExprCall, and the
    location of the callee, the first of its locals, holds a closure. *)
Definition callee {H : Host} (c : Config H) : option (bool * Lambda) :=
  match stack (state c) with
  | layer :: _ =>
      match layer_expr layer with
      | Some (ExprCallNode m _ argList) =>
          let s := state c in
          let pc := layer_pc layer in
          let n := zlen argList in
          let layer :=
            if (2 <? pc) && (pc <=? n + 2) then push_local layer (resultLoc s) else layer in
          if pc =? n + 2 then
            match vec_at (layer_local layer) 0 with
            | Some exprLoc =>
                match vec_at (heap s) exprLoc with
                | Some (Closure _ fn) => Some (tail m, fn)
                | _ => None
                end
            | None => None
            end
          else None
      | _ => None
      end
  | [] => None
  end.

(** What a successful step does to the stack [layer :: below], by the
    call that it makes. *)
Definition call_move {H : Host} (c c' : Config H) (layer : Layer) (below : list Layer)
  : Prop :=
  match callee c with
  | Some (is_tail, fn) =>
      exists layer' r,
        same_layer layer layer'
        /\ if (is_tail : bool)
           then exists f rest,
                  pop_to_frame (layer' :: below) = Ok (f :: rest)
                  /\ stack (state c') = new_layer r (Some (lam_expr fn)) true :: rest
           else stack (state c') = new_layer r (Some (lam_expr fn)) true :: layer' :: below
  | None =>
      stack (state c') = below
      \/ exists layer',
           same_layer layer layer'
           /\ (stack (state c') = layer' :: below
               \/ exists r x, stack (state c') = new_layer r (Some x) false :: layer' :: below)
  end.

(** How a step changes the stack trace: a call adds the location of
    the body of the Lambda of the closure that is called at the end, a
    tail call after it has removed the last entry, which is never that
    of the main frame; a step that makes no call leaves the trace as it
    is or, when it pops a frame, removes its last entry. *)
Definition trace_step {H : Host} (c c' : Config H) : Prop :=
  match callee c with
  | Some (is_tail, fn) =>
      node_of (st_expr (state c)) (lambda_node fn)
      /\ if (is_tail : bool)
         then exists older last,
                _getFrameSLs (state c) = mkSL 1 1 :: older ++ [last]
                /\ _getFrameSLs (state c')
                   = mkSL 1 1 :: older ++ [sl (meta (lam_expr fn))]
         else _getFrameSLs (state c')
              = _getFrameSLs (state c) ++ [sl (meta (lam_expr fn))]
  | None =>
      _getFrameSLs (state c') = _getFrameSLs (state c)
      \/ exists layer below,
           stack (state c) = layer :: below /\ layer_frame layer = true
           /\ stack (state c') = below
           /\ _getFrameSLs (state c) = _getFrameSLs (state c') ++ [frame_sl layer]
  end.

(** *** Where the tokens are *)

(** What is open after the white space and the comments of [s], read
    inside a comment or not: [Some true] inside a comment, [Some false]
    outside; [None] when [s] has a character of another kind. *)
Fixpoint after_blank (in_comment : bool) (s : string) : option bool :=
  match s with
  | EmptyString => Some in_comment
  | String c s' =>
      if in_comment then after_blank (negb (Ascii.eqb c ch_newline)) s'
      else if is_space c then after_blank false s'
      else if Ascii.eqb c "#" then after_blank true s'
      else None
  end.

(** The tokens are in the text [src], which starts at the location
    [l], in their order, with white space and comments before them,
    between them and after them, and each token has the location of
    its first character. *)
Fixpoint tokens_in (l : SourceLocation) (src : string) (tokens : list Token) : Prop :=
  match tokens with
  | [] => is_Some (after_blank false src)
  | t :: ts =>
      exists skipped rest,
        src = (skipped ++ tok_text t ++ rest)%string
        /\ after_blank false skipped = Some false
        /\ tok_sl t = advance l skipped
        /\ tokens_in (advance (tok_sl t) (tok_text t)) rest ts
  end.

(** What [nextToken] has read when it returns. *)
Definition nextToken_at (ss : SourceStream) (o : outcome (option Token * SourceStream))
  : Prop :=
  match o with
  | Done (Ok (Some t, ss')) =>
      exists skipped,
        ss_source ss = (skipped ++ tok_text t ++ ss_source ss')%string
        /\ after_blank false skipped = Some false
        /\ tok_sl t = advance (ss_sl ss) skipped
        /\ ss_sl ss' = advance (tok_sl t) (tok_text t)
        /\ exists c0 s0, tok_text t = String c0 s0 /\ is_space c0 = false
  | Done (Ok (None, ss')) => is_Some (after_blank false (ss_source ss))
  | _ => True
  end.

(** * Properties *)

Ltac rsimpl :=
  repeat (unfold mbind, mret, result_bind, result_ret, rbind, panic in *; cbn beta iota).

(** ** Intrinsics *)

Section Intrinsics.

Context (H : Host).
Implicit Types (h : list Value) (w : World H) (sl : SourceLocation).

Lemma get_Integer_at h args i a x :
  vec_at args i = Some a -> heap_at h a = Ok (Integer x) ->
  get_Integer h args i = Ok x.
Proof.
  intros Ha Hv. unfold get_Integer, arg_at. rewrite Ha. rsimpl. by rewrite Hv.
Qed.

Lemma get_String_at h args i a x :
  vec_at args i = Some a -> heap_at h a = Ok (StringV x) ->
  get_String h args i = Ok x.
Proof.
  intros Ha Hv. unfold get_String, arg_at. rewrite Ha. rsimpl. by rewrite Hv.
Qed.

Lemma typecheck_2 h sl t0 t1 a0 a1 v0 v1 :
  heap_at h a0 = Ok v0 -> heap_at h a1 = Ok v1 ->
  holds_alternative t0 v0 = true -> holds_alternative t1 v1 = true ->
  _typecheck h sl [t0; t1] [a0; a1] = Ok tt.
Proof.
  intros H0 H1 T0 T1. unfold _typecheck. cbn [length Nat.eqb typecheck_fold].
  rsimpl. rewrite H0, H1.
  destruct t0, t1; cbn in *; rewrite ?T0, ?T1; reflexivity.
Qed.

Lemma int_binop_eval h sl a0 a1 x y w f :
  heap_at h a0 = Ok (Integer x) -> heap_at h a1 = Ok (Integer y) ->
  int_binop H h sl [a0; a1] w f = (v ← f x y; Ok (v, w)).
Proof.
  intros H0 H1. unfold int_binop.
  rewrite (typecheck_2 h sl _ _ _ _ _ _ H0 H1) by reflexivity.
  rewrite (get_Integer_at h _ 0 a0 x), (get_Integer_at h _ 1 a1 y) by done.
  reflexivity.
Qed.

Lemma str_binop_eval h sl a0 a1 x y w f :
  heap_at h a0 = Ok (StringV x) -> heap_at h a1 = Ok (StringV y) ->
  str_binop H h sl [a0; a1] w f = Ok (f x y, w).
Proof.
  intros H0 H1. unfold str_binop.
  rewrite (typecheck_2 h sl _ _ _ _ _ _ H0 H1) by reflexivity.
  rewrite (get_String_at h _ 0 a0 x), (get_String_at h _ 1 a1 y) by done.
  reflexivity.
Qed.

Lemma int_arith_in z : in_int z -> int_arith z = Ok z.
Proof.
  unfold in_int, int_arith. intros [Hl Hu].
  apply Z.leb_le in Hl, Hu. by rewrite Hl, Hu.
Qed.

Lemma int_arith_out z : ~ in_int z -> int_arith z = Err (Undefined overflow).
Proof.
  unfold in_int, int_arith. intros Hz.
  destruct (Z.leb_spec INT_MIN z), (Z.leb_spec z INT_MAX); try done. lia.
Qed.

Lemma quot_in_int x y :
  in_int x -> in_int y -> y <> 0 -> (in_int (x ÷ y) <-> ~ (x = INT_MIN /\ y = -1)).
Proof.
  unfold in_int, INT_MIN, INT_MAX. intros Hx Hy Hy0. split.
  - intros Hq [-> ->]. revert Hq. vm_compute. intros [_ Hq]. by apply Hq.
  - intros Hov.
    pose proof (Z.quot_rem' x y) as E.
    pose proof (Z.rem_bound_abs x y Hy0) as B.
    assert (Hq : Z.abs (x ÷ y) <= Z.abs x).
    { rewrite <- Z.quot_abs by lia. apply Z.quot_le_upper_bound; nia. }
    destruct (Z.eq_dec y (-1)) as [->|Hne].
    + change (-1) with (- (1)). rewrite Z.quot_opp_r, Z.quot_1_r by lia. lia.
    + destruct (Z.eq_dec (x ÷ y) (2 ^ 31)) as [Eq|]; [|lia].
      exfalso. rewrite Eq in *. nia.
Qed.

Lemma rem_in_int x y : in_int x -> in_int y -> y <> 0 -> in_int (Z.rem x y).
Proof.
  unfold in_int, INT_MIN, INT_MAX. intros Hx Hy Hy0.
  pose proof (Z.rem_bound_abs x y Hy0). lia.
Qed.

(** The five arithmetic intrinsics on two Integers. *)
Lemma arithmetic_eval h sl a0 a1 x y w :
  heap_at h a0 = Ok (Integer x) -> heap_at h a1 = Ok (Integer y) ->
  _callIntrinsic H h sl ".+" [a0; a1] w = (v ← int_arith (x + y); Ok (Integer v, w))
  /\ _callIntrinsic H h sl ".-" [a0; a1] w = (v ← int_arith (x - y); Ok (Integer v, w))
  /\ _callIntrinsic H h sl ".*" [a0; a1] w = (v ← int_arith (x * y); Ok (Integer v, w))
  /\ _callIntrinsic H h sl "./" [a0; a1] w
     = (if y =? 0 then panic "runtime" "division by zero" sl
        else v ← int_arith (x ÷ y); Ok (Integer v, w))
  /\ _callIntrinsic H h sl ".%" [a0; a1] w
     = (if y =? 0 then panic "runtime" "division by zero" sl
        else _ ← int_arith (x ÷ y); Ok (Integer (Z.rem x y), w)).
Proof.
  intros H0 H1.
  change (_callIntrinsic H h sl ".+" [a0; a1] w)
    with (int_binop H h sl [a0; a1] w (fun a b => v ← int_arith (a + b); Ok (Integer v))).
  change (_callIntrinsic H h sl ".-" [a0; a1] w)
    with (int_binop H h sl [a0; a1] w (fun a b => v ← int_arith (a - b); Ok (Integer v))).
  change (_callIntrinsic H h sl ".*" [a0; a1] w)
    with (int_binop H h sl [a0; a1] w (fun a b => v ← int_arith (a * b); Ok (Integer v))).
  change (_callIntrinsic H h sl "./" [a0; a1] w)
    with (int_binop H h sl [a0; a1] w (fun a d =>
            if d =? 0 then panic "runtime" "division by zero" sl
            else v ← int_arith (a ÷ d); Ok (Integer v))).
  change (_callIntrinsic H h sl ".%" [a0; a1] w)
    with (int_binop H h sl [a0; a1] w (fun a d =>
            if d =? 0 then panic "runtime" "division by zero" sl
            else _ ← int_arith (a ÷ d); Ok (Integer (Z.rem a d)))).
  rewrite !(int_binop_eval h sl a0 a1 x y w) by assumption.
  repeat split; rsimpl; try by destruct (int_arith _).
  all: destruct (y =? 0); [done|]; by destruct (int_arith _).
Qed.

(** C9 (amended): on two Integers, [.+], [.-] and [.*] return the
    Integer sum, difference and product and raise nothing whenever that
    result is an [int]; the code has no overflow check, and a result
    outside [int] is the signed overflow of the [int] operation.  [./]
    and [.%] raise the runtime error "division by zero" exactly when the
    divisor is 0; otherwise they return the quotient and the remainder
    of the truncating division whenever the quotient is an [int], which
    for two [int]s fails for [INT_MIN] by [-1] only. *)
Theorem arithmetic_without_overflow h sl a0 a1 x y w :
  heap_at h a0 = Ok (Integer x) -> heap_at h a1 = Ok (Integer y) ->
  let call name := _callIntrinsic H h sl name [a0; a1] w in
  let returns name z :=
    (in_int z -> call name = Ok (Integer z, w))
    /\ (~ in_int z -> call name = Err (Undefined overflow)) in
  returns ".+"%string (x + y)
  /\ returns ".-"%string (x - y)
  /\ returns ".*"%string (x * y)
  /\ (call "./"%string = Err (Panic "runtime" "division by zero" sl) <-> y = 0)
  /\ (call ".%"%string = Err (Panic "runtime" "division by zero" sl) <-> y = 0)
  /\ (y <> 0 -> returns "./"%string (x ÷ y))
  /\ (y <> 0 ->
      (in_int (x ÷ y) -> call ".%"%string = Ok (Integer (Z.rem x y), w))
      /\ (~ in_int (x ÷ y) -> call ".%"%string = Err (Undefined overflow)))
  /\ (in_int x -> in_int y -> y <> 0 ->
      (in_int (x ÷ y) <-> ~ (x = INT_MIN /\ y = -1)) /\ in_int (Z.rem x y)).
Proof.
  intros H0 H1 call returns. subst returns call. cbv beta.
  destruct (arithmetic_eval h sl a0 a1 x y w H0 H1) as (-> & -> & -> & -> & ->).
  assert (Hin : forall z, in_int z ->
            (v ← int_arith z; Ok (Integer v, w)) = Ok (Integer z, w))
    by (intros z Hz; by rewrite int_arith_in).
  assert (Hout : forall z, ~ in_int z ->
            (v ← int_arith z; Ok (Integer v, w)) = Err (Undefined overflow))
    by (intros z Hz; by rewrite int_arith_out).
  repeat (split; [split; [apply Hin|apply Hout]|]).
  destruct (Z.eqb_spec y 0) as [Hy|Hy].
  - repeat (split; [done|]). done.
  - assert (Hdiv : (v ← int_arith (x ÷ y); Ok (Integer v, w))
                   <> Err (Panic "runtime" "division by zero" sl))
      by (unfold int_arith; by destruct (_ && _)).
    assert (Hrem : (_ ← int_arith (x ÷ y); Ok (Integer (Z.rem x y), w))
                   <> Err (Panic "runtime" "division by zero" sl))
      by (unfold int_arith; by destruct (_ && _)).
    split; [done|]. split; [done|].
    split; [intros _; split; [apply Hin|apply Hout]|].
    split.
    + intros _. split; intros Hq.
      * by rewrite int_arith_in.
      * by rewrite int_arith_out.
    + intros Hx Hy' _. split; [by apply quot_in_int|by apply rem_in_int].
Qed.

(** Unfolds the dispatch of [_callIntrinsic] on a literal name. *)
Ltac dispatch_in Hc :=
  unfold _callIntrinsic in Hc;
  repeat match type of Hc with
         | context [String.eqb ?a ?b] =>
             let r := eval vm_compute in (String.eqb a b) in
             change (String.eqb a b) with r in Hc
         end;
  cbv iota in Hc.

Ltac dispatch :=
  unfold _callIntrinsic;
  repeat match goal with
         | |- context [String.eqb ?a ?b] =>
             let r := eval vm_compute in (String.eqb a b) in
             change (String.eqb a b) with r
         end;
  cbv iota.

Ltac inv_bind Hc :=
  repeat (unfold mbind, result_bind in Hc;
          match type of Hc with
          | rbind ?r _ = Ok _ =>
              let E := fresh "E" in
              destruct r eqn:E; cbn [rbind] in Hc; [|discriminate Hc]
          end).

Definition comparison_intrinsics : list string :=
  [".<"; ".<="; ".>"; ".>="; ".="; "./="; ".and"; ".or"; ".not";
   ".s<"; ".s<="; ".s>"; ".s>="; ".s="; ".s/="]%string.

Lemma bool_to_Integer_01 b :
  bool_to_Integer b = Integer 0 \/ bool_to_Integer b = Integer 1.
Proof. destruct b; auto. Qed.

(** C10: whenever one of the integer comparisons, the logical
    operations or the string comparisons returns, the value is the
    Integer 0 or the Integer 1; [.and], [.or] and [.not] read every
    nonzero Integer as true. *)
Theorem comparison_results_are_0_or_1 name h sl args w v w' :
  name ∈ comparison_intrinsics ->
  _callIntrinsic H h sl name args w = Ok (v, w') ->
  (v = Integer 0 \/ v = Integer 1)
  /\ (forall p0 p1 x y, args = [p0; p1] ->
        heap_at h p0 = Ok (Integer x) -> heap_at h p1 = Ok (Integer y) ->
        (name = ".and"%string -> v = Integer (if decide (x <> 0 /\ y <> 0) then 1 else 0))
        /\ (name = ".or"%string -> v = Integer (if decide (x <> 0 \/ y <> 0) then 1 else 0)))
  /\ (forall p0 x, args = [p0] -> heap_at h p0 = Ok (Integer x) ->
        name = ".not"%string -> v = Integer (if decide (x <> 0) then 0 else 1)).
Proof.
  intros Hin Hc. unfold comparison_intrinsics in Hin.
  repeat (apply elem_of_cons in Hin as [-> | Hin]);
    [ .. | by apply elem_of_nil in Hin ];
    dispatch_in Hc; unfold int_binop, str_binop in Hc; inv_bind Hc;
    injection Hc as <- <-;
    (split; [first [apply bool_to_Integer_01 | destruct (truthy _); auto] |]);
    (split; [intros p0 p1 x y -> H0 H1; split; intros Hn; try discriminate Hn;
             pose proof (get_Integer_at h [p0; p1] 0 p0 x eq_refl H0) as G0;
             pose proof (get_Integer_at h [p0; p1] 1 p1 y eq_refl H1) as G1
            | intros p0 x -> H0 Hn; try discriminate Hn;
              pose proof (get_Integer_at h [p0] 0 p0 x eq_refl H0) as G0]);
    repeat match goal with
           | E : get_Integer _ _ _ = Ok _ |- _ =>
               first [rewrite G0 in E | rewrite G1 in E]; injection E as <-
           | E : Ok _ = Ok _ |- _ => injection E as <-
           end;
    unfold bool_to_Integer, truthy;
    repeat match goal with
           | |- context [?a =? 0] => destruct (Z.eqb_spec a 0)
           end;
    cbn; case_decide; (reflexivity || lia).
Qed.

(** C7: [.type] on one value returns the Integer 0 for Void, 1 for an
    Integer and 2 for every other value (a String as well as a
    Closure), and raises nothing. *)
Theorem type_tag h sl a v w :
  heap_at h a = Ok v ->
  _callIntrinsic H h sl ".type" [a] w =
    Ok (Integer match v with
                | Void => 0
                | Integer _ => 1
                | StringV _ | Closure _ _ => 2
                end, w).
Proof.
  intros Hv. dispatch. unfold _typecheck.
  cbn [length Nat.eqb typecheck_fold]. rsimpl.
  unfold arg_at. change (vec_at [a] 0) with (Some a). rsimpl.
  rewrite Hv. destruct v; reflexivity.
Qed.

Lemma substring_nil n m : String.substring n m EmptyString = EmptyString.
Proof. destruct n, m; reflexivity. Qed.

Lemma substring_within (s : string) : forall l k m,
  (l + k <= m)%nat ->
  String.substring l k (String.substring 0 m s) = String.substring l k s.
Proof.
  induction s as [|c s IH]; intros l k m Hle.
  - by rewrite !substring_nil.
  - destruct m as [|m].
    + assert (l = 0 /\ k = 0)%nat as [-> ->] by lia. reflexivity.
    + cbn [String.substring]. destruct l as [|l].
      * destruct k as [|k]; [reflexivity|].
        cbn [String.substring]. f_equal. apply (IH 0%nat k m). lia.
      * cbn [String.substring]. apply IH. lia.
Qed.

(** C6: on a String [s] and Integers [l], [r], [.s[]] raises the runtime
    error "invalid substring range" exactly when [0 <= l <= r < |s|]
    fails, which is always the case for the empty string; otherwise it
    returns the [r - l] characters of [s] from index [l], a substring
    that lies within [s] without its last character. *)
Theorem substring_range h sl a0 a1 a2 s l r w :
  heap_at h a0 = Ok (StringV s) ->
  heap_at h a1 = Ok (Integer l) ->
  heap_at h a2 = Ok (Integer r) ->
  let n := Z.of_nat (String.length s) in
  let call := _callIntrinsic H h sl ".s[]" [a0; a1; a2] w in
  (call = Err (Panic "runtime" "invalid substring range" sl) <-> ~ (0 <= l <= r /\ r < n))
  /\ (0 <= l <= r /\ r < n ->
      call = Ok (StringV (String.substring (Z.to_nat l) (Z.to_nat (r - l)) s), w)
      /\ String.substring (Z.to_nat l) (Z.to_nat (r - l)) s
         = String.substring (Z.to_nat l) (Z.to_nat (r - l))
             (String.substring 0 (Z.to_nat (n - 1)) s))
  /\ (s = EmptyString -> call = Err (Panic "runtime" "invalid substring range" sl)).
Proof.
  intros H0 H1 H2 n call.
  assert (Hcall : call =
    if negb (((0 <=? l) && (l <? n)) && ((0 <=? r) && (r <? n)) && (l <=? r))
    then Err (Panic "runtime" "invalid substring range" sl)
    else Ok (StringV (String.substring (Z.to_nat l) (Z.to_nat (r - l)) s), w)).
  { subst call. dispatch. unfold _typecheck.
    cbn [length Nat.eqb typecheck_fold]. rsimpl.
    rewrite H0, H1, H2. cbn [holds_alternative].
    rewrite (get_String_at h _ 0 a0 s), (get_Integer_at h _ 1 a1 l),
      (get_Integer_at h _ 2 a2 r) by done.
    reflexivity. }
  rewrite Hcall. clear Hcall call.
  destruct (Z.leb_spec 0 l), (Z.ltb_spec l n), (Z.leb_spec 0 r), (Z.ltb_spec r n),
    (Z.leb_spec l r); cbn [andb negb];
    (split; [split; [intros; try discriminate; lia | intros; try reflexivity; lia]
            |split; [intros; try lia | intros ->; cbn in *; try reflexivity; lia]]).
  split; [reflexivity|]. symmetry. apply substring_within. lia.
Qed.

End Intrinsics.

(** C9, as stated, fails: [.+] on two [int]s does not always return an
    Integer, and [./] with a divisor other than 0 does not always return
    the quotient.  The sum of [INT_MAX] and 1 and the quotient of
    [INT_MIN] by -1 are not [int]s, and the [int] operations of the
    code overflow. *)
Lemma arithmetic_totality_counterexample :
  ~ (forall (H : Host) h sl a0 a1 x y w,
       in_int x -> in_int y ->
       heap_at h a0 = Ok (Integer x) -> heap_at h a1 = Ok (Integer y) ->
       exists z, _callIntrinsic H h sl ".+" [a0; a1] w = Ok (Integer z, w))
  /\ ~ (forall (H : Host) h sl a0 a1 x y w,
       in_int x -> in_int y -> y <> 0 ->
       heap_at h a0 = Ok (Integer x) -> heap_at h a1 = Ok (Integer y) ->
       exists z, _callIntrinsic H h sl "./" [a0; a1] w = Ok (Integer z, w)
                 /\ _callIntrinsic H h sl ".%" [a0; a1] w = Ok (Integer (Z.rem x y), w)).
Proof.
  assert (Hmax : in_int INT_MAX) by (vm_compute; split; discriminate).
  assert (Hmin : in_int INT_MIN) by (vm_compute; split; discriminate).
  assert (H1 : in_int 1) by (vm_compute; split; discriminate).
  assert (Hm1 : in_int (-1)) by (vm_compute; split; discriminate).
  split; intros Hclaim.
  - destruct (Hclaim no_host [Integer INT_MAX; Integer 1] noSL 0 1 INT_MAX 1 tt
                Hmax H1 eq_refl eq_refl) as [z Hz].
    vm_compute in Hz. discriminate Hz.
  - destruct (Hclaim no_host [Integer INT_MIN; Integer (-1)] noSL 0 1 INT_MIN (-1) tt
                Hmin Hm1 ltac:(lia) eq_refl eq_refl) as [z [Hz _]].
    vm_compute in Hz. discriminate Hz.
Qed.

(** ** Quoting and unquoting *)

Section QuoteUnquote.

Lemma string_app_cons c (s t : string) :
  (String c s ++ t)%string = String c (s ++ t).
Proof. reflexivity. Qed.

Lemma string_app_nil_l (t : string) : (EmptyString ++ t)%string = t.
Proof. reflexivity. Qed.

Lemma push_back_app r c t :
  (push_back r c ++ t = r ++ String c t)%string.
Proof.
  unfold push_back. induction r as [|a r IH].
  - reflexivity.
  - rewrite !string_app_cons, IH. reflexivity.
Qed.

Lemma string_app_nil (s : string) : (s ++ EmptyString)%string = s.
Proof.
  induction s as [|c s IH]; [done|]. by rewrite string_app_cons, IH.
Qed.

Lemma string_app_assoc (a b c : string) :
  ((a ++ b) ++ c = a ++ (b ++ c))%string.
Proof.
  induction a as [|x a IH]; [done|]. by rewrite !string_app_cons, IH.
Qed.

Lemma string_length_app (a b : string) :
  String.length (a ++ b) = (String.length a + String.length b)%nat.
Proof.
  induction a as [|x a IH]; [done|].
  rewrite string_app_cons. simpl. by rewrite IH.
Qed.

Lemma quote_loop_escaped s : forall r, quote_loop s r = (r ++ escaped s)%string.
Proof.
  induction s as [|c s IH]; intros r; simpl.
  - by rewrite string_app_nil.
  - destruct (Ascii.eqb c ch_backslash); [|destruct (Ascii.eqb c ch_dquote)];
      rewrite IH, ?push_back_app; reflexivity.
Qed.

Lemma quote_shape s :
  quote s = String ch_dquote (escaped s ++ String ch_dquote EmptyString).
Proof.
  unfold quote. rewrite quote_loop_escaped. unfold push_back.
  rewrite string_app_nil_l, string_app_cons. reflexivity.
Qed.


Lemma get_app_last (a : string) c :
  String.get (String.length a) (a ++ String c EmptyString) = Some c.
Proof. induction a as [|x a IH]; [done|]. rewrite string_app_cons. simpl. exact IH. Qed.

Lemma substring_prefix (a b : string) :
  String.substring 0 (String.length a) (a ++ b) = a.
Proof.
  induction a as [|x a IH].
  - simpl. by destruct b.
  - rewrite string_app_cons. simpl. by rewrite IH.
Qed.


Context (H : Host).





End QuoteUnquote.

(** ** Closure capture *)

Section Capture.

Implicit Types (env renv : Env) (fv used : gset string) (x : string).

Lemma capture_loop_pick renv : forall used saved,
  capture_loop renv used saved = saved ++ pick renv used.
Proof.
  induction renv as [|p renv IH]; intros used saved; cbn.
  - by rewrite app_nil_r.
  - destruct (decide (used = ∅)); [by rewrite app_nil_r|].
    destruct (decide (p.1 ∈ used)); [|apply IH].
    rewrite IH, <- app_assoc. reflexivity.
Qed.

Lemma capture_pick env fv : capture env fv = rev (pick (rev env) fv).
Proof. unfold capture. by rewrite capture_loop_pick. Qed.

Lemma pick_sublist renv : forall used, pick renv used `sublist_of` renv.
Proof.
  induction renv as [|p renv IH]; intros used; cbn; [constructor|].
  destruct (decide (used = ∅)); [apply sublist_nil_l|].
  destruct (decide (p.1 ∈ used)).
  - apply sublist_skip, IH.
  - apply sublist_cons, IH.
Qed.

Lemma pick_names renv : forall used p, p ∈ pick renv used -> p.1 ∈ used.
Proof.
  induction renv as [|q renv IH]; intros used p; cbn; [by intros ?%elem_of_nil|].
  destruct (decide (used = ∅)); [by intros ?%elem_of_nil|].
  destruct (decide (q.1 ∈ used)).
  - intros [->|Hin]%elem_of_cons; [done|]. pose proof (IH _ _ Hin). set_solver.
  - apply IH.
Qed.

Lemma pick_NoDup renv : forall used, NoDup (map fst (pick renv used)).
Proof.
  induction renv as [|q renv IH]; intros used; cbn; [constructor|].
  destruct (decide (used = ∅)); [constructor|].
  destruct (decide (q.1 ∈ used)); [|apply IH].
  cbn. constructor; [|apply IH].
  intros Hin. apply list_elem_of_In, in_map_iff in Hin as (p & Hp & Hin').
  pose proof (pick_names _ _ _ (proj2 (list_elem_of_In _ _) Hin')). set_solver.
Qed.

Lemma pick_find renv x : forall used,
  x ∈ used ->
  find (fun p => String.eqb (fst p) x) (pick renv used)
  = find (fun p => String.eqb (fst p) x) renv.
Proof.
  induction renv as [|q renv IH]; intros used Hx; cbn; [done|].
  destruct (decide (used = ∅)); [set_solver|].
  destruct (decide (q.1 ∈ used)) as [Hq|Hq].
  - cbn. destruct (String.eqb_spec q.1 x); [done|]. apply IH. set_solver.
  - destruct (String.eqb_spec q.1 x); [congruence|]. by apply IH.
Qed.

Lemma sublist_rev {A} (l1 l2 : list A) :
  l1 `sublist_of` l2 -> rev l1 `sublist_of` rev l2.
Proof.
  induction 1; cbn.
  - constructor.
  - by apply sublist_app.
  - apply sublist_inserts_r. done.
Qed.

Lemma lookup_env_bound x env : x ∈ map fst env <-> is_Some (lookup_env x env).
Proof.
  unfold lookup_env. split.
  - intros Hin. apply list_elem_of_In, in_map_iff in Hin as (p & <- & Hin).
    destruct (find _ (rev env)) eqn:E; [by eexists|].
    eapply find_none in E; [|apply in_rev; rewrite rev_involutive; exact Hin].
    cbn in E. by rewrite String.eqb_refl in E.
  - intros [l Hl]. destruct (find _ (rev env)) as [p|] eqn:E; [|done].
    apply find_some in E as [Hin Heq]. apply in_rev in Hin.
    apply String.eqb_eq in Heq as <-.
    apply list_elem_of_In, in_map_iff. eauto.
Qed.

Lemma capture_lookup env fv x :
  x ∈ fv -> lookup_env x (capture env fv) = lookup_env x env.
Proof.
  intros Hx. unfold lookup_env.
  by rewrite capture_pick, rev_involutive, pick_find.
Qed.

Lemma capture_names env fv x :
  x ∈ map fst (capture env fv) <-> x ∈ fv /\ x ∈ map fst env.
Proof.
  split.
  - intros Hin. apply list_elem_of_In, in_map_iff in Hin as (p & <- & Hin).
    rewrite capture_pick in Hin. apply in_rev, list_elem_of_In in Hin.
    split; [by eapply pick_names|].
    apply list_elem_of_In, in_map_iff. exists p. split; [done|].
    apply in_rev, list_elem_of_In. eapply elem_of_sublist; [done | apply pick_sublist].
  - intros [Hfv Hin]. apply lookup_env_bound. rewrite capture_lookup by done.
    by apply lookup_env_bound.
Qed.

Lemma capture_NoDup env fv : NoDup (map fst (capture env fv)).
Proof.
  rewrite capture_pick, map_rev. apply NoDup_ListNoDup, List.NoDup_rev, NoDup_ListNoDup.
  apply pick_NoDup.
Qed.

Lemma count_name_NoDup x env :
  NoDup (map fst env) ->
  count_name x env = if decide (x ∈ map fst env) then 1%nat else 0%nat.
Proof.
  unfold count_name. induction env as [|p env IH]; cbn; intros Hnd.
  - case_decide as Hin; [by apply elem_of_nil in Hin|done].
  - apply NoDup_cons in Hnd as [Hp Hnd]. specialize (IH Hnd).
    destruct (String.eqb_spec p.1 x) as [<-|Hne].
    + cbn. rewrite IH. rewrite decide_False by done.
      rewrite decide_True by constructor. done.
    + rewrite IH. repeat case_decide; try done.
      * exfalso. set_solver.
      * exfalso. set_solver.
Qed.

Lemma pick_empty renv : pick renv ∅ = [].
Proof. destruct renv; cbn; [done|]. by rewrite decide_True. Qed.

Lemma pick_app r1 : forall r2 used,
  pick (r1 ++ r2) used
  = pick r1 used ++ pick r2 (used ∖ list_to_set (map fst r1)).
Proof.
  induction r1 as [|p r1 IH]; intros r2 used; cbn.
  - f_equal. set_solver.
  - destruct (decide (used = ∅)) as [->|Hne].
    + cbn. replace (∅ ∖ _ : gset string) with (∅ : gset string) by set_solver.
      by rewrite pick_empty.
    + destruct (decide (p.1 ∈ used)).
      * cbn. rewrite IH. do 3 f_equal. set_solver.
      * rewrite IH. do 2 f_equal. set_solver.
Qed.

(** The scan stops once every free name has been found: bindings older
    than that are not looked at. *)
Lemma capture_stops older newer fv :
  (forall x, x ∈ fv -> x ∈ map fst newer) ->
  capture (older ++ newer) fv = capture newer fv.
Proof.
  intros Hall. rewrite !capture_pick, rev_app_distr, pick_app.
  replace (fv ∖ list_to_set (map fst (rev newer))) with (∅ : gset string).
  - by rewrite pick_empty, app_nil_r.
  - symmetry. apply set_eq. intros x. split; [|set_solver].
    intros [Hx Hn]%elem_of_difference. exfalso. apply Hn.
    apply elem_of_list_to_set. rewrite map_rev.
    apply list_elem_of_In, in_rev. rewrite rev_involutive.
    apply list_elem_of_In, Hall, Hx.
Qed.

Context (H : Host).

(** C5 (amended): evaluating a Lambda node allocates a Closure whose
    environment is a subsequence of the current one, in its order, that
    holds exactly one binding for each free variable of the node that
    the current environment binds (its newest binding), none for a free
    variable that is unbound there, and none for any other name; the
    bindings older than the point where every free name has been found
    play no part. *)
Theorem lambda_capture (c : Config H) layer below m varList expr env :
  stack (state c) = layer :: below ->
  layer_expr layer = Some (LambdaNode m varList expr) ->
  memory c !! layer_env layer = Some env ->
  let saved := capture env (freeVars m) in
  step H c = Ok (true,
    mkConfig (world c) (memory c)
      (mkState (st_expr (state c)) below
               (heap (state c) ++ [Closure saved (mkLambda m varList expr)])
               (numLiterals (state c)) (zlen (heap (state c)))))
  /\ saved `sublist_of` env
  /\ (forall x, count_name x saved
                = if decide (x ∈ freeVars m /\ x ∈ map fst env) then 1%nat else 0%nat)
  /\ (forall x, x ∈ freeVars m -> lookup_env x saved = lookup_env x env)
  /\ (forall older newer, env = older ++ newer ->
        (forall x, x ∈ freeVars m -> x ∈ map fst newer) ->
        saved = capture newer (freeVars m)).
Proof.
  intros Hstk Hexpr Henv saved. repeat split.
  - unfold step. rewrite Hstk, Hexpr. unfold step_Lambda, deref.
    rewrite Henv. reflexivity.
  - subst saved. rewrite capture_pick.
    rewrite <- (rev_involutive env) at 2. apply sublist_rev, pick_sublist.
  - intros x. rewrite count_name_NoDup by apply capture_NoDup.
    subst saved. repeat case_decide; try done; exfalso.
    + by apply H1, capture_names.
    + by apply H0, capture_names.
  - intros x Hx. by apply capture_lookup.
  - intros older newer -> Hall. by apply capture_stops.
Qed.

End Capture.

(** C5, as stated, fails: a Lambda whose free variable is not bound where
    it is evaluated captures no binding for it.  The program is
    [lambda () y]. *)
Lemma lambda_capture_unbound_counterexample :
  ~ (forall (H : Host) (c c' : Config H) layer below m varList expr env fn,
       stack (state c) = layer :: below ->
       layer_expr layer = Some (LambdaNode m varList expr) ->
       step H c = Ok (true, c') ->
       getResult (state c') = Ok (Closure env fn) ->
       forall x, x ∈ freeVars m -> count_name x env = 1%nat).
Proof.
  intros Hclaim.
  assert (exists (c c' : Config no_host) layer below m vl e env fn,
            stack (state c) = layer :: below
            /\ layer_expr layer = Some (LambdaNode m vl e)
            /\ step no_host c = Ok (true, c')
            /\ getResult (state c') = Ok (Closure env fn)
            /\ "y"%string ∈ freeVars m
            /\ count_name "y" env = 0%nat)
    as (c & c' & layer & below & m & vl & e & env & fn & H1 & H2 & H3 & H4 & H5 & H6).
  { destruct (boot no_host tt (Syntax.ELambda [] (Syntax.EVar "y")) 0) as [c|] eqn:Hboot;
      [|discriminate Hboot].
    exists c. do 8 eexists.
    vm_compute in Hboot. injection Hboot as <-.
    split; [reflexivity|]. split; [reflexivity|].
    split; [reflexivity|]. split; [reflexivity|].
    split; [|reflexivity]. vm_compute. reflexivity. }
  specialize (Hclaim no_host c c' layer below m vl e env fn H1 H2 H3 H4 _ H5).
  congruence.
Qed.

(** ** Copying a State *)

(** C1 fails on the code: the copy constructor copies the stack layer by
    layer, and a copied layer holds the same [shared_ptr], so the copy and
    the original share every environment.  For
    [letrec (y 1) { letrec (y 2) 0 y }]: the original alone prints 1; when
    it is copied after five steps and the copy makes one step (its inner
    Letrec binds y), the environment that the original reads has changed
    and the original prints 2. *)
Lemma copy_shares_environments :
  exists c0 c1 : Config no_host,
    (c ← boot no_host tt Examples.shadow 0; steps 5 c) = Ok c0
    /\ printed no_host (run no_host 100 c0) = Done (Ok "1"%string)
    /\ step no_host (copy_of c0) = Ok (true, c1)
    /\ map layer_env (stack (state c1)) = map layer_env (stack (state c0))
    /\ memory c0 = [[("y"%string, 3)]]
    /\ memory c1 = [[("y"%string, 3); ("y"%string, 4)]]
    /\ printed no_host (run no_host 100 (resume_in c0 c1)) = Done (Ok "2"%string).
Proof.
  destruct (c ← boot no_host tt Examples.shadow 0; steps 5 c) as [c0|] eqn:E0;
    [|by vm_compute in E0].
  destruct (step no_host (copy_of c0)) as [[b c1]|] eqn:E1.
  2:{ vm_compute in E0. injection E0 as <-. by vm_compute in E1. }
  exists c0, c1. vm_compute in E0. injection E0 as <-.
  vm_compute in E1. injection E1 as <- <-.
  repeat split; vm_compute; reflexivity.
Qed.

(** ** Collection and the uninitialised result location *)

(** C2 fails on the code: [resultLoc] has no initialiser, and [_mark]
    reads it.  A Letrec of 65 bindings at the root makes the heap exceed
    the first threshold in the very first step, before any result has
    been published; with an indeterminate [resultLoc] outside the heap the
    collector indexes the heap out of range, while the run that never
    collects prints 0. *)
Lemma gc_reads_uninitialised_resultLoc :
  exists c : Config no_host,
    boot no_host tt (Examples.wide_letrec 65) (-1) = Ok c
    /\ printed no_host (run no_host 1000 c) = Done (Ok "0"%string)
    /\ execute no_host 1000 c = Done (Err (Undefined "heap index out of range")).
Proof.
  destruct (boot no_host tt (Examples.wide_letrec 65) (-1)) as [c|] eqn:E0;
    [|by vm_compute in E0].
  exists c. vm_compute in E0. injection E0 as <-.
  repeat split; vm_compute; reflexivity.
Qed.

(** ** The call step and tail calls *)

Section TailCall.

Context (H : Host).

Lemma vec_at_Some {A} (v : list A) i x :
  vec_at v i = Some x <-> 0 <= i /\ v !! Z.to_nat i = Some x.
Proof.
  unfold vec_at. destruct (Z.ltb_spec i 0).
  - split; [done | intros [? _]; lia].
  - split; [intros ?; split; [lia|done] | intros [_ ?]; done].
Qed.

Lemma vec_at_lt {A} (v : list A) i : 0 <= i < zlen v -> is_Some (vec_at v i).
Proof.
  intros Hi. unfold vec_at, zlen in *. destruct (Z.ltb_spec i 0); [lia|].
  apply lookup_lt_is_Some. lia.
Qed.

Lemma bind_params_ok varList : forall local i newEnv,
  0 <= i -> i + zlen varList + 1 <= zlen local ->
  bind_params varList local i newEnv
  = Ok (newEnv ++ combine (names varList)
                          (take (length varList) (drop (Z.to_nat (i + 1)) local))).
Proof.
  unfold zlen. induction varList as [|v varList IH]; intros local i newEnv Hi Hlen; cbn.
  - by rewrite app_nil_r.
  - destruct (vec_at_lt local (i + 1)) as [l Hl]; [unfold zlen; cbn in Hlen; lia|].
    rewrite Hl. rewrite IH by (cbn in Hlen; lia).
    apply vec_at_Some in Hl as [_ Hl].
    rewrite <- app_assoc. do 2 f_equal.
    rewrite (drop_S _ _ _ Hl). cbn.
    replace (Z.to_nat (i + 1 + 1)) with (S (Z.to_nat (i + 1))) by lia.
    reflexivity.
Qed.

Lemma pop_to_frame_split above f rest :
  Forall (fun l => layer_frame l = false) above -> layer_frame f = true ->
  pop_to_frame (above ++ f :: rest) = Ok (f :: rest).
Proof.
  induction 1 as [|l above Hl _ IH]; intros Hf; cbn.
  - by rewrite Hf.
  - rewrite Hl. by apply IH.
Qed.

Lemma frames_app a b : frames (a ++ b) = (frames a + frames b)%nat.
Proof. unfold frames. by rewrite List.filter_app, length_app. Qed.

Lemma frames_none above :
  Forall (fun l => layer_frame l = false) above -> frames above = 0%nat.
Proof.
  unfold frames. induction 1 as [|l above Hl _ IH]; cbn; [done|]. by rewrite Hl.
Qed.

(** The call step of a tail call.  [local] is the list of locations at
    the call: the callee followed by the arguments, the last of which
    is recorded by this very step. *)
Lemma tail_call_step (c : Config H) layer below m callee argList
    above f rest cenv fn exprLoc :
  stack (state c) = layer :: below ->
  layer_expr layer = Some (ExprCallNode m callee argList) ->
  layer_pc layer = zlen argList + 2 ->
  tail m = true ->
  let local := if decide (argList = []) then layer_local layer
               else layer_local layer ++ [resultLoc (state c)] in
  vec_at local 0 = Some exprLoc ->
  heap_at (heap (state c)) exprLoc = Ok (Closure cenv fn) ->
  zlen local - 1 = zlen (lam_varList fn) ->
  layer :: below = above ++ f :: rest ->
  Forall (fun l => layer_frame l = false) above ->
  layer_frame f = true ->
  let newEnv := cenv ++ combine (names (lam_varList fn)) (drop 1 local) in
  let stk := new_layer (length (memory c)) (Some (lam_expr fn)) true :: rest in
  step H c = Ok (true, mkConfig (world c) (memory c ++ [newEnv]) (set_stack (state c) stk))
  /\ frames stk = frames (layer :: below)
  /\ (length stk <= length (layer :: below))%nat.
Proof.
  intros Hstk Hexpr Hpc Htail local Hcallee Hclo Harity Hsplit Habove Hf newEnv stk.
  assert (Hn : 0 <= zlen argList) by (unfold zlen; lia).
  split; [|split].
  - unfold step. rewrite Hstk, Hexpr. unfold step_ExprCall. rewrite Hpc.
    set (layer' := if (2 <? _) && _ then _ else _).
    assert (Hlocal : layer_local layer' = local
                     /\ layer_frame layer' = layer_frame layer).
    { subst layer' local. destruct argList as [|a argList].
      - cbn. done.
      - rewrite decide_False by done.
        replace ((2 <? zlen (a :: argList) + 2) && (zlen (a :: argList) + 2 <=? zlen (a :: argList) + 2))
          with true; [done|].
        symmetry. apply andb_true_iff. unfold zlen in *. cbn [length] in *.
        split; [apply Z.ltb_lt | apply Z.leb_le]; lia. }
    destruct Hlocal as [Hlocal Hframe].
    replace (zlen argList + 2 =? 0) with false by (symmetry; apply Z.eqb_neq; lia).
    replace (zlen argList + 2 =? 1) with false by (symmetry; apply Z.eqb_neq; lia).
    replace (zlen argList + 2 <=? zlen argList + 1) with false
      by (symmetry; apply Z.leb_gt; lia).
    rewrite Z.eqb_refl. cbn [layer_local set_pc].
    unfold arg_at. rewrite Hlocal, Hcallee. rsimpl. rewrite Hclo.
    rewrite Harity, Z.eqb_refl. cbn [negb].
    rewrite bind_params_ok by lia. rsimpl. rewrite Htail.
    assert (Hpop : exists f', pop_to_frame (set_pc layer' (zlen argList + 2 + 1) :: below)
                              = Ok (f' :: rest)).
    { destruct above as [|l0 above].
      - cbn in Hsplit. injection Hsplit as <- <-. cbn. rewrite Hframe, Hf. by eexists.
      - cbn in Hsplit. injection Hsplit as <- ->.
        apply Forall_cons in Habove as [Hl0 Habove].
        cbn. rewrite Hframe, Hl0. exists f. by apply pop_to_frame_split. }
    destruct Hpop as [f' Hpop]. rewrite Hpop. cbn [pop_back]. unfold make_shared.
    subst newEnv stk. do 5 f_equal.
    replace (Z.to_nat (0 + 1)) with 1%nat by lia.
    rewrite take_ge; [done|]. rewrite length_drop. unfold zlen in Harity. lia.
  - subst stk. rewrite Hsplit, frames_app, (frames_none above) by done.
    unfold frames. cbn. rewrite Hf. done.
  - subst stk. rewrite Hsplit, length_app. cbn. lia.
Qed.

End TailCall.

(** ** A tail-recursive loop *)

Section TailLoop.

Context (H : Host) (w : World H).

#[local] Arguments deref : simpl never.
#[local] Arguments heap_at : simpl never.
#[local] Arguments capture : simpl never.
#[local] Arguments Z.add : simpl nomatch.
#[local] Arguments Z.sub : simpl nomatch.
#[local] Arguments Z.opp : simpl nomatch.
#[local] Arguments Z.of_nat : simpl nomatch.
#[local] Arguments Z.to_nat : simpl nomatch.
#[local] Arguments Z.pos_sub : simpl nomatch.
#[local] Arguments Z.succ_double : simpl nomatch.
#[local] Arguments Z.pred_double : simpl nomatch.
#[local] Arguments Z.double : simpl nomatch.
#[local] Arguments Pos.add : simpl nomatch.
#[local] Arguments Pos.succ : simpl nomatch.
#[local] Arguments Pos.sub : simpl nomatch.
#[local] Arguments Pos.pred : simpl nomatch.
#[local] Arguments Pos.pred_double : simpl nomatch.
#[local] Arguments Pos.of_succ_nat : simpl nomatch.
#[local] Arguments Pos.to_nat : simpl nomatch.
#[local] Arguments Pos.iter_op : simpl nomatch.

Lemma deref_Some M r e : M !! r = Some e -> deref M r = Ok e.
Proof. unfold deref. by intros ->. Qed.

Lemma heap_at_Some h l v : heap_at h l = Ok v <-> vec_at h l = Some v.
Proof. unfold heap_at. destruct (vec_at h l); split; congruence. Qed.

Lemma heap_at_app_l h t l v : heap_at h l = Ok v -> heap_at (h ++ t) l = Ok v.
Proof.
  rewrite !heap_at_Some, !vec_at_Some. intros [? Hl]. split; [done|].
  by apply lookup_app_l_Some.
Qed.

Lemma heap_at_last h v : heap_at (h ++ [v]) (zlen h) = Ok v.
Proof.
  rewrite heap_at_Some, vec_at_Some. unfold zlen. split; [lia|].
  rewrite Nat2Z.id. by apply list_lookup_middle.
Qed.

Lemma reach_trans B k1 k2 (c1 c2 c3 : Config H) :
  reach B k1 c1 c2 -> reach B k2 c2 c3 -> reach B (k1 + k2) c1 c3.
Proof. induction 1; cbn; [done|]. intros. econstructor; eauto. Qed.

Lemma reach_weaken B B' k (c1 c2 : Config H) :
  (B <= B')%nat -> reach B k c1 c2 -> reach B' k c1 c2.
Proof. intros HB. induction 1; econstructor; eauto; lia. Qed.

Lemma reach_steps B k (c1 c2 : Config H) : reach B k c1 c2 -> steps k c1 = Ok c2.
Proof. induction 1 as [|k c c1 c2 _ Hs _ IH]; cbn; [done|]. rewrite Hs. exact IH. Qed.

Lemma steps_halted (c : Config H) k : step H c = Ok (false, c) -> steps k c = Ok c.
Proof. intros Hc. induction k; cbn; [done|]. rewrite Hc. exact IHk. Qed.

Lemma reach_bound B K (c0 cf : Config H) :
  reach B K c0 cf -> step H cf = Ok (false, cf) ->
  forall k ck, steps k c0 = Ok ck -> (length (stack (state ck)) <= B)%nat.
Proof.
  induction 1 as [c Hc|K c c1 c2 Hc Hs _ IH]; intros Hhalt k ck Hk.
  - rewrite steps_halted in Hk by done. by injection Hk as <-.
  - destruct k as [|k]; cbn in Hk.
    + by injection Hk as <-.
    + rewrite Hs in Hk. by eapply IH.
Qed.

Ltac ss :=
  repeat (cbn;
          unfold step_Variable, step_Lambda, step_Letrec, step_If, step_Sequence,
            step_IntrinsicCall, step_ExprCall, step_At, push_child, publish,
            set_pc, push_local, new_layer, set_stack, set_heap, set_resultLoc,
            _new, make_shared).

(** One call of [step], computed on a machine whose heap and memory
    are known through the hypotheses. *)
Ltac known :=
  repeat match goal with
         | Hd : _ !! _ = Some _ |- _ => rewrite (deref_Some _ _ _ Hd)
         | Hd : _ !! _ = Some _ |- _ =>
             rewrite (deref_Some _ _ _ (lookup_app_l_Some _ _ _ _ Hd))
         | Hh : heap_at _ _ = Ok _ |- _ => rewrite Hh
         | Hh : heap_at _ _ = Ok _ |- _ => rewrite (heap_at_app_l _ _ _ _ Hh)
         | Hh : heap_at _ _ = Ok _ |- _ =>
             rewrite (heap_at_app_l _ _ _ _ (heap_at_app_l _ _ _ _ Hh))
         | |- _ => rewrite heap_at_last
         | Hz : (_ =? _) = _ |- _ => rewrite Hz
         | Hz : int_arith _ = _ |- _ => rewrite Hz
         | |- context [deref ?M ?r] => rewrite (deref_Some M r _ eq_refl)
         | |- context [heap_at ?h ?l] => rewrite (proj2 (heap_at_Some h l _) eq_refl)
         end.

Ltac one := ss; repeat (progress known; ss); reflexivity.

Ltac walk :=
  repeat (eapply reach_S; [cbn; lia | one |]).

Context (lit : string) (N : Z).
Hypothesis Hlit : stoi lit = Ok N.

Lemma boot_loop u :
  boot H w (Loop.program lit) u
  = Ok (mkConfig w [[]]
          (mkState (Loop.root lit)
                   [new_layer 0%nat (Some (Loop.root lit)) false; new_layer 0%nat None true]
                   [Integer 0; Integer 0; Integer 1; Integer N] 4 u)).
Proof.
  unfold boot, State_new.
  replace (checkDuplicate (Loop.program lit)) with (Ok tt : result unit)
    by (vm_compute; reflexivity).
  rsimpl. set (e := computeTail _ _). vm_compute in e. subst e.
  assert (E0 : stoi "0" = Ok 0) by reflexivity.
  assert (E1 : stoi "1" = Ok 1) by reflexivity.
  cbn -[stoi]. rewrite E0, E1, Hlit. cbn. rsimpl.
  vm_compute. reflexivity.
Qed.

Lemma capture_loop_env l : capture [("loop"%string, l)] Loop.fv_loop = [("loop"%string, l)].
Proof. vm_compute. reflexivity. Qed.

#[local] Opaque Loop.fv_n Loop.fv_loop Loop.fv_both.

(** From the start to the first call of [loop]. *)
Lemma prologue u :
  exists rl,
  reach 7 10
    (mkConfig w [[]]
          (mkState (Loop.root lit)
                   [new_layer 0%nat (Some (Loop.root lit)) false; new_layer 0%nat None true]
                   [Integer 0; Integer 0; Integer 1; Integer N] 4 u))
    (Loop.head w lit [[("loop"%string, 4)]; [("loop"%string, 4); ("n"%string, 3)]]
               [Integer 0; Integer 0; Integer 1; Integer N; Loop.closure 4; Loop.closure 4]
               1%nat rl).
Proof.
  eexists.
  eapply reach_S; [cbn; lia | one |].
  eapply reach_S; [cbn; lia | one |].
  eapply reach_S; [cbn; lia | ss; known; ss; rewrite capture_loop_env; ss; reflexivity |].
  walk. apply reach_0. cbn. lia.
Qed.

(** One turn of the loop: from the start of a call with [n <> 0] to the
    start of the next one, whose frame has replaced this one. *)
Lemma iteration M h r a n rl :
  M !! r = Some [("loop"%string, 4); ("n"%string, a)] ->
  heap_at h 4 = Ok (Loop.closure 4) ->
  heap_at h a = Ok (Integer n) ->
  heap_at h 0 = Ok (Integer 0) ->
  heap_at h 2 = Ok (Integer 1) ->
  n <> 0 -> in_int (n - 1) ->
  exists rl',
    reach 7 17 (Loop.head w lit M h r rl)
      (Loop.head w lit
         (M ++ [[("loop"%string, 4); ("n"%string, zlen (h ++ [Integer 0]))]])
         ((h ++ [Integer 0]) ++ [Integer (n - 1)])
         (length M) rl').
Proof.
  intros HM Hf Ha H0 H2 Hn Hdec. apply Z.eqb_neq in Hn. apply int_arith_in in Hdec.
  eexists. unfold Loop.head, Loop.rest.
  walk. apply reach_0. cbn. lia.
Qed.

(** The last call: [n] is 0, the loop returns and the program ends. *)
Lemma epilogue M h r a rl :
  M !! 0%nat = Some [("loop"%string, 4)] ->
  M !! r = Some [("loop"%string, 4); ("n"%string, a)] ->
  heap_at h a = Ok (Integer 0) ->
  heap_at h 0 = Ok (Integer 0) ->
  heap_at h 1 = Ok (Integer 0) ->
  exists cf,
    reach 7 11 (Loop.head w lit M h r rl) cf
    /\ step H cf = Ok (false, cf)
    /\ getResult (state cf) = Ok (Integer 0).
Proof.
  intros HM0 HM Ha H0 H1.
  eexists. unfold Loop.head, Loop.rest. split; [|split].
  - walk. apply reach_0. cbn. lia.
  - reflexivity.
  - unfold getResult. cbn. by rewrite (heap_at_app_l _ _ _ _ H1).
Qed.

Lemma loop_runs (k : nat) : forall M h r a rl,
  Z.of_nat k <= INT_MAX ->
  M !! 0%nat = Some [("loop"%string, 4)] ->
  M !! r = Some [("loop"%string, 4); ("n"%string, a)] ->
  heap_at h 4 = Ok (Loop.closure 4) ->
  heap_at h a = Ok (Integer (Z.of_nat k)) ->
  heap_at h 0 = Ok (Integer 0) ->
  heap_at h 1 = Ok (Integer 0) ->
  heap_at h 2 = Ok (Integer 1) ->
  exists K cf,
    reach 7 K (Loop.head w lit M h r rl) cf
    /\ step H cf = Ok (false, cf)
    /\ getResult (state cf) = Ok (Integer 0).
Proof.
  induction k as [|k IH]; intros M h r a rl Hk HM0 HM Hf Ha H0 H1 H2.
  - destruct (epilogue M h r a rl HM0 HM Ha H0 H1) as (cf & ? & ? & ?). eauto.
  - destruct (iteration M h r a (Z.of_nat (S k)) rl HM Hf Ha H0 H2 ltac:(lia)) as [rl' Hit];
      [unfold in_int, INT_MIN, INT_MAX in *; lia|].
    replace (Z.of_nat (S k) - 1) with (Z.of_nat k) in Hit by lia.
    edestruct (IH (M ++ [[("loop"%string, 4); ("n"%string, zlen (h ++ [Integer 0]))]])
                  ((h ++ [Integer 0]) ++ [Integer (Z.of_nat k)]))
      as (K & cf & Hr & Hhalt & Hres).
    + lia.
    + by apply lookup_app_l_Some.
    + apply list_lookup_middle. reflexivity.
    + by do 2 apply heap_at_app_l.
    + apply heap_at_last.
    + by do 2 apply heap_at_app_l.
    + by do 2 apply heap_at_app_l.
    + by do 2 apply heap_at_app_l.
    + exists (17 + K)%nat, cf. split; [|done]. eapply reach_trans; eauto.
Qed.

Lemma stoi_in_int s z : stoi s = Ok z -> in_int z.
Proof.
  unfold stoi, in_int. destruct (skip_space s) as [|c s']; [done|].
  set (p := if Ascii.eqb c "-" then _ else _). destruct p as [neg t].
  destruct t as [|d t]; [done|]. destruct (is_digit d); [|done].
  set (v := if neg then _ else _).
  destruct (Z.leb_spec INT_MIN v), (Z.leb_spec v INT_MAX); cbn; try done.
  by intros [= <-].
Qed.

Lemma loop_bounded u :
  0 <= N ->
  exists c0 K cf,
    boot H w (Loop.program lit) u = Ok c0
    /\ steps K c0 = Ok cf
    /\ step H cf = Ok (false, cf)
    /\ getResult (state cf) = Ok (Integer 0)
    /\ forall k ck, steps k c0 = Ok ck -> (length (stack (state ck)) <= 7)%nat.
Proof.
  intros HN. pose proof (stoi_in_int _ _ Hlit) as [_ Hmax].
  destruct (prologue u) as [rl Hpro].
  edestruct (loop_runs (Z.to_nat N)) as (K & cf & Hr & Hhalt & Hres);
    [| | | | | | | |
     eexists _, (10 + K)%nat, cf; split; [apply boot_loop|];
     pose proof (reach_trans _ _ _ _ _ _ Hpro Hr) as Hall;
     split; [exact (reach_steps _ _ _ _ Hall)|]; split; [exact Hhalt|];
     split; [exact Hres|]; exact (reach_bound _ _ _ _ Hall Hhalt)];
    try reflexivity.
  - lia.
  - rewrite Z2Nat.id by lia. reflexivity.
Qed.

End TailLoop.

(** C4: at the call step of a tail call the layers down to and including
    the nearest frame are replaced by the new call frame, so the number
    of frames on the stack does not grow and the stack does not get
    deeper; and the tail-recursive loop
    [letrec (loop lambda (n) (if (.= n 0) 0 (loop (.- n 1)))) (loop N)]
    ends with the value 0 for every literal N >= 0 while the stack never
    holds more than 7 layers. *)
Theorem tail_call_bounded :
  (forall (H : Host) (c : Config H) layer below m callee argList
          above f rest cenv fn exprLoc,
      stack (state c) = layer :: below ->
      layer_expr layer = Some (ExprCallNode m callee argList) ->
      layer_pc layer = zlen argList + 2 ->
      tail m = true ->
      let local := if decide (argList = []) then layer_local layer
                   else layer_local layer ++ [resultLoc (state c)] in
      vec_at local 0 = Some exprLoc ->
      heap_at (heap (state c)) exprLoc = Ok (Closure cenv fn) ->
      zlen local - 1 = zlen (lam_varList fn) ->
      layer :: below = above ++ f :: rest ->
      Forall (fun l => layer_frame l = false) above ->
      layer_frame f = true ->
      let newEnv := cenv ++ combine (names (lam_varList fn)) (drop 1 local) in
      let stk := new_layer (length (memory c)) (Some (lam_expr fn)) true :: rest in
      step H c = Ok (true, mkConfig (world c) (memory c ++ [newEnv]) (set_stack (state c) stk))
      /\ frames stk = frames (layer :: below)
      /\ (length stk <= length (layer :: below))%nat)
  /\ (forall (H : Host) (w : World H) (lit : string) (N : Z) (u : Location),
        stoi lit = Ok N -> 0 <= N ->
        exists c0 K cf,
          boot H w (Loop.program lit) u = Ok c0
          /\ steps K c0 = Ok cf
          /\ step H cf = Ok (false, cf)
          /\ getResult (state cf) = Ok (Integer 0)
          /\ forall k ck, steps k c0 = Ok ck -> (length (stack (state ck)) <= 7)%nat).
Proof.
  split.
  - intros. by eapply tail_call_step.
  - intros. by eapply loop_bounded.
Qed.

Lemma tail_call_bounded_witness :
  stoi "1000000" = Ok 1000000 /\ 0 <= 1000000
  /\ exists c0 K cf,
       boot no_host tt (Loop.program "1000000") 0 = Ok c0
       /\ steps K c0 = Ok cf
       /\ step no_host cf = Ok (false, cf)
       /\ getResult (state cf) = Ok (Integer 0)
       /\ forall k ck, steps k c0 = Ok ck -> (length (stack (state ck)) <= 7)%nat.
Proof.
  split; [reflexivity|]. split; [lia|].
  apply (proj2 tail_call_bounded no_host tt "1000000"%string 1000000 0); [reflexivity | lia].
Defined.

(** ** The shape of every step *)

Ltac ok_inv Hs :=
  repeat (unfold mbind, result_bind in Hs;
          match type of Hs with
          | rbind ?r _ = Ok _ =>
              let E := fresh "E" in
              destruct r eqn:E; cbn [rbind] in Hs; [|discriminate Hs]
          end).

Section Shapes.

Context (H : Host).
Implicit Types (c : Config H) (layer : Layer) (below : list Layer).

Lemma vec_at_In {A} (v : list A) i x : vec_at v i = Some x -> In x v.
Proof.
  unfold vec_at. destruct (i <? 0); [done|].
  intros Hl. apply list_elem_of_In. by eapply list_elem_of_lookup_2.
Qed.

Lemma pop_to_frame_inv stk stk' :
  pop_to_frame stk = Ok stk' ->
  exists above f rest, stk = above ++ f :: rest /\ stk' = f :: rest
    /\ Forall (fun l => layer_frame l = false) above /\ layer_frame f = true.
Proof.
  induction stk as [|l stk IH]; cbn; [done|].
  destruct (layer_frame l) eqn:Hl.
  - intros [= <-]. exists [], l, stk. by repeat split.
  - intros Hp. destruct (IH Hp) as (above & f & rest & -> & -> & Hab & Hf).
    exists (l :: above), f, rest. repeat split; try done. by constructor.
Qed.

Lemma letrec_alloc_spec vel : forall env heap,
  letrec_alloc vel env heap
  = (env ++ combine (bound_names vel) (fresh_locs (zlen heap) (length vel)),
     heap ++ replicate (length vel) Void).
Proof.
  unfold letrec_alloc, fresh_locs.
  induction vel as [|ve vel IH]; intros env heap; cbn.
  - by rewrite !app_nil_r.
  - rewrite IH. f_equal.
    + rewrite <- app_assoc. cbn. do 3 f_equal.
      * lia.
      * rewrite <- seq_shift, map_map. apply map_ext. intros k.
        unfold zlen. rewrite length_app. cbn. lia.
    + rewrite <- app_assoc. reflexivity.
Qed.

Lemma deref_inv M r env : deref M r = Ok env -> M !! r = Some env.
Proof. unfold deref. destruct (M !! r); [by intros [= ->]|done]. Qed.

Lemma same_layer_refl layer : same_layer layer layer.
Proof. by repeat split. Qed.

Lemma same_layer_set_pc layer pc : same_layer layer (set_pc layer pc).
Proof. by repeat split. Qed.

Lemma same_layer_trans l1 l2 l3 : same_layer l1 l2 -> same_layer l2 l3 -> same_layer l1 l3.
Proof. unfold same_layer. intros (-> & -> & ->) (-> & -> & ->). done. Qed.

Lemma same_layer_push_local layer loc : same_layer layer (push_local layer loc).
Proof. by repeat split. Qed.

Lemma same_layer_if (b : bool) layer l1 l2 :
  same_layer layer l1 -> same_layer layer l2 -> same_layer layer (if b then l1 else l2).
Proof. by destruct b. Qed.

Ltac pop0 :=
  eapply (t_pop _ _ _ _ _ []);
  [cbn; tauto | reflexivity | reflexivity | cbn; by rewrite app_nil_r | constructor].

Ltac side :=
  first
    [ apply same_layer_refl
    | eassumption
    | (eapply same_layer_trans; [|apply same_layer_set_pc]; side)
    | (eapply same_layer_trans; [|apply same_layer_push_local]; side)
    | reflexivity
    | (constructor; fail)
    | (cbn; tauto)
    | (cbn; eauto using vec_at_In; fail)
    | match goal with
      | Henv : layer_env _ = _ |- _ = _ => cbn; rewrite ?Henv; reflexivity
      end ].

Lemma step_transition c c' layer below e :
  stack (state c) = layer :: below ->
  layer_expr layer = Some e ->
  step H c = Ok (true, c') ->
  transition c c' layer below e.
Proof.
  intros Hstk He Hs. unfold step in Hs. rewrite Hstk, He in Hs.
  ok_inv Hs. injection Hs as <-. rename E into Hs.
  destruct e as [m val loc|m val loc|v|m varList expr|m vel expr|m cond b1 b2
                |m es|m name args|m callee args|m var expr].
  - (* Integer *)
    injection Hs as <-. pop0.
  - injection Hs as <-. pop0.
  - (* Variable *)
    unfold step_Variable in Hs. ok_inv Hs.
    destruct (lookup_env _ _); [|discriminate Hs]. injection Hs as <-. pop0.
  - (* Lambda *)
    unfold step_Lambda in Hs. ok_inv Hs. cbn in Hs. injection Hs as <-.
    eapply (t_pop _ _ _ _ _ [_]);
      [cbn; tauto | reflexivity | reflexivity | reflexivity |].
    constructor; [|constructor]. left. by do 4 eexists.
  - (* Letrec *)
    unfold step_Letrec in Hs. ok_inv Hs.
    lazymatch goal with
    | Hk : (if (1 <? _) && _ then _ else _) = Ok ?h |- _ =>
        rename Hk into Hknot; rename h into heap1
    end.
    set (pc := layer_pc layer) in *. set (n := zlen vel) in *.
    assert (Hk : 1 <= pc <= n + 1 -> knot c layer vel heap1).
    { intros [Hpc Hpc2]. unfold knot. fold pc.
      destruct (Z.ltb_spec 1 pc) as [H1|H1], (Z.leb_spec pc (n + 1)) as [H2|H2];
        cbn [andb] in Hknot;
        try (injection Hknot as <-; destruct (Z.ltb_spec pc 2); [done|]); try lia.
      destruct (Z.ltb_spec pc 2); [lia|].
      destruct (vec_at vel (pc - 2)) as [ve|] eqn:Hve; [|done].
      ok_inv Hknot. apply deref_inv in E.
      destruct (lookup_env _ _) as [L|] eqn:HL; [|done].
      ok_inv Hknot. unfold vec_set in Hknot.
      destruct ((0 <=? L) && (L <? zlen (heap (state c)))) eqn:Hr; [|done].
      injection Hknot as <-. apply andb_true_iff in Hr as [?%Z.leb_le ?%Z.ltb_lt].
      eexists ve, _, L, _. by repeat split. }
    assert (Hn : 0 <= n) by (unfold n, zlen; lia).
    destruct (Z.eqb_spec pc 0) as [Hpc0|Hpc0].
    { (* create all new locations *)
      assert (heap1 = heap (state c)) as ->.
      { destruct (Z.ltb_spec 1 pc); [lia|]. cbn in Hknot. by injection Hknot as <-. }
      ok_inv Hs. apply deref_inv in E. rewrite letrec_alloc_spec in Hs.
      injection Hs as <-. eapply t_enter; try done. cbn. by rewrite Hpc0. }
    destruct (Z.leb_spec pc n) as [Hle|Hle].
    { (* evaluate bindings *)
      destruct (vec_at vel (pc + 1 - 2)) as [ve|] eqn:Hve; [|done].
      injection Hs as <-.
      assert (1 <= pc).
      { apply vec_at_Some in Hve as [? _]. lia. }
      eapply (t_letrec_push _ _ _ _ _ _ _ _ ve.2); try done.
      - lia.
      - cbn. apply in_or_app. left. apply in_map. by eapply vec_at_In.
      - cbn. apply Hk. lia. }
    destruct (Z.eqb_spec pc (n + 1)) as [Heq|Hne].
    { (* evaluate body *)
      injection Hs as <-.
      eapply (t_letrec_push _ _ _ _ _ _ _ _ expr); try done.
      - lia.
      - cbn. apply in_or_app. right. by left.
      - cbn. apply Hk. lia. }
    (* finish letrec *)
    assert (heap1 = heap (state c)) as ->.
    { destruct (Z.leb_spec pc (n + 1)); [lia|].
      rewrite andb_false_r in Hknot. by injection Hknot as <-. }
    ok_inv Hs. apply deref_inv in E. unfold pop_n in E0.
    destruct (Nat.leb_spec (length vel) (length a0)); [|done].
    injection E0 as <-. injection Hs as <-.
    eapply t_exit; try done. lia.
  - (* If *)
    unfold step_If in Hs.
    destruct (layer_pc layer =? 0).
    { injection Hs as <-. eapply (t_push _ _ _ _ _ (set_pc layer _) cond); side. }
    destruct (layer_pc layer =? 1).
    { ok_inv Hs. destruct a0 as [|z| |]; try done.
      destruct (truthy z); injection Hs as <-.
      - eapply (t_push _ _ _ _ _ (set_pc layer _) b1); side.
      - eapply (t_push _ _ _ _ _ (set_pc layer _) b2); side. }
    injection Hs as <-. pop0.
  - (* Sequence *)
    unfold step_Sequence in Hs.
    destruct (layer_pc layer <? zlen es).
    { destruct (vec_at es _) as [x|] eqn:Hx; [|done]. injection Hs as <-.
      eapply (t_push _ _ _ _ _ (set_pc layer _) x); side. }
    injection Hs as <-. pop0.
  - (* IntrinsicCall *)
    unfold step_IntrinsicCall in Hs.
    set (layer1 := if (0 <? _) && _ then _ else _) in Hs.
    assert (Hsame : same_layer layer layer1).
    { apply same_layer_if; [apply same_layer_push_local|apply same_layer_refl]. }
    assert (Henv : layer_env layer1 = layer_env layer) by (by destruct Hsame as (-> & _)).
    destruct (layer_pc layer <? zlen args).
    { destruct (vec_at args _) as [x|] eqn:Hx; [|done]. injection Hs as <-.
      eapply (t_push _ _ _ _ _ (set_pc layer1 _) x); side. }
    ok_inv Hs. destruct a0 as [value w']. cbn in Hs. injection Hs as <-.
    eapply (t_pop _ _ _ _ _ [value]); [cbn; tauto|reflexivity|reflexivity|reflexivity|].
    constructor; [|constructor]. right. by do 6 eexists.
  - (* ExprCall *)
    unfold step_ExprCall in Hs.
    set (layer1 := if (2 <? _) && _ then _ else _) in Hs.
    assert (Hsame : same_layer layer layer1).
    { apply same_layer_if; [apply same_layer_push_local|apply same_layer_refl]. }
    assert (Henv : layer_env layer1 = layer_env layer) by (by destruct Hsame as (-> & _)).
    destruct (layer_pc layer =? 0).
    { injection Hs as <-. eapply (t_push _ _ _ _ _ (set_pc layer1 _) callee); side. }
    destruct (layer_pc layer =? 1).
    { injection Hs as <-.
      eapply (t_stay _ _ _ _ _ (push_local (set_pc layer1 _) _)); side. }
    destruct (layer_pc layer <=? zlen args + 1).
    { destruct (vec_at args _) as [x|] eqn:Hx; [|done]. injection Hs as <-.
      eapply (t_push _ _ _ _ _ (set_pc layer1 _) x); side. }
    destruct (layer_pc layer =? zlen args + 2).
    { ok_inv Hs. destruct a1 as [| | |cenv fn]; try done.
      destruct (negb _); [done|]. ok_inv Hs. cbn in Hs. injection Hs as <-.
      destruct (tail m) eqn:Htail.
      - ok_inv E2. apply pop_to_frame_inv in E3
          as (above & f & rest & Hsplit & -> & Hab & Hf).
        cbn in E2. injection E2 as <-.
        destruct above as [|l0 above].
        + cbn in Hsplit. injection Hsplit as <- <-.
          eapply (t_tailcall _ _ _ _ _ [] layer below); [side|reflexivity|constructor| |exact E0|side..].
          cbn in Hf. by destruct Hsame as (_ & _ & <-).
        + cbn in Hsplit. injection Hsplit as <- ->.
          apply Forall_cons in Hab as [Hl0 Hab].
          eapply (t_tailcall _ _ _ _ _ (layer :: above) f rest);
            [side|reflexivity| |exact Hf|exact E0|side..].
          constructor; [|done]. cbn in Hl0. by destruct Hsame as (_ & _ & <-).
      - injection E2 as <-.
        eapply (t_call _ _ _ _ _ (set_pc layer1 _)); [side|side|exact E0|side..]. }
    injection Hs as <-. pop0.
  - (* At *)
    unfold step_At in Hs.
    destruct (layer_pc layer =? 0).
    { injection Hs as <-. eapply (t_push _ _ _ _ _ (set_pc layer _) expr); side. }
    ok_inv Hs. destruct a0 as [| | |cenv fn]; try done.
    destruct (lookup_env _ _); [|done]. injection Hs as <-. pop0.
Qed.

End Shapes.

(** ** Static analysis keeps Letrec bindings distinct *)

Section Static.

Lemma distinct_bindings_list es :
  (fix all (es : list ExprNode) : Prop :=
     match es with
     | [] => True
     | x :: es' => distinct_bindings x /\ all es'
     end) es <-> Forall distinct_bindings es.
Proof.
  induction es as [|x es IH]; cbn; [by split; [constructor|]|].
  rewrite Forall_cons, IH. done.
Qed.

Lemma distinct_bindings_pairs (ves : list (VariableNode * ExprNode)) :
  (fix go (ves : list (VariableNode * ExprNode)) : Prop :=
     match ves with
     | [] => True
     | ve :: ves' => distinct_bindings (snd ve) /\ go ves'
     end) ves <-> Forall (fun ve => distinct_bindings (snd ve)) ves.
Proof.
  induction ves as [|x es IH]; cbn; [by split; [constructor|]|].
  rewrite Forall_cons, IH. done.
Qed.

Lemma distinct_children e x : distinct_bindings e -> In x (children e) -> distinct_bindings x.
Proof.
  destruct e as [| | |m vl b|m vel b|m c b1 b2|m es|m f args|m f args|m v b]; cbn;
    try done.
  - by intros ? [<-|[]].
  - intros (_ & Hves & Hb) [Hin|[<-|[]]]%in_app_or; [|done].
    apply distinct_bindings_pairs in Hves.
    apply in_map_iff in Hin as (ve & <- & Hin).
    rewrite Forall_forall in Hves. apply Hves. by apply list_elem_of_In.
  - by intros (? & ? & ?) [<-|[<-|[<-|[]]]].
  - intros Hall%distinct_bindings_list Hin.
    rewrite Forall_forall in Hall. apply Hall. by apply list_elem_of_In.
  - intros Hall%distinct_bindings_list Hin.
    rewrite Forall_forall in Hall. apply Hall. by apply list_elem_of_In.
  - intros [Hf Hall%distinct_bindings_list] [<-|Hin]; [done|].
    rewrite Forall_forall in Hall. apply Hall. by apply list_elem_of_In.
  - by intros ? [<-|[]].
Qed.

Lemma has_duplicate_NoDup ns : forall seen,
  has_duplicate ns seen = false -> NoDup ns /\ forall n, n ∈ ns -> n ∉ seen.
Proof.
  induction ns as [|n ns IH]; intros seen; cbn.
  - intros _. split; [constructor|]. by intros ? ?%elem_of_nil.
  - destruct (decide (n ∈ seen)); [done|]. intros [Hnd Hfresh]%IH.
    split.
    + constructor; [|done]. intros Hin. specialize (Hfresh _ Hin). set_solver.
    + intros x [->|Hx]%elem_of_cons; [done|]. specialize (Hfresh _ Hx). set_solver.
Qed.

Lemma distinct_Letrec m vel expr :
  distinct_bindings (LetrecNode m vel expr)
  <-> NoDup (bound_names vel)
      /\ Forall (fun ve => distinct_bindings (snd ve)) vel /\ distinct_bindings expr.
Proof. cbn. by rewrite distinct_bindings_pairs. Qed.

Lemma distinct_Sequence m es :
  distinct_bindings (SequenceNode m es) <-> Forall distinct_bindings es.
Proof. cbn. by rewrite distinct_bindings_list. Qed.

Lemma distinct_IntrinsicCall m f es :
  distinct_bindings (IntrinsicCallNode m f es) <-> Forall distinct_bindings es.
Proof. cbn. by rewrite distinct_bindings_list. Qed.

Lemma distinct_ExprCall m f es :
  distinct_bindings (ExprCallNode m f es)
  <-> distinct_bindings f /\ Forall distinct_bindings es.
Proof. cbn. by rewrite distinct_bindings_list. Qed.

Lemma checkDuplicate_list es :
  Forall (fun e => checkDuplicate e = Ok tt -> distinct_bindings e) es ->
  (fix go (es : list ExprNode) : result unit :=
     match es with
     | [] => Ok tt
     | x :: es' => _ ← checkDuplicate x; go es'
     end) es = Ok tt ->
  Forall distinct_bindings es.
Proof.
  induction 1 as [|x es Hx _ IH]; [by constructor|].
  intros Hc. ok_inv Hc. destruct a. constructor; auto.
Qed.

Lemma checkDuplicate_distinct e : checkDuplicate e = Ok tt -> distinct_bindings e.
Proof.
  induction e as [| | |m vl b IH|m vel b IHvel IHb|m c b1 b2 IHc IH1 IH2|m es IH
                 |m f es IH|m f es IHf IH|m v b IH] using ExprNode_nested_ind;
    try done.
  - cbn. destruct (has_duplicate _ _); [done|]. exact IH.
  - intros Hc. cbn [checkDuplicate] in Hc.
    destruct (has_duplicate _ _) eqn:Hdup; [done|].
    ok_inv Hc. apply distinct_Letrec. split; [exact (proj1 (has_duplicate_NoDup _ _ Hdup))|].
    split; [|by apply IHb]. clear Hdup Hc.
    induction IHvel as [|ve vel Hve _ IH]; [by constructor|].
    ok_inv E. destruct a0. constructor; auto.
  - cbn. intros Hc. ok_inv Hc. destruct a, a0. auto.
  - intros Hc. apply distinct_Sequence. by apply checkDuplicate_list.
  - intros Hc. apply distinct_IntrinsicCall. by apply checkDuplicate_list.
  - intros Hc. cbn [checkDuplicate] in Hc. ok_inv Hc. destruct a.
    apply distinct_ExprCall. split; [auto|]. by apply checkDuplicate_list.
Qed.

Lemma computeFreeVars_distinct e :
  distinct_bindings e -> distinct_bindings (computeFreeVars e).
Proof.
  induction e as [| | |m vl b IH|m vel b IHvel IHb|m c b1 b2 IHc IH1 IH2|m es IH
                 |m f es IH|m f es IHf IH|m v b IH] using ExprNode_nested_ind;
    try done.
  - intros (Hnd & Hvel & Hb)%distinct_Letrec. cbn [computeFreeVars].
    apply distinct_Letrec. split; [|split; [|auto]].
    + unfold bound_names in *. by rewrite map_map.
    + clear Hnd. induction IHvel as [|ve vel Hve _ IH]; [by constructor|].
      apply Forall_cons in Hvel as [? ?]. constructor; cbn; auto.
  - cbn. intros (? & ? & ?). auto.
  - intros Hall%distinct_Sequence. cbn [computeFreeVars]. apply distinct_Sequence.
    induction IH as [|x es Hx _ IH']; [by constructor|].
    apply Forall_cons in Hall as [? ?]. constructor; cbn; auto.
  - intros Hall%distinct_IntrinsicCall. cbn [computeFreeVars].
    apply distinct_IntrinsicCall.
    induction IH as [|x es Hx _ IH']; [by constructor|].
    apply Forall_cons in Hall as [? ?]. constructor; cbn; auto.
  - intros [Hf Hall]%distinct_ExprCall. cbn [computeFreeVars].
    apply distinct_ExprCall. split; [auto|].
    induction IH as [|x es Hx _ IH']; [by constructor|].
    apply Forall_cons in Hall as [? ?]. constructor; cbn; auto.
Qed.

Lemma computeTail_distinct e :
  distinct_bindings e -> forall t, distinct_bindings (computeTail e t).
Proof.
  induction e as [| | |m vl b IH|m vel b IHvel IHb|m c b1 b2 IHc IH1 IH2|m es IH
                 |m f es IH|m f es IHf IH|m v b IH] using ExprNode_nested_ind;
    try done.
  - cbn. auto.
  - intros (Hnd & Hvel & Hb)%distinct_Letrec t. cbn [computeTail].
    apply distinct_Letrec. split; [|split; [|auto]].
    + unfold bound_names in *. by rewrite map_map.
    + clear Hnd. induction IHvel as [|ve vel Hve _ IH]; [by constructor|].
      apply Forall_cons in Hvel as [? ?]. constructor; cbn; auto.
  - cbn. intros (? & ? & ?) t. auto.
  - intros Hall%distinct_Sequence t. cbn [computeTail]. apply distinct_Sequence.
    induction IH as [|x es Hx _ IH']; [by constructor|].
    apply Forall_cons in Hall as [? ?].
    destruct es as [|y es]; constructor; cbn; auto.
  - intros Hall%distinct_IntrinsicCall t. cbn [computeTail].
    apply distinct_IntrinsicCall.
    induction IH as [|x es Hx _ IH']; [by constructor|].
    apply Forall_cons in Hall as [? ?]. constructor; cbn; auto.
  - intros [Hf Hall]%distinct_ExprCall t. cbn [computeTail].
    apply distinct_ExprCall. split; [auto|].
    induction IH as [|x es Hx _ IH']; [by constructor|].
    apply Forall_cons in Hall as [? ?]. constructor; cbn; auto.
  - cbn. auto.
Qed.

Lemma preAllocate_list es :
  Forall preAllocate_keeps es ->
  forall heap es' heap',
    Forall distinct_bindings es -> Forall distinct_value heap ->
    (fix go (es : list ExprNode) (heap : list Value)
       : result (list ExprNode * list Value) :=
       match es with
       | [] => Ok ([], heap)
       | x :: es' =>
           '(x', heap) ← preAllocate x heap;
           '(es'', heap) ← go es' heap;
           Ok (x' :: es'', heap)
       end) es heap = Ok (es', heap') ->
    Forall distinct_bindings es' /\ Forall distinct_value heap'.
Proof.
  induction 1 as [|x es Hx _ IH]; intros heap es' heap' Hd Hh Hp.
  - injection Hp as <- <-. by split.
  - apply Forall_cons in Hd as [Hdx Hd]. ok_inv Hp. destruct a as [x' heap1].
    ok_inv Hp. destruct a as [es1 heap2]. injection Hp as <- <-.
    destruct (Hx _ _ _ Hdx Hh E) as [? Hh1].
    destruct (IH _ _ _ Hd Hh1 E0) as [? ?]. split; [by constructor|done].
Qed.

Lemma preAllocate_spec e : preAllocate_keeps e.
Proof.
  induction e as [m val loc|m val loc|v|m vl b IH|m vel b IHvel IHb
                 |m c b1 b2 IHc IH1 IH2|m es IH
                 |m f es IH|m f es IHf IH|m v b IH] using ExprNode_nested_ind;
    intros heap e' heap' Hd Hh Hp; cbn [preAllocate] in Hp.
  - ok_inv Hp. injection Hp as <- <-. split; [done|].
    apply Forall_app. by split; [|repeat constructor].
  - ok_inv Hp. injection Hp as <- <-. split; [done|].
    apply Forall_app. by split; [|repeat constructor].
  - by injection Hp as <- <-.
  - ok_inv Hp. destruct a as [b' heap1]. injection Hp as <- <-.
    destruct (IH _ _ _ Hd Hh E) as [? ?]. by split.
  - apply distinct_Letrec in Hd as (Hnd & Hvel & Hb).
    ok_inv Hp. destruct a as [vel' heap1]. ok_inv Hp. destruct a as [b' heap2].
    injection Hp as <- <-.
    assert (Hves : bound_names vel' = bound_names vel
                   /\ Forall (fun ve => distinct_bindings (snd ve)) vel'
                   /\ Forall distinct_value heap1).
    { clear Hnd E0. revert heap vel' heap1 Hh E.
      induction IHvel as [|ve vel Hve _ IH]; intros heap vel' heap1 Hh E.
      - injection E as <- <-. by repeat split.
      - apply Forall_cons in Hvel as [Hdx Hvel]. ok_inv E. destruct a as [x' heap3].
        ok_inv E. destruct a as [ves heap4]. injection E as <- <-.
        destruct (Hve _ _ _ Hdx Hh E0) as [? Hh3].
        destruct (IH Hvel _ _ _ Hh3 E1) as (Hn & ? & ?).
        split; [|split; [by constructor|done]].
        unfold bound_names in *. cbn. by rewrite Hn. }
    destruct Hves as (Hn & Hvel' & Hh1).
    destruct (IHb _ _ _ Hb Hh1 E0) as [? ?].
    split; [|done]. apply distinct_Letrec. by rewrite Hn.
  - destruct Hd as (Hdc & Hd1 & Hd2).
    ok_inv Hp. destruct a as [c' heap1]. ok_inv Hp. destruct a as [b1' heap2].
    ok_inv Hp. destruct a as [b2' heap3]. injection Hp as <- <-.
    destruct (IHc _ _ _ Hdc Hh E) as [? Hh1].
    destruct (IH1 _ _ _ Hd1 Hh1 E0) as [? Hh2].
    destruct (IH2 _ _ _ Hd2 Hh2 E1) as [? Hh3]. by repeat split.
  - apply distinct_Sequence in Hd. ok_inv Hp. destruct a as [es' heap1].
    injection Hp as <- <-.
    destruct (preAllocate_list es IH _ _ _ Hd Hh E) as [? ?].
    split; [|done]. by apply distinct_Sequence.
  - apply distinct_IntrinsicCall in Hd. ok_inv Hp. destruct a as [es' heap1].
    injection Hp as <- <-.
    destruct (preAllocate_list es IH _ _ _ Hd Hh E) as [? ?].
    split; [|done]. by apply distinct_IntrinsicCall.
  - apply distinct_ExprCall in Hd as [Hdf Hd]. ok_inv Hp. destruct a as [f' heap1].
    ok_inv Hp. destruct a as [es' heap2]. injection Hp as <- <-.
    destruct (IHf _ _ _ Hdf Hh E) as [? Hh1].
    destruct (preAllocate_list es IH _ _ _ Hd Hh1 E0) as [? ?].
    split; [|done]. by apply distinct_ExprCall.
  - ok_inv Hp. destruct a as [b' heap1]. injection Hp as <- <-.
    destruct (IH _ _ _ Hd Hh E) as [? ?]. by split.
Qed.

End Static.

(** ** Lists, depths and environments *)

Section Depth.

Context {A : Type}.
Implicit Types (s above below : list A).

Lemma at_depth_below d above below :
  (d < length below)%nat -> at_depth d (above ++ below) = at_depth d below.
Proof.
  intros Hd. unfold at_depth. rewrite rev_app_distr.
  apply lookup_app_l. by rewrite length_rev.
Qed.

Lemma at_depth_top x below : at_depth (length below) (x :: below) = Some x.
Proof.
  unfold at_depth. cbn. rewrite lookup_app_r; rewrite length_rev; [|lia].
  by rewrite Nat.sub_diag.
Qed.

Lemma at_depth_lt d s y : at_depth d s = Some y -> (d < length s)%nat.
Proof.
  unfold at_depth. intros Hl%lookup_lt_Some. by rewrite length_rev in Hl.
Qed.

Lemma at_depth_cons_inv d x s y :
  at_depth d (x :: s) = Some y ->
  (d = length s /\ y = x) \/ ((d < length s)%nat /\ at_depth d s = Some y).
Proof.
  intros Hd. pose proof (at_depth_lt _ _ _ Hd) as Hlt. cbn in Hlt.
  destruct (decide (d = length s)) as [->|Hne].
  - left. rewrite at_depth_top in Hd. by injection Hd as <-.
  - right. assert (d < length s)%nat by lia. split; [done|].
    change (x :: s) with ([x] ++ s) in Hd. by rewrite at_depth_below in Hd.
Qed.

Lemma at_depth_cons d x s :
  (d < length s)%nat -> at_depth d (x :: s) = at_depth d s.
Proof. apply (at_depth_below d [x] s). Qed.

Lemma at_depth_map {B} (f : A -> B) d s : at_depth d (map f s) = f <$> at_depth d s.
Proof. unfold at_depth. by rewrite <- map_rev, list_lookup_fmap. Qed.

End Depth.

Section Environments.

Lemma find_app {A} (f : A -> bool) (a b : list A) :
  find f (a ++ b) = match find f a with Some x => Some x | None => find f b end.
Proof. induction a as [|x a IH]; cbn; [done|]. by destruct (f x). Qed.

Lemma lookup_env_app x (X Y : Env) :
  lookup_env x (X ++ Y)
  = match lookup_env x Y with Some l => Some l | None => lookup_env x X end.
Proof.
  unfold lookup_env. rewrite rev_app_distr, find_app.
  by destruct (find _ (rev Y)).
Qed.

Lemma NoDup_fst_agree (env : Env) x l1 l2 :
  NoDup (map fst env) -> In (x, l1) env -> In (x, l2) env -> l1 = l2.
Proof.
  induction env as [|[y l] env IH]; cbn; [done|].
  intros [Hy Hnd]%NoDup_cons [H1|H1] [H2|H2].
  - congruence.
  - injection H1 as -> ->. destruct Hy. apply list_elem_of_In.
    apply (in_map fst) in H2. exact H2.
  - injection H2 as -> ->. destruct Hy. apply list_elem_of_In.
    apply (in_map fst) in H1. exact H1.
  - eauto.
Qed.

Lemma lookup_env_NoDup (env : Env) x l :
  NoDup (map fst env) -> In (x, l) env -> lookup_env x env = Some l.
Proof.
  intros Hnd Hin. unfold lookup_env.
  destruct (find _ (rev env)) as [[y l']|] eqn:Hf.
  - apply find_some in Hf as [Hin' Hy]. cbn in Hy. apply String.eqb_eq in Hy as ->.
    apply in_rev in Hin'. cbn. f_equal. by eapply NoDup_fst_agree.
  - eapply find_none in Hf; [|apply in_rev; rewrite rev_involutive; exact Hin].
    cbn in Hf. by rewrite String.eqb_refl in Hf.
Qed.

Lemma combine_fst {A B} (xs : list A) : forall ys : list B,
  length ys = length xs -> map fst (combine xs ys) = xs.
Proof.
  induction xs as [|x xs IH]; intros [|y ys]; cbn; try done.
  intros [= Hlen]. by rewrite IH.
Qed.

Lemma combine_lookup {A B} (xs : list A) : forall (ys : list B) i x y,
  xs !! i = Some x -> ys !! i = Some y -> combine xs ys !! i = Some (x, y).
Proof.
  induction xs as [|x0 xs IH]; intros [|y0 ys] [|i] x y; cbn; try done.
  - by intros [= ->] [= ->].
  - apply IH.
Qed.

Lemma combine_map_r {A B C} (f : B -> C) (xs : list A) : forall ys : list B,
  combine xs (map f ys) = map (fun p => (fst p, f (snd p))) (combine xs ys).
Proof.
  induction xs as [|x xs IH]; intros [|y ys]; cbn; try done. by rewrite IH.
Qed.

Lemma lookup_env_combine (ns : list string) (locs : list Location) i x l :
  NoDup ns -> length locs = length ns ->
  ns !! i = Some x -> locs !! i = Some l ->
  lookup_env x (combine ns locs) = Some l.
Proof.
  intros Hnd Hlen Hx Hl. apply lookup_env_NoDup.
  - by rewrite combine_fst.
  - apply list_elem_of_In. apply (list_elem_of_lookup_2 _ i).
    by apply combine_lookup.
Qed.

End Environments.

(** ** The environments of the stack along a run *)

Section Stack.

Implicit Types (mem : Memory) (gs : list (Layer * list Location)) (l : Layer) (stk : list Layer).

Lemma mem_insert_ne mem (r r' : EnvRef) (env : Env) :
  r <> r' -> <[r := env]> mem !! r' = mem !! r'.
Proof. apply list_lookup_insert_ne. Qed.

Lemma mem_insert_eq mem (r : EnvRef) (env env0 : Env) :
  mem !! r = Some env0 -> <[r := env]> mem !! r = Some env.
Proof. intros Hl%lookup_lt_Some. by apply list_lookup_insert_eq. Qed.

Lemma mem_insert_length mem (r : EnvRef) (env : Env) :
  length (<[r := env]> mem) = length mem.
Proof. apply length_insert. Qed.

Lemma mem_grow mem (r : EnvRef) (env env0 : Env) :
  mem !! r = Some env0 -> (mem ++ [env]) !! r = Some env0.
Proof. intros Hl. by apply lookup_app_l_Some. Qed.

Lemma mem_grow_new mem (env : Env) : (mem ++ [env]) !! length mem = Some env.
Proof. by rewrite lookup_app_r, Nat.sub_diag. Qed.

Lemma letrec_names_same l l' : same_layer l l' -> letrec_names l' = letrec_names l.
Proof. intros (_ & He & _). unfold letrec_names. by rewrite He. Qed.

Lemma own_same l l' g : same_layer l l' -> own (l', g) = own (l, g).
Proof. intros Hs. unfold own. cbn. by rewrite (letrec_names_same l l'). Qed.

Lemma own_nil l : own (l, []) = [].
Proof. unfold own. cbn. apply combine_nil. Qed.

Lemma own_not_Letrec l g e :
  layer_expr l = Some e -> ~ is_Letrec e -> own (l, g) = [].
Proof.
  intros He Hn. unfold own, letrec_names. cbn. rewrite He.
  destruct e; try done; by destruct Hn.
Qed.

Lemma pending_same l l' g gs :
  same_layer l l' -> pending ((l', g) :: gs) = pending ((l, g) :: gs).
Proof.
  intros Hs. cbn. rewrite (own_same l l' g Hs).
  destruct Hs as (_ & _ & ->). done.
Qed.

Lemma pending_child r x gs : pending ((new_layer r x false, []) :: gs) = pending gs.
Proof. cbn. by rewrite own_nil, app_nil_r. Qed.

Lemma pending_frame r x gs : pending ((new_layer r x true, []) :: gs) = [].
Proof. cbn. by rewrite own_nil. Qed.

Lemma refs_ok_same l l' stk :
  same_layer l l' -> refs_ok (l :: stk) -> refs_ok (l' :: stk).
Proof. intros (He & _ & Hf). cbn. by rewrite He, Hf. Qed.

Lemma refs_ok_app_r above stk : refs_ok (above ++ stk) -> refs_ok stk.
Proof. induction above as [|a above IH]; cbn; [done|]. intros [_ ?]. auto. Qed.

Lemma envs_ok_app_r mem gabove gs : envs_ok mem (gabove ++ gs) -> envs_ok mem gs.
Proof. induction gabove as [|a gabove IH]; cbn; [done|]. intros [_ ?]. auto. Qed.

Lemma top_ok_same mem l l' g gs :
  same_layer l l' -> top_ok mem ((l, g) :: gs) -> top_ok mem ((l', g) :: gs).
Proof.
  intros Hs [base Hb]. exists base. rewrite (pending_same l l' g gs Hs).
  cbn [fst]. destruct Hs as (-> & _). exact Hb.
Qed.

Lemma envs_ok_same mem l l' g gs :
  same_layer l l' -> envs_ok mem ((l, g) :: gs) -> envs_ok mem ((l', g) :: gs).
Proof. intros (_ & _ & Hf). cbn. by rewrite Hf. Qed.

(** Growing the memory *)

Lemma top_ok_grow mem env gs : top_ok mem gs -> top_ok (mem ++ [env]) gs.
Proof.
  destruct gs as [|g gs]; [done|]. intros [base Hb]. exists base.
  by eapply mem_grow.
Qed.

Lemma envs_ok_grow mem env gs : envs_ok mem gs -> envs_ok (mem ++ [env]) gs.
Proof.
  induction gs as [|g gs IH]; [done|]. cbn. intros [Ht He]. split; [|auto].
  intros Hf. apply top_ok_grow. auto.
Qed.

(** Writing an environment *)

Lemma top_ok_update_ne mem r env gs :
  ~ In r (map (fun g => layer_env (fst g)) gs) ->
  top_ok mem gs -> top_ok (<[r := env]> mem) gs.
Proof.
  destruct gs as [|g gs]; [done|]. intros Hr [base Hb]. exists base.
  rewrite mem_insert_ne; [done|]. intros ->. apply Hr. by left.
Qed.

Lemma envs_ok_update_notin mem r env gs :
  ~ In r (map (fun g => layer_env (fst g)) gs) ->
  envs_ok mem gs -> envs_ok (<[r := env]> mem) gs.
Proof.
  induction gs as [|g gs IH]; [done|]. cbn. intros Hr [Ht He].
  split; [|apply IH; tauto]. intros Hf. apply top_ok_update_ne; [tauto|auto].
Qed.

Lemma envs_ok_update mem r env gs :
  refs_ok (map fst gs) ->
  match gs with g :: _ => layer_env (fst g) = r | [] => True end ->
  envs_ok mem gs -> envs_ok (<[r := env]> mem) gs.
Proof.
  induction gs as [|[l g] gs IH]; [done|]. cbn. intros [Hr Hrs] <- [Ht He].
  assert (Hmap : map (fun g => layer_env (fst g)) gs = map layer_env (map fst gs))
    by (by rewrite map_map).
  destruct (layer_frame l).
  - rewrite <- Hmap in Hr. split.
    + intros _. apply top_ok_update_ne; auto.
    + by apply envs_ok_update_notin.
  - split; [done|]. apply IH; try done.
    destruct gs as [|[l2 g2] gs]; [done|]. cbn in Hr. by cbn.
Qed.

(** The top layer leaves *)

Lemma top_ok_pop mem l g gs :
  refs_ok (l :: map fst gs) ->
  envs_ok mem ((l, g) :: gs) ->
  (exists base, mem !! layer_env l
                = Some (base ++ if layer_frame l then [] else pending gs)) ->
  top_ok mem gs.
Proof.
  cbn. intros [Hr _] [Ht _] [base Hb].
  destruct (layer_frame l); [auto|].
  destruct gs as [|[l2 g2] gs]; [done|]. cbn in Hr. exists base. cbn [fst].
  by rewrite <- Hr.
Qed.

Lemma refs_ok_valid_new (r : EnvRef) stk :
  Forall (fun l => (layer_env l < r)%nat) stk -> ~ In r (map layer_env stk).
Proof.
  intros Hall Hin. apply in_map_iff in Hin as (l & Hl & Hin).
  rewrite Forall_forall in Hall. apply list_elem_of_In in Hin.
  specialize (Hall l Hin). lia.
Qed.

End Stack.

(** ** Runs *)

Section Runs.

Context (H : Host).
Implicit Types (c : Config H) (evs : list event).

Lemma run_events_app c evs1 evs2 :
  run_events c (evs1 ++ evs2)
  = match run_events c evs1 with
    | Some c1 => run_events c1 evs2
    | None => None
    end.
Proof.
  revert c. induction evs1 as [|e evs1 IH]; intros c; cbn; [done|].
  destruct (after e c); [apply IH|done].
Qed.

Lemma run_events_snoc c evs ev c1 c2 :
  run_events c evs = Some c1 -> after ev c1 = Some c2 ->
  run_events c (evs ++ [ev]) = Some c2.
Proof. intros H1 H2. rewrite run_events_app, H1. cbn. by rewrite H2. Qed.

Lemma run_events_take c evs c' k :
  run_events c evs = Some c' -> exists c2, run_events c (take k evs) = Some c2.
Proof.
  intros Hr. rewrite <- (take_drop k evs), run_events_app in Hr.
  destruct (run_events c (take k evs)); [eauto|done].
Qed.

Lemma reloc_along_snoc c evs ev c1 l :
  run_events c evs = Some c1 ->
  is_Some (after ev c1) ->
  reloc_along c (evs ++ [ev]) l
  = match ev with
    | Collect => reloc (gc_relocation c1) (reloc_along c evs l)
    | Step => reloc_along c evs l
    end.
Proof.
  revert c l. induction evs as [|e evs IH]; intros c l; cbn.
  - intros [= ->] [c2 ->]. by destruct ev.
  - destruct (after e c) as [c'|]; [|done]. intros Hr Hs. by apply IH.
Qed.

Lemma after_Step c c' b : step H c = Ok (b, c') -> after Step c = Some c'.
Proof. cbn. by intros ->. Qed.

Lemma born_extend c0 evs c ev c' d l l' g :
  run_events c0 evs = Some c -> after ev c = Some c' ->
  born c0 evs d l g -> same_layer l l' ->
  at_depth d (stack (state c')) = Some l' ->
  born c0 (evs ++ [ev]) d l'
       match ev with
       | Collect => map (reloc (gc_relocation c)) g
       | Step => g
       end.
Proof.
  intros Hrun Hev (evs1 & evs2 & c1 & c1' & l1 & below1 & m & vel & expr
                   & -> & Hr1 & Hs1 & Hd & He1 & Hpc1 & Hsame & Hstep & Hheap & -> & Hheld)
         Hsame' Hat.
  assert (Hr2 : run_events c1' evs2 = Some c).
  { rewrite run_events_app, Hr1 in Hrun. cbn in Hrun. by rewrite Hstep in Hrun. }
  exists evs1, (evs2 ++ [ev]), c1, c1', l1, below1, m, vel, expr.
  split_and!; try done.
  - by rewrite <- app_assoc.
  - by eapply same_layer_trans.
  - destruct ev; cbv iota; [|rewrite map_map]; apply map_ext; intros x;
      by rewrite (reloc_along_snoc _ _ _ c).
  - intros k c2 Hk. destruct (decide (k <= length evs2)%nat) as [Hle|Hgt].
    + rewrite take_app_le in Hk by done. eauto.
    + rewrite take_ge in Hk by (rewrite length_app; cbn; lia).
      rewrite (run_events_snoc _ _ _ _ _ Hr2 Hev) in Hk. injection Hk as <-.
      exists l'. split; [done|]. by eapply same_layer_trans.
Qed.

End Runs.

(** ** What a step leaves alone *)

Section Frame.

Context (H : Host).
Implicit Types (c : Config H).

Ltac crunch Hs :=
  repeat first
    [ progress ok_inv Hs
    | match type of Hs with
      | Ok _ = Ok _ => injection Hs as <-
      | Err _ = Ok _ => discriminate Hs
      | panic _ _ _ = Ok _ => discriminate Hs
      | (let '(_, _) := ?p in _) = _ => destruct p eqn:?
      | (if ?b then _ else _) = _ => destruct b eqn:?
      | match ?x with _ => _ end = _ => destruct x eqn:?
      end ].

Lemma step_numLiterals c b c' :
  step H c = Ok (b, c') -> numLiterals (state c') = numLiterals (state c).
Proof.
  unfold step. intros Hs.
  destruct (stack (state c)) as [|layer below]; [done|].
  destruct (layer_expr layer) as [e|]; [|by injection Hs as <- <-].
  ok_inv Hs. injection Hs as <- <-. rename E into Hs.
  destruct e; unfold step_Variable, step_Lambda, step_Letrec, step_If, step_Sequence,
    step_IntrinsicCall, step_ExprCall, step_At, publish, push_child, _new,
    make_shared in Hs;
    crunch Hs; try done.
Qed.

Lemma _callIntrinsic_distinct heap sl name args w v w' :
  (forall s w v w', eval_source H s w = Ok (v, w') -> distinct_value v) ->
  _callIntrinsic H heap sl name args w = Ok (v, w') -> distinct_value v.
Proof.
  intros Hhost Hc. unfold _callIntrinsic in Hc.
  repeat match type of Hc with
         | (if ?b then _ else _) = _ => destruct b
         end;
    unfold int_binop, str_binop, bool_to_Integer in Hc;
    try done;
    try (ok_inv Hc; by eapply Hhost);
    crunch Hc; try done.
  all: repeat match goal with
              | E : (if ?b then _ else _) = Ok _ |- _ => destruct b; [done|]
              | E : rbind ?r _ = Ok _ |- _ =>
                  destruct r; cbn [rbind] in E; [|done]
              end.
  all: match goal with E : Ok _ = Ok _ |- _ => by injection E as <- end.
Qed.

End Frame.

(** ** The invariant of a run *)

Section Invariant.

Context (H : Host).
Hypothesis Hhost :
  forall s w v w', eval_source H s w = Ok (v, w') -> distinct_value v.
Context (c0 : Config H).
Implicit Types (c : Config H) (gs : list (Layer * list Location)) (l layer : Layer).

Lemma produced_distinct e v :
  distinct_bindings e -> produced (H:=H) e v -> distinct_value v.
Proof.
  intros He [(m & vl & x & env & -> & ->)|(heap & sl & name & args & w & w' & Hc)].
  - exact He.
  - by eapply _callIntrinsic_distinct.
Qed.

Lemma tracked_new r x f : tracked_ok (new_layer r x f, []).
Proof. unfold tracked_ok. cbn. by destruct x as [[]|]. Qed.

Lemma tracked_not_Letrec l g e :
  layer_expr l = Some e -> ~ is_Letrec e -> tracked_ok (l, g).
Proof.
  intros He Hn. unfold tracked_ok. cbn. rewrite He.
  destruct e; try done; by destruct Hn.
Qed.

Lemma not_active_new r x f : ~ active (new_layer r x f).
Proof. intros (m & vel & expr & _ & Hpc). cbn in Hpc. lia. Qed.

Lemma not_active_not_Letrec l e :
  layer_expr l = Some e -> ~ is_Letrec e -> ~ active l.
Proof.
  intros He Hn (m & vel & expr & He' & _). rewrite He in He'.
  injection He' as ->. by apply Hn.
Qed.

Lemma same_layer_expr l l' e :
  same_layer l l' -> layer_expr l = Some e -> layer_expr l' = Some e.
Proof. by intros (_ & -> & _). Qed.

Lemma layer_distinct_same l l' : same_layer l l' -> layer_distinct l -> layer_distinct l'.
Proof. intros (_ & He & _). unfold layer_distinct. by rewrite He. Qed.

Lemma valid_same (n : nat) l l' :
  same_layer l l' -> (layer_env l < n)%nat -> (layer_env l' < n)%nat.
Proof. by intros (-> & _). Qed.

Lemma inv_step evs c gs c' :
  run_events c0 evs = Some c ->
  Inv c0 evs c gs ->
  step H c = Ok (true, c') ->
  exists gs', Inv c0 (evs ++ [Step]) c' gs'.
Proof.
  intros Hrun [Hstk Hrefs Hvalid Htop Henvs Htr Hlay Hheap Hlits Hborn] Hs.
  pose proof (step_numLiterals H c true c' Hs) as Hnl.
  destruct gs as [|[layer g] gbelow].
  { unfold step in Hs. cbn in Hstk. by rewrite <- Hstk in Hs. }
  cbn [map fst] in Hstk. symmetry in Hstk.
  destruct (layer_expr layer) as [e|] eqn:He.
  2:{ unfold step in Hs. rewrite Hstk, He in Hs. done. }
  pose proof (step_transition H c c' layer (map fst gbelow) e Hstk He Hs) as Ht.
  rewrite Hstk in Hrefs, Hvalid, Hlay.
  apply Forall_cons in Hvalid as [Hv1 Hvalid].
  apply Forall_cons in Hlay as [Hl1 Hlay].
  apply Forall_cons in Htr as [Ht1 Htr].
  pose proof Htop as [base Hbase]. cbn [fst pending] in Hbase.
  pose proof Hrefs as [Hr1 Hrefs'].
  pose proof Henvs as [He1 Henvs'].
  assert (Hl1' : distinct_bindings e).
  { unfold layer_distinct in Hl1. by rewrite He in Hl1. }
  assert (Hkept : forall gabove gkept gnew,
             (layer, g) :: gbelow = gabove ++ gkept ->
             stack (state c') = map fst (gnew ++ gkept) ->
             forall d g', at_depth d gkept = Some g' -> active (fst g') ->
                          born c0 (evs ++ [Step]) d (fst g') (snd g')).
  { intros gabove gkept gnew Hsplit Hstk' d g' Hat Hact.
    pose proof (at_depth_lt _ _ _ Hat) as Hlt.
    eapply (born_extend H c0 evs c Step c' d (fst g') (fst g') (snd g'));
      [done|by eapply after_Step| |apply same_layer_refl|].
    - apply Hborn; [|done]. by rewrite Hsplit, at_depth_below.
    - rewrite Hstk', at_depth_map, (at_depth_below d gnew gkept) by done.
      by rewrite Hat. }
  assert (Htopkept : forall layer',
             same_layer layer layer' -> active layer ->
             at_depth (length gbelow) (stack (state c')) = Some layer' ->
             born c0 (evs ++ [Step]) (length gbelow) layer' g).
  { intros layer' Hsame Hact Hat.
    eapply (born_extend H c0 evs c Step c' _ layer layer' g);
      [done|by eapply after_Step| |done|done].
    apply (Hborn _ (layer, g)); [apply at_depth_top|done]. }
  assert (Hclosure : forall loc cenv fn,
             heap_at (heap (state c)) loc = Ok (Closure cenv fn) ->
             distinct_bindings (lam_expr fn)).
  { intros loc cenv fn Hat. unfold heap_at in Hat.
    destruct (vec_at _ loc) as [v|] eqn:Hv; [|done]. injection Hat as ->.
    apply vec_at_In, list_elem_of_In in Hv.
    rewrite Forall_forall in Hheap. exact (Hheap _ Hv). }
  destruct Ht as [vs Hn Hmem Hstk' Hheap' Hprod
                 |layer' x Hn Hsame Hx Hmem Hstk' Hheap'
                 |layer' Hn Hsame Hmem Hstk' Hheap'
                 |m vel expr env -> Hpc Henv Hmem Hstk' Hheap'
                 |m vel expr x -> Hpc Hx Hmem Hstk' Hknot
                 |m vel expr env -> Hpc Henv Hlen Hmem Hstk' Hheap'
                 |layer' loc cenv fn newEnv Hn Hsame Hclo Hmem Hstk' Hheap'
                 |above f rest loc cenv fn newEnv Hn Hsplit Habove Hf Hclo Hmem Hstk' Hheap'].
  - (* the layer leaves with a result *)
    exists gbelow. split; rewrite ?Hmem, ?Hstk', ?Hheap', ?Hnl; try done.
    + eapply top_ok_pop; [done..|]. exists base.
      by rewrite (own_not_Letrec layer g e), app_nil_r in Hbase.
    + apply Forall_app. split; [done|].
      eapply Forall_impl; [exact Hprod|]. intros v. by apply produced_distinct.
    + apply (Hkept [(layer, g)] gbelow []); [done|]. by rewrite Hstk'.
  - (* a child layer for a subexpression *)
    exists ((new_layer (layer_env layer) (Some x) false, []) :: (layer', g) :: gbelow).
    split; rewrite ?Hmem, ?Hstk', ?Hheap', ?Hnl; try done.
    + split; [by destruct Hsame as (-> & _)|by eapply refs_ok_same].
    + repeat constructor; try done. by eapply valid_same.
    + exists base. by rewrite pending_child, (pending_same layer layer').
    + split; [done|]. by eapply envs_ok_same.
    + repeat constructor; try done; [apply tracked_new|].
      eapply tracked_not_Letrec; [|done]. by eapply same_layer_expr.
    + repeat constructor; try done; [|by eapply layer_distinct_same].
      by eapply distinct_children.
    + intros d g' Hat Hact.
      apply at_depth_cons_inv in Hat as [[_ ->]|[_ Hat]];
        [by apply not_active_new in Hact|].
      apply at_depth_cons_inv in Hat as [[_ ->]|[_ Hat]].
      * eapply not_active_not_Letrec in Hact; [done| |done].
        cbn [fst]. by eapply same_layer_expr.
      * eapply (Hkept [(layer, g)] gbelow [(_, []); (_, g)]); try done.
        rewrite Hstk'. reflexivity.
  - (* the layer goes on by itself *)
    exists ((layer', g) :: gbelow).
    split; rewrite ?Hmem, ?Hstk', ?Hheap', ?Hnl; try done.
    + by eapply refs_ok_same.
    + repeat constructor; try done. by eapply valid_same.
    + by eapply top_ok_same.
    + by eapply envs_ok_same.
    + repeat constructor; try done.
      eapply tracked_not_Letrec; [|done]. by eapply same_layer_expr.
    + repeat constructor; try done. by eapply layer_distinct_same.
    + intros d g' Hat Hact.
      apply at_depth_cons_inv in Hat as [[_ ->]|[_ Hat]].
      * eapply not_active_not_Letrec in Hact; [done| |done].
        cbn [fst]. by eapply same_layer_expr.
      * eapply (Hkept [(layer, g)] gbelow [(_, g)]); try done.
        rewrite Hstk'. reflexivity.
  - (* the first step of a Letrec *)
    assert (g = []) as ->.
    { unfold tracked_ok in Ht1. cbn [fst snd] in Ht1. rewrite He, Hpc in Ht1. done. }
    set (locs := fresh_locs (zlen (heap (state c))) (length vel)).
    assert (Hlocs : length locs = length vel).
    { unfold locs, fresh_locs. by rewrite length_map, length_seq. }
    rewrite own_nil, app_nil_r, Henv in Hbase. injection Hbase as ->.
    exists ((set_pc layer 1, locs) :: gbelow).
    split; rewrite ?Hmem, ?Hstk', ?Hheap', ?Hnl; try done.
    + rewrite mem_insert_length. by constructor.
    + eexists. cbn [fst set_pc layer_env pending layer_frame].
      rewrite (mem_insert_eq _ _ _ _ Henv). f_equal.
      unfold own, letrec_names. cbn [fst snd set_pc layer_expr]. rewrite He.
      by rewrite <- app_assoc.
    + apply (envs_ok_update _ (layer_env layer) _ ((layer, []) :: gbelow)); done.
    + constructor; [|done]. unfold tracked_ok. cbn. by rewrite He.
    + by repeat constructor.
    + apply Forall_app. split; [done|]. by apply Forall_replicate.
    + intros d g' Hat Hact.
      apply at_depth_cons_inv in Hat as [[-> ->]|[_ Hat]].
      * exists evs, [], c, c', layer, (map fst gbelow), m, vel, expr.
        split_and!; try done.
        -- by rewrite length_map.
        -- cbn [snd]. unfold locs. symmetry. apply map_id.
        -- intros k c2. rewrite take_nil. intros [= <-].
           exists (set_pc layer 1). split; [|apply same_layer_set_pc].
           rewrite Hstk', <- (length_map fst gbelow). apply at_depth_top.
      * eapply (Hkept [(layer, [])] gbelow [(_, locs)]); try done.
        rewrite Hstk'. reflexivity.
  - (* a binding or the body of a Letrec, after the knot *)
    assert (Hact : active layer) by (exists m, vel, expr; split; [done|lia]).
    assert (Hg : length g = length vel).
    { unfold tracked_ok in Ht1. cbn [fst snd] in Ht1. rewrite He in Ht1.
      destruct (Z.ltb_spec (layer_pc layer) 1); [lia|done]. }
    set (layer' := set_pc layer (layer_pc layer + 1)) in *.
    assert (Hsame : same_layer layer layer') by apply same_layer_set_pc.
    exists ((new_layer (layer_env layer) (Some x) false, []) :: (layer', g) :: gbelow).
    split; rewrite ?Hmem, ?Hstk', ?Hnl.
    + done.
    + split; [done|by eapply refs_ok_same].
    + by repeat constructor.
    + exists base. by rewrite pending_child, (pending_same layer layer').
    + split; [done|]. by eapply envs_ok_same.
    + repeat constructor; try done; [apply tracked_new|].
      unfold tracked_ok. cbn. rewrite He.
      destruct (Z.ltb_spec (layer_pc layer + 1) 1); [lia|done].
    + repeat constructor; try done. by eapply distinct_children.
    + unfold knot in Hknot. destruct (layer_pc layer <? 2); [by rewrite Hknot|].
      destruct Hknot as (ve & env & L & v & _ & _ & _ & Hv & _ & ->).
      apply Forall_insert; [done|]. unfold heap_at in Hv.
      destruct (vec_at _ _) as [v'|] eqn:Hv'; [|done]. injection Hv as ->.
      apply vec_at_In, list_elem_of_In in Hv'.
      rewrite Forall_forall in Hheap. exact (Hheap _ Hv').
    + done.
    + intros d g' Hat Hact'.
      apply at_depth_cons_inv in Hat as [[_ ->]|[_ Hat]];
        [by apply not_active_new in Hact'|].
      apply at_depth_cons_inv in Hat as [[-> ->]|[_ Hat]].
      * apply Htopkept; try done.
        rewrite Hstk', at_depth_cons by (cbn; rewrite length_map; lia).
        rewrite <- (length_map fst gbelow). apply at_depth_top.
      * eapply (Hkept [(layer, g)] gbelow [(_, []); (_, g)]); try done.
        rewrite Hstk'. reflexivity.
  - (* the last step of a Letrec *)
    assert (Hn0 : 0 <= zlen vel) by (unfold zlen; lia).
    assert (Hg : length g = length vel).
    { unfold tracked_ok in Ht1. cbn [fst snd] in Ht1. rewrite He in Ht1.
      destruct (Z.ltb_spec (layer_pc layer) 1); [lia|done]. }
    assert (Hown : length (own (layer, g)) = length vel).
    { unfold own, letrec_names. cbn [fst snd]. rewrite He, length_combine.
      unfold bound_names. rewrite length_map. lia. }
    pose proof (eq_trans (eq_sym Henv) Hbase) as Heq. injection Heq as ->.
    assert (Htake : take (length ((base ++ (if layer_frame layer then []
                                            else pending gbelow)) ++ own (layer, g))
                          - length vel)
                         ((base ++ (if layer_frame layer then []
                                    else pending gbelow)) ++ own (layer, g))
                    = base ++ (if layer_frame layer then [] else pending gbelow)).
    { apply take_app_length'. rewrite length_app. lia. }
    rewrite app_assoc in Hmem, Henv. rewrite Htake in Hmem.
    assert (Henvs2 : envs_ok (memory c') ((layer, g) :: gbelow)).
    { rewrite Hmem. by apply envs_ok_update. }
    exists gbelow. split; rewrite ?Hstk', ?Hheap', ?Hnl; try done.
    + rewrite Hmem, mem_insert_length. done.
    + eapply top_ok_pop; [done..|]. eexists. rewrite Hmem.
      by rewrite (mem_insert_eq _ _ _ _ Henv).
    + apply Henvs2.
    + apply (Hkept [(layer, g)] gbelow []); [done|]. by rewrite Hstk'.
  - (* a call *)
    set (frame := new_layer (length (memory c)) (Some (lam_expr fn)) true) in *.
    exists ((frame, []) :: (layer', g) :: gbelow).
    assert (Hvalid' : Forall (fun l => (layer_env l < length (memory c))%nat)
                             (layer' :: map fst gbelow)).
    { constructor; [by eapply valid_same|done]. }
    split; rewrite ?Hmem, ?Hstk', ?Hheap', ?Hnl; try done.
    + split; [|by eapply refs_ok_same]. by apply refs_ok_valid_new.
    + rewrite length_app. cbn [length]. constructor; [cbn; lia|].
      eapply Forall_impl; [exact Hvalid'|]. cbn. intros; lia.
    + exists newEnv. unfold frame. rewrite pending_frame, app_nil_r.
      apply mem_grow_new.
    + split.
      * intros _. apply top_ok_grow. by eapply top_ok_same.
      * apply envs_ok_grow. by eapply envs_ok_same.
    + repeat constructor; try done; [apply tracked_new|].
      eapply tracked_not_Letrec; [|done]. by eapply same_layer_expr.
    + repeat constructor; try done; [by eapply Hclosure|by eapply layer_distinct_same].
    + intros d g' Hat Hact.
      apply at_depth_cons_inv in Hat as [[_ ->]|[_ Hat]];
        [by apply not_active_new in Hact|].
      apply at_depth_cons_inv in Hat as [[_ ->]|[_ Hat]].
      * eapply not_active_not_Letrec in Hact; [done| |done].
        cbn [fst]. by eapply same_layer_expr.
      * eapply (Hkept [(layer, g)] gbelow [(_, []); (_, g)]); try done.
        rewrite Hstk'. reflexivity.
  - (* a tail call *)
    set (frame := new_layer (length (memory c)) (Some (lam_expr fn)) true) in *.
    assert (Hgs : exists gabove gf grest,
               (layer, g) :: gbelow = gabove ++ gf :: grest
               /\ fst gf = f /\ map fst grest = rest).
    { change (layer :: map fst gbelow) with (map fst ((layer, g) :: gbelow)) in Hsplit.
      apply map_eq_app in Hsplit as (gabove & gtail & -> & _ & Htail).
      apply map_eq_cons in Htail as (gf & grest & -> & <- & <-).
      by exists gabove, gf, grest. }
    destruct Hgs as (gabove & gf & grest & Hgs & <- & <-).
    rewrite Hgs in Henvs, Htop, Hborn.
    assert (Hall : refs_ok (map fst (gf :: grest))
                   /\ Forall (fun l => (layer_env l < length (memory c))%nat)
                             (map fst (gf :: grest))
                   /\ Forall tracked_ok (gf :: grest)
                   /\ Forall layer_distinct (map fst (gf :: grest))).
    { assert (Hr : refs_ok (map fst ((layer, g) :: gbelow))) by done.
      assert (Hv : Forall (fun l => (layer_env l < length (memory c))%nat)
                          (map fst ((layer, g) :: gbelow))) by (by constructor).
      assert (Ht : Forall tracked_ok ((layer, g) :: gbelow)) by (by constructor).
      assert (Hl : Forall layer_distinct (map fst ((layer, g) :: gbelow)))
        by (by constructor).
      rewrite Hgs in Hr, Hv, Ht, Hl. rewrite map_app in Hr, Hv, Hl.
      apply refs_ok_app_r in Hr.
      apply Forall_app in Hv as [_ Hv]. apply Forall_app in Ht as [_ Ht].
      apply Forall_app in Hl as [_ Hl]. done. }
    destruct Hall as ([_ Hr] & [_ Hv]%Forall_cons & [_ Ht]%Forall_cons
                      & [_ Hl]%Forall_cons).
    apply envs_ok_app_r in Henvs as [Het Hes].
    exists ((frame, []) :: grest).
    split; rewrite ?Hmem, ?Hstk', ?Hheap', ?Hnl; try done.
    + split; [|done]. by apply refs_ok_valid_new.
    + rewrite length_app. cbn [length]. constructor; [cbn; lia|].
      eapply Forall_impl; [exact Hv|]. cbn. intros; lia.
    + exists newEnv. unfold frame. rewrite pending_frame, app_nil_r.
      apply mem_grow_new.
    + split.
      * intros _. apply top_ok_grow. auto.
      * by apply envs_ok_grow.
    + constructor; [apply tracked_new|done].
    + constructor; [by eapply Hclosure|done].
    + intros d g' Hat Hact.
      apply at_depth_cons_inv in Hat as [[_ ->]|[_ Hat]];
        [by apply not_active_new in Hact|].
      eapply (Hkept (gabove ++ [gf]) grest [(_, [])]); try done.
      * by rewrite <- app_assoc.
      * rewrite Hstk'. reflexivity.
Qed.

End Invariant.

(** ** Collections *)

Section Collections.

Context (H : Host).
Implicit Types (c : Config H) (gs : list (Layer * list Location)) (l : Layer)
  (stk : list Layer) (mem : Memory) (rho : gmap Z Z).

Lemma reloc_frames_spec rho stk : forall mem mem',
  NoDup (frame_refs stk) ->
  reloc_frames rho stk mem = Ok mem' ->
  length mem' = length mem
  /\ (forall r, In r (frame_refs stk) -> mem' !! r = reloc_env rho <$> mem !! r)
  /\ (forall r, ~ In r (frame_refs stk) -> mem' !! r = mem !! r).
Proof.
  induction stk as [|l stk IH]; intros mem mem' Hnd Hr.
  - injection Hr as <-. split; [done|]. split; [intros r []|done].
  - cbn in Hr. unfold frame_refs in *. cbn [List.filter] in *.
    destruct (layer_frame l) eqn:Hf.
    + ok_inv Hr. ok_inv E. injection E as <-. apply deref_inv in E0.
      cbn [map] in Hnd. apply NoDup_cons in Hnd as [Hnotin Hnd].
      rewrite list_elem_of_In in Hnotin.
      destruct (IH _ _ Hnd Hr) as (Hlen & Hget & Hkeep).
      rewrite mem_insert_length in Hlen. split; [done|]. split.
      * intros r [<-|Hin].
        -- rewrite (Hkeep _ Hnotin), (mem_insert_eq _ _ _ _ E0). by rewrite E0.
        -- rewrite (Hget r Hin), mem_insert_ne; [done|]. by intros <-.
      * intros r Hr'. cbn in Hr'. rewrite (Hkeep r) by tauto.
        apply mem_insert_ne. tauto.
    + ok_inv Hr. injection E as <-. by apply IH.
Qed.

Lemma NoDup_rev' {A} (xs : list A) : NoDup xs -> NoDup (rev xs).
Proof.
  induction 1 as [|x xs Hx Hnd IH]; cbn; [constructor|].
  apply NoDup_app. split; [done|]. split; [|apply NoDup_singleton].
  intros y Hy%list_elem_of_In%in_rev ->%list_elem_of_singleton.
  by apply Hx, list_elem_of_In.
Qed.

Lemma frame_refs_rev stk : frame_refs (rev stk) = rev (frame_refs stk).
Proof.
  unfold frame_refs. induction stk as [|l stk IH]; [done|]. cbn.
  rewrite List.filter_app, map_app, IH. cbn.
  destruct (layer_frame l); cbn; [done|by rewrite app_nil_r].
Qed.

Lemma frame_refs_sub stk r : In r (frame_refs stk) -> In r (map layer_env stk).
Proof.
  unfold frame_refs. intros (l & <- & Hl)%in_map_iff.
  apply List.filter_In in Hl as [Hl _]. by apply in_map.
Qed.

Lemma refs_ok_NoDup stk : refs_ok stk -> NoDup (frame_refs stk).
Proof.
  induction stk as [|l stk IH]; [constructor|].
  intros [Hl Hr]. unfold frame_refs in *. cbn.
  destruct (layer_frame l); [|auto]. cbn. apply NoDup_cons. split; [|auto].
  rewrite list_elem_of_In. intros Hin. apply Hl. by apply frame_refs_sub.
Qed.

Lemma refs_ok_frame stk :
  refs_ok stk -> forall l, In l stk -> In (layer_env l) (frame_refs stk).
Proof.
  induction stk as [|l0 stk IH]; [done|].
  intros [Hl Hr] l Hin.
  assert (Hhead : In (layer_env l0) (frame_refs (l0 :: stk))).
  { unfold frame_refs in *. cbn. destruct (layer_frame l0); [by left|].
    destruct stk as [|l1 stk]; [done|]. rewrite Hl. apply IH; [done|by left]. }
  destruct Hin as [<-|Hin]; [done|].
  specialize (IH Hr l Hin). unfold frame_refs in *. cbn.
  destruct (layer_frame l0); [by right|done].
Qed.

Lemma refs_ok_map (f : Layer -> Layer) stk :
  (forall l, same_layer l (f l)) -> refs_ok stk -> refs_ok (map f stk).
Proof.
  intros Hf. induction stk as [|l stk IH]; [done|]. cbn.
  destruct (Hf l) as (-> & _ & ->). intros [Hl Hr]. split; [|auto].
  destruct (layer_frame l).
  - rewrite map_map. erewrite map_ext; [exact Hl|].
    intros l'. by destruct (Hf l') as (-> & _).
  - destruct stk as [|l1 stk]; [done|]. cbn. by destruct (Hf l1) as (-> & _).
Qed.

Lemma same_layer_reloc rho l : same_layer l (reloc_layer rho l).
Proof. by repeat split. Qed.

(** The tracked stack after a collection *)

Lemma own_reloc rho g : own (reloc_tracked rho g) = reloc_env rho (own g).
Proof.
  unfold own, reloc_tracked, reloc_env. cbn [fst snd].
  rewrite (letrec_names_same (fst g)) by apply same_layer_reloc.
  apply combine_map_r.
Qed.

Lemma pending_reloc rho gs :
  pending (map (reloc_tracked rho) gs) = reloc_env rho (pending gs).
Proof.
  induction gs as [|g gs IH]; [done|]. cbn [map pending].
  rewrite own_reloc.
  change (reloc_env rho (?a ++ ?b)) with (map (fun p => (fst p, reloc rho (snd p))) (a ++ b)).
  rewrite map_app. f_equal. cbn. destruct (layer_frame (fst g)); [done|apply IH].
Qed.

Lemma top_ok_reloc rho mem mem' gs :
  (forall g, In g gs ->
             mem' !! layer_env (fst g) = reloc_env rho <$> mem !! layer_env (fst g)) ->
  top_ok mem gs -> top_ok mem' (map (reloc_tracked rho) gs).
Proof.
  destruct gs as [|g gs]; [done|]. intros Hmem [base Hb].
  exists (reloc_env rho base). rewrite pending_reloc. cbn [map fst reloc_tracked].
  change (layer_env (reloc_layer rho (fst g))) with (layer_env (fst g)).
  specialize (Hmem g (or_introl eq_refl)).
  unfold Memory, EnvRef, Env in *. rewrite Hmem, Hb. cbn.
  unfold reloc_env. by rewrite map_app.
Qed.

Lemma envs_ok_reloc rho mem mem' gs :
  (forall g, In g gs ->
             mem' !! layer_env (fst g) = reloc_env rho <$> mem !! layer_env (fst g)) ->
  envs_ok mem gs -> envs_ok mem' (map (reloc_tracked rho) gs).
Proof.
  induction gs as [|g gs IH]; [done|]. intros Hmem [Ht He]. cbn. split.
  - intros Hf. eapply top_ok_reloc; [|by apply Ht]. intros g' Hg'. apply Hmem. by right.
  - apply IH; [|done]. intros g' Hg'. apply Hmem. by right.
Qed.

Lemma tracked_ok_reloc rho g : tracked_ok g -> tracked_ok (reloc_tracked rho g).
Proof.
  unfold tracked_ok, reloc_tracked. cbn.
  destruct (layer_expr (fst g)) as [[]|]; try done.
  destruct (layer_pc (fst g) <? 1); [by intros ->|by rewrite length_map].
Qed.

(** The sweep *)

Lemma sweep_loop_Forall (P : Value -> Prop) k : forall visited heap i j rel,
  Forall P heap -> Forall P (fst (fst (sweep_loop k visited heap i j rel))).
Proof.
  induction k as [|k IH]; intros visited heap i j rel HP; cbn; [done|].
  destruct (decide (j ∈ visited)); [|by apply IH].
  destruct (i <? j); [|by apply IH].
  destruct (vec_at heap j) as [v|] eqn:Hv; [|by apply IH].
  apply IH. apply Forall_insert; [done|].
  rewrite Forall_forall in HP. apply HP. by apply list_elem_of_In, (vec_at_In heap j).
Qed.

Lemma after_Collect c c' :
  after Collect c = Some c' ->
  let rho := gc_relocation c in
  exists heap1,
    Forall (fun v => In v (heap (state c))) heap1
    /\ reloc_frames rho (rev (stack (state c))) (memory c) = Ok (memory c')
    /\ stack (state c') = map (reloc_layer rho) (stack (state c))
    /\ heap (state c') = map (reloc_value rho) heap1
    /\ numLiterals (state c') = numLiterals (state c).
Proof.
  unfold after, _gc, gc_relocation.
  destruct (_mark H c) as [[visited|]|]; try done.
  unfold _sweepAndCompact.
  destruct (sweep_loop _ _ _ _ _ _) as [[heap1 i] rel] eqn:Hsweep.
  cbn [fst snd]. unfold _relocate. cbn [state memory world set_heap stack heap
    numLiterals resultLoc st_expr].
  intros Hc. destruct (reloc_frames _ _ _) as [mem'|] eqn:Hrf; [|done].
  cbn in Hc. injection Hc as <-. cbn.
  exists (take (Z.to_nat i) heap1). split_and!; try done.
  apply Forall_take.
  pose proof (sweep_loop_Forall (fun v => In v (heap (state c)))
                (Z.to_nat (zlen (heap (state c)) - numLiterals (state c)))
                visited (heap (state c)) (numLiterals (state c))
                (numLiterals (state c)) ∅) as HF.
  rewrite Hsweep in HF. apply HF. by apply Forall_forall; intros v ?%list_elem_of_In.
Qed.

End Collections.

(** ** Every state of a run satisfies the invariant *)

Section Reachable.

Context (H : Host).
Hypothesis Hhost :
  forall s w v w', eval_source H s w = Ok (v, w') -> distinct_value v.
Implicit Types (c : Config H) (gs : list (Layer * list Location)).

Lemma step_halted c c' : step H c = Ok (false, c') -> c' = c.
Proof.
  unfold step. destruct (stack (state c)) as [|layer below]; [done|].
  destruct (layer_expr layer); [|by intros [= <-]].
  intros Hs. ok_inv Hs. done.
Qed.

Lemma inv_halted (c0 : Config H) evs c gs :
  run_events c0 evs = Some c ->
  Inv c0 evs c gs ->
  step H c = Ok (false, c) ->
  Inv c0 (evs ++ [Step]) c gs.
Proof.
  intros Hrun [Hstk Hrefs Hvalid Htop Henvs Htr Hlay Hheap Hlits Hborn] Hs.
  split; try done. intros d g Hat Hact.
  eapply (born_extend H c0 evs c Step c d (fst g) (fst g) (snd g));
    [done|by eapply after_Step|by apply Hborn|apply same_layer_refl|].
  by rewrite <- Hstk, at_depth_map, Hat.
Qed.

Lemma inv_collect (c0 : Config H) evs c gs c' :
  run_events c0 evs = Some c ->
  Inv c0 evs c gs ->
  after Collect c = Some c' ->
  Inv c0 (evs ++ [Collect]) c' (map (reloc_tracked (gc_relocation c)) gs).
Proof.
  intros Hrun [Hstk Hrefs Hvalid Htop Henvs Htr Hlay Hheap Hlits Hborn] Hc.
  destruct (after_Collect H c c' Hc) as (heap1 & Hh1 & Hrf & Hstk' & Hheap' & Hnl).
  set (rho := gc_relocation c) in *.
  apply reloc_frames_spec in Hrf as (Hlen & Hget & _).
  2:{ rewrite frame_refs_rev. apply NoDup_rev'. by apply refs_ok_NoDup. }
  assert (Hmem : forall g, In g gs ->
             memory c' !! layer_env (fst g)
             = reloc_env rho <$> memory c !! layer_env (fst g)).
  { intros g Hg. apply Hget. rewrite frame_refs_rev. apply in_rev.
    rewrite rev_involutive. apply refs_ok_frame; [done|].
    rewrite <- Hstk. by apply in_map. }
  assert (Hstk2 : map fst (map (reloc_tracked rho) gs) = stack (state c')).
  { rewrite Hstk', <- Hstk, !map_map. done. }
  split; rewrite ?Hnl.
  - done.
  - rewrite Hstk'. apply refs_ok_map; [apply same_layer_reloc|done].
  - rewrite Hstk', Hlen. apply Forall_map. eapply Forall_impl; [exact Hvalid|]. done.
  - by eapply top_ok_reloc.
  - by eapply envs_ok_reloc.
  - apply Forall_map. eapply Forall_impl; [exact Htr|]. apply tracked_ok_reloc.
  - rewrite Hstk'. apply Forall_map. eapply Forall_impl; [exact Hlay|]. done.
  - rewrite Hheap'. apply Forall_map. eapply Forall_impl; [exact Hh1|].
    intros v Hv%list_elem_of_In. rewrite Forall_forall in Hheap.
    specialize (Hheap v Hv). by destruct v.
  - done.
  - intros d g' Hat Hact. rewrite at_depth_map in Hat.
    destruct (at_depth d gs) as [g|] eqn:Hg; [|done]. injection Hat as <-.
    apply (born_extend H c0 evs c Collect c' d (fst g) (reloc_layer rho (fst g)) (snd g));
      try done.
    + by apply Hborn.
    + rewrite <- Hstk2, !at_depth_map, Hg. done.
Qed.

Lemma inv_boot (c0 : Config H) w e uninit :
  boot H w e uninit = Ok c0 ->
  Inv c0 [] c0 (map (fun l => (l, [])) (stack (state c0))).
Proof.
  unfold boot, State_new. intros Hb. ok_inv Hb. destruct a as [mem s].
  injection Hb as <-. ok_inv E. destruct a0 as [e' heap']. cbn in E.
  injection E as <- <-. destruct a.
  apply checkDuplicate_distinct in E0.
  apply (preAllocate_spec _ [] e' heap') in E1 as [He' Hh'];
    [|by apply computeTail_distinct, computeFreeVars_distinct|constructor].
  split; cbn; try done.
  - split; [done|]. split; [by intros []|done].
  - repeat constructor; cbn; lia.
  - exists []. by rewrite combine_nil.
  - repeat constructor; apply tracked_new.
  - by repeat constructor.
  - unfold zlen. lia.
  - intros d g Hat Hact.
    apply at_depth_cons_inv in Hat as [[_ ->]|[_ Hat]];
      [by apply not_active_new in Hact|].
    apply at_depth_cons_inv in Hat as [[_ ->]|[_ Hat]];
      [by apply not_active_new in Hact|done].
Qed.

(** The invariant holds after every run. *)
Lemma reachable_inv (c0 : Config H) w e uninit evs :
  boot H w e uninit = Ok c0 ->
  forall c, run_events c0 evs = Some c -> exists gs, Inv c0 evs c gs.
Proof.
  intros Hb. induction evs as [|ev evs IH] using rev_ind; intros c Hrun.
  - injection Hrun as <-. eexists. by eapply inv_boot.
  - rewrite run_events_app in Hrun.
    destruct (run_events c0 evs) as [c1|] eqn:Hr1; [|done].
    cbn in Hrun. destruct (after ev c1) as [c2|] eqn:Hev; [|done].
    injection Hrun as ->. destruct (IH c1 eq_refl) as [gs Hinv].
    destruct ev.
    + cbn in Hev. destruct (step H c1) as [[[] c3]|] eqn:Hs; [| |done];
        injection Hev as ->.
      * by eapply inv_step.
      * pose proof (step_halted _ _ Hs) as ->. exists gs. by apply inv_halted.
    + eexists. by eapply inv_collect.
Qed.

End Reachable.

(** ** The heap along a run *)

Section Heap.

Context (H : Host).
Hypothesis Hhost :
  forall s w v w', eval_source H s w = Ok (v, w') -> distinct_value v.
Implicit Types (c : Config H) (gs : list (Layer * list Location)).

Lemma fresh_locs_lookup h n i :
  (i < n)%nat -> fresh_locs h n !! i = Some (h + Z.of_nat i).
Proof.
  intros Hi. unfold fresh_locs.
  change (map ?f ?l) with (f <$> l). rewrite list_lookup_fmap.
  by rewrite lookup_seq_lt.
Qed.

Lemma step_heap (c0 : Config H) evs c gs c' :
  run_events c0 evs = Some c ->
  Inv c0 evs c gs ->
  step H c = Ok (true, c') ->
  unchanged c c' \/ knot_tied c0 evs c c'.
Proof.
  intros Hrun [Hstk Hrefs Hvalid Htop Henvs Htr Hlay Hheap Hlits Hborn] Hs.
  destruct gs as [|[layer g] gbelow].
  { unfold step in Hs. cbn in Hstk. by rewrite <- Hstk in Hs. }
  cbn [map fst] in Hstk. symmetry in Hstk.
  destruct (layer_expr layer) as [e|] eqn:He.
  2:{ unfold step in Hs. rewrite Hstk, He in Hs. done. }
  pose proof (step_transition H c c' layer (map fst gbelow) e Hstk He Hs) as Ht.
  destruct Ht as [vs Hn Hmem Hstk' Hheap' Hprod
                 |layer' x Hn Hsame Hx Hmem Hstk' Hheap'
                 |layer' Hn Hsame Hmem Hstk' Hheap'
                 |m vel expr env -> Hpc Henv Hmem Hstk' Hheap'
                 |m vel expr x -> Hpc Hx Hmem Hstk' Hknot
                 |m vel expr env -> Hpc Henv Hlen Hmem Hstk' Hheap'
                 |layer' loc cenv fn newEnv Hn Hsame Hclo Hmem Hstk' Hheap'
                 |above f rest loc cenv fn newEnv Hn Hsplit Habove Hf Hclo Hmem Hstk' Hheap'];
    try (left; eexists; rewrite Hheap'; first [reflexivity|symmetry; apply app_nil_r]).
  unfold knot in Hknot. destruct (Z.ltb_spec (layer_pc layer) 2) as [Hlt|Hge].
  { left. exists []. by rewrite app_nil_r. }
  right.
  destruct Hknot as (ve & env & L & v & Hve & Henv & HL & Hv & HLr & Hheap').
  (* the layer and its locations *)
  rewrite Hstk in Hlay. apply Forall_cons in Hlay as [Hl1 _].
  unfold layer_distinct in Hl1. rewrite He in Hl1.
  apply distinct_Letrec in Hl1 as (Hnd & _).
  apply Forall_cons in Htr as [Ht1 _].
  unfold tracked_ok in Ht1. cbn [fst snd] in Ht1. rewrite He in Ht1.
  destruct (Z.ltb_spec (layer_pc layer) 1); [lia|].
  assert (Hact : active layer) by (exists m, vel, expr; split; [done|lia]).
  destruct (Hborn (length gbelow) (layer, g) (at_depth_top _ _) Hact)
    as (evs1 & evs2 & c1 & c1' & l1 & below1 & m1 & vel1 & expr1
        & Hevs & Hr1 & Hs1 & Hd & He1 & Hpc1 & Hsame & Hstep & Hheap1 & Hg & Hheld).
  cbn [fst snd] in *.
  assert (Heq : LetrecNode m1 vel1 expr1 = LetrecNode m vel expr).
  { destruct Hsame as (_ & Hexpr & _). congruence. }
  injection Heq as -> -> ->.
  (* the slot *)
  apply vec_at_Some in Hve as [Hi Hve].
  set (i := Z.to_nat (layer_pc layer - 2)) in *.
  assert (Hin : (i < length vel)%nat) by (by eapply lookup_lt_Some).
  assert (Hname : bound_names vel !! i = Some (name (fst ve))).
  { unfold bound_names. change (map ?f ?l) with (f <$> l).
    by rewrite list_lookup_fmap, Hve. }
  assert (Hgi : g !! i
                = Some (reloc_along c1' evs2 (zlen (heap (state c1)) + (layer_pc layer - 2)))).
  { rewrite Hg. change (map ?f ?l) with (f <$> l).
    rewrite list_lookup_fmap, fresh_locs_lookup by done. cbn. do 3 f_equal.
    unfold i. lia. }
  destruct Htop as [base Hbase]. cbn [fst pending] in Hbase.
  pose proof (eq_trans (eq_sym Henv) Hbase) as Heq. injection Heq as ->.
  unfold own, letrec_names in HL. cbn [fst snd] in HL. rewrite He in HL.
  rewrite 2!lookup_env_app in HL.
  assert (Hlen : length g = length (bound_names vel)).
  { unfold bound_names. by rewrite length_map. }
  rewrite (lookup_env_combine _ _ i _ _ Hnd Hlen Hname Hgi) in HL.
  injection HL as <-.
  exists layer, (map fst gbelow), m, vel, expr, ve, v, evs1, evs2, c1, c1', l1, below1.
  split_and!; try done.
  - by apply vec_at_Some.
  - by rewrite length_map.
  - intros k c2 Hk. rewrite length_map. by apply (Hheld k).
Qed.

End Heap.

(** ** The sweep *)

Section Sweep.

Implicit Types (heap : list Value) (rel : gmap Z Z) (visited : gset Z).

Lemma zlen_insert {A} (v : list A) (n : nat) (x : A) : zlen (<[n := x]> v) = zlen v.
Proof. unfold zlen. by rewrite length_insert. Qed.

Lemma vec_at_insert_eq {A} (v : list A) i (x : A) :
  0 <= i < zlen v -> vec_at (<[Z.to_nat i := x]> v) i = Some x.
Proof.
  intros Hi. apply vec_at_Some. split; [lia|].
  apply list_lookup_insert_eq. unfold zlen in Hi. lia.
Qed.

Lemma vec_at_insert_ne {A} (v : list A) i j (x : A) :
  0 <= i -> j <> i -> vec_at (<[Z.to_nat i := x]> v) j = vec_at v j.
Proof.
  intros Hi Hne. unfold vec_at. destruct (j <? 0) eqn:Hj; [done|].
  apply list_lookup_insert_ne. apply Z.ltb_ge in Hj. lia.
Qed.

Lemma vec_at_take {A} (v : list A) i j :
  j < i -> vec_at (take (Z.to_nat i) v) j = vec_at v j.
Proof.
  intros Hlt. unfold vec_at. destruct (j <? 0) eqn:Hj; [done|].
  apply lookup_take_lt. apply Z.ltb_ge in Hj. lia.
Qed.

Lemma vec_at_map {A B} (f : A -> B) (v : list A) j :
  vec_at (map f v) j = f <$> vec_at v j.
Proof.
  unfold vec_at. destruct (j <? 0); [done|]. apply list_lookup_fmap.
Qed.

Lemma reloc_insert_eq rel j i : reloc (<[j := i]> rel) j = i.
Proof. unfold reloc, Location in *. by rewrite lookup_insert_eq. Qed.

Lemma reloc_insert_ne rel j i x : x <> j -> reloc (<[j := i]> rel) x = reloc rel x.
Proof. intros Hne. unfold reloc, Location in *. by rewrite lookup_insert_ne. Qed.

Lemma reloc_None rel x : rel !! x = None -> reloc rel x = x.
Proof. intros Hr. unfold reloc, Location in *. by rewrite Hr. Qed.

Lemma sweep_loop_inv heap0 nl visited k : forall heap i j rel heap' i' rel',
  0 <= nl ->
  j + Z.of_nat k = zlen heap0 ->
  sweep_inv heap0 nl visited heap i j rel ->
  sweep_loop k visited heap i j rel = (heap', i', rel') ->
  sweep_inv heap0 nl visited heap' i' (zlen heap0) rel'.
Proof.
  induction k as [|k IH]; intros heap i j rel heap' i' rel' Hnl Hj Hinv Hs.
  - cbn in Hs. injection Hs as <- <- <-. by replace (zlen heap0) with j by lia.
  - cbn [sweep_loop] in Hs.
    destruct Hinv as (Hij & Hlen & Hrest & Hlit & Hdone & Hmono).
    match type of Hs with
    | context [decide ?P] => destruct (decide P) as [Hvis|Hvis]
    end.
    + destruct (Z.ltb_spec i j) as [Hlt|Hge].
      * destruct (vec_at_lt heap j) as [v Hv]; [lia|]. rewrite Hv in Hs.
        refine (IH _ _ _ _ _ _ _ Hnl _ _ Hs); [lia|].
        split; [lia|]. split; [by rewrite zlen_insert|]. split; [|split; [|split]].
        -- intros x Hx. rewrite vec_at_insert_ne, lookup_insert_ne by lia.
           apply Hrest. lia.
        -- intros x Hx. rewrite vec_at_insert_ne, lookup_insert_ne by lia.
           by apply Hlit.
        -- intros x Hx Hxv. destruct (decide (x = j)) as [->|Hne].
           ++ rewrite reloc_insert_eq. split; [lia|].
              rewrite vec_at_insert_eq by lia.
              destruct (Hrest j) as [<- _]; [lia|done].
           ++ rewrite reloc_insert_ne by done.
              destruct (Hdone x) as [Hr Hval]; [lia|done|].
              split; [lia|]. rewrite vec_at_insert_ne by lia. done.
        -- intros x y Hx Hxy Hy Hxv Hyv.
           rewrite (reloc_insert_ne _ _ _ x) by lia.
           destruct (Hdone x) as [Hr _]; [lia|done|].
           destruct (decide (y = j)) as [->|Hne].
           ++ rewrite reloc_insert_eq. lia.
           ++ rewrite reloc_insert_ne by done. apply Hmono; try done. lia.
      * assert (i = j) as -> by lia.
        refine (IH _ _ _ _ _ _ _ Hnl _ _ Hs); [lia|].
        split; [lia|]. split; [done|]. split; [|split; [done|split]].
        -- intros x Hx. apply Hrest. lia.
        -- intros x Hx Hxv. destruct (decide (x = j)) as [->|Hne].
           ++ destruct (Hrest j) as [Hval Hr]; [lia|].
              rewrite (reloc_None _ _ Hr). split; [lia|done].
           ++ destruct (Hdone x) as [Hr Hval]; [lia|done|]. split; [lia|done].
        -- intros x y Hx Hxy Hy Hxv Hyv.
           destruct (Hdone x) as [Hr _]; [lia|done|].
           destruct (decide (y = j)) as [->|Hne].
           ++ destruct (Hrest j) as [_ Hrj]; [lia|].
              rewrite (reloc_None _ _ Hrj). lia.
           ++ apply Hmono; try done. lia.
    + refine (IH _ _ _ _ _ _ _ Hnl _ _ Hs); [lia|].
      split; [lia|]. split; [done|]. split; [|split; [done|split]].
      * intros x Hx. apply Hrest. lia.
      * intros x Hx Hxv. apply Hdone; [|done].
        destruct (decide (x = j)) as [->|]; [done|lia].
      * intros x y Hx Hxy Hy Hxv Hyv. apply Hmono; try done.
        destruct (decide (y = j)) as [->|]; [done|lia].
Qed.

Lemma sweep_inv_start heap0 nl visited :
  sweep_inv heap0 nl visited heap0 nl nl ∅.
Proof.
  split; [lia|]. split; [done|]. split; [done|]. split; [done|].
  split; [intros x Hx; lia|intros x y; lia].
Qed.

End Sweep.

Section Relocated.

Context (H : Host).
Implicit Types (c : Config H).

Lemma collect_relocated c c' :
  0 <= numLiterals (state c) ->
  after Collect c = Some c' ->
  relocated c c'.
Proof.
  intros Hnl Hc.
  unfold relocated, kept, gc_relocation. unfold after, _gc in Hc.
  destruct (_mark H c) as [[visited|]|]; try done.
  unfold _sweepAndCompact in *.
  destruct (sweep_loop _ _ _ _ _ _) as [[heap1 i] rel] eqn:Hsweep.
  cbn [fst snd]. unfold _relocate in Hc. cbn [state memory world set_heap stack heap
    numLiterals resultLoc st_expr] in Hc.
  destruct (reloc_frames _ _ _) as [mem'|]; [|done].
  cbn in Hc. injection Hc as <-. cbn [state heap].
  set (nl := numLiterals (state c)) in *. set (h := heap (state c)) in *.
  assert (Hin : forall L, is_Some (vec_at h L) -> 0 <= L < zlen h).
  { intros L [v [? Hv]%vec_at_Some]. apply lookup_lt_Some in Hv. unfold zlen. lia. }
  destruct (Z.le_gt_cases nl (zlen h)) as [Hle|Hgt].
  - apply (sweep_loop_inv h nl visited) in Hsweep
      as (Hi & Hlen & _ & Hlit & Hdone & Hmono); [|done|lia|apply sweep_inv_start].
    assert (Hwhere : forall L, L < nl \/ L ∈ visited -> is_Some (vec_at h L) ->
               (L < nl /\ reloc rel L = L)
               \/ (nl <= L /\ L ∈ visited /\ nl <= reloc rel L < i)).
    { intros L HL HLs. destruct (Z.lt_ge_cases L nl) as [Hlt|Hge].
      - left. split; [done|]. apply reloc_None. by apply Hlit.
      - right. destruct HL as [?|Hvis]; [lia|]. split; [done|]. split; [done|].
        apply Hdone; [|done]. specialize (Hin L HLs). lia. }
    split.
    + intros L v HL Hv. rewrite vec_at_map.
      destruct (Hwhere L HL) as [[Hlt Hr]|(Hge & Hvis & Hr)]; [by eexists| |].
      * rewrite Hr, vec_at_take by lia. destruct (Hlit L Hlt) as [-> _]. by rewrite Hv.
      * rewrite vec_at_take by lia.
        destruct (Hdone L) as [_ ->]; [|done|by rewrite Hv].
        specialize (Hin L (ex_intro _ v Hv)). lia.
    + intros L1 L2 HL1 HL2 Hs1 Hs2 Heq.
      pose proof (Hin _ Hs1). pose proof (Hin _ Hs2).
      destruct (Hwhere L1 HL1 Hs1) as [[Hlt1 Hr1]|(Hge1 & Hvis1 & Hr1)],
               (Hwhere L2 HL2 Hs2) as [[Hlt2 Hr2]|(Hge2 & Hvis2 & Hr2)]; try lia.
      destruct (Z.lt_trichotomy L1 L2) as [Hlt|[?|Hlt]]; [|done|].
      * pose proof (Hmono L1 L2 Hge1 Hlt ltac:(lia) Hvis1 Hvis2). lia.
      * pose proof (Hmono L2 L1 Hge2 Hlt ltac:(lia) Hvis2 Hvis1). lia.
  - replace (Z.to_nat (zlen h - nl)) with 0%nat in Hsweep by lia.
    cbn in Hsweep. injection Hsweep as <- <- <-. split.
    + intros L v HL Hv. rewrite vec_at_map.
      specialize (Hin L (ex_intro _ v Hv)).
      rewrite (reloc_None ∅ L) by done. rewrite vec_at_take by lia. by rewrite Hv.
    + intros L1 L2 _ _ _ _. by rewrite !(reloc_None ∅).
Qed.

End Relocated.

(** ** The mark phase always returns *)

Section Mark.

Implicit Types (heap : list Value) (visited : gset Z) (loc : Location).

Lemma slots_spec heap loc : loc ∈ slots heap <-> 0 <= loc < zlen heap.
Proof.
  unfold slots. rewrite elem_of_list_to_set, elem_of_seqZ. lia.
Qed.

Lemma slots_size heap : size (slots heap) = length heap.
Proof.
  unfold slots. rewrite size_list_to_set by apply NoDup_seqZ.
  rewrite length_seqZ. unfold zlen. lia.
Qed.

Lemma unvisited_mono heap visited visited' :
  visited ⊆ visited' -> (unvisited heap visited' <= unvisited heap visited)%nat.
Proof. intros Hsub. apply subseteq_size. set_solver. Qed.

Lemma unvisited_visit heap visited loc v :
  vec_at heap loc = Some v -> loc ∉ visited ->
  (unvisited heap (visited ∪ {[loc]}) < unvisited heap visited)%nat.
Proof.
  intros Hv Hloc. apply subset_size.
  assert (Hin : loc ∈ slots heap).
  { apply slots_spec. apply vec_at_Some in Hv as [? Hv].
    apply lookup_lt_Some in Hv. unfold zlen. lia. }
  set_solver.
Qed.

Lemma traverseLocation_returns heap depth : forall loc visited,
  (unvisited heap visited < depth)%nat ->
  returns visited (traverseLocation depth heap loc visited).
Proof.
  induction depth as [|depth IH]; intros loc visited Hd; [lia|].
  cbn [traverseLocation].
  match goal with
  | |- context [decide ?P] => destruct (decide P) as [Hin|Hnotin]
  end; [cbn; set_solver|].
  destruct (vec_at heap loc) as [v|] eqn:Hv; [|done].
  pose proof (unvisited_visit heap visited loc v Hv Hnotin) as Hlt.
  destruct v as [| | |env fn]; cbn; try set_solver.
  assert (Hgo : forall locs visited1,
             visited ∪ {[loc]} ⊆ visited1 ->
             returns visited
               ((fix go (locs : list Location) (visited : gset Z) : outcome (gset Z) :=
                   match locs with
                   | [] => Done (Ok visited)
                   | l :: locs' =>
                       match traverseLocation depth heap l visited with
                       | Done (Ok visited) => go locs' visited
                       | r => r
                       end
                   end) locs visited1)).
  { induction locs as [|l locs IHl]; intros visited1 Hsub; [cbn; set_solver|].
    assert (Hd1 : (unvisited heap visited1 < depth)%nat).
    { pose proof (unvisited_mono heap _ _ Hsub). lia. }
    specialize (IH l visited1 Hd1).
    destruct (traverseLocation depth heap l visited1) as [[visited2|]|]; try done.
    apply IHl. cbn in IH. set_solver. }
  apply Hgo. done.
Qed.

Lemma traverse_all_returns heap depth locs : forall visited,
  (unvisited heap visited < depth)%nat ->
  returns visited (traverse_all depth heap locs visited).
Proof.
  induction locs as [|l locs IH]; intros visited Hd; [cbn; set_solver|].
  cbn [traverse_all].
  pose proof (traverseLocation_returns heap depth l visited Hd) as Hr.
  destruct (traverseLocation depth heap l visited) as [[visited1|]|]; try done.
  cbn in Hr.
  assert (Hd1 : (unvisited heap visited1 < depth)%nat).
  { pose proof (unvisited_mono heap _ _ Hr). lia. }
  specialize (IH visited1 Hd1).
  destruct (traverse_all depth heap locs visited1) as [[visited2|]|]; try done.
  cbn in *. set_solver.
Qed.

Lemma _mark_returns (H : Host) (c : Config H) : _mark H c <> OutOfFuel.
Proof.
  unfold _mark. destruct (roots H c) as [locs|]; [|done].
  pose proof (traverse_all_returns (heap (state c)) (S (length (heap (state c))))
                locs ∅) as Hr.
  intros Hout. rewrite Hout in Hr. apply Hr.
  unfold unvisited. rewrite difference_empty_L, slots_size. lia.
Qed.

Lemma _gc_returns (H : Host) (c : Config H) : _gc H c <> OutOfFuel.
Proof.
  unfold _gc. pose proof (_mark_returns H c) as Hm.
  destruct (_mark H c) as [[visited|]|]; try done.
  by destruct (_sweepAndCompact _ _) as [[? ?] ?].
Qed.

End Mark.

(** C3: along every run of a State from its construction, made of
    calls of [step] and of collections, a call of [step] leaves every
    slot of the heap as it is, unless it is the step of a Letrec layer
    after its binding number [pc - 2]: then it overwrites one slot, the
    one that the first step of this same layer appended to the heap for
    this binding (where the collections have moved it since), with the
    value of the binding, and leaves every other slot as it is.  A
    collection moves the slots it keeps, renames the locations in their
    values, and keeps them apart.  The host's [.eval] is supposed to
    return values of programs that passed the duplicate check, as the
    nested State's constructor makes sure. *)
Theorem heap_slots_change_only_at_knot (H : Host) (w : World H) (e : ExprNode)
    (uninit : Location) (c0 : Config H) :
  (forall s w v w', eval_source H s w = Ok (v, w') -> distinct_value v) ->
  boot H w e uninit = Ok c0 ->
  forall evs c ev c',
    run_events c0 evs = Some c ->
    after ev c = Some c' ->
    match ev with
    | Step => unchanged c c' \/ knot_tied c0 evs c c'
    | Collect => relocated c c'
    end.
Proof.
  intros Hhost Hboot evs c ev c' Hrun Hev.
  destruct (reachable_inv H Hhost c0 w e uninit evs Hboot c Hrun) as [gs Hinv].
  destruct ev.
  - cbn in Hev. destruct (step H c) as [[[] c1]|] eqn:Hs; [| |done];
      injection Hev as ->.
    + by eapply step_heap.
    + apply step_halted in Hs as ->. left. exists []. by rewrite app_nil_r.
  - apply collect_relocated; [|done]. by destruct Hinv.
Qed.

(** ** [std::to_string] and [std::stoi] *)

Section Decimal.

Import Decimal.

Lemma digits_value_uint d : forall acc,
  digits_value (NilEmpty.string_of_uint d) acc = uint_value d acc.
Proof.
  induction d; intros acc; cbn [NilEmpty.string_of_uint digits_value uint_value];
    try reflexivity;
    match goal with
    | |- (if is_digit ?c then ?a else _) = _ =>
        change (is_digit c) with true; cbv iota; rewrite IHd; f_equal;
        let k := eval vm_compute in (Z.of_nat (nat_of_ascii c) - 48) in
        change (Z.of_nat (nat_of_ascii c) - 48) with k; lia
    end.
Qed.

Lemma uint_value_acc d : forall p,
  uint_value d (Z.pos p) = Z.pos (Pos.of_uint_acc d p).
Proof.
  induction d; intros p; cbn [uint_value Pos.of_uint_acc]; try reflexivity;
    rewrite <- IHd; f_equal; lia.
Qed.

Lemma uint_value_0 d : uint_value d 0 = Z.of_uint d.
Proof.
  unfold Z.of_uint.
  induction d; cbn [uint_value Pos.of_uint]; try reflexivity;
    try (rewrite <- IHd; reflexivity);
    cbn [Z.mul Z.add Z.of_N]; apply uint_value_acc.
Qed.

Lemma string_of_uint_head d :
  d <> Nil ->
  exists c s, NilEmpty.string_of_uint d = String c s
              /\ is_digit c = true /\ is_space c = false
              /\ Ascii.eqb c "-" = false /\ Ascii.eqb c "+" = false.
Proof.
  destruct d; [done|..]; intros _; eexists _, _; by repeat split.
Qed.

Lemma to_uint_not_Nil p : Pos.to_uint p <> Nil.
Proof.
  intros Hn. pose proof (DecimalPos.Unsigned.of_to p) as Hp.
  rewrite Hn in Hp. discriminate Hp.
Qed.

End Decimal.

Lemma stoi_uint (d : Decimal.uint) (neg : bool) :
  d <> Decimal.Nil ->
  let v := if neg then - Z.of_uint d else Z.of_uint d in
  in_int v ->
  stoi (if neg then String "-" (NilEmpty.string_of_uint d)
        else NilEmpty.string_of_uint d) = Ok v.
Proof.
  intros Hn v [Hmin Hmax].
  destruct (string_of_uint_head _ Hn) as (c & s & Hs & Hd & Hsp & Hm & Hp).
  assert (Hrange : (INT_MIN <=? v) && (v <=? INT_MAX) = true).
  { apply andb_true_intro. split; by apply Z.leb_le. }
  unfold stoi. destruct neg; cbn [skip_space].
  - change (is_space "-") with false. cbv iota.
    change (Ascii.eqb "-" "-") with true. cbv iota.
    rewrite Hs. cbv beta iota zeta. rewrite Hd.
    rewrite <- Hs, digits_value_uint, uint_value_0.
    fold v. by rewrite Hrange.
  - rewrite Hs. cbn [skip_space]. rewrite Hsp, Hm, Hp. cbv beta iota zeta.
    rewrite Hd. rewrite <- Hs, digits_value_uint, uint_value_0.
    fold v. by rewrite Hrange.
Qed.

(** X1: [.s->i] undoes [.i->s]: [std::stoi] reads back what [std::to_string]
    prints, for every [int]. *)
Theorem stoi_to_string z : in_int z -> stoi (to_string z) = Ok z.
Proof.
  intros Hz. unfold to_string.
  pose proof (DecimalZ.of_to z) as Hof.
  destruct z as [|p|p]; [reflexivity|..]; cbn [Z.to_int NilZero.string_of_int Z.of_int] in *.
  - pose proof (to_uint_not_Nil p) as Hn.
    pose proof (stoi_uint (Pos.to_uint p) false Hn) as Hs. cbn in Hs.
    rewrite Hof in Hs. specialize (Hs Hz).
    unfold NilZero.string_of_uint. by destruct (Pos.to_uint p).
  - pose proof (to_uint_not_Nil p) as Hn.
    pose proof (stoi_uint (Pos.to_uint p) true Hn) as Hs. cbn in Hs.
    rewrite Hof in Hs. specialize (Hs Hz).
    unfold NilZero.string_of_uint. by destruct (Pos.to_uint p).
Qed.

(** ** The duplicate check *)

Section Duplicates.

Lemma has_duplicate_spec ns : forall seen,
  has_duplicate ns seen = false <-> NoDup ns /\ forall n, n ∈ ns -> n ∉ seen.
Proof.
  induction ns as [|n ns IH]; intros seen; cbn.
  - split; [|done]. intros _. split; [constructor|]. by intros ? ?%elem_of_nil.
  - destruct (decide (n ∈ seen)) as [Hin|Hnotin].
    + split; [done|]. intros [_ Hf]. destruct (Hf n); [apply elem_of_cons; by left|done].
    + rewrite IH. split.
      * intros [Hnd Hf]. split.
        -- constructor; [|done]. intros Hn. specialize (Hf _ Hn). set_solver.
        -- intros x [->|Hx]%elem_of_cons; [done|]. specialize (Hf _ Hx). set_solver.
      * intros [[Hn Hnd]%NoDup_cons Hf]. split; [done|].
        intros x Hx. assert (Hx' : x ∈ n :: ns) by (apply elem_of_cons; by right).
        specialize (Hf x Hx').
        assert (x <> n) by (by intros ->). set_solver.
Qed.

Lemma has_duplicate_NoDup_iff ns : has_duplicate ns ∅ = false <-> NoDup ns.
Proof. rewrite has_duplicate_spec. set_solver. Qed.

Lemma distinct_names_list es :
  (fix all (es : list ExprNode) : Prop :=
     match es with
     | [] => True
     | x :: es' => distinct_names x /\ all es'
     end) es <-> Forall distinct_names es.
Proof.
  induction es as [|x es IH]; cbn; [by split; [constructor|]|].
  rewrite Forall_cons, IH. done.
Qed.

Lemma distinct_names_pairs (ves : list (VariableNode * ExprNode)) :
  (fix go (ves : list (VariableNode * ExprNode)) : Prop :=
     match ves with
     | [] => True
     | ve :: ves' => distinct_names (snd ve) /\ go ves'
     end) ves <-> Forall (fun ve => distinct_names (snd ve)) ves.
Proof.
  induction ves as [|x es IH]; cbn; [by split; [constructor|]|].
  rewrite Forall_cons, IH. done.
Qed.

Lemma checked_list es :
  Forall checked es ->
  let r := (fix go (es : list ExprNode) : result unit :=
              match es with
              | [] => Ok tt
              | x :: es' => _ ← checkDuplicate x; go es'
              end) es in
  (Forall distinct_names es /\ r = Ok tt)
  \/ (~ Forall distinct_names es /\ is_sema_error r).
Proof.
  induction 1 as [|x es Hx _ IH]; cbn zeta; [left; by split; [constructor|]|].
  destruct Hx as [[Hd ->]|[Hd (msg & sl & -> & Hmsg)]].
  - cbn. destruct IH as [[Hds Hr]|[Hds Hr]].
    + left. split; [by constructor|done].
    + right. split; [|done]. by intros [_ ?]%Forall_cons.
  - right. split; [by intros [? _]%Forall_cons|]. by exists msg, sl.
Qed.

Lemma checked_pairs (ves : list (VariableNode * ExprNode)) :
  Forall (fun ve => checked (snd ve)) ves ->
  let r := (fix go (ves : list (VariableNode * ExprNode)) : result unit :=
              match ves with
              | [] => Ok tt
              | ve :: ves' => _ ← checkDuplicate (snd ve); go ves'
              end) ves in
  (Forall (fun ve => distinct_names (snd ve)) ves /\ r = Ok tt)
  \/ (~ Forall (fun ve => distinct_names (snd ve)) ves /\ is_sema_error r).
Proof.
  induction 1 as [|x es Hx _ IH]; cbn zeta; [left; by split; [constructor|]|].
  destruct Hx as [[Hd ->]|[Hd (msg & sl & -> & Hmsg)]].
  - cbn. destruct IH as [[Hds Hr]|[Hds Hr]].
    + left. split; [by constructor|done].
    + right. split; [|done]. by intros [_ ?]%Forall_cons.
  - right. split; [by intros [? _]%Forall_cons|]. by exists msg, sl.
Qed.

Lemma checkDuplicate_checked e : checked e.
Proof.
  induction e as [| | |m vl b IH|m vel b IHvel IHb|m c b1 b2 IHc IH1 IH2|m es IH
                 |m f es IH|m f es IHf IH|m v b IH] using ExprNode_nested_ind;
    try (left; by split).
  - unfold checked. cbn [checkDuplicate distinct_names].
    destruct (has_duplicate (names vl) ∅) eqn:Hdup.
    + right. split; [|eexists _, _; split; [reflexivity|by left]].
      intros [Hnd _]. apply has_duplicate_NoDup_iff in Hnd. congruence.
    + apply has_duplicate_NoDup_iff in Hdup. destruct IH as [[? ?]|[? ?]].
      * left. by repeat split.
      * right. split; [|done]. by intros [_ ?].
  - unfold checked. cbn [checkDuplicate distinct_names]. rewrite distinct_names_pairs.
    destruct (has_duplicate (bound_names vel) ∅) eqn:Hdup.
    + right. split; [|eexists _, _; split; [reflexivity|by right]].
      intros [Hnd _]. apply has_duplicate_NoDup_iff in Hnd. congruence.
    + apply has_duplicate_NoDup_iff in Hdup.
      destruct (checked_pairs vel IHvel) as [[Hds ->]|[Hds (msg & sl & -> & Hmsg)]].
      * cbn. destruct IHb as [[? ?]|[? ?]].
        -- left. by repeat split.
        -- right. split; [|done]. by intros (_ & _ & ?).
      * right. split; [by intros (_ & ? & _)|]. by exists msg, sl.
  - unfold checked. cbn [checkDuplicate distinct_names].
    destruct IHc as [[? ->]|[? (msg & sl & -> & Hmsg)]];
      [|right; split; [by intros (? & _)|by exists msg, sl]].
    destruct IH1 as [[? ->]|[? (msg & sl & -> & Hmsg)]];
      [|right; split; [by intros (_ & ? & _)|by exists msg, sl]].
    cbn. destruct IH2 as [[? ?]|[? ?]].
    + left. by repeat split.
    + right. split; [|done]. by intros (_ & _ & ?).
  - unfold checked. cbn [checkDuplicate distinct_names]. rewrite distinct_names_list.
    apply (checked_list es IH).
  - unfold checked. cbn [checkDuplicate distinct_names]. rewrite distinct_names_list.
    apply (checked_list es IH).
  - unfold checked. cbn [checkDuplicate distinct_names]. rewrite distinct_names_list.
    destruct IHf as [[? ->]|[? (msg & sl & -> & Hmsg)]];
      [|right; split; [by intros (? & _)|by exists msg, sl]].
    cbn. destruct (checked_list es IH) as [[? ?]|[? ?]].
    + left. by repeat split.
    + right. split; [|done]. by intros (_ & ?).
  - unfold checked. cbn [checkDuplicate distinct_names].
    destruct IH as [[? ?]|[? ?]]; [by left|by right].
Qed.

End Duplicates.

(** X2: [checkDuplicate] accepts a tree exactly when no Lambda in it repeats
    a parameter name and no Letrec repeats a binding name; on the other
    trees it raises a "sema" panic, duplicate parameter names or
    duplicate binding names. *)
Theorem checkDuplicate_accepts_distinct_names e :
  (checkDuplicate e = Ok tt <-> distinct_names e)
  /\ (~ distinct_names e -> is_sema_error (checkDuplicate e)).
Proof.
  destruct (checkDuplicate_checked e) as [[Hd Hc]|[Hd Hc]].
  - split; [by split|done].
  - split; [|done]. split; [|done].
    destruct Hc as (msg & sl & -> & _). done.
Qed.

(** ** The type check of the intrinsics *)

Section Typecheck.

Context (H : Host).
Implicit Types (heap : list Value) (w : World H) (sl : SourceLocation).

Lemma typecheck_fold_match heap alts : forall args,
  Forall (fun l => is_Ok (heap_at heap l)) args ->
  length args = length alts ->
  typecheck_fold heap alts args = Ok (args_match heap alts args).
Proof.
  induction alts as [|a alts IH]; intros [|l args] Hall Hlen; try done.
  apply Forall_cons in Hall as [[v Hv] Hall]. injection Hlen as Hlen.
  cbn [typecheck_fold args_match]. rewrite Hv.
  assert (Hok : (match a with
                 | AnyValue => Ok true
                 | _ => v ← Ok v; Ok (holds_alternative a v)
                 end : result bool) = Ok (holds_alternative a v)).
  { by destruct a. }
  unfold mbind, result_bind in *. cbn [rbind] in *.
  destruct a; cbn [rbind]; try (destruct (holds_alternative _ v); [by apply IH|done]);
    by apply IH.
Qed.

Lemma args_match_length heap alts : forall args,
  args_match heap alts args = true -> length args = length alts.
Proof.
  induction alts as [|a alts IH]; intros [|l args]; cbn; try done.
  destruct (heap_at heap l); [|done]. intros [_ ?]%andb_true_iff. f_equal. auto.
Qed.

Lemma _typecheck_spec heap sl alts args :
  Forall (fun l => is_Ok (heap_at heap l)) args ->
  _typecheck heap sl alts args
  = if args_match heap alts args then Ok tt
    else panic "runtime" "type error on intrinsic call" sl.
Proof.
  intros Hall. unfold _typecheck.
  destruct (Nat.eqb_spec (length args) (length alts)) as [Hlen|Hlen].
  - rewrite typecheck_fold_match by done. cbn. by destruct (args_match _ _ _).
  - cbn. destruct (args_match heap alts args) eqn:Hm; [|done].
    by apply args_match_length in Hm.
Qed.

Lemma unquote_loop_error (n : nat) : forall s r,
  (String.length s <= n)%nat ->
  (exists u, unquote_loop s r = Ok u)
  \/ (exists msg sl, unquote_loop s r = Err (Panic "unquote" msg sl)).
Proof.
  induction n as [|n IH]; intros s r Hn.
  - destruct s; [left; by eexists|cbn in Hn; lia].
  - destruct s as [|c s']; [left; by eexists|]. cbn in Hn.
    cbn [unquote_loop]. destruct (Ascii.eqb c ch_backslash).
    + destruct s' as [|c1 s'']; [right; by eexists _, _|]. cbn in Hn.
      repeat (match goal with
              | |- context [if ?b then _ else _] => destruct b
              end; [apply IH; lia|]).
      right. by eexists _, _.
    + apply IH. lia.
Qed.

Lemma unquote_error s :
  (exists u, unquote s = Ok u)
  \/ (exists msg sl, unquote s = Err (Panic "unquote" msg sl)).
Proof.
  unfold unquote. destruct (_ && _); [by eapply unquote_loop_error|].
  right. by eexists _, _.
Qed.

Lemma stoi_error s :
  (exists z, stoi s = Ok z)
  \/ stoi s = Err (Exception "stoi: out of range")
  \/ stoi s = Err (Exception "stoi: invalid argument").
Proof.
  unfold stoi. destruct (skip_space s) as [|c s']; [by right; right|].
  destruct (Ascii.eqb c "-"); [|destruct (Ascii.eqb c "+")];
    cbv beta iota zeta;
    try (destruct s' as [|c1 s1]; [by right; right|]);
    (destruct (is_digit _); [|by right; right]);
    (destruct (_ && _); [left; by eexists|by right; left]).
Qed.

Lemma arg_at_head (l : Location) args : arg_at (l :: args) 0 = Ok l.
Proof. reflexivity. Qed.

Lemma args_match_nil heap args : args_match heap [] args = true -> args = [].
Proof. by destruct args. Qed.

Lemma args_match_cons heap a alts args :
  args_match heap (a :: alts) args = true ->
  exists l args' v,
    args = l :: args' /\ heap_at heap l = Ok v
    /\ holds_alternative a v = true /\ args_match heap alts args' = true.
Proof.
  destruct args as [|l args]; [done|]. cbn [args_match].
  destruct (heap_at heap l) as [v|] eqn:Hv; [|done]. intros [? ?]%andb_true_iff.
  exists l, args, v. by rewrite Hv.
Qed.

Ltac typed_args Hm :=
  repeat match type of Hm with
         | args_match _ [] _ = true => apply args_match_nil in Hm as ->
         | args_match _ (_ :: _) _ = true =>
             let l := fresh "l" in
             let args := fresh "args" in
             let v := fresh "v" in
             let Hv := fresh "Hv" in
             let Hh := fresh "Hh" in
             apply args_match_cons in Hm as (l & args & v & -> & Hv & Hh & Hm);
             destruct v; try discriminate Hh; clear Hh
         end.

Ltac read_args heap :=
  repeat (match goal with
          | Hv : heap_at heap ?l = Ok (Integer ?x)
            |- context [get_Integer heap ?args ?i] =>
              rewrite (get_Integer_at heap args i l x eq_refl Hv)
          | Hv : heap_at heap ?l = Ok (StringV ?x)
            |- context [get_String heap ?args ?i] =>
              rewrite (get_String_at heap args i l x eq_refl Hv)
          end; cbn [rbind]).

Ltac not_bad :=
  split; [intros [Hb|[? [Hb ?]]]; discriminate Hb
         |split; [intros Hb; discriminate Hb|intros ? Hb; discriminate Hb]].

Ltac overflows :=
  split; [intros [Hb|[? [Hb Hw]]]; [discriminate Hb|by injection Hb as <-]
         |split; [intros Hb; discriminate Hb
                 |intros _ _; unfold arithmetic_intrinsics; set_solver]].

Lemma intrinsic_typechecked heap sl name args w :
  Forall (fun l => is_Ok (heap_at heap l)) args ->
  match signature name with
  | None =>
      _callIntrinsic H heap sl name args w
      = panic "runtime" "unrecognized intrinsic call" sl
  | Some alts =>
      if args_match heap alts args then
        name <> ".eval"%string ->
        ~ bad_access (_callIntrinsic H heap sl name args w)
        /\ _callIntrinsic H heap sl name args w
           <> panic "runtime" "type error on intrinsic call" sl
        /\ (forall what, _callIntrinsic H heap sl name args w = Err (Undefined what) ->
              name ∈ arithmetic_intrinsics)
      else
        _callIntrinsic H heap sl name args w
        = panic "runtime" "type error on intrinsic call" sl
  end.
Proof.
  intros Hall. unfold signature, intrinsic_signatures, _callIntrinsic.
  cbn [signature_in fst snd].
  repeat (match goal with
          | |- context [String.eqb name ?s] => destruct (String.eqb name s) eqn:?
          end;
          [unfold int_binop, str_binop; rewrite _typecheck_spec by done;
           match goal with
           | |- context [args_match heap ?alts args] =>
               destruct (args_match heap alts args) eqn:Hm
           end; [|reflexivity]; intros Hne|]); [..|reflexivity].
  all: typed_args Hm.
  all: unfold mbind, result_bind; cbn [rbind].
  all: read_args heap.
  all: try not_bad.
  all: repeat match goal with
              | Hn : String.eqb ?n _ = true |- _ => apply String.eqb_eq in Hn; subst n
              end.
  all: try (match goal with
            | |- context [if ?d =? 0 then _ else _] =>
                destruct (d =? 0); cbn [rbind]; [not_bad|]
            end).
  all: try (match goal with
            | |- context [int_arith ?z] =>
                unfold int_arith; destruct (_ && _); cbn [rbind]; [not_bad|overflows]
            end).
  all: try (match goal with
            | |- context [if ?b then _ else _] => destruct b; cbn [rbind]; not_bad
            | |- context [unquote ?s] =>
                destruct (unquote_error s) as [[u ->]|(msg & sl' & ->)];
                cbn [rbind]; not_bad
            | |- context [stoi ?s] =>
                destruct (stoi_error s) as [[z ->]|[->| ->]]; cbn [rbind]; not_bad
            | |- context [cin_get H ?w] => destruct (cin_get H w) as [[c|] w0]; not_bad
            | |- context [cin_int H ?w] => destruct (cin_int H w) as [[c|] w0]; not_bad
            end).
  all: try (rewrite arg_at_head; cbn [rbind]; rewrite Hv; cbn [rbind]; not_bad).
  exfalso. by apply Hne.
Qed.

(** X3: An intrinsic call on locations of the heap: an unknown name raises
    "unrecognized intrinsic call"; arguments that do not have the number
    and the alternatives of the signature raise the type error; and
    arguments that have them never make [std::get] or an index fail, and
    do not raise the type error ([.eval] apart, which runs a program of
    its own); the only undefined behaviour left is the overflow of an
    [int] operation in [.+], [.-], [.*], [./] and [.%]. *)
Theorem intrinsic_typecheck heap sl name args w :
  Forall (fun l => is_Ok (heap_at heap l)) args ->
  match signature name with
  | None =>
      _callIntrinsic H heap sl name args w
      = panic "runtime" "unrecognized intrinsic call" sl
  | Some alts =>
      if args_match heap alts args then
        name <> ".eval"%string ->
        ~ bad_access (_callIntrinsic H heap sl name args w)
        /\ _callIntrinsic H heap sl name args w
           <> panic "runtime" "type error on intrinsic call" sl
        /\ (forall what, _callIntrinsic H heap sl name args w = Err (Undefined what) ->
              name ∈ arithmetic_intrinsics)
      else
        _callIntrinsic H heap sl name args w
        = panic "runtime" "type error on intrinsic call" sl
  end.
Proof. apply intrinsic_typechecked. Qed.

(** An intrinsic call on locations of the heap has no undefined
    behaviour but the overflow of an [int] operation, when the nested
    run of [.eval] has none. *)
Lemma _callIntrinsic_defined heap sl name args w what :
  (forall s w what, eval_source H s w <> Err (Undefined what)) ->
  Forall (fun l => is_Ok (heap_at heap l)) args ->
  _callIntrinsic H heap sl name args w = Err (Undefined what) ->
  what = overflow /\ name ∈ arithmetic_intrinsics.
Proof.
  intros Hhost Hall Hc.
  pose proof (intrinsic_typechecked heap sl name args w Hall) as Ht.
  destruct (signature name) as [alts|] eqn:Hsig; [|by rewrite Ht in Hc].
  destruct (args_match heap alts args) eqn:Hm; [|by rewrite Ht in Hc].
  destruct (String.eqb_spec name ".eval") as [->|Hne].
  - clear Ht. assert (alts = [IsString]) as -> by (by injection Hsig as <-).
    change (_callIntrinsic H heap sl ".eval" args w)
      with (_ ← _typecheck heap sl [IsString] args;
            s ← get_String heap args 0;
            eval_source H s w) in Hc.
    rewrite _typecheck_spec, Hm in Hc by done.
    typed_args Hm. unfold mbind, result_bind in Hc. cbn [rbind] in Hc.
    match goal with
    | Hv : heap_at heap ?l = Ok (StringV ?x) |- _ =>
        rewrite (get_String_at heap [l] 0 l x eq_refl Hv) in Hc
    end.
    cbn [rbind] in Hc. by apply Hhost in Hc.
  - destruct (Ht Hne) as (Hbad & _ & Harith). split; [|by eapply Harith].
    destruct (decide (what = overflow)) as [->|Hw]; [done|].
    exfalso. apply Hbad. right. by exists what.
Qed.

End Typecheck.

(** ** The mark phase visits what can be reached *)

Section Marking.

Implicit Types (heap : list Value) (visited : gset Z) (loc l : Location).

Lemma reachable_mono heap locs locs' l :
  (forall r, In r locs -> In r locs') -> reachable heap locs l -> reachable heap locs' l.
Proof. intros Hsub (r & Hr & Hrtc). exists r. auto. Qed.

Lemma reachable_edge heap locs l l' :
  reachable heap locs l -> edge heap l l' -> reachable heap locs l'.
Proof. intros (r & Hr & Hrtc) He. exists r. split; [done|]. by eapply rtc_r. Qed.

Lemma reachable_through heap l0 l l' :
  edge heap l0 l -> reachable heap [l] l' -> reachable heap [l0] l'.
Proof.
  intros He (r & [<-|[]] & Hrtc). exists l0. split; [by left|]. by eapply rtc_l.
Qed.

Lemma walked_nil heap visited : walked heap [] visited visited.
Proof. split; [done|]. split; [by intros ? []|]. intros l ? ?. done. Qed.

(** One more location after a walk. *)
Lemma walked_cons heap l locs v0 v1 v2 :
  walked heap [l] v0 v1 -> walked heap locs v1 v2 -> walked heap (l :: locs) v0 v2.
Proof.
  intros (Hs1 & Hin1 & Hn1) (Hs2 & Hin2 & Hn2). split; [set_solver|]. split.
  - intros l' [<-|Hl']; [|auto]. apply Hs2, Hin1. by left.
  - intros l' Hl' Hnot. destruct (decide (l' ∈ v1)) as [Hv1|Hv1].
    + destruct (Hn1 l' Hv1 Hnot) as (Hsome & Hreach & Hclosed).
      split; [done|]. split.
      * eapply reachable_mono; [|exact Hreach]. intros r [<-|[]]. by left.
      * intros l'' He. apply Hs2. auto.
    + destruct (Hn2 l' Hl' Hv1) as (Hsome & Hreach & Hclosed).
      split; [done|]. split; [|done].
      eapply reachable_mono; [|exact Hreach]. intros r Hr. by right.
Qed.

Lemma traverseLocation_walked heap depth : forall loc visited visited',
  traverseLocation depth heap loc visited = Done (Ok visited') ->
  walked heap [loc] visited visited'.
Proof.
  induction depth as [|depth IH]; intros loc visited visited' Ht.
  - cbn in Ht.
    match type of Ht with
    | context [decide ?P] => destruct (decide P) as [Hin|Hnotin]
    end; [|done].
    injection Ht as <-. split; [done|]. split; [by intros l [<-|[]]|done].
  - cbn [traverseLocation] in Ht.
    match type of Ht with
    | context [decide ?P] => destruct (decide P) as [Hin|Hnotin]
    end.
    { injection Ht as <-. split; [done|]. split; [by intros l [<-|[]]|done]. }
    destruct (vec_at heap loc) as [v|] eqn:Hv; [|done].
    assert (Hself : reachable heap [loc] loc).
    { exists loc. split; [by left|]. apply rtc_refl. }
    assert (Hflat : (forall env fn, v <> Closure env fn) ->
                    walked heap [loc] visited (visited ∪ {[loc]})).
    { intros Hnc. split; [set_solver|]. split; [intros l [<-|[]]; set_solver|].
      intros l Hl Hnot. assert (l = loc) as -> by set_solver.
      split; [by eexists|]. split; [done|].
      intros l' (env & fn & Hv' & _). rewrite Hv in Hv'. injection Hv' as ->.
      by destruct (Hnc env fn). }
    destruct v as [| | |env fn]; try (injection Ht as <-; by apply Hflat).
    clear Hflat.
    assert (Hgo : forall locs v1 v2,
               (fix go (locs : list Location) (visited : gset Z) : outcome (gset Z) :=
                  match locs with
                  | [] => Done (Ok visited)
                  | l :: locs' =>
                      match traverseLocation depth heap l visited with
                      | Done (Ok visited) => go locs' visited
                      | r => r
                      end
                  end) locs v1 = Done (Ok v2) ->
               walked heap locs v1 v2).
    { induction locs as [|l locs IHl]; intros v1 v2 Hg.
      - injection Hg as <-. apply walked_nil.
      - destruct (traverseLocation depth heap l v1) as [[v1'|]|] eqn:Hl; try done.
        eapply walked_cons; [by apply IH|by apply IHl]. }
    apply Hgo in Ht as (Hs & Hin & Hnew).
    split; [set_solver|]. split; [intros l [<-|[]]; set_solver|].
    intros l Hl Hnot. destruct (decide (l = loc)) as [->|Hne].
    + split; [by eexists|]. split; [done|].
      intros l' (env' & fn' & Hv' & Hl'). rewrite Hv in Hv'. injection Hv' as <- <-.
      by apply Hin.
    + destruct (Hnew l Hl) as (Hsome & (r & Hr & Hrtc) & Hclosed); [set_solver|].
      split; [done|]. split; [|done].
      exists loc. split; [by left|]. eapply rtc_l; [|exact Hrtc].
      by exists env, fn.
Qed.

Lemma traverse_all_walked heap depth locs : forall visited visited',
  traverse_all depth heap locs visited = Done (Ok visited') ->
  walked heap locs visited visited'.
Proof.
  induction locs as [|l locs IH]; intros visited visited' Ht.
  - injection Ht as <-. apply walked_nil.
  - cbn [traverse_all] in Ht.
    destruct (traverseLocation depth heap l visited) as [[v1|]|] eqn:Hl; try done.
    eapply walked_cons; [by eapply traverseLocation_walked|by apply IH].
Qed.

Lemma walked_reachable heap locs visited' l :
  walked heap locs ∅ visited' ->
  l ∈ visited' <-> reachable heap locs l.
Proof.
  intros (_ & Hin & Hnew). split.
  - intros Hl. destruct (Hnew l Hl) as (_ & ? & _); [set_solver|done].
  - intros (r & Hr & Hrtc). apply Hin in Hr.
    induction Hrtc as [r|r l1 l2 He _ IH]; [done|].
    apply IH. destruct (Hnew r Hr) as (_ & _ & Hclosed); [set_solver|]. auto.
Qed.

End Marking.

Section Marking_errors.

Implicit Types (heap : list Value) (visited : gset Z) (loc l : Location).

(** The walk fails only at a location outside the heap that can be
    reached. *)
Lemma traverseLocation_error heap depth : forall loc visited e,
  traverseLocation depth heap loc visited = Done (Err e) ->
  e = Undefined "heap index out of range"
  /\ exists l, reachable heap [loc] l /\ vec_at heap l = None.
Proof.
  induction depth as [|depth IH]; intros loc visited e Ht.
  - cbn in Ht. by destruct (decide _).
  - cbn [traverseLocation] in Ht.
    destruct (decide _) as [Hin|Hnotin]; [done|].
    destruct (vec_at heap loc) as [v|] eqn:Hv.
    2:{ injection Ht as <-. split; [done|].
        exists loc. split; [|done]. exists loc. split; [by left|]. apply rtc_refl. }
    destruct v as [| | |env fn]; try done.
    assert (Hgo : forall locs v1,
               (fix go (locs : list Location) (visited : gset Z) : outcome (gset Z) :=
                  match locs with
                  | [] => Done (Ok visited)
                  | l :: locs' =>
                      match traverseLocation depth heap l visited with
                      | Done (Ok visited) => go locs' visited
                      | r => r
                      end
                  end) locs v1 = Done (Err e) ->
               e = Undefined "heap index out of range"
               /\ exists l0 l, In l0 locs /\ reachable heap [l0] l /\ vec_at heap l = None).
    { induction locs as [|l locs IHl]; intros v1 Hg; [done|].
      destruct (traverseLocation depth heap l v1) as [[v1'|e']|] eqn:Hl; try done.
      - destruct (IHl _ Hg) as (He & l0 & l1 & Hl0 & Hr & Hn). split; [done|].
        exists l0, l1. split; [by right|done].
      - injection Hg as ->. destruct (IH _ _ _ Hl) as (He & l1 & Hr & Hn).
        split; [done|]. exists l, l1. split; [by left|done]. }
    destruct (Hgo _ _ Ht) as (He & l0 & l & Hl0 & Hr & Hn). split; [done|].
    exists l. split; [|done]. eapply reachable_through; [|exact Hr].
    by exists env, fn.
Qed.

Lemma traverse_all_error heap depth locs : forall visited e,
  traverse_all depth heap locs visited = Done (Err e) ->
  e = Undefined "heap index out of range"
  /\ exists l, reachable heap locs l /\ vec_at heap l = None.
Proof.
  induction locs as [|l0 locs IH]; intros visited e Ht; [done|].
  cbn [traverse_all] in Ht.
  destruct (traverseLocation depth heap l0 visited) as [[v1|e']|] eqn:Hl; try done.
  - destruct (IH _ _ Ht) as (He & l & Hr & Hn). split; [done|].
    exists l. split; [|done].
    eapply reachable_mono; [|exact Hr]. intros r Hr'. by right.
  - injection Ht as ->.
    destruct (traverseLocation_error _ _ _ _ _ Hl) as (He & l & Hr & Hn).
    split; [done|]. exists l. split; [|done].
    eapply reachable_mono; [|exact Hr]. intros r [<-|[]]. by left.
Qed.

End Marking_errors.

(** X4: The mark phase returns, with exactly the locations that can be
    reached from the stack and the result when each of them is a slot
    of the heap; it fails when one of them is not. *)
Theorem mark_visits_reachable (H : Host) (c : Config H) (locs : list Location) :
  roots H c = Ok locs ->
  match _mark H c with
  | Done (Ok visited) =>
      (forall l, l ∈ visited <-> reachable (heap (state c)) locs l)
      /\ (forall l, reachable (heap (state c)) locs l ->
            is_Some (vec_at (heap (state c)) l))
  | Done (Err e) =>
      e = Undefined "heap index out of range"
      /\ exists l, reachable (heap (state c)) locs l
                   /\ vec_at (heap (state c)) l = None
  | OutOfFuel => False
  end.
Proof.
  intros Hroots. pose proof (_mark_returns H c) as Hret.
  unfold _mark in *. rewrite Hroots in *.
  destruct (traverse_all _ _ _ _) as [[visited|e]|] eqn:Ht; [| |done].
  - pose proof (traverse_all_walked _ _ _ _ _ Ht) as Hw.
    split; [intros l; by apply walked_reachable|].
    intros l Hl%(walked_reachable _ _ _ _ Hw).
    destruct Hw as (_ & _ & Hnew). destruct (Hnew l Hl) as (? & _); [set_solver|done].
  - by eapply traverse_all_error.
Qed.

(** ** A collection keeps what can be reached *)

Section Collected.

Context (H : Host).
Implicit Types (c : Config H) (rho : gmap Z Z).

Lemma stack_roots_reloc rho (mem mem' : Memory) stk : forall locs,
  (forall l, In l stk -> layer_frame l = true ->
     mem' !! layer_env l = reloc_env rho <$> mem !! layer_env l) ->
  stack_roots mem stk = Ok locs ->
  stack_roots mem' (map (reloc_layer rho) stk) = Ok (map (reloc rho) locs).
Proof.
  induction stk as [|l stk IH]; intros locs Hmem Hr.
  - by injection Hr as <-.
  - cbn [stack_roots map] in *. ok_inv Hr. ok_inv Hr. injection Hr as <-.
    rewrite (IH a0); [|intros l' Hl'; apply Hmem; by right|done].
    cbn [reloc_layer set_local layer_frame layer_env layer_local].
    destruct (layer_frame l) eqn:Hf.
    + ok_inv E. injection E as <-. unfold deref in *.
      rewrite Hmem by (by left || done).
      destruct (mem !! layer_env l) as [env|]; [|done]. injection E1 as ->.
      cbn. f_equal. rewrite !map_app. f_equal.
      unfold reloc_env. rewrite !map_map. done.
    + injection E as <-. cbn. by rewrite !map_app.
Qed.

Lemma gc_after c removed c' :
  _gc H c = Done (Ok (removed, c')) -> after Collect c = Some c'.
Proof. unfold after. by intros ->. Qed.

Lemma gc_roots c removed c' locs :
  NoDup (frame_refs (stack (state c))) ->
  roots H c = Ok locs ->
  _gc H c = Done (Ok (removed, c')) ->
  roots H c' = Ok (map (reloc (gc_relocation c)) locs).
Proof.
  intros Hnd Hroots Hgc. unfold gc_relocation. unfold _gc in Hgc.
  destruct (_mark H c) as [[visited|]|]; try done.
  destruct (_sweepAndCompact _ _) as [[removed' rel] s] eqn:Hsweep.
  cbn [fst snd]. unfold _sweepAndCompact in Hsweep.
  destruct (sweep_loop _ _ _ _ _ _) as [[heap1 i] rel'].
  injection Hsweep as <- <- <-.
  unfold _relocate in Hgc. cbn [state memory world set_heap stack heap
    numLiterals resultLoc st_expr] in Hgc.
  destruct (reloc_frames _ _ _) as [mem'|] eqn:Hrf; [|done].
  cbn in Hgc. injection Hgc as <- <-.
  unfold roots in *. cbn [state memory stack resultLoc].
  ok_inv Hroots. injection Hroots as <-.
  apply reloc_frames_spec in Hrf as (_ & Hget & _).
  2:{ rewrite frame_refs_rev. by apply NoDup_rev'. }
  rewrite <- map_rev.
  rewrite (stack_roots_reloc rel' (memory c) mem' _ a); [| |exact E].
  - cbn. by rewrite map_app.
  - intros l Hl Hf. apply Hget. unfold frame_refs. apply in_map.
    apply List.filter_In. by split.
Qed.

Lemma mark_reachable c locs visited :
  roots H c = Ok locs ->
  _mark H c = Done (Ok visited) ->
  forall l, l ∈ visited <->
            reachable (heap (state c)) locs l.
Proof.
  unfold _mark. intros -> Ht l. by eapply walked_reachable, traverse_all_walked.
Qed.

Lemma mark_valid c locs visited l :
  roots H c = Ok locs ->
  _mark H c = Done (Ok visited) ->
  l ∈ visited -> is_Some (vec_at (heap (state c)) l).
Proof.
  unfold _mark. intros -> Ht Hl.
  apply traverse_all_walked in Ht as (_ & _ & Hnew).
  destruct (Hnew l Hl) as (? & _); [set_solver|done].
Qed.

Lemma reachable_kept c removed c' locs l :
  roots H c = Ok locs ->
  _gc H c = Done (Ok (removed, c')) ->
  reachable (heap (state c)) locs l ->
  kept c l /\ is_Some (vec_at (heap (state c)) l).
Proof.
  intros Hroots Hgc Hl. unfold kept. unfold _gc in Hgc.
  destruct (_mark H c) as [[visited|]|] eqn:Hm; try done.
  apply (mark_reachable c locs visited Hroots Hm) in Hl.
  split; [by right|]. by eapply mark_valid.
Qed.

Lemma edge_reloc rho heap heap' l l' v :
  vec_at heap l = Some v ->
  vec_at heap' (reloc rho l) = Some (reloc_value rho v) ->
  (edge heap l l' -> edge heap' (reloc rho l) (reloc rho l'))
  /\ (forall l2, edge heap' (reloc rho l) l2 ->
        exists l1, edge heap l l1 /\ l2 = reloc rho l1).
Proof.
  intros Hv Hv'. split.
  - intros (env & fn & Hc & Hin). rewrite Hv in Hc. injection Hc as ->.
    exists (reloc_env rho env), fn. split; [done|].
    unfold reloc_env. rewrite map_map. cbn.
    rewrite <- (map_map snd (reloc rho)). by apply in_map.
  - intros l2 (env' & fn & Hc & Hin). rewrite Hv' in Hc. injection Hc as Hc.
    destruct v as [| | |env fn0]; try done. cbn in Hc. injection Hc as <- <-.
    unfold reloc_env in Hin. rewrite map_map in Hin. cbn in Hin.
    apply in_map_iff in Hin as (p & <- & Hp).
    exists (snd p). split; [|done]. exists env, fn0. split; [done|]. by apply in_map.
Qed.

(** A collection keeps the graph that can be reached from the stack and
    the result. *)
Lemma gc_graph c removed c' locs :
  0 <= numLiterals (state c) ->
  NoDup (frame_refs (stack (state c))) ->
  roots H c = Ok locs ->
  _gc H c = Done (Ok (removed, c')) ->
  let rho := reloc (gc_relocation c) in
  roots H c' = Ok (map rho locs)
  /\ (forall l, reachable (heap (state c)) locs l ->
        exists v, vec_at (heap (state c)) l = Some v
                  /\ vec_at (heap (state c')) (rho l)
                     = Some (reloc_value (gc_relocation c) v))
  /\ (forall l1 l2, reachable (heap (state c)) locs l1 ->
        reachable (heap (state c)) locs l2 -> rho l1 = rho l2 -> l1 = l2)
  /\ (forall l', reachable (heap (state c')) (map rho locs) l'
                 <-> exists l, reachable (heap (state c)) locs l /\ l' = rho l).
Proof.
  intros Hnl Hnd Hroots Hgc rho.
  destruct (collect_relocated H c c' Hnl (gc_after _ _ _ Hgc)) as [Hmove Hinj].
  assert (Hval : forall l, reachable (heap (state c)) locs l ->
                 exists v, vec_at (heap (state c)) l = Some v
                           /\ vec_at (heap (state c')) (rho l)
                              = Some (reloc_value (gc_relocation c) v)).
  { intros l Hl.
    destruct (reachable_kept _ _ _ _ _ Hroots Hgc Hl) as [Hk [v Hv]].
    exists v. split; [done|]. by apply Hmove. }
  split; [by eapply gc_roots|]. split; [done|]. split.
  - intros l1 l2 H1 H2.
    destruct (reachable_kept _ _ _ _ _ Hroots Hgc H1) as [Hk1 Hs1].
    destruct (reachable_kept _ _ _ _ _ Hroots Hgc H2) as [Hk2 Hs2].
    by apply Hinj.
  - intros l'. split.
    + intros (r' & Hr' & Hrtc). apply in_map_iff in Hr' as (r & <- & Hr).
      assert (Hbase : reachable (heap (state c)) locs r).
      { exists r. split; [done|apply rtc_refl]. }
      revert Hrtc. generalize (eq_refl (rho r)).
      generalize (rho r) at 1 3. intros x Hx Hrtc.
      assert (exists l, reachable (heap (state c)) locs l /\ x = rho l) as Hstart
        by (by exists r).
      clear Hx Hbase Hr r. induction Hrtc as [x|x y z He _ IH]; [done|].
      apply IH. destruct Hstart as (l & Hl & ->).
      destruct (Hval l Hl) as (v & Hv & Hv').
      destruct (edge_reloc _ _ _ l l v Hv Hv') as [_ Hback].
      destruct (Hback y He) as (l1 & He1 & ->).
      exists l1. split; [|done]. by eapply reachable_edge.
    + intros (l & (r & Hr & Hrtc) & ->). exists (rho r). split; [by apply in_map|].
      assert (Hbase : reachable (heap (state c)) locs r).
      { exists r. split; [done|apply rtc_refl]. }
      clear Hr. induction Hrtc as [x|x y z He _ IH]; [apply rtc_refl|].
      destruct (Hval x Hbase) as (v & Hv & Hv').
      destruct (edge_reloc _ _ _ x y v Hv Hv') as [Hfwd _].
      eapply rtc_l; [by apply Hfwd|]. apply IH. by eapply reachable_edge.
Qed.

End Collected.

Section Swept.

Implicit Types (heap : list Value) (rel : gmap Z Z) (visited : gset Z).

Lemma sweep_loop_onto heap0 nl visited k : forall heap i j rel heap' i' rel',
  0 <= nl ->
  j + Z.of_nat k = zlen heap0 ->
  sweep_onto heap0 nl visited heap i j rel ->
  sweep_loop k visited heap i j rel = (heap', i', rel') ->
  sweep_onto heap0 nl visited heap' i' (zlen heap0) rel'.
Proof.
  induction k as [|k IH]; intros heap i j rel heap' i' rel' Hnl Hj Hinv Hs.
  - cbn in Hs. injection Hs as <- <- <-. by replace (zlen heap0) with j by lia.
  - cbn [sweep_loop] in Hs.
    destruct Hinv as (Hij & Hlen & Hrest & Honto).
    match type of Hs with
    | context [decide ?P] => destruct (decide P) as [Hvis|Hvis]
    end.
    + destruct (Z.ltb_spec i j) as [Hlt|Hge].
      * destruct (vec_at_lt heap j) as [v Hv]; [lia|]. rewrite Hv in Hs.
        refine (IH _ _ _ _ _ _ _ Hnl _ _ Hs); [lia|].
        split; [lia|]. split; [by rewrite zlen_insert|]. split.
        -- intros x Hx. rewrite lookup_insert_ne by lia. apply Hrest. lia.
        -- intros y Hy. destruct (decide (y = i)) as [->|Hne].
           ++ exists j. split; [lia|]. split; [done|]. apply reloc_insert_eq.
           ++ destruct (Honto y) as (x & Hx & Hxv & Hr); [lia|].
              exists x. split; [lia|]. split; [done|].
              rewrite reloc_insert_ne by lia. done.
      * assert (i = j) as -> by lia.
        refine (IH _ _ _ _ _ _ _ Hnl _ _ Hs); [lia|].
        split; [lia|]. split; [done|]. split.
        -- intros x Hx. apply Hrest. lia.
        -- intros y Hy. destruct (decide (y = j)) as [->|Hne].
           ++ exists j. split; [lia|]. split; [done|]. apply reloc_None, Hrest. lia.
           ++ destruct (Honto y) as (x & Hx & Hxv & Hr); [lia|].
              exists x. split; [lia|done].
    + refine (IH _ _ _ _ _ _ _ Hnl _ _ Hs); [lia|].
      split; [lia|]. split; [done|]. split.
      * intros x Hx. apply Hrest. lia.
      * intros y Hy. destruct (Honto y) as (x & Hx & Hxv & Hr); [lia|].
        exists x. split; [lia|done].
Qed.

Lemma sweep_onto_start heap0 nl visited :
  sweep_onto heap0 nl visited heap0 nl nl ∅.
Proof. split; [lia|]. split; [done|]. split; [done|]. intros y Hy. lia. Qed.

End Swept.

Section Collected_size.

Context (H : Host).
Implicit Types (c : Config H).

(** A collection removes every slot that cannot be reached: what is
    left is the literals and one slot for each slot that was visited. *)
Lemma gc_heap c removed c' locs :
  0 <= numLiterals (state c) <= zlen (heap (state c)) ->
  roots H c = Ok locs ->
  _gc H c = Done (Ok (removed, c')) ->
  0 <= removed
  /\ zlen (heap (state c')) = zlen (heap (state c)) - removed
  /\ numLiterals (state c') = numLiterals (state c)
  /\ numLiterals (state c') <= zlen (heap (state c'))
  /\ forall L, numLiterals (state c) <= L < zlen (heap (state c')) ->
       exists l, reachable (heap (state c)) locs l
                 /\ numLiterals (state c) <= l
                 /\ reloc (gc_relocation c) l = L.
Proof.
  intros Hnl Hroots Hgc. unfold gc_relocation. unfold _gc in Hgc.
  destruct (_mark H c) as [[visited|]|] eqn:Hm; try done.
  unfold _sweepAndCompact in *.
  destruct (sweep_loop _ _ _ _ _ _) as [[heap1 i] rel] eqn:Hsweep.
  cbn [fst snd]. unfold _relocate in Hgc. cbn [state memory world set_heap stack heap
    numLiterals resultLoc st_expr] in Hgc.
  destruct (reloc_frames _ _ _) as [mem'|]; [|done].
  cbn in Hgc. injection Hgc as <- <-. cbn [state heap numLiterals].
  apply (sweep_loop_onto (heap (state c)) (numLiterals (state c)) visited) in Hsweep
    as (Hi & Hlen & _ & Honto); [|lia|lia|apply sweep_onto_start].
  assert (Hsize : zlen (map (reloc_value rel) (take (Z.to_nat i) heap1)) = i).
  { unfold zlen in *. rewrite length_map, length_take. lia. }
  rewrite Hsize. split; [lia|]. split; [lia|]. split; [done|]. split; [lia|].
  intros L HL. destruct (Honto L HL) as (x & Hx & Hxv & Hr).
  exists x. split; [|split; [lia|done]].
  by apply (mark_reachable H c locs visited Hroots Hm).
Qed.

End Collected_size.

Section Collected_runs.

Context (H : Host).
Implicit Types (c : Config H).

(** No step makes the heap shorter. *)
Lemma step_heap_length c b c' :
  step H c = Ok (b, c') -> zlen (heap (state c)) <= zlen (heap (state c')).
Proof.
  intros Hs. destruct b; [|apply step_halted in Hs as ->; lia].
  destruct (stack (state c)) as [|layer below] eqn:Hstk.
  { unfold step in Hs. by rewrite Hstk in Hs. }
  destruct (layer_expr layer) as [e|] eqn:He.
  2:{ unfold step in Hs. by rewrite Hstk, He in Hs. }
  destruct (step_transition H c c' layer below e Hstk He Hs)
    as [vs _ _ _ -> _|? ? _ _ _ _ _ ->|? _ _ _ _ ->|? ? ? ? _ _ _ _ _ ->
       |? ? ? x _ _ _ _ _ Hk|? ? ? ? _ _ _ _ _ _ ->|? ? ? ? ? _ _ _ _ _ ->
       |? ? ? ? ? ? ? _ _ _ _ _ _ _ ->]; try lia.
  - unfold zlen. rewrite length_app. lia.
  - unfold zlen. rewrite length_app. lia.
  - unfold knot in Hk. destruct (_ <? _); [by rewrite Hk; lia|].
    destruct Hk as (? & ? & ? & ? & _ & _ & _ & _ & _ & ->).
    rewrite zlen_insert. lia.
Qed.

(** The literals stay at the start of the heap. *)
Lemma run_literals (w : World H) e uninit (c0 : Config H) evs :
  boot H w e uninit = Ok c0 ->
  forall c, run_events c0 evs = Some c ->
  0 <= numLiterals (state c) <= zlen (heap (state c)).
Proof.
  intros Hb. induction evs as [|ev evs IH] using rev_ind; intros c Hrun.
  - injection Hrun as <-. unfold boot, State_new in Hb.
    ok_inv Hb. destruct a as [mem s]. injection Hb as <-. ok_inv E.
    destruct a0 as [e' heap']. cbn in E.
    injection E as <- <-. cbn. unfold zlen. lia.
  - rewrite run_events_app in Hrun.
    destruct (run_events c0 evs) as [c1|] eqn:Hr1; [|done].
    cbn in Hrun. destruct (after ev c1) as [c2|] eqn:Hev; [|done].
    injection Hrun as ->. specialize (IH c1 eq_refl). destruct ev.
    + cbn in Hev. destruct (step H c1) as [[b c2']|] eqn:Hs; [|done].
      injection Hev as ->. rewrite (step_numLiterals H _ _ _ Hs).
      apply step_heap_length in Hs. lia.
    + cbn in Hev. destruct (_gc H c1) as [[[removed c2']|]|] eqn:Hgc; try done.
      injection Hev as ->.
      assert (exists locs, roots H c1 = Ok locs) as [locs Hroots].
      { unfold _gc, _mark in Hgc. destruct (roots H c1); [by eexists|done]. }
      destruct (gc_heap H c1 removed c locs IH Hroots Hgc) as (_ & _ & -> & ? & _).
      lia.
Qed.

End Collected_runs.

(** X5: In a run of a program, a collection keeps the graph that can be
    reached from the stack and the result: the roots are renamed, each
    slot that can be reached is moved with the locations in it
    renamed, two such slots stay apart, and what can be reached
    afterwards is what could be reached before. *)
Theorem gc_keeps_reachable_graph (H : Host) (w : World H) (e : ExprNode)
    (uninit : Location) (c0 c c' : Config H) (evs : list event)
    (locs : list Location) (removed : Z) :
  (forall s w v w', eval_source H s w = Ok (v, w') -> distinct_value v) ->
  boot H w e uninit = Ok c0 ->
  run_events c0 evs = Some c ->
  roots H c = Ok locs ->
  _gc H c = Done (Ok (removed, c')) ->
  let rho := reloc (gc_relocation c) in
  roots H c' = Ok (map rho locs)
  /\ (forall l, reachable (heap (state c)) locs l ->
        exists v, vec_at (heap (state c)) l = Some v
                  /\ vec_at (heap (state c')) (rho l)
                     = Some (reloc_value (gc_relocation c) v))
  /\ (forall l1 l2, reachable (heap (state c)) locs l1 ->
        reachable (heap (state c)) locs l2 -> rho l1 = rho l2 -> l1 = l2)
  /\ (forall l', reachable (heap (state c')) (map rho locs) l'
                 <-> exists l, reachable (heap (state c)) locs l /\ l' = rho l).
Proof.
  intros Hhost Hb Hrun Hroots Hgc.
  destruct (reachable_inv H Hhost c0 w e uninit evs Hb c Hrun) as [gs Hinv].
  apply (gc_graph H c removed c' locs); try done.
  - apply Hinv.
  - apply refs_ok_NoDup, Hinv.
Qed.

(** X6: In a run of a program, a collection removes exactly the slots
    after the literals that cannot be reached: it returns their number,
    and each slot that is left after the literals held a slot that
    could be reached. *)
Theorem gc_removes_unreachable (H : Host) (w : World H) (e : ExprNode)
    (uninit : Location) (c0 c c' : Config H) (evs : list event)
    (locs : list Location) (removed : Z) :
  boot H w e uninit = Ok c0 ->
  run_events c0 evs = Some c ->
  roots H c = Ok locs ->
  _gc H c = Done (Ok (removed, c')) ->
  0 <= removed
  /\ zlen (heap (state c')) = zlen (heap (state c)) - removed
  /\ numLiterals (state c') = numLiterals (state c)
  /\ numLiterals (state c') <= zlen (heap (state c'))
  /\ forall L, numLiterals (state c) <= L < zlen (heap (state c')) ->
       exists l, reachable (heap (state c)) locs l
                 /\ numLiterals (state c) <= l
                 /\ reloc (gc_relocation c) l = L.
Proof.
  intros Hb Hrun Hroots Hgc.
  apply (gc_heap H c removed c' locs); try done.
  by eapply run_literals.
Qed.

(** ** The main frame stays at the bottom of the stack *)

Section Tail_marks.

Lemma no_tail_call_list es :
  (fix all (es : list ExprNode) : Prop :=
     match es with
     | [] => True
     | x :: es' => no_tail_call x /\ all es'
     end) es <-> Forall no_tail_call es.
Proof.
  induction es as [|x es IH]; cbn; [by split; [constructor|]|].
  rewrite Forall_cons, IH. done.
Qed.

Lemma no_tail_call_pairs (ves : list (VariableNode * ExprNode)) :
  (fix go (ves : list (VariableNode * ExprNode)) : Prop :=
     match ves with
     | [] => True
     | ve :: ves' => no_tail_call (snd ve) /\ go ves'
     end) ves <-> Forall (fun ve => no_tail_call (snd ve)) ves.
Proof.
  induction ves as [|x es IH]; cbn; [by split; [constructor|]|].
  rewrite Forall_cons, IH. done.
Qed.

Lemma no_tail_Letrec m vel expr :
  no_tail_call (LetrecNode m vel expr)
  <-> Forall (fun ve => no_tail_call (snd ve)) vel /\ no_tail_call expr.
Proof. cbn. by rewrite no_tail_call_pairs. Qed.

Lemma no_tail_Sequence m es :
  no_tail_call (SequenceNode m es) <-> Forall no_tail_call es.
Proof. cbn. by rewrite no_tail_call_list. Qed.

Lemma no_tail_IntrinsicCall m f es :
  no_tail_call (IntrinsicCallNode m f es) <-> Forall no_tail_call es.
Proof. cbn. by rewrite no_tail_call_list. Qed.

Lemma no_tail_ExprCall m f es :
  no_tail_call (ExprCallNode m f es)
  <-> tail m = false /\ no_tail_call f /\ Forall no_tail_call es.
Proof. cbn. by rewrite no_tail_call_list. Qed.

Lemma no_tail_children e x :
  no_tail_call e -> (forall m varList expr, e <> LambdaNode m varList expr) ->
  In x (children e) -> no_tail_call x.
Proof.
  destruct e as [| | |m vl b|m vel b|m c b1 b2|m es|m f args|m f args|m v b]; cbn;
    try done.
  - intros _ Hne. by destruct (Hne m vl b).
  - intros (Hves & Hb) _ [Hin|[<-|[]]]%in_app_or; [|done].
    apply no_tail_call_pairs in Hves.
    apply in_map_iff in Hin as (ve & <- & Hin).
    rewrite Forall_forall in Hves. apply Hves. by apply list_elem_of_In.
  - by intros (? & ? & ?) _ [<-|[<-|[<-|[]]]].
  - intros Hall%no_tail_call_list _ Hin.
    rewrite Forall_forall in Hall. apply Hall. by apply list_elem_of_In.
  - intros Hall%no_tail_call_list _ Hin.
    rewrite Forall_forall in Hall. apply Hall. by apply list_elem_of_In.
  - intros (_ & Hf & Hall%no_tail_call_list) _ [<-|Hin]; [done|].
    rewrite Forall_forall in Hall. apply Hall. by apply list_elem_of_In.
  - by intros ? _ [<-|[]].
Qed.

(** [computeTail] from a parent that is no tail position marks no call
    outside a Lambda. *)
Lemma computeTail_no_tail e : no_tail_call (computeTail e false).
Proof.
  induction e as [m val loc|m val loc|v|m vl b IH|m vel b IHvel IHb
                 |m c b1 b2 IHc IH1 IH2|m es IH
                 |m f es IH|m f es IHf IH|m v b IH] using ExprNode_nested_ind;
    cbn [computeTail]; try done.
  - apply no_tail_Letrec. split; [|done].
    induction IHvel as [|ve vel Hve _ IH]; cbn; by constructor.
  - apply no_tail_Sequence.
    induction IH as [|x es Hx Hes IH]; [constructor|].
    destruct es as [|y es]; [by repeat constructor|]. by constructor.
  - apply no_tail_IntrinsicCall. induction IH; cbn; by constructor.
  - apply no_tail_ExprCall. split; [done|]. split; [done|].
    induction IH; cbn; by constructor.
Qed.

Lemma preAllocate_no_tail_list es :
  Forall (fun e => forall heap e' heap',
            no_tail_call e -> preAllocate e heap = Ok (e', heap') -> no_tail_call e') es ->
  forall heap es' heap',
    Forall no_tail_call es ->
    (fix go (es : list ExprNode) (heap : list Value)
       : result (list ExprNode * list Value) :=
       match es with
       | [] => Ok ([], heap)
       | x :: es' =>
           '(x', heap) ← preAllocate x heap;
           '(es'', heap) ← go es' heap;
           Ok (x' :: es'', heap)
       end) es heap = Ok (es', heap') ->
    Forall no_tail_call es'.
Proof.
  induction 1 as [|x es Hx _ IH]; intros heap es' heap' Hd Hp.
  - by injection Hp as <- <-.
  - apply Forall_cons in Hd as [Hdx Hd]. ok_inv Hp. destruct a as [x' heap1].
    ok_inv Hp. destruct a as [es1 heap2]. injection Hp as <- <-.
    constructor; [by eapply Hx|by eapply IH].
Qed.

(** [preAllocate] changes no mark. *)
Lemma preAllocate_no_tail e : forall heap e' heap',
  no_tail_call e -> preAllocate e heap = Ok (e', heap') -> no_tail_call e'.
Proof.
  induction e as [m val loc|m val loc|v|m vl b IH|m vel b IHvel IHb
                 |m c b1 b2 IHc IH1 IH2|m es IH
                 |m f es IH|m f es IHf IH|m v b IH] using ExprNode_nested_ind;
    intros heap e' heap' Hd Hp; cbn [preAllocate] in Hp.
  - ok_inv Hp. by injection Hp as <- <-.
  - ok_inv Hp. by injection Hp as <- <-.
  - by injection Hp as <- <-.
  - ok_inv Hp. destruct a as [b' heap1]. by injection Hp as <- <-.
  - apply no_tail_Letrec in Hd as (Hvel & Hb).
    ok_inv Hp. destruct a as [vel' heap1]. ok_inv Hp. destruct a as [b' heap2].
    injection Hp as <- <-. apply no_tail_Letrec. split; [|by eapply IHb].
    clear E0. revert heap vel' heap1 E.
    induction IHvel as [|ve vel Hve _ IH]; intros heap vel' heap1 E.
    + by injection E as <- <-.
    + apply Forall_cons in Hvel as [Hdx Hvel]. ok_inv E. destruct a as [x' heap3].
      ok_inv E. destruct a as [ves heap4]. injection E as <- <-.
      constructor; [by eapply Hve|by eapply IH].
  - destruct Hd as (Hdc & Hd1 & Hd2).
    ok_inv Hp. destruct a as [c' heap1]. ok_inv Hp. destruct a as [b1' heap2].
    ok_inv Hp. destruct a as [b2' heap3]. injection Hp as <- <-.
    split; [by eapply IHc|]. split; [by eapply IH1|by eapply IH2].
  - apply no_tail_Sequence in Hd. ok_inv Hp. destruct a as [es' heap1].
    injection Hp as <- <-. apply no_tail_Sequence.
    by eapply preAllocate_no_tail_list.
  - apply no_tail_IntrinsicCall in Hd. ok_inv Hp. destruct a as [es' heap1].
    injection Hp as <- <-. apply no_tail_IntrinsicCall.
    by eapply preAllocate_no_tail_list.
  - apply no_tail_ExprCall in Hd as (Ht & Hdf & Hd). ok_inv Hp. destruct a as [f' heap1].
    ok_inv Hp. destruct a as [es' heap2]. injection Hp as <- <-.
    apply no_tail_ExprCall. split; [done|]. split; [by eapply IHf|].
    by eapply preAllocate_no_tail_list.
  - ok_inv Hp. destruct a as [b' heap1]. injection Hp as <- <-. cbn in *. by eapply IH.
Qed.

End Tail_marks.

Section Stack_moves.

Context (H : Host).
Implicit Types (c : Config H) (layer : Layer) (below : list Layer).

Ltac same :=
  first
    [ apply same_layer_refl
    | eassumption
    | (eapply same_layer_trans; [|apply same_layer_set_pc]; same)
    | (eapply same_layer_trans; [|apply same_layer_push_local]; same) ].

Ltac push_of layer' x :=
  eapply (m_push _ _ _ _ layer' x);
  [ same
  | cbn; eauto using vec_at_In; tauto
  | done
  | cbn; try match goal with
         | Henv : layer_env _ = _ |- _ => rewrite ?Henv
         end; reflexivity ].

Lemma step_stack_move c c' layer below e :
  stack (state c) = layer :: below ->
  layer_expr layer = Some e ->
  step H c = Ok (true, c') ->
  stack_move e layer below (stack (state c')).
Proof.
  intros Hstk He Hs. unfold step in Hs. rewrite Hstk, He in Hs.
  ok_inv Hs. injection Hs as <-. rename E into Hs.
  destruct e as [m val loc|m val loc|v|m varList expr|m vel expr|m cond b1 b2
                |m es|m name args|m callee args|m var expr].
  - injection Hs as <-. by apply m_pop.
  - injection Hs as <-. by apply m_pop.
  - unfold step_Variable in Hs. ok_inv Hs.
    destruct (lookup_env _ _); [|discriminate Hs]. injection Hs as <-. by apply m_pop.
  - unfold step_Lambda in Hs. ok_inv Hs. cbn in Hs. injection Hs as <-. by apply m_pop.
  - (* Letrec *)
    unfold step_Letrec in Hs. ok_inv Hs.
    destruct (layer_pc layer =? 0).
    { ok_inv Hs. destruct (letrec_alloc _ _ _) as [env heap2]. injection Hs as <-.
      eapply (m_stay _ _ _ _ (set_pc layer _)); [same|by cbn]. }
    destruct (layer_pc layer <=? zlen vel).
    { destruct (vec_at vel (layer_pc layer + 1 - 2)) as [ve|] eqn:Hve; [|done].
      injection Hs as <-.
      eapply (m_push _ _ _ _ (set_pc layer _) (snd ve)); [same| |done|by cbn].
      cbn. apply in_or_app. left. apply in_map. by eapply vec_at_In. }
    destruct (layer_pc layer =? zlen vel + 1).
    { injection Hs as <-.
      eapply (m_push _ _ _ _ (set_pc layer _) expr); [same| |done|by cbn].
      cbn. apply in_or_app. right. by left. }
    ok_inv Hs. ok_inv Hs. injection Hs as <-. by apply m_pop.
  - (* If *)
    unfold step_If in Hs.
    destruct (layer_pc layer =? 0).
    { injection Hs as <-. push_of (set_pc layer (layer_pc layer + 1)) cond. }
    destruct (layer_pc layer =? 1).
    { ok_inv Hs. destruct a0 as [|z| |]; try done.
      destruct (truthy z); injection Hs as <-.
      - push_of (set_pc layer (layer_pc layer + 1)) b1.
      - push_of (set_pc layer (layer_pc layer + 1)) b2. }
    injection Hs as <-. by apply m_pop.
  - (* Sequence *)
    unfold step_Sequence in Hs.
    destruct (layer_pc layer <? zlen es).
    { destruct (vec_at es _) as [x|] eqn:Hx; [|done]. injection Hs as <-.
      push_of (set_pc layer (layer_pc layer + 1)) x. }
    injection Hs as <-. by apply m_pop.
  - (* IntrinsicCall *)
    unfold step_IntrinsicCall in Hs.
    set (layer1 := if (0 <? _) && _ then _ else _) in Hs.
    assert (Hsame : same_layer layer layer1).
    { apply same_layer_if; [apply same_layer_push_local|apply same_layer_refl]. }
    assert (Henv : layer_env layer1 = layer_env layer) by (by destruct Hsame as (-> & _)).
    destruct (layer_pc layer <? zlen args).
    { destruct (vec_at args _) as [x|] eqn:Hx; [|done]. injection Hs as <-.
      push_of (set_pc layer1 (layer_pc layer + 1)) x. }
    ok_inv Hs. destruct a0 as [value w']. cbn in Hs. injection Hs as <-. by apply m_pop.
  - (* ExprCall *)
    unfold step_ExprCall in Hs.
    set (layer1 := if (2 <? _) && _ then _ else _) in Hs.
    assert (Hsame : same_layer layer layer1).
    { apply same_layer_if; [apply same_layer_push_local|apply same_layer_refl]. }
    assert (Henv : layer_env layer1 = layer_env layer) by (by destruct Hsame as (-> & _)).
    destruct (layer_pc layer =? 0).
    { injection Hs as <-. push_of (set_pc layer1 (layer_pc layer + 1)) callee. }
    destruct (layer_pc layer =? 1).
    { injection Hs as <-.
      eapply (m_stay _ _ _ _ (push_local (set_pc layer1 _) _)); [same|by cbn]. }
    destruct (layer_pc layer <=? zlen args + 1).
    { destruct (vec_at args _) as [x|] eqn:Hx; [|done]. injection Hs as <-.
      push_of (set_pc layer1 (layer_pc layer + 1)) x. }
    destruct (layer_pc layer =? zlen args + 2).
    { ok_inv Hs. destruct a1 as [| | |cenv fn]; try done.
      destruct (negb _); [done|]. ok_inv Hs. cbn in Hs. injection Hs as <-.
      destruct (tail m) eqn:Htail.
      - ok_inv E2.
        match type of E3 with
        | _ = Ok ?stk => destruct stk as [|f rest]; [by cbn in E2|]
        end.
        cbn in E2. injection E2 as <-.
        eapply (m_tailcall _ _ _ _ m callee args (set_pc layer1 _) _ _ f rest);
          [reflexivity|done|same|exact E3|by cbn].
      - injection E2 as <-.
        eapply (m_call _ _ _ _ (set_pc layer1 _)); [same|by cbn]. }
    injection Hs as <-. by apply m_pop.
  - (* At *)
    unfold step_At in Hs.
    destruct (layer_pc layer =? 0).
    { injection Hs as <-. push_of (set_pc layer (layer_pc layer + 1)) expr. }
    ok_inv Hs. destruct a0 as [| | |cenv fn]; try done.
    destruct (lookup_env _ _); [|done]. injection Hs as <-. by apply m_pop.
Qed.

End Stack_moves.

Section Main_frame.

Context (H : Host).
Implicit Types (c : Config H) (layer : Layer) (below upper : list Layer).

Lemma main_region_app above upper : main_region (above ++ upper) -> main_region upper.
Proof. induction above as [|l above IH]; [done|]. intros [_ Hr]. auto. Qed.

Lemma main_region_same l l' rest :
  same_layer l l' -> main_region (l :: rest) -> main_region (l' :: rest).
Proof.
  intros (_ & He & Hf) [Hl Hr]. split; [|done]. cbn in *. rewrite He.
  destruct (layer_expr l); [|done]. intros Hall. apply Hl.
  apply Forall_cons in Hall as [Hl' Hall]. constructor; [congruence|done].
Qed.

Lemma main_region_map (f : Layer -> Layer) upper :
  (forall l, same_layer l (f l)) -> main_region upper -> main_region (map f upper).
Proof.
  intros Hf. induction upper as [|l upper IH]; [done|].
  intros [Hl Hr]. split; [|auto]. cbn in *.
  destruct (Hf l) as (_ & -> & Hfl). destruct (layer_expr l); [|done].
  intros Hall. apply Hl. apply Forall_cons in Hall as [Hl' Hall].
  constructor; [congruence|].
  apply Forall_forall. intros x Hx. rewrite Forall_forall in Hall.
  destruct (Hf x) as (_ & _ & <-). apply Hall. by apply list_elem_of_fmap_2.
Qed.

(** The walk down to the frame stops above the main frame when there is
    a frame above it. *)
Lemma pop_to_frame_above upper main :
  ~ Forall (fun l => layer_frame l = false) upper ->
  exists above f rest,
    upper = above ++ f :: rest
    /\ pop_to_frame (upper ++ [main]) = Ok (f :: rest ++ [main]).
Proof.
  induction upper as [|l upper IH]; intros Hnot.
  - destruct Hnot. constructor.
  - cbn. destruct (layer_frame l) eqn:Hl.
    + by exists [], l, upper.
    + destruct IH as (above & f & rest & -> & Hp).
      { intros Hall. apply Hnot. by constructor. }
      by exists (l :: above), f, rest.
Qed.

Lemma main_kept_step c b c' :
  main_kept (stack (state c)) -> step H c = Ok (b, c') -> main_kept (stack (state c')).
Proof.
  intros Hk Hs. destruct b; [|by apply step_halted in Hs as ->].
  destruct Hk as (upper & main & Hstk & Hme & Hmf & Hreg).
  destruct upper as [|layer upper].
  { unfold step in Hs. rewrite Hstk in Hs. cbn in Hs. by rewrite Hme in Hs. }
  cbn in Hstk. destruct (layer_expr layer) as [e|] eqn:He.
  2:{ destruct Hreg as [Hl _]. cbn in Hl. by rewrite He in Hl. }
  pose proof (step_stack_move H c c' layer (upper ++ [main]) e Hstk He Hs) as Hmove.
  assert (Hrest : main_region upper) by apply Hreg.
  assert (Hhere : Forall (fun l => layer_frame l = false) (layer :: upper) ->
                  no_tail_call e).
  { destruct Hreg as [Hl _]. cbn in Hl. by rewrite He in Hl. }
  destruct Hmove as [->|layer' x Hsame Hx Hne ->|layer' Hsame ->|layer' r body Hsame ->
                    |m expr args layer' r body f rest -> Htail Hsame Hpop ->].
  - by exists upper, main.
  - exists (new_layer (layer_env layer) (Some x) false :: layer' :: upper), main.
    split; [done|]. split; [done|]. split; [done|].
    split; [|by eapply main_region_same]. cbn.
    intros Hall. apply Forall_cons in Hall as [_ Hall].
    eapply no_tail_children; [|done|done]. apply Hhere.
    apply Forall_cons in Hall as [Hl Hall]. constructor; [|done].
    destruct Hsame as (_ & _ & <-). done.
  - exists (layer' :: upper), main.
    split; [done|]. split; [done|]. split; [done|]. by eapply main_region_same.
  - exists (new_layer r (Some body) true :: layer' :: upper), main.
    split; [done|]. split; [done|]. split; [done|].
    split; [|by eapply main_region_same]. cbn.
    intros Hall. by apply Forall_cons in Hall as [? _].
  - assert (Hframe : ~ Forall (fun l => layer_frame l = false) (layer' :: upper)).
    { intros Hall. destruct Hhere as (Ht & _).
      - apply Forall_cons in Hall as [Hl Hall]. constructor; [|done].
        destruct Hsame as (_ & _ & <-). done.
      - congruence. }
    destruct (pop_to_frame_above (layer' :: upper) main Hframe)
      as (above & f' & rest' & Hsplit & Hpop').
    cbn [app] in Hpop'. rewrite Hpop in Hpop'. injection Hpop' as -> ->.
    exists (new_layer r (Some body) true :: rest'), main.
    split; [done|]. split; [done|]. split; [done|]. split.
    + cbn. intros Hall. by apply Forall_cons in Hall as [? _].
    + apply (main_region_app (above ++ [f'])). rewrite <- app_assoc. cbn.
      rewrite <- Hsplit. by eapply main_region_same.
Qed.

Lemma main_kept_collect c c' :
  after Collect c = Some c' -> main_kept (stack (state c)) -> main_kept (stack (state c')).
Proof.
  intros Hc (upper & main & Hstk & Hme & Hmf & Hreg).
  destruct (after_Collect H c c' Hc) as (_ & _ & _ & -> & _).
  rewrite Hstk, map_app. cbn.
  exists (map (reloc_layer (gc_relocation c)) upper), (reloc_layer (gc_relocation c) main).
  split; [done|]. split; [done|]. split; [done|].
  apply main_region_map; [|done]. intros l. apply same_layer_reloc.
Qed.

Lemma main_kept_boot (w : World H) e uninit (c0 : Config H) :
  boot H w e uninit = Ok c0 -> main_kept (stack (state c0)).
Proof.
  unfold boot, State_new. intros Hb. ok_inv Hb. destruct a as [mem s].
  injection Hb as <-. ok_inv E. destruct a0 as [e' heap']. cbn in E.
  injection E as <- <-. cbn.
  exists [new_layer (length ([] : Memory)) (Some e') false],
         (new_layer (length ([] : Memory)) None true).
  split; [done|]. split; [done|]. split; [done|]. split; [|done]. cbn.
  intros _. eapply preAllocate_no_tail; [|exact E1]. apply computeTail_no_tail.
Qed.

Lemma main_kept_run (w : World H) e uninit (c0 : Config H) evs :
  boot H w e uninit = Ok c0 ->
  forall c, run_events c0 evs = Some c -> main_kept (stack (state c)).
Proof.
  intros Hb. induction evs as [|ev evs IH] using rev_ind; intros c Hrun.
  - injection Hrun as <-. by eapply main_kept_boot.
  - rewrite run_events_app in Hrun.
    destruct (run_events c0 evs) as [c1|] eqn:Hr1; [|done].
    cbn in Hrun. destruct (after ev c1) as [c2|] eqn:Hev; [|done].
    injection Hrun as ->. specialize (IH c1 eq_refl). destruct ev.
    + cbn in Hev. destruct (step H c1) as [[b c2']|] eqn:Hs; [|done].
      injection Hev as ->. by eapply main_kept_step.
    + by eapply main_kept_collect.
Qed.

End Main_frame.

Lemma main_frame_at_bottom (H : Host) (w : World H) (e : ExprNode) (uninit : Location)
    (c0 c : Config H) (evs : list event) :
  boot H w e uninit = Ok c0 ->
  run_events c0 evs = Some c ->
  exists upper main,
    stack (state c) = upper ++ [main]
    /\ layer_expr main = None /\ layer_frame main = true
    /\ Forall (fun l => is_Some (layer_expr l)) upper
    /\ (upper = [] <-> exists c', step H c = Ok (false, c')).
Proof.
  intros Hb Hrun.
  destruct (main_kept_run H w e uninit c0 evs Hb c Hrun)
    as (upper & main & Hstk & Hme & Hmf & Hreg).
  exists upper, main. split; [done|]. split; [done|]. split; [done|].
  assert (Hexpr : Forall (fun l => is_Some (layer_expr l)) upper).
  { clear Hstk. induction upper as [|l upper IH]; [constructor|].
    destruct Hreg as [Hl Hr]. constructor; [|auto].
    destruct (layer_expr l); [by eexists|done]. }
  split; [done|]. unfold step. rewrite Hstk. split.
  - intros ->. cbn. rewrite Hme. by eexists.
  - intros [c' Hs]. destruct upper as [|l upper]; [done|]. exfalso.
    apply Forall_cons in Hexpr as [[x Hx] _]. cbn in Hs. rewrite Hx in Hs.
    by destruct (match x with IntegerNode _ _ _ => _ | _ => _ end).
Qed.

(** X7: In a run of a program the main frame is never removed from the
    stack, by a tail call or otherwise: the stack is the main frame
    under layers that each evaluate a node, and [step] returns [false]
    exactly when the main frame is all that is left. *)
Theorem main_frame_stays (H : Host) (w : World H) (e : ExprNode) (uninit : Location)
    (c0 c : Config H) (evs : list event) :
  boot H w e uninit = Ok c0 ->
  run_events c0 evs = Some c ->
  exists upper main,
    stack (state c) = upper ++ [main]
    /\ layer_expr main = None /\ layer_frame main = true
    /\ Forall (fun l => is_Some (layer_expr l)) upper
    /\ (upper = [] <-> exists c', step H c = Ok (false, c')).
Proof. apply main_frame_at_bottom. Qed.

(** ** The lexer *)

Section Lexer.

Implicit Types (s src text : string) (l : SourceLocation) (p : ascii -> bool).

Lemma take_drop_while p s : (take_while p s ++ drop_while p s)%string = s.
Proof.
  induction s as [|c s IH]; [done|]. cbn. destruct (p c); [|done].
  by rewrite string_app_cons, IH.
Qed.

Lemma drop_while_length p s : (String.length (drop_while p s) <= String.length s)%nat.
Proof. induction s as [|c s IH]; [done|]. cbn. destruct (p c); cbn; lia. Qed.

Lemma take_while_all p s : all_chars p (take_while p s) = true.
Proof.
  unfold all_chars. induction s as [|c s IH]; [done|]. cbn.
  destruct (p c) eqn:Hc; [|done]. cbn. by rewrite Hc.
Qed.

Lemma drop_while_head p s c s' : drop_while p s = String c s' -> p c = false.
Proof.
  induction s as [|x s IH]; [done|]. cbn. destruct (p x) eqn:Hx; [done|].
  by intros [= <- _].
Qed.

Lemma pop_while_spec p src : forall l text,
  pop_while p src l text
  = ((text ++ take_while p src)%string,
     mkSS (drop_while p src) (advance l (take_while p src))).
Proof.
  induction src as [|c src IH]; intros l text; cbn.
  - by rewrite string_app_nil.
  - destruct (p c).
    + rewrite IH, push_back_app. done.
    + by rewrite string_app_nil.
Qed.

Lemma digits_loop_spec src : forall l text hasDigit,
  digits_loop src l text hasDigit
  = ((text ++ take_while is_digit src)%string,
     mkSS (drop_while is_digit src) (advance l (take_while is_digit src)),
     hasDigit || negb (String.eqb (take_while is_digit src) EmptyString)).
Proof.
  induction src as [|c src IH]; intros l text h; cbn.
  - by rewrite string_app_nil, orb_false_r.
  - destruct (is_digit c).
    + rewrite IH, push_back_app. cbn. by rewrite orb_true_r.
    + by rewrite string_app_nil, orb_false_r.
Qed.

(** A string literal that is complete. *)
Lemma string_loop_complete src : forall l text escape text' ss,
  string_loop src l text escape = (text', ss, true) ->
  exists body,
    text' = (text ++ body ++ String ch_dquote EmptyString)%string
    /\ last_is_backslash body escape = false
    /\ src = (body ++ String ch_dquote (ss_source ss))%string.
Proof.
  induction src as [|c src IH]; intros l text escape text' ss Hs; [done|].
  cbn in Hs. destruct (negb escape && Ascii.eqb c ch_dquote) eqn:Hq.
  - injection Hs as <- <-. apply andb_true_iff in Hq as [He ->%Ascii.eqb_eq].
    exists EmptyString. cbn. split; [done|]. split; [by destruct escape|done].
  - destruct (IH _ _ _ _ _ Hs) as (body & -> & Hb & ->).
    exists (String c body). rewrite push_back_app. by repeat split.
Qed.

Lemma string_loop_length src : forall l text escape text' ss complete,
  string_loop src l text escape = (text', ss, complete) ->
  (String.length (ss_source ss) <= String.length src)%nat.
Proof.
  induction src as [|c src IH]; intros l text escape text' ss complete Hs.
  - by injection Hs as <- <- <-.
  - cbn in Hs. destruct (negb escape && Ascii.eqb c ch_dquote).
    + injection Hs as <- <- <-. cbn. lia.
    + apply IH in Hs. cbn. lia.
Qed.

Lemma take_while_cons p c s : p c = true -> take_while p (String c s) = String c (take_while p s).
Proof. intros Hc. cbn. by rewrite Hc. Qed.

Lemma drop_while_cons p c s : p c = true -> drop_while p (String c s) = drop_while p s.
Proof. intros Hc. cbn. by rewrite Hc. Qed.

Lemma lexer_error_panic msg l :
  In msg lexer_messages -> lexer_error (Panic "lexer" msg l).
Proof. intros Hin. by exists msg, l. Qed.

Lemma nextToken_spec fuel : forall ss,
  (String.length (ss_source ss) < fuel)%nat ->
  nextToken_ok ss (nextToken fuel ss).
Proof.
  induction fuel as [|fuel IH]; intros [src l] Hfuel; [cbn in Hfuel; lia|].
  cbn [nextToken ss_source ss_sl] in *. rewrite pop_while_spec.
  cbv beta iota zeta. cbn [ss_source ss_sl].
  pose proof (drop_while_length is_space src) as Hlen.
  destruct (drop_while is_space src) as [|c rest] eqn:Hsrc; [done|].
  cbn [String.length] in Hlen.
  set (l1 := advance l (take_while is_space src)).
  destruct (is_digit c || Ascii.eqb c "-" || Ascii.eqb c "+") eqn:Hint.
  { (* integer literal *)
    destruct (Ascii.eqb c "-" || Ascii.eqb c "+") eqn:Hsign.
    - cbv beta iota zeta. cbn [ss_source ss_sl]. rewrite digits_loop_spec.
      cbv beta iota zeta. cbn [orb negb].
      destruct (String.eqb_spec (take_while is_digit rest) EmptyString) as [Hnone|Hsome].
      + cbn. apply lexer_error_panic. cbn. tauto.
      + cbn [negb nextToken_ok ss_source]. split.
        * unfold push_back. rewrite string_app_nil_l, string_app_cons, string_app_nil_l.
          split; [|split].
          -- unfold classified, isIntegerToken, first_char. cbn. by rewrite Hint.
          -- intros _. cbn. exists (String c EmptyString), (take_while is_digit rest).
             split; [done|]. split; [|split; [done|apply take_while_all]].
             apply orb_true_iff in Hsign as [->%Ascii.eqb_eq| ->%Ascii.eqb_eq]; tauto.
          -- unfold isStringToken, first_char. cbn. intros ->%Ascii.eqb_eq. done.
        * pose proof (drop_while_length is_digit rest). lia.
    - cbv beta iota zeta. cbn [ss_source ss_sl]. rewrite digits_loop_spec.
      cbv beta iota zeta. cbn [orb negb].
      apply orb_false_iff in Hsign as [Hminus Hplus].
      rewrite Hminus, Hplus, !orb_false_r in Hint.
      rewrite (take_while_cons _ _ _ Hint), (drop_while_cons _ _ _ Hint).
      cbn [String.eqb negb nextToken_ok ss_source]. split.
      + rewrite string_app_nil_l. split; [|split].
        * unfold classified, isIntegerToken, first_char. cbn. by rewrite Hint.
        * intros _. cbn. exists EmptyString, (String c (take_while is_digit rest)).
          split; [done|]. split; [tauto|]. split; [done|].
          rewrite <- (take_while_cons _ _ _ Hint). apply take_while_all.
        * unfold isStringToken, first_char. cbn. intros ->%Ascii.eqb_eq. done.
      + pose proof (drop_while_length is_digit rest). lia. }
  apply orb_false_iff in Hint as [[Hdigit Hminus]%orb_false_iff Hplus].
  destruct (Ascii.eqb c ch_dquote) eqn:Hquote.
  { (* string literal *)
    apply Ascii.eqb_eq in Hquote as ->.
    destruct (string_loop rest _ _ false) as [[text ss'] complete] eqn:Hloop.
    destruct complete; cbn [negb].
    - pose proof (string_loop_length _ _ _ _ _ _ _ Hloop) as Hlen'.
      apply string_loop_complete in Hloop as (body & -> & Hbody & _).
      cbn [nextToken_ok ss_source]. split; [|lia].
      unfold push_back. rewrite string_app_nil_l, string_app_cons, string_app_nil_l.
      split; [done|]. split; [done|]. intros _. by exists body.
    - apply lexer_error_panic. cbn. tauto. }
  destruct (is_alpha c || Ascii.eqb c "_") eqn:Hvar.
  { (* variable / keyword *)
    rewrite pop_while_spec. cbn [nextToken_ok ss_source].
    assert (Hp : (fun c => is_alpha c || is_digit c || Ascii.eqb c "_") c = true).
    { cbn. apply orb_true_iff in Hvar as [->| ->]; [done|by rewrite orb_true_r]. }
    rewrite (take_while_cons _ _ _ Hp), (drop_while_cons _ _ _ Hp), string_app_nil_l.
    split.
    - split; [|split].
      + unfold classified, isIntegerToken, isStringToken, isVariableToken, first_char.
        cbn. by rewrite Hdigit, Hminus, Hplus, Hquote, Hvar.
      + unfold isIntegerToken, first_char. cbn. by rewrite Hdigit, Hminus, Hplus.
      + unfold isStringToken, first_char. cbn. by rewrite Hquote.
    - pose proof (drop_while_length
        (fun c => is_alpha c || is_digit c || Ascii.eqb c "_") rest). lia. }
  destruct (Ascii.eqb c ".") eqn:Hdot.
  { (* intrinsic *)
    apply Ascii.eqb_eq in Hdot as ->.
    rewrite pop_while_spec. cbn [nextToken_ok ss_source].
    rewrite take_while_cons, drop_while_cons, string_app_nil_l by done.
    split; [done|].
    pose proof (drop_while_length (fun c => negb (is_space c || Ascii.eqb c ")")) rest).
    lia. }
  destruct (is_special c) eqn:Hspecial.
  { cbn [nextToken_ok ss_source]. split; [|lia].
    unfold push_back. rewrite string_app_nil_l. split; [|split].
    - unfold classified, isIntegerToken, isStringToken, isVariableToken, isIntrinsicToken,
        is_special_token, first_char.
      cbn [tok_text]. by rewrite Hdigit, Hminus, Hplus, Hquote, Hvar, Hdot, Hspecial.
    - unfold isIntegerToken, first_char. cbn. by rewrite Hdigit, Hminus, Hplus.
    - unfold isStringToken, first_char. cbn. by rewrite Hquote. }
  destruct (Ascii.eqb c "#") eqn:Hhash.
  { (* comment *)
    apply Ascii.eqb_eq in Hhash as ->.
    rewrite pop_while_spec. cbv beta iota zeta.
    rewrite drop_while_cons by done.
    pose proof (drop_while_length (fun c => negb (Ascii.eqb c ch_newline)) rest) as Hrest.
    match goal with
    | |- nextToken_ok _ (nextToken fuel ?ss1) =>
        specialize (IH ss1); cbn [ss_source] in IH;
        destruct (nextToken fuel ss1) as [[[[t|] ss2]|e]|]
    end; cbn [nextToken_ok ss_source] in *; try (apply IH; lia).
    destruct IH as [Ht Hl]; [lia|]. split; [done|lia]. }
  apply lexer_error_panic. cbn. tauto.
Qed.

End Lexer.

Section Lexed.

Implicit Types (s src text : string) (l : SourceLocation).

Lemma unquote_between (body : string) :
  unquote (String ch_dquote (body ++ String ch_dquote EmptyString))
  = unquote_loop body EmptyString.
Proof.
  unfold unquote.
  cbn [String.length]. rewrite string_length_app. cbn [String.length].
  replace (Z.of_nat (S (String.length body + 1)))
    with (Z.of_nat (String.length body) + 2) by lia.
  assert (H2 : (2 <=? Z.of_nat (String.length body) + 2) = true)
    by (apply Z.leb_le; lia).
  rewrite H2. cbn [andb].
  rewrite bool_decide_eq_true_2 by reflexivity. cbn [andb].
  rewrite bool_decide_eq_true_2.
  - replace (Z.to_nat (Z.of_nat (String.length body) + 2 - 2))
      with (String.length body) by lia.
    cbn [String.substring]. by rewrite substring_prefix.
  - unfold str_at.
    destruct (Z.of_nat (String.length body) + 2 - 1 <? 0) eqn:E;
      [apply Z.ltb_lt in E; lia|].
    replace (Z.to_nat (Z.of_nat (String.length body) + 2 - 1))
      with (S (String.length body)) by lia.
    cbn [String.get]. apply get_app_last.
Qed.

(** A body that does not end with a backslash has no incomplete escape
    sequence. *)
Lemma unquote_loop_body (n : nat) : forall body r,
  (String.length body <= n)%nat ->
  ends_with_backslash body = false ->
  (exists u, unquote_loop body r = Ok u)
  \/ unquote_loop body r = panic "unquote" "invalid escape sequence" noSL.
Proof.
  unfold ends_with_backslash.
  induction n as [|n IH]; intros body r Hn Hb.
  - destruct body; [left; by eexists|cbn in Hn; lia].
  - destruct body as [|c body]; [left; by eexists|]. cbn in Hn.
    cbn [unquote_loop last_is_backslash] in *.
    destruct (Ascii.eqb c ch_backslash) eqn:Hc.
    + destruct body as [|c1 body]; [done|]. cbn in Hn. cbn [last_is_backslash] in Hb.
      assert (Hrest : last_is_backslash body false = false).
      { destruct body as [|c2 body]; [done|]. exact Hb. }
      repeat (match goal with
              | |- context [if ?b then _ else _] => destruct b
              end; [apply IH; [lia|done]|]).
      by right.
    + apply IH; [lia|]. destruct body as [|c1 body]; [done|]. exact Hb.
Qed.

Lemma unquote_string_text t :
  string_text t ->
  (exists u, unquote t = Ok u)
  \/ unquote t = panic "unquote" "invalid escape sequence" noSL.
Proof.
  intros (body & -> & Hb). rewrite unquote_between.
  by eapply unquote_loop_body.
Qed.

Lemma is_digit_not_space c : is_digit c = true -> is_space c = false.
Proof.
  unfold is_digit, is_space.
  intros [H1%Nat.leb_le H2%Nat.leb_le]%andb_true_iff.
  apply orb_false_iff. split.
  - apply Nat.eqb_neq. lia.
  - apply andb_false_iff. right. apply Nat.leb_gt. lia.
Qed.

Lemma is_digit_not_sign c :
  is_digit c = true -> Ascii.eqb c "-" = false /\ Ascii.eqb c "+" = false.
Proof.
  intros Hd. split; apply Ascii.eqb_neq; intros ->; done.
Qed.

Lemma stoi_integer_text t :
  integer_text t ->
  (exists v, stoi t = Ok v) \/ stoi t = Err (Exception "stoi: out of range").
Proof.
  intros (sign & digits & -> & Hsign & Hne & Hall).
  destruct digits as [|c ds]; [done|].
  assert (Hc : is_digit c = true).
  { unfold all_chars in Hall. cbn in Hall. by apply andb_true_iff in Hall as [? _]. }
  destruct (is_digit_not_sign c Hc) as [Hminus Hplus].
  destruct Hsign as [->|[->| ->]]; rewrite ?string_app_cons, ?string_app_nil_l;
    unfold stoi; cbn [skip_space].
  - rewrite (is_digit_not_space c Hc). cbv beta iota zeta.
    rewrite Hminus, Hplus, Hc. cbv beta iota zeta.
    destruct (_ && _); [left; by eexists|by right].
  - change (is_space "-") with false. cbv beta iota zeta.
    change (Ascii.eqb "-" "-") with true. cbv beta iota zeta. rewrite Hc.
    destruct (_ && _); [left; by eexists|by right].
  - change (is_space "+") with false. cbv beta iota zeta.
    change (Ascii.eqb "+" "-") with false. change (Ascii.eqb "+" "+") with true.
    cbv beta iota zeta. rewrite Hc.
    destruct (_ && _); [left; by eexists|by right].
Qed.

Lemma check_chars_error s : forall l e,
  check_chars s l = Err e -> lexer_error e.
Proof.
  induction s as [|c s IH]; intros l e; cbn; [done|].
  destruct (charset_contains c); [apply IH|].
  intros [= <-]. apply lexer_error_panic. cbn. tauto.
Qed.

Lemma lex_loop_spec fuel : forall ss tokens,
  (String.length (ss_source ss) < fuel)%nat ->
  Forall lexed tokens ->
  match lex_loop fuel ss tokens with
  | OutOfFuel => False
  | Done (Err e) => lexer_error e
  | Done (Ok tokens') => Forall lexed tokens'
  end.
Proof.
  induction fuel as [|fuel IH]; intros ss tokens Hfuel Hall; [lia|].
  cbn [lex_loop].
  pose proof (nextToken_spec (S (String.length (ss_source ss))) ss ltac:(lia)) as Hnext.
  destruct (nextToken _ ss) as [[[[t|] ss']|e]|]; cbn [nextToken_ok] in Hnext; try done.
  destruct Hnext as [Ht Hlen]. apply IH; [lia|].
  apply Forall_app. split; [done|]. by constructor.
Qed.

End Lexed.

(** X8: The lexer returns on every text.  Its errors are the four of the
    lexer; each token that it returns is of one of the kinds that the
    parser tells apart, [std::stoi] rejects the text of an integer
    token only as out of range, and [unquote] rejects the text of a
    string token only for an invalid escape sequence. *)
Theorem lex_returns_tokens (source : string) :
  match lex source with
  | OutOfFuel => False
  | Done (Err e) => lexer_error e
  | Done (Ok tokens) =>
      Forall (fun t =>
                classified t = true
                /\ (isIntegerToken t = true ->
                    (exists v, stoi (tok_text t) = Ok v)
                    \/ stoi (tok_text t) = Err (Exception "stoi: out of range"))
                /\ (isStringToken t = true ->
                    (exists u, unquote (tok_text t) = Ok u)
                    \/ unquote (tok_text t)
                       = panic "unquote" "invalid escape sequence" noSL))
             tokens
  end.
Proof.
  unfold lex, SourceStream_new.
  destruct (check_chars source _) as [[]|e] eqn:Hcheck;
    unfold mbind, result_bind; cbn [rbind].
  2:{ by eapply check_chars_error. }
  pose proof (lex_loop_spec (S (String.length source)) (mkSS source (mkSL 1 1)) []
                ltac:(cbn; lia) ltac:(constructor)) as Hloop.
  destruct (lex_loop _ _ _) as [[tokens|e]|]; try done.
  eapply Forall_impl; [exact Hloop|]. intros t (Hc & Hi & Hs).
  split; [done|]. split.
  - intros Ht. by apply stoi_integer_text, Hi.
  - intros Ht. by apply unquote_string_text, Hs.
Qed.

Section Lex_quote.

Implicit Types (s src text : string) (l : SourceLocation).

Lemma all_chars_app p (a b : string) :
  all_chars p (a ++ b) = all_chars p a && all_chars p b.
Proof.
  unfold all_chars. induction a as [|c a IH]; [done|].
  rewrite string_app_cons. cbn. by rewrite IH, andb_assoc.
Qed.

Lemma all_chars_escaped s :
  all_chars charset_contains s = true -> all_chars charset_contains (escaped s) = true.
Proof.
  unfold all_chars. induction s as [|c s IH]; [done|]. cbn.
  intros [Hc Hs]%andb_true_iff.
  destruct (Ascii.eqb c ch_backslash); [|destruct (Ascii.eqb c ch_dquote)]; cbn;
    rewrite ?Hc, IH by done; done.
Qed.

Lemma check_chars_all s : forall l,
  all_chars charset_contains s = true -> check_chars s l = Ok tt.
Proof.
  unfold all_chars. induction s as [|c s IH]; intros l; [done|]. cbn.
  intros [-> Hs]%andb_true_iff. by apply IH.
Qed.

(** The loop of a string literal over what [quote] has written. *)
Lemma string_loop_escaped s : forall l text escape,
  string_loop (escaped s ++ String ch_dquote EmptyString) l text escape
  = ((text ++ escaped s ++ String ch_dquote EmptyString)%string,
     mkSS EmptyString (advance l (escaped s ++ String ch_dquote EmptyString)),
     negb (last_is_backslash s escape)).
Proof.
  induction s as [|c s IH]; intros l text escape.
  - cbn [escaped last_is_backslash]. rewrite !string_app_nil_l.
    cbn [string_loop]. change (Ascii.eqb ch_dquote ch_dquote) with true.
    destruct escape; cbn [negb andb string_loop]; by unfold push_back.
  - cbn [escaped last_is_backslash].
    destruct (Ascii.eqb c ch_backslash) eqn:Hb.
    + rewrite !string_app_cons. cbn [string_loop].
      change (Ascii.eqb ch_backslash ch_dquote) with false.
      rewrite !andb_false_r. change (Ascii.eqb ch_backslash ch_backslash) with true.
      rewrite IH, !push_back_app. done.
    + destruct (Ascii.eqb c ch_dquote) eqn:Hq.
      * rewrite !string_app_cons. cbn [string_loop].
        change (Ascii.eqb ch_backslash ch_dquote) with false.
        rewrite !andb_false_r. change (Ascii.eqb ch_backslash ch_backslash) with true.
        cbn [negb andb].
        change (Ascii.eqb ch_dquote ch_backslash) with false.
        rewrite IH, !push_back_app. done.
      * rewrite !string_app_cons. cbn [string_loop].
        rewrite Hq, andb_false_r, Hb, IH, push_back_app. done.
Qed.

End Lex_quote.

(** X9: The lexer reads what [quote] writes as one string token, unless the
    String ends with a backslash: then it takes the closing quote for
    an escaped one and finds the literal incomplete. *)
Theorem lex_quote (s : string) :
  all_chars charset_contains s = true ->
  lex (quote s)
  = Done (if ends_with_backslash s
          then panic "lexer" "incomplete string literal" (mkSL 1 1)
          else Ok [mkToken (mkSL 1 1) (quote s)]).
Proof.
  intros Hs. unfold lex, SourceStream_new.
  rewrite check_chars_all.
  2:{ rewrite quote_shape. change (String ch_dquote ?x) with (EmptyString ++ String ch_dquote x)%string.
      rewrite string_app_nil_l.
      change (String ch_dquote (escaped s ++ String ch_dquote EmptyString))
        with (String ch_dquote EmptyString ++ (escaped s ++ String ch_dquote EmptyString))%string.
      rewrite !all_chars_app, all_chars_escaped by done. done. }
  unfold mbind, result_bind; cbn [rbind].
  rewrite quote_shape. cbn [lex_loop ss_source String.length].
  cbn [nextToken ss_source ss_sl pop_while].
  change (is_space ch_dquote) with false. cbv beta iota zeta.
  cbn [ss_source ss_sl].
  change (is_digit ch_dquote || Ascii.eqb ch_dquote "-" || Ascii.eqb ch_dquote "+")
    with false.
  change (Ascii.eqb ch_dquote ch_dquote) with true. cbv beta iota zeta.
  rewrite string_loop_escaped. cbv beta iota zeta. rewrite negb_involutive.
  unfold ends_with_backslash.
  destruct (last_is_backslash s false); [done|].
  rewrite string_length_app. cbn [String.length].
  replace (String.length (escaped s) + 1)%nat with (S (String.length (escaped s))) by lia.
  cbn [lex_loop ss_source String.length nextToken pop_while]. cbv beta iota zeta.
  cbn [ss_source app]. unfold push_back. by rewrite string_app_nil_l.
Qed.

(** ** The parser *)

Section Parser.

Context (Q : Token -> Prop).

Lemma built_from_list es :
  (fix all (es : list ExprNode) : Prop :=
     match es with
     | [] => True
     | x :: es' => built_from Q x /\ all es'
     end) es <-> Forall (built_from Q) es.
Proof.
  induction es as [|x es IH]; cbn; [by split; [constructor|]|].
  rewrite Forall_cons, IH. done.
Qed.

Lemma built_from_pairs (ves : list (VariableNode * ExprNode)) :
  (fix go (ves : list (VariableNode * ExprNode)) : Prop :=
     match ves with
     | [] => True
     | ve :: ves' => built_from Q (snd ve) /\ go ves'
     end) ves <-> Forall (fun ve => built_from Q (snd ve)) ves.
Proof.
  induction ves as [|x es IH]; cbn; [by split; [constructor|]|].
  rewrite Forall_cons, IH. done.
Qed.

Lemma built_Letrec m vel expr :
  built_from Q (LetrecNode m vel expr)
  <-> Forall (fun ve => built_from Q (snd ve)) vel /\ built_from Q expr.
Proof. cbn. by rewrite built_from_pairs. Qed.

Lemma built_Sequence m es :
  built_from Q (SequenceNode m es) <-> es <> [] /\ Forall (built_from Q) es.
Proof. cbn. by rewrite built_from_list. Qed.

Lemma built_IntrinsicCall m f es :
  built_from Q (IntrinsicCallNode m f es)
  <-> (exists t, Q t /\ isIntrinsicToken t = true /\ f = tok_text t)
      /\ Forall (built_from Q) es.
Proof. cbn. by rewrite built_from_list. Qed.

Lemma built_ExprCall m f es :
  built_from Q (ExprCallNode m f es)
  <-> built_from Q f /\ Forall (built_from Q) es.
Proof. cbn. by rewrite built_from_list. Qed.

Lemma parser_error_panic msg l :
  In msg parser_messages -> parser_error (Panic "parser" msg l).
Proof. intros Hin. by exists msg, l. Qed.

Lemma parses_bind {A B} (P : A -> Prop) (P' : B -> Prop) (s s' : bool)
    (p : parser A) (k : A -> parser B) tokens :
  parses Q P s tokens (p tokens) ->
  (forall a rest, P a -> Forall Q rest ->
     (if s then length rest < length tokens else length rest <= length tokens)%nat ->
     parses Q P' s' rest (k a rest)) ->
  parses Q P' (s || s') tokens ((p ≫= k) tokens).
Proof.
  intros Hp Hk. unfold mbind, parser_bind, parser_bind_def.
  destruct (p tokens) as [[[a rest]|e]|]; try done.
  destruct Hp as (Ha & Hrest & Hlen). specialize (Hk a rest Ha Hrest Hlen).
  destruct (k a rest) as [[[b rest']|e]|]; try done.
  destruct Hk as (Hb & Hrest' & Hlen'). split; [done|]. split; [done|].
  destruct s, s'; cbn; lia.
Qed.

Lemma parses_weaken {A} (P P' : A -> Prop) (s s' : bool) tokens o :
  parses Q P s tokens o -> (forall a, P a -> P' a) -> (s' = true -> s = true) ->
  parses Q P' s' tokens o.
Proof.
  intros Hp HP Hs. destruct o as [[[a rest]|e]|]; try done.
  destruct Hp as (Ha & Hrest & Hlen). split; [auto|]. split; [done|].
  destruct s'; [rewrite Hs in Hlen by done; done|]. destruct s; lia.
Qed.

Lemma parses_ret {A} (P : A -> Prop) (a : A) tokens :
  P a -> Forall Q tokens -> parses Q P false tokens ((mret a : parser A) tokens).
Proof. intros Ha Hq. by repeat split. Qed.

Lemma consume_spec (predicate : Token -> bool) tokens :
  Forall Q tokens ->
  parses Q (fun t => Q t /\ predicate t = true) true tokens (consume predicate tokens).
Proof.
  intros Hq. destruct tokens as [|t tokens]; cbn.
  - apply parser_error_panic. cbn. tauto.
  - apply Forall_cons in Hq as [Ht Hq]. destruct (predicate t) eqn:Hp; cbn.
    + repeat split; try done. lia.
    + apply parser_error_panic. cbn. tauto.
Qed.

Lemma parseVariable_spec tokens :
  Forall Q tokens -> parses Q (fun _ => True) true tokens (parseVariable tokens).
Proof.
  intros Hq. unfold parseVariable.
  eapply (parses_bind _ _ true false); [by apply consume_spec|].
  intros t rest _ Hrest _. by apply parses_ret.
Qed.

Lemma parseVariables_spec n : forall varList tokens,
  (length tokens <= n)%nat -> Forall Q tokens ->
  parses Q (fun _ => True) false tokens (parseVariables n varList tokens).
Proof.
  induction n as [|n IH]; intros varList tokens Hn Hq.
  - destruct tokens; [by repeat split|cbn in Hn; lia].
  - destruct tokens as [|t tokens]; [by repeat split|].
    cbn [parseVariables]. destruct (isVariableToken t); [|by repeat split].
    eapply (parses_weaken _ _ (true || false)); [|done|done].
    eapply parses_bind; [by apply parseVariable_spec|].
    intros v rest _ Hrest Hlen. apply IH; [cbn in *; lia|done].
Qed.

Section Callback.

Variable parseExpr : parser ExprNode.
Variable F : nat.
Hypothesis parseExpr_spec : forall tokens,
  (length tokens < F)%nat -> Forall Q tokens ->
  parses Q (built_from Q) true tokens (parseExpr tokens).

Lemma parseBindings_spec n : forall varExprList tokens,
  (length tokens <= n)%nat -> (length tokens < F)%nat -> Forall Q tokens ->
  Forall (fun ve => built_from Q (snd ve)) varExprList ->
  parses Q (Forall (fun ve => built_from Q (snd ve))) false tokens
         (parseBindings parseExpr n varExprList tokens).
Proof.
  induction n as [|n IH]; intros vel tokens Hn HF Hq Hvel.
  - destruct tokens; [by repeat split|cbn in Hn; lia].
  - destruct tokens as [|t tokens]; [by repeat split|].
    cbn [parseBindings]. destruct (isVariableToken t); [|by repeat split].
    eapply (parses_weaken _ _ (true || (true || false))); [|done|done].
    eapply parses_bind; [by apply parseVariable_spec|].
    intros v rest _ Hrest Hlen.
    eapply parses_bind; [apply parseExpr_spec; [lia|done]|].
    intros e rest' He Hrest' Hlen'. apply IH; [cbn in *; lia|lia|done|].
    apply Forall_app. split; [done|]. by constructor.
Qed.

Lemma parseExprs_spec n closing : forall exprList tokens,
  (length tokens <= n)%nat -> (length tokens < F)%nat -> Forall Q tokens ->
  Forall (built_from Q) exprList ->
  parses Q (Forall (built_from Q)) false tokens
         (parseExprs parseExpr n closing exprList tokens).
Proof.
  induction n as [|n IH]; intros es tokens Hn HF Hq Hes.
  - destruct tokens; [by repeat split|cbn in Hn; lia].
  - destruct tokens as [|t tokens]; [by repeat split|].
    cbn [parseExprs]. destruct (negb _); [|by repeat split].
    eapply (parses_weaken _ _ (true || false)); [|done|done].
    eapply parses_bind; [by apply parseExpr_spec|].
    intros e rest He Hrest Hlen. apply IH; [cbn in *; lia|lia|done|].
    apply Forall_app. split; [done|]. by constructor.
Qed.

Ltac step_consume_as t Ht :=
  eapply (parses_bind _ _ true _); [by apply consume_spec|];
  let rest := fresh "rest" in
  let Hrest := fresh "Hrest" in let Hlen := fresh "Hlen" in
  intros t rest Ht Hrest Hlen.

Ltac step_consume :=
  let t := fresh "t" in let Ht := fresh "Ht" in step_consume_as t Ht.

Ltac step_expr :=
  eapply (parses_bind _ _ true _); [apply parseExpr_spec; [lia|done]|];
  let e := fresh "e" in let rest := fresh "rest" in
  let He := fresh "He" in let Hrest := fresh "Hrest" in let Hlen := fresh "Hlen" in
  intros e rest He Hrest Hlen.

Lemma parseExpr_body_spec n tokens :
  n = F -> (length tokens <= F)%nat -> Forall Q tokens ->
  parses Q (built_from Q) true tokens (parseExpr_body parseExpr n tokens).
Proof.
  intros -> HF Hq. unfold parseExpr_body.
  destruct tokens as [|t0 rest0] eqn:Htokens.
  { apply parser_error_panic. cbn. tauto. }
  rewrite <- Htokens in *.
  assert (Hlen0 : (length rest0 < length tokens)%nat) by (subst tokens; cbn; lia).
  destruct (isIntegerToken t0) eqn:Hint.
  { unfold parseInteger.
    eapply (parses_weaken _ _ (true || false)); [|done|done].
    step_consume. apply parses_ret; [|done]. cbn. exists t. by destruct Ht. }
  destruct (isStringToken t0) eqn:Hstr.
  { unfold parseString.
    eapply (parses_weaken _ _ (true || false)); [|done|done].
    step_consume. apply parses_ret; [|done]. cbn. exists t. by destruct Ht. }
  destruct (String.eqb (tok_text t0) "lambda").
  { unfold parseLambda.
    eapply (parses_weaken _ _ (true || (true || (false || (true || (true || false))))));
      [|done|done].
    step_consume. step_consume.
    eapply parses_bind; [apply parseVariables_spec; [lia|done]|].
    intros vl rest2 _ Hrest2 Hlen2.
    step_consume. step_expr. by apply parses_ret. }
  destruct (String.eqb (tok_text t0) "letrec").
  { unfold parseLetrec.
    eapply (parses_weaken _ _ (true || (true || (false || (true || (true || false))))));
      [|done|done].
    step_consume. step_consume.
    eapply parses_bind; [apply parseBindings_spec; [lia|lia|done|constructor]|].
    intros vel rest2 Hvel Hrest2 Hlen2.
    step_consume. step_expr. apply parses_ret; [|done]. by apply built_Letrec. }
  destruct (String.eqb (tok_text t0) "if").
  { unfold parseIf.
    eapply (parses_weaken _ _ (true || (true || (true || (true || false)))));
      [|done|done].
    step_consume. step_expr. step_expr. step_expr. by apply parses_ret. }
  destruct (isVariableToken t0).
  { eapply (parses_weaken _ _ (true || false)); [|done|done].
    eapply parses_bind; [by apply parseVariable_spec|].
    intros v rest _ Hrest Hlen. by apply parses_ret. }
  destruct (String.eqb (tok_text t0) "{").
  { unfold parseSequence.
    eapply (parses_weaken _ _ (true || (false || (false || (true || false)))));
      [|done|done].
    step_consume.
    eapply parses_bind; [apply parseExprs_spec; [lia|lia|done|constructor]|].
    intros es rest2 Hes Hrest2 Hlen2.
    eapply (parses_bind (fun _ => es <> []) _ false _).
    { destruct es; cbn; [apply parser_error_panic; cbn; tauto|by repeat split]. }
    intros _ rest3 Hne Hrest3 Hlen3.
    step_consume. apply parses_ret; [|done]. by apply built_Sequence. }
  destruct (String.eqb (tok_text t0) "(").
  { destruct rest0 as [|t1 rest1] eqn:Hrest0.
    { apply parser_error_panic. cbn. tauto. }
    rewrite <- Hrest0 in *. clear Htokens.
    destruct (isIntrinsicToken t1).
    - unfold parseIntrinsicCall.
      eapply (parses_weaken _ _ (true || (true || (false || (true || false)))));
        [|done|done].
      step_consume. step_consume_as tname Hname.
      eapply parses_bind; [apply parseExprs_spec; [lia|lia|done|constructor]|].
      intros es restE Hes HrestE HlenE.
      step_consume. apply parses_ret; [|done]. apply built_IntrinsicCall.
      split; [|done]. exists tname. by destruct Hname.
    - unfold parseExprCall.
      eapply (parses_weaken _ _ (true || (true || (false || (true || false)))));
        [|done|done].
      step_consume. step_expr.
      eapply parses_bind; [apply parseExprs_spec; [lia|lia|done|constructor]|].
      intros es restE Hes HrestE HlenE.
      step_consume. apply parses_ret; [|done]. by apply built_ExprCall. }
  destruct (String.eqb (tok_text t0) "@").
  { unfold parseAt.
    eapply (parses_weaken _ _ (true || (true || (true || false)))); [|done|done].
    step_consume.
    eapply parses_bind; [by apply parseVariable_spec|].
    intros v restV _ HrestV HlenV.
    step_expr. by apply parses_ret. }
  apply parser_error_panic. cbn. tauto.
Qed.

End Callback.

Lemma parseExpr_spec fuel : forall tokens,
  (length tokens < fuel)%nat -> Forall Q tokens ->
  parses Q (built_from Q) true tokens (parseExpr fuel tokens).
Proof.
  induction fuel as [|fuel IH]; intros tokens Hfuel Hq; [lia|].
  cbn [parseExpr]. eapply parseExpr_body_spec; [exact IH|done|lia|done].
Qed.

End Parser.

(** X10: The parser returns on every list of tokens.  Its errors are the
    five of the parser; in the tree that it returns, each literal is
    the text of an integer or string token of the list, the name of
    each intrinsic is the text of an intrinsic token, and no Sequence
    is empty. *)
Theorem parse_returns_tree (tokens : list Token) :
  match parse tokens with
  | OutOfFuel => False
  | Done (Err e) => parser_error e
  | Done (Ok expr) => built_from (fun t => In t tokens) expr
  end.
Proof.
  unfold parse.
  pose proof (parseExpr_spec (fun t => In t tokens) (S (length tokens)) tokens
                ltac:(lia)) as Hp.
  destruct (parseExpr _ tokens) as [[[e rest]|err]|]; cbn [parses] in Hp.
  - destruct Hp as (He & _); [by apply Forall_forall; intros t ?%list_elem_of_In|].
    destruct rest; [done|]. apply parser_error_panic. cbn. tauto.
  - apply Hp. by apply Forall_forall; intros t ?%list_elem_of_In.
  - apply Hp. by apply Forall_forall; intros t ?%list_elem_of_In.
Qed.

(** ** The construction of a State from a text *)

Section Literals.

Lemma literals_computeFreeVars e : literals (computeFreeVars e) = literals e.
Proof.
  induction e as [m val loc|m val loc|v|m vl b IH|m vel b IHvel IHb
                 |m c b1 b2 IHc IH1 IH2|m es IH
                 |m f es IH|m f es IHf IH|m v b IH] using ExprNode_nested_ind;
    cbn [computeFreeVars literals]; try done.
  - f_equal; [|done]. induction IHvel as [|ve vel Hve _ IH]; [done|].
    cbn. by rewrite Hve, IH.
  - by rewrite IHc, IH1, IH2.
  - induction IH as [|x es Hx _ IH]; [done|]. cbn. by rewrite Hx, IH.
  - induction IH as [|x es Hx _ IH]; [done|]. cbn. by rewrite Hx, IH.
  - f_equal; [done|]. induction IH as [|x es Hx _ IH]; [done|]. cbn. by rewrite Hx, IH.
Qed.

Lemma literals_computeTail e : forall b, literals (computeTail e b) = literals e.
Proof.
  induction e as [m val loc|m val loc|v|m vl b IH|m vel b IHvel IHb
                 |m c b1 b2 IHc IH1 IH2|m es IH
                 |m f es IH|m f es IHf IH|m v b IH] using ExprNode_nested_ind;
    intros t; cbn [computeTail literals]; try done.
  - f_equal; [|done]. induction IHvel as [|ve vel Hve _ IH]; [done|].
    cbn. by rewrite Hve, IH.
  - by rewrite IHc, IH1, IH2.
  - induction IH as [|x es Hx _ IH]; [done|].
    destruct es as [|y es]; [cbn; by rewrite Hx|].
    cbn [flat_map] in *. by rewrite Hx, IH.
  - induction IH as [|x es Hx _ IH]; [done|]. cbn. by rewrite Hx, IH.
  - f_equal; [done|]. induction IH as [|x es Hx _ IH]; [done|]. cbn. by rewrite Hx, IH.
Qed.

Lemma zlen_app {A} (a b : list A) : zlen (a ++ b) = zlen a + zlen b.
Proof. unfold zlen. rewrite length_app. lia. Qed.

Lemma zlen_Forall2 {A B} (R : A -> B -> Prop) (a : list A) (b : list B) :
  Forall2 R a b -> zlen a = zlen b.
Proof. intros Hf. unfold zlen. by rewrite (Forall2_length _ _ _ Hf). Qed.

Lemma preallocated_bind {A B} litsA locsA litsB locsB dl dlocs ls1 ls2 heap
    (r : result (A * list Value)) (k : A * list Value -> result (B * list Value)) :
  preallocated litsA locsA [] [] ls1 heap r ->
  (forall a heap',
     litsA a = ls1 -> locsA a = seqZ (zlen heap) (zlen ls1) ->
     zlen heap' = zlen heap + zlen ls1 ->
     preallocated litsB locsB (dl ++ ls1) (dlocs ++ seqZ (zlen heap) (zlen ls1)) ls2 heap'
                  (k (a, heap'))) ->
  preallocated litsB locsB dl dlocs (ls1 ++ ls2) heap (r ≫= k).
Proof.
  intros Hr Hk. destruct r as [[a heap1]|err]; cbn.
  - destruct Hr as (Hl & Hloc & vs1 & Hvs1 & ->).
    assert (Hlen : zlen (heap ++ vs1) = zlen heap + zlen ls1).
    { rewrite zlen_app. by rewrite (zlen_Forall2 _ _ _ Hvs1). }
    specialize (Hk a (heap ++ vs1) Hl Hloc Hlen).
    destruct (k _) as [[b heap2]|err]; cbn in *.
    + destruct Hk as (Hl' & Hloc' & vs2 & Hvs2 & ->).
      split; [by rewrite Hl', app_assoc|]. split.
      * rewrite Hloc', Hlen, <- app_assoc. f_equal.
        rewrite zlen_app. symmetry. apply seqZ_app; unfold zlen; lia.
      * exists (vs1 ++ vs2). split; [by apply Forall2_app|by rewrite app_assoc].
    + destruct Hk as (l & Hl' & He). exists l. split; [|done].
      apply in_or_app. by right.
  - destruct Hr as (l & Hl & He). exists l. split; [|done]. apply in_or_app. by left.
Qed.

Lemma preallocated_ret {A} (lits : A -> _) locs dl dlocs heap (a : A) :
  lits a = dl -> locs a = dlocs ->
  preallocated lits locs dl dlocs [] heap (Ok (a, heap)).
Proof.
  intros Hl Hloc. split; [by rewrite app_nil_r|]. split; [by rewrite app_nil_r|].
  exists []. split; [constructor|by rewrite app_nil_r].
Qed.

(** A bind whose continuation only builds the result. *)
Lemma preallocated_last {A B} litsA locsA (litsB : B -> _) locsB ls heap
    (r : result (A * list Value)) (f : A -> B) :
  preallocated litsA locsA [] [] ls heap r ->
  (forall a, litsB (f a) = litsA a) -> (forall a, locsB (f a) = locsA a) ->
  preallocated litsB locsB [] [] ls heap (r ≫= fun '(a, heap) => Ok (f a, heap)).
Proof.
  intros Hr Hl Hloc. rewrite <- (app_nil_r ls).
  eapply preallocated_bind; [exact Hr|].
  intros a heap' Ha Hb _. apply preallocated_ret; cbn; [by rewrite Hl|by rewrite Hloc].
Qed.

Lemma preAllocate_list_literals es :
  Forall preAllocate_ok es ->
  forall heap,
    preallocated (flat_map literals) (flat_map literal_locs) [] []
      (flat_map literals es) heap
      ((fix go (es : list ExprNode) (heap : list Value)
          : result (list ExprNode * list Value) :=
          match es with
          | [] => Ok ([], heap)
          | x :: es' =>
              '(x', heap) ← preAllocate x heap;
              '(es'', heap) ← go es' heap;
              Ok (x' :: es'', heap)
          end) es heap).
Proof.
  induction 1 as [|x es Hx _ IH]; intros heap.
  - by apply preallocated_ret.
  - cbn [flat_map]. eapply preallocated_bind; [apply Hx|].
    intros x' heap1 Hl1 Hloc1 Hlen1. rewrite <- (app_nil_r (flat_map literals es)).
    eapply preallocated_bind; [apply IH|].
    intros es' heap2 Hl2 Hloc2 Hlen2. apply preallocated_ret; cbn.
    + by rewrite Hl1, Hl2.
    + by rewrite Hloc1, Hloc2, Hlen1.
Qed.

Lemma preAllocate_literals e : preAllocate_ok e.
Proof.
  induction e as [m val loc|m val loc|v|m vl b IH|m vel b IHvel IHb
                 |m c b1 b2 IHc IH1 IH2|m es IH
                 |m f es IH|m f es IHf IH|m v b IH] using ExprNode_nested_ind;
    intros heap; cbn [preAllocate literals].
  - destruct (stoi val) as [z|err] eqn:Hz; cbn.
    + split; [done|]. split; [done|].
      exists [Integer z]. split; [|done]. constructor; [|constructor].
      unfold literal_value. cbn. by rewrite Hz.
    + exists (true, val). split; [by left|]. unfold literal_value. cbn. by rewrite Hz.
  - destruct (unquote val) as [z|err] eqn:Hz; cbn.
    + split; [done|]. split; [done|].
      exists [StringV z]. split; [|done]. constructor; [|constructor].
      unfold literal_value. cbn. by rewrite Hz.
    + exists (false, val). split; [by left|]. unfold literal_value. cbn. by rewrite Hz.
  - by apply preallocated_ret.
  - by apply (preallocated_last literals literal_locs literals literal_locs _ _ _
                (fun b' => LambdaNode m vl b')).
  - eapply (preallocated_bind (flat_map (fun ve => literals (snd ve)))
              (flat_map (fun ve => literal_locs (snd ve)))).
    + clear IHb. revert heap.
      induction IHvel as [|ve vel Hve _ IH]; intros heap; [by apply preallocated_ret|].
      cbn [flat_map]. eapply preallocated_bind; [apply Hve|].
      intros x' heap1 Hl1 Hloc1 Hlen1. rewrite <- (app_nil_r (flat_map _ vel)).
      eapply preallocated_bind; [apply IH|].
      intros es' heap2 Hl2 Hloc2 Hlen2. apply preallocated_ret; cbn.
      * by rewrite Hl1, Hl2.
      * by rewrite Hloc1, Hloc2, Hlen1.
    + intros vel' heap1 Hl1 Hloc1 Hlen1. rewrite <- (app_nil_r (literals b)).
      eapply preallocated_bind; [apply IHb|].
      intros b' heap2 Hl2 Hloc2 Hlen2. apply preallocated_ret; cbn.
      * by rewrite Hl1, Hl2.
      * by rewrite Hloc1, Hloc2, Hlen1.
  - eapply preallocated_bind; [apply IHc|]. intros c' heap1 Hl1 Hloc1 Hlen1.
    eapply preallocated_bind; [apply IH1|]. intros b1' heap2 Hl2 Hloc2 Hlen2.
    rewrite <- (app_nil_r (literals b2)).
    eapply preallocated_bind; [apply IH2|]. intros b2' heap3 Hl3 Hloc3 Hlen3.
    apply preallocated_ret; cbn.
    + by rewrite Hl1, Hl2, Hl3, <- !app_assoc.
    + by rewrite Hloc1, Hloc2, Hloc3, Hlen1, Hlen2, <- !app_assoc.
  - apply (preallocated_last (flat_map literals) (flat_map literal_locs)
             literals literal_locs _ _ _ (fun es' => SequenceNode m es')); try done.
    by apply preAllocate_list_literals.
  - apply (preallocated_last (flat_map literals) (flat_map literal_locs)
             literals literal_locs _ _ _ (fun es' => IntrinsicCallNode m f es')); try done.
    by apply preAllocate_list_literals.
  - eapply preallocated_bind; [apply IHf|]. intros f' heap1 Hl1 Hloc1 Hlen1.
    rewrite <- (app_nil_r (flat_map literals es)).
    eapply preallocated_bind; [by apply preAllocate_list_literals|].
    intros es' heap2 Hl2 Hloc2 Hlen2. apply preallocated_ret; cbn.
    + by rewrite Hl1, Hl2.
    + by rewrite Hloc1, Hloc2, Hlen1.
  - by apply (preallocated_last literals literal_locs literals literal_locs _ _ _
                (fun b' => AtNode m v b')).
Qed.

End Literals.

Section Source.

Lemma built_from_literals Q e :
  built_from Q e -> Forall (literal_of Q) (literals e).
Proof.
  induction e as [m val loc|m val loc|v|m vl b IH|m vel b IHvel IHb
                 |m c b1 b2 IHc IH1 IH2|m es IH
                 |m f es IH|m f es IHf IH|m v b IH] using ExprNode_nested_ind;
    cbn [literals]; try done.
  - intros Hb. by repeat constructor.
  - intros Hb. by repeat constructor.
  - intros [Hvel Hb]%built_Letrec. apply Forall_app. split; [|auto].
    induction IHvel as [|ve vel Hve _ IH]; [constructor|].
    apply Forall_cons in Hvel as [Hx Hvel]. cbn. apply Forall_app. auto.
  - intros (Hc & H1 & H2). rewrite !Forall_app. auto.
  - intros [_ Hes]%built_Sequence.
    induction IH as [|x es Hx _ IH]; [constructor|].
    apply Forall_cons in Hes as [? Hes]. cbn. apply Forall_app. auto.
  - intros [_ Hes]%built_IntrinsicCall.
    induction IH as [|x es Hx _ IH]; [constructor|].
    apply Forall_cons in Hes as [? Hes]. cbn. apply Forall_app. auto.
  - intros [Hf Hes]%built_ExprCall. apply Forall_app. split; [auto|].
    induction IH as [|x es Hx _ IH]; [constructor|].
    apply Forall_cons in Hes as [? Hes]. cbn. apply Forall_app. auto.
Qed.

Lemma checkDuplicate_error e err : checkDuplicate e = Err err -> sema_error err.
Proof.
  intros He.
  destruct (checkDuplicate_checked e) as [[_ Hok]|[_ (msg & l & Hr & Hm)]].
  - congruence.
  - rewrite He in Hr. injection Hr as ->. by exists msg, l.
Qed.

Lemma literal_value_lexed l err :
  literal_of lexed l -> literal_value l = Err err ->
  err = Exception "stoi: out of range"
  \/ err = Panic "unquote" "invalid escape sequence" noSL.
Proof.
  intros (t & (_ & Hint & Hstr) & Hk & Hval). unfold literal_value.
  rewrite Hval. destruct (fst l).
  - destruct (stoi_integer_text _ (Hint Hk)) as [[v ->]| ->]; [done|].
    intros [= <-]. by left.
  - destruct (unquote_string_text _ (Hstr Hk)) as [[v ->]| ->]; [done|].
    intros [= <-]. by right.
Qed.

Lemma literal_value_is_literal l v : literal_value l = Ok v -> is_literal_value v.
Proof.
  unfold literal_value. destruct (fst l).
  - destruct (stoi _); [|done]. intros [= <-]. left. by eexists.
  - destruct (unquote _); [|done]. intros [= <-]. right. by eexists.
Qed.

Lemma lex_lexed source :
  match lex source with
  | OutOfFuel => False
  | Done (Err e) => lexer_error e
  | Done (Ok tokens) => Forall lexed tokens
  end.
Proof.
  unfold lex, SourceStream_new.
  destruct (check_chars source _) as [[]|e] eqn:Hcheck;
    unfold mbind, result_bind; cbn [rbind].
  2:{ by eapply check_chars_error. }
  apply lex_loop_spec; [cbn; lia|constructor].
Qed.

End Source.

Lemma located_values {A} (R : A -> Value -> Prop) ls vs : forall pre,
  Forall2 R ls vs ->
  Forall2 (fun loc l => exists v, R l v /\ vec_at (pre ++ vs) loc = Some v)
          (seqZ (zlen pre) (zlen ls)) ls.
Proof.
  intros pre Hf. revert pre. induction Hf as [|l v ls vs Hlv _ IH]; intros pre.
  - constructor.
  - replace (zlen (l :: ls)) with (Z.succ (zlen ls)) by (unfold zlen; cbn; lia).
    rewrite seqZ_cons by (unfold zlen; lia).
    replace (Z.pred (Z.succ (zlen ls))) with (zlen ls) by lia.
    constructor.
    + exists v. split; [done|]. apply vec_at_Some. split; [unfold zlen; lia|].
      unfold zlen. rewrite Nat2Z.id. by apply list_lookup_middle.
    + specialize (IH (pre ++ [v])). rewrite <- app_assoc in IH. cbn in IH.
      replace (zlen (pre ++ [v])) with (Z.succ (zlen pre)) in IH
        by (unfold zlen; rewrite length_app; cbn; lia).
      exact IH.
Qed.

(** X11: The construction of a State from a text returns.  It fails with an
    error of the lexer or of the parser, for a repeated parameter or
    binding name, for an integer literal out of range or for an
    invalid escape sequence in a string literal, and not otherwise.
    In the State that it builds, the heap is the list of the values of
    the literals of the parsed program in the order of the traversal,
    the i-th literal has the location i, [numLiterals] is the size of
    the heap, [resultLoc] is left as it was, and the stack is the main
    frame under the layer of the program. *)
Theorem State_of_source_returns (source : string) (uninit : Location) (mem : Memory) :
  match State_of_source source uninit mem with
  | OutOfFuel => False
  | Done (Err e) =>
      lexer_error e \/ parser_error e \/ sema_error e
      \/ e = Exception "stoi: out of range"
      \/ e = Panic "unquote" "invalid escape sequence" noSL
  | Done (Ok (mem', s)) =>
      (exists tokens e,
         lex source = Done (Ok tokens) /\ parse tokens = Done (Ok e)
         /\ literals (st_expr s) = literals e)
      /\ Forall2 (fun l v => literal_value l = Ok v) (literals (st_expr s)) (heap s)
      /\ literal_locs (st_expr s) = seqZ 0 (zlen (heap s))
      /\ numLiterals s = zlen (heap s)
      /\ zlen (literals (st_expr s)) = zlen (heap s)
      /\ Forall2 (fun loc l => exists v, literal_value l = Ok v
                                         /\ vec_at (heap s) loc = Some v)
                 (literal_locs (st_expr s)) (literals (st_expr s))
      /\ resultLoc s = uninit
      /\ exists first main,
           stack s = [first; main]
           /\ layer_expr first = Some (st_expr s) /\ layer_frame first = false
           /\ layer_expr main = None /\ layer_frame main = true
           /\ layer_env first = layer_env main
           /\ mem' !! layer_env main = Some []
  end.
Proof.
  unfold State_of_source. pose proof (lex_lexed source) as Hlex.
  destruct (lex source) as [[tokens|e]|] eqn:Hlexed; [|by left|done].
  pose proof (parseExpr_spec lexed (S (length tokens)) tokens ltac:(lia) Hlex) as Hp.
  assert (Hparse : forall e, parseExpr (S (length tokens)) tokens = Done (Ok (e, [])) ->
                             parse tokens = Done (Ok e)).
  { intros e0 Hpe. unfold parse. by rewrite Hpe. }
  unfold parse.
  destruct (parseExpr _ tokens) as [[[e rest]|err]|] eqn:Hpe; cbn [parses] in Hp;
    [|by right; left|done].
  destruct Hp as (He & _).
  destruct rest.
  2:{ right; left. apply parser_error_panic. cbn. tauto. }
  specialize (Hparse e eq_refl).
  apply built_from_literals in He.
  unfold State_new.
  destruct (checkDuplicate e) as [[]|err] eqn:Hdup; unfold mbind, result_bind; cbn [rbind].
  2:{ right; right; left. by eapply checkDuplicate_error. }
  pose proof (preAllocate_literals (computeTail (computeFreeVars e) false) []) as Hpre.
  rewrite literals_computeTail, literals_computeFreeVars in Hpre.
  destruct (preAllocate _ []) as [[e' heap']|err] eqn:Hpa; cbn [rbind preallocated] in *.
  - destruct Hpre as (Hl & Hloc & vs & Hvs & ->). cbn [app] in *.
    cbn [numLiterals heap resultLoc stack st_expr make_shared].
    split; [by exists tokens, e|]. rewrite Hl, Hloc.
    split; [done|].
    split; [by rewrite (zlen_Forall2 _ _ _ Hvs)|].
    split; [done|]. split; [by eapply zlen_Forall2|]. split.
    { apply (located_values _ _ _ []). exact Hvs. }
    split; [done|]. eexists _, _. split; [reflexivity|]. cbn.
    split; [done|]. split; [done|]. split; [done|]. split; [done|]. split; [done|].
    by apply list_lookup_middle.
  - destruct Hpre as (l & Hin & Hv). right; right; right.
    eapply literal_value_lexed; [|exact Hv].
    rewrite Forall_forall in He. by apply He, list_elem_of_In.
Qed.

(** ** The literals stay in place *)

Section Sweep_values.

Implicit Types (heap : list Value) (rel : gmap Z Z) (visited : gset Z).

(** The sweep moves no slot below the literals. *)
Lemma sweep_loop_values nl visited k : forall heap i j rel heap' i' rel',
  nl <= i ->
  (forall x y, rel !! x = Some y -> nl <= y) ->
  sweep_loop k visited heap i j rel = (heap', i', rel') ->
  forall x y, rel' !! x = Some y -> nl <= y.
Proof.
  induction k as [|k IH]; intros heap i j rel heap' i' rel' Hi Hrel Hs.
  - cbn in Hs. by injection Hs as <- <- <-.
  - cbn [sweep_loop] in Hs.
    match type of Hs with
    | context [decide ?P] => destruct (decide P) as [Hvis|Hvis]
    end.
    + destruct (i <? j).
      * destruct (vec_at heap j) as [v|].
        -- refine (IH _ _ _ _ _ _ _ _ _ Hs); [lia|].
           intros x y. destruct (decide (x = j)) as [->|Hne].
           ++ rewrite lookup_insert_eq. intros [= <-]. lia.
           ++ rewrite lookup_insert_ne by done. apply Hrel.
        -- refine (IH _ _ _ _ _ _ _ _ Hrel Hs). lia.
      * refine (IH _ _ _ _ _ _ _ _ Hrel Hs). lia.
    + by refine (IH _ _ _ _ _ _ _ _ Hrel Hs).
Qed.

End Sweep_values.

Section Literal_slots.

Context (H : Host).
Implicit Types (c : Config H).

Lemma gc_relocation_above c l :
  numLiterals (state c) <= l -> numLiterals (state c) <= reloc (gc_relocation c) l.
Proof.
  intros Hl. unfold gc_relocation.
  destruct (_mark H c) as [[visited|]|]; try by rewrite reloc_None.
  unfold _sweepAndCompact.
  destruct (sweep_loop _ _ _ _ _ _) as [[heap1 i] rel] eqn:Hsweep. cbn [fst snd].
  unfold reloc, Location in *. destruct (rel !! l) as [y|] eqn:Hy; [|lia].
  eapply sweep_loop_values; [| |exact Hsweep|exact Hy]; [lia|].
  intros x0 y0. by rewrite lookup_empty.
Qed.

Lemma after_numLiterals ev c c' :
  after ev c = Some c' -> numLiterals (state c') = numLiterals (state c).
Proof.
  destruct ev; cbn.
  - destruct (step H c) as [[b c1]|] eqn:Hs; [|done]. intros [= <-].
    by eapply step_numLiterals.
  - intros Hc. by destruct (after_Collect H c c' Hc) as (_ & _ & _ & _ & _ & ?).
Qed.

Lemma reloc_along_above evs : forall c l,
  numLiterals (state c) <= l -> numLiterals (state c) <= reloc_along c evs l.
Proof.
  induction evs as [|ev evs IH]; intros c l Hl; [done|].
  cbn [reloc_along]. destruct (after ev c) as [c'|] eqn:Hev; [|done].
  rewrite <- (after_numLiterals _ _ _ Hev). apply IH.
  rewrite (after_numLiterals _ _ _ Hev). destruct ev; [done|].
  by apply gc_relocation_above.
Qed.

(** A collection leaves the literals where they are. *)
Lemma gc_literals c removed c' L :
  0 <= numLiterals (state c) <= zlen (heap (state c)) ->
  _gc H c = Done (Ok (removed, c')) ->
  L < numLiterals (state c) ->
  vec_at (heap (state c')) L = reloc_value (gc_relocation c) <$> vec_at (heap (state c)) L.
Proof.
  intros Hnl Hgc HL. unfold gc_relocation. unfold _gc in Hgc.
  destruct (_mark H c) as [[visited|]|] eqn:Hm; try done.
  unfold _sweepAndCompact in *.
  destruct (sweep_loop _ _ _ _ _ _) as [[heap1 i] rel] eqn:Hsweep.
  cbn [fst snd]. unfold _relocate in Hgc. cbn [state memory world set_heap stack heap
    numLiterals resultLoc st_expr] in Hgc.
  destruct (reloc_frames _ _ _) as [mem'|]; [|done].
  cbn in Hgc. injection Hgc as <- <-. cbn [state heap].
  apply (sweep_loop_inv (heap (state c)) (numLiterals (state c)) visited) in Hsweep
    as (Hi & Hlen & _ & Hlit & _); [|lia|lia|apply sweep_inv_start].
  rewrite vec_at_map, vec_at_take by lia. by destruct (Hlit L HL) as [-> _].
Qed.

End Literal_slots.

Section Literal_runs.

Context (H : Host).
Hypothesis Hhost :
  forall s w v w', eval_source H s w = Ok (v, w') -> distinct_value v.
Implicit Types (c : Config H).

Lemma boot_literals (w : World H) e uninit (c0 : Config H) :
  boot H w e uninit = Ok c0 ->
  numLiterals (state c0) = zlen (heap (state c0))
  /\ Forall is_literal_value (heap (state c0)).
Proof.
  unfold boot, State_new. intros Hb. ok_inv Hb. destruct a as [mem s].
  injection Hb as <-. ok_inv E. destruct a0 as [e' heap']. cbn in E.
  injection E as <- <-. cbn. split; [done|].
  pose proof (preAllocate_literals (computeTail (computeFreeVars e) false) []) as Hpre.
  rewrite E1 in Hpre. destruct Hpre as (_ & _ & vs & Hvs & ->). cbn.
  clear E1. induction Hvs as [|l v ls vs Hlv _ IH]; [constructor|].
  constructor; [by eapply literal_value_is_literal|done].
Qed.

Lemma literal_slots (w : World H) e uninit (c0 : Config H) evs :
  boot H w e uninit = Ok c0 ->
  forall c, run_events c0 evs = Some c ->
  numLiterals (state c) = numLiterals (state c0)
  /\ forall L, L < numLiterals (state c0) ->
       vec_at (heap (state c)) L = vec_at (heap (state c0)) L.
Proof.
  intros Hb. destruct (boot_literals w e uninit c0 Hb) as [Hnl0 Hlit0].
  induction evs as [|ev evs IH] using rev_ind; intros c Hrun.
  - by injection Hrun as <-.
  - rewrite run_events_app in Hrun.
    destruct (run_events c0 evs) as [c1|] eqn:Hr1; [|done].
    cbn in Hrun. destruct (after ev c1) as [c2|] eqn:Hev; [|done].
    injection Hrun as ->. destruct (IH c1 eq_refl) as [Hnl Hslots].
    pose proof (run_literals H w e uninit c0 evs Hb c1 Hr1) as Hrange.
    split; [by rewrite (after_numLiterals H _ _ _ Hev)|].
    intros L HL. rewrite <- Hslots by done. destruct ev.
    + cbn in Hev. destruct (step H c1) as [[b c2]|] eqn:Hs; [|done].
      injection Hev as ->. destruct b; [|by apply step_halted in Hs as ->].
      destruct (reachable_inv H Hhost c0 w e uninit evs Hb c1 Hr1) as [gs Hinv].
      destruct (step_heap H c0 evs c1 gs c Hr1 Hinv Hs) as [[vs ->]|Hknot].
      * unfold vec_at. destruct (L <? 0) eqn:HL0; [done|].
        apply lookup_app_l. apply Z.ltb_ge in HL0. unfold zlen in *. lia.
      * destruct Hknot as (layer & below & m & vel & expr & ve & v & evs1 & evs2 & c3 & c3'
                           & l1 & below1 & _ & _ & Hve & _ & Hevs & Hr3 & _ & _ & _ & _
                           & Hs3 & Hheap3 & _ & Hrange' & ->).
        cbv zeta in Hrange'.
        assert (Hnl3 : numLiterals (state c3') = numLiterals (state c0)).
        { rewrite (step_numLiterals H _ _ _ Hs3).
          clear -Hr3. revert c3 Hr3.
          induction evs1 as [|ev1 evs1 IH1] using rev_ind; intros c3 Hr3.
          - by injection Hr3 as <-.
          - rewrite run_events_app in Hr3.
            destruct (run_events c0 evs1) as [c4|] eqn:Hr4; [|done].
            cbn in Hr3. destruct (after ev1 c4) as [c5|] eqn:Hev5; [|done].
            injection Hr3 as ->. rewrite (after_numLiterals H _ _ _ Hev5). by apply IH1. }
        pose proof (run_literals H w e uninit c0 evs1 Hb c3 Hr3) as Hrange3.
        apply vec_at_Some in Hve as [Hpc _].
        pose proof (reloc_along_above H evs2 c3'
                      (zlen (heap (state c3)) + (layer_pc layer - 2))) as Habove.
        rewrite Hnl3 in Habove.
        rewrite (step_numLiterals H _ _ _ Hs3) in Hnl3.
        apply vec_at_insert_ne; [lia|]. lia.
    + cbn in Hev. destruct (_gc H c1) as [[[removed c2]|]|] eqn:Hgc; try done.
      injection Hev as ->.
      rewrite (gc_literals H c1 removed c L) by (done || lia).
      rewrite Hslots by done.
      destruct (vec_at (heap (state c0)) L) as [v|] eqn:Hv; [|done]. cbn. f_equal.
      apply vec_at_In in Hv. rewrite Forall_forall in Hlit0.
      apply list_elem_of_In, Hlit0 in Hv. by destruct Hv as [[z ->]|[s ->]].
Qed.

End Literal_runs.

Lemma literal_heap_prefix (H : Host) (w : World H) (e : ExprNode)
    (uninit : Location) (c0 c : Config H) (evs : list event) :
  (forall s w v w', eval_source H s w = Ok (v, w') -> distinct_value v) ->
  boot H w e uninit = Ok c0 ->
  run_events c0 evs = Some c ->
  numLiterals (state c) = zlen (heap (state c0))
  /\ exists rest, heap (state c) = heap (state c0) ++ rest.
Proof.
  intros Hhost Hb Hrun.
  destruct (boot_literals H w e uninit c0 Hb) as [Hnl0 _].
  destruct (literal_slots H Hhost w e uninit c0 evs Hb c Hrun) as [Hnl Hslots].
  pose proof (run_literals H w e uninit c0 evs Hb c Hrun) as Hrange.
  split; [congruence|].
  exists (drop (length (heap (state c0))) (heap (state c))).
  rewrite <- (take_drop (length (heap (state c0))) (heap (state c))) at 1.
  f_equal. apply list_eq. intros i.
  destruct (decide (i < length (heap (state c0)))%nat) as [Hi|Hi].
  - rewrite lookup_take_lt by done.
    specialize (Hslots (Z.of_nat i)). unfold vec_at in Hslots.
    destruct (Z.of_nat i <? 0) eqn:Hneg; [apply Z.ltb_lt in Hneg; lia|].
    rewrite Nat2Z.id in Hslots. apply Hslots. unfold zlen in *. lia.
  - rewrite lookup_take_ge by lia. symmetry. apply lookup_ge_None. lia.
Qed.

(** X12: In a run of a program the literals stay in place: the heap of
    every state starts with the heap that the constructor has built,
    and [numLiterals] is its size. *)
Theorem literals_stay_in_place (H : Host) (w : World H) (e : ExprNode)
    (uninit : Location) (c0 c : Config H) (evs : list event) :
  (forall s w v w', eval_source H s w = Ok (v, w') -> distinct_value v) ->
  boot H w e uninit = Ok c0 ->
  run_events c0 evs = Some c ->
  numLiterals (state c) = zlen (heap (state c0))
  /\ exists rest, heap (state c) = heap (state c0) ++ rest.
Proof. apply literal_heap_prefix. Qed.

(** ** What [execute] does *)

Section Execute.

Context (H : Host).
Implicit Types (c : Config H).

(** [execute] makes steps and collections, and stops at a state where
    [step] returns [false]. *)
Lemma execute_loop_events fuel : forall threshold c0 c,
  execute_loop H fuel threshold c0 = Done (Ok c) ->
  exists evs, run_events c0 evs = Some c /\ step H c = Ok (false, c).
Proof.
  induction fuel as [|fuel IH]; intros threshold c0 c He; [done|].
  cbn [execute_loop] in He.
  destruct (step H c0) as [[[] c1]|] eqn:Hs; [| |done].
  - destruct (threshold <? zlen (heap (state c1))).
    + destruct (_gc H c1) as [[[removed c2]|]|] eqn:Hgc; try done.
      destruct (IH _ _ _ He) as (evs & Hrun & Hhalt).
      exists (Step :: Collect :: evs). cbn. by rewrite Hs, Hgc.
    + destruct (IH _ _ _ He) as (evs & Hrun & Hhalt).
      exists (Step :: evs). cbn. by rewrite Hs.
  - injection He as <-. pose proof (step_halted H _ _ Hs) as ->. by exists [].
Qed.

End Execute.

(** X13: When [execute] returns, the main frame is all that is left of the
    stack, and the heap still starts with the literals of the
    program. *)
Theorem execute_returns_at_main_frame (H : Host) (w : World H) (e : ExprNode)
    (uninit : Location) (c0 c : Config H) (fuel : nat) :
  (forall s w v w', eval_source H s w = Ok (v, w') -> distinct_value v) ->
  boot H w e uninit = Ok c0 ->
  execute H fuel c0 = Done (Ok c) ->
  (exists main,
      stack (state c) = [main] /\ layer_expr main = None /\ layer_frame main = true)
  /\ numLiterals (state c) = zlen (heap (state c0))
  /\ exists rest, heap (state c) = heap (state c0) ++ rest.
Proof.
  intros Hhost Hb He. unfold execute in He.
  apply execute_loop_events in He as (evs & Hrun & Hhalt). split.
  - destruct (main_frame_at_bottom H w e uninit c0 c evs Hb Hrun)
      as (upper & main & Hstk & Hme & Hmf & _ & Hiff).
    exists main. destruct Hiff as [_ Hempty].
    rewrite Hempty in Hstk by (by eexists). done.
  - by eapply literal_heap_prefix.
Qed.

(** ** Every location is a slot of the heap *)

Section Slots.

Context (H : Host).
Implicit Types (c : Config H) (layer : Layer) (below : list Layer) (env : Env).

Ltac crunch_call Hs :=
  repeat first
    [ progress ok_inv Hs
    | match type of Hs with
      | Ok _ = Ok _ => injection Hs as <-
      | Err _ = Ok _ => discriminate Hs
      | panic _ _ _ = Ok _ => discriminate Hs
      | (let '(_, _) := ?p in _) = _ => destruct p eqn:?
      | (if ?b then _ else _) = _ => destruct b eqn:?
      | match ?x with _ => _ end = _ => destruct x eqn:?
      end ].

Lemma _callIntrinsic_first_order heap sl name args w v w' :
  (forall s w v w', eval_source H s w = Ok (v, w') -> ~ is_closure v) ->
  _callIntrinsic H heap sl name args w = Ok (v, w') -> ~ is_closure v.
Proof.
  intros Hhost Hc. unfold _callIntrinsic in Hc.
  repeat match type of Hc with
         | (if ?b then _ else _) = _ => destruct b
         end;
    unfold int_binop, str_binop, bool_to_Integer in Hc;
    try done;
    try (ok_inv Hc; by eapply Hhost);
    crunch_call Hc; try (by intros []).
  all: repeat match goal with
              | E : (if ?b then _ else _) = Ok _ |- _ => destruct b; [done|]
              | E : rbind ?r _ = Ok _ |- _ =>
                  destruct r; cbn [rbind] in E; [|done]
              end.
  all: match goal with E : Ok _ = Ok _ |- _ => injection E as <-; by intros [] end.
Qed.

Lemma loc_ok_mono n n' l : n <= n' -> loc_ok n l -> loc_ok n' l.
Proof. unfold loc_ok. lia. Qed.

Lemma env_locs_ok_mono n n' env : n <= n' -> env_locs_ok n env -> env_locs_ok n' env.
Proof.
  intros Hn He. eapply Forall_impl; [exact He|]. intros p. by apply loc_ok_mono.
Qed.

Lemma value_locs_ok_mono n n' nl v :
  n <= n' -> value_locs_ok n nl v -> value_locs_ok n' nl v.
Proof.
  intros Hn. destruct v as [| | |env fn]; try done.
  intros [He Hb]. split; [by eapply env_locs_ok_mono|done].
Qed.

Lemma layer_locs_ok_mono mem n n' nl layer :
  n <= n' -> layer_locs_ok mem n nl layer -> layer_locs_ok mem n' nl layer.
Proof.
  intros Hn (Hl & (env & Henv & He) & Hx). split; [|split; [|done]].
  - eapply Forall_impl; [exact Hl|]. intros l. by apply loc_ok_mono.
  - exists env. split; [done|]. by eapply env_locs_ok_mono.
Qed.

Lemma lookup_env_In x env l : lookup_env x env = Some l -> exists p, In p env /\ snd p = l.
Proof.
  unfold lookup_env. destruct (find _ _) as [p|] eqn:Hf; [|done].
  intros [= <-]. apply find_some in Hf as [Hin _]. exists p. split; [|done].
  by apply in_rev.
Qed.

Lemma lookup_env_ok n x env l :
  env_locs_ok n env -> lookup_env x env = Some l -> loc_ok n l.
Proof.
  intros He (p & Hin & <-)%lookup_env_In.
  unfold env_locs_ok in He. rewrite Forall_forall in He. by apply He, list_elem_of_In.
Qed.

Lemma capture_ok n env fv : env_locs_ok n env -> env_locs_ok n (capture env fv).
Proof.
  intros He. rewrite capture_pick. unfold env_locs_ok in *.
  apply Forall_forall. intros p Hp. rewrite Forall_forall in He. apply He.
  apply list_elem_of_In, in_rev in Hp. apply list_elem_of_In.
  rewrite <- (rev_involutive env). apply in_rev. rewrite rev_involutive.
  apply list_elem_of_In. eapply elem_of_sublist; [|apply pick_sublist].
  by apply list_elem_of_In.
Qed.

Lemma bind_params_locs_ok n varList : forall local i newEnv env',
  Forall (loc_ok n) local -> env_locs_ok n newEnv ->
  bind_params varList local i newEnv = Ok env' -> env_locs_ok n env'.
Proof.
  induction varList as [|v varList IH]; intros local i newEnv env' Hl He Hb; cbn in Hb.
  - by injection Hb as <-.
  - destruct (vec_at local (i + 1)) as [l|] eqn:Hv; [|done].
    eapply IH; [exact Hl| |exact Hb].
    apply Forall_app. split; [done|]. constructor; [|constructor]. cbn.
    apply vec_at_In in Hv. rewrite Forall_forall in Hl. by apply Hl, list_elem_of_In.
Qed.

Lemma letrec_alloc_ok (heap : list Value) vel env :
  env_locs_ok (zlen heap) env ->
  env_locs_ok (zlen heap + zlen vel)
    (env ++ combine (bound_names vel) (fresh_locs (zlen heap) (length vel))).
Proof.
  intros He. apply Forall_app. split.
  - eapply env_locs_ok_mono; [|exact He]. unfold zlen. lia.
  - apply Forall_forall. intros p Hp%list_elem_of_In.
    assert (Hin : In (snd p) (fresh_locs (zlen heap) (length vel))).
    { destruct p as [x l]. by apply in_combine_r in Hp. }
    unfold fresh_locs in Hin. apply in_map_iff in Hin as (k & <- & Hk%in_seq).
    unfold loc_ok, zlen in *. lia.
Qed.

Lemma literal_locs_children e x l :
  In x (children e) -> In l (literal_locs x) -> In l (literal_locs e).
Proof.
  destruct e as [| | |m vl b|m vel b|m c b1 b2|m es|m f args|m f args|m v b];
    cbn [children literal_locs]; try done.
  - by intros [<-|[]].
  - intros [Hin|[<-|[]]]%in_app_or Hl; apply in_or_app; [left|by right].
    apply in_map_iff in Hin as (ve & <- & Hin). apply in_flat_map. by exists ve.
  - intros [<-|[<-|[<-|[]]]] Hl; rewrite !in_app_iff; tauto.
  - intros Hin Hl. apply in_flat_map. by exists x.
  - intros Hin Hl. apply in_flat_map. by exists x.
  - intros [<-|Hin] Hl; apply in_or_app; [by left|right].
    apply in_flat_map. by exists x.
  - by intros [<-|[]].
Qed.

Lemma layer_ok_update mem n nl l l' :
  layer_env l' = layer_env l -> layer_expr l' = layer_expr l ->
  Forall (loc_ok n) (layer_local l') -> layer_shape l' ->
  layer_locs_ok mem n nl l -> layer_locs_ok mem n nl l'.
Proof.
  unfold layer_locs_ok. intros -> -> Hl Hs (_ & He & Hx & _).
  split; [exact Hl|]. split; [exact He|]. split; [exact Hx|exact Hs].
Qed.

(** The layer goes on to its next step. *)
Lemma layer_ok_next mem n nl l :
  (forall m f args, layer_expr l <> Some (ExprCallNode m f args)) ->
  layer_locs_ok mem n nl l -> layer_locs_ok mem n nl (set_pc l (layer_pc l + 1)).
Proof.
  intros Hne Hl. pose proof Hl as (Hloc & _ & _ & Hpc & _).
  apply (layer_ok_update _ _ _ l); [done|done|done| |done].
  split; [cbn; lia|]. cbn. destruct (layer_expr l) as [[]|]; try done.
  by edestruct Hne.
Qed.

(** The layer records the location of a result. *)
Lemma layer_ok_record mem n nl l x :
  loc_ok n x -> layer_locs_ok mem n nl l -> layer_locs_ok mem n nl (push_local l x).
Proof.
  intros Hx Hl. pose proof Hl as (Hloc & _ & _ & Hpc & Hcall).
  apply (layer_ok_update _ _ _ l); [done|done| | |done].
  - cbn. apply Forall_app. split; [done|]. by constructor.
  - split; [done|]. cbn. destruct (layer_expr l) as [[]|]; try done.
    intros _. by destruct (layer_local l).
Qed.

Lemma layer_ok_child mem n nl l e x :
  layer_locs_ok mem n nl l -> layer_expr l = Some e -> In x (children e) ->
  layer_locs_ok mem n nl (new_layer (layer_env l) (Some x) false).
Proof.
  intros (Hl & He & Hx & _) Hexpr Hin. split; [constructor|]. split; [done|]. split.
  - cbn. intros ? [= <-]. specialize (Hx e Hexpr).
    apply Forall_forall. intros loc Hloc%list_elem_of_In.
    rewrite Forall_forall in Hx. apply Hx, list_elem_of_In.
    by eapply literal_locs_children.
  - split; [done|]. cbn. destruct x; try done.
Qed.

(** The layers when an environment is added to the memory. *)
Lemma layers_ok_mem_app (mem : Memory) n nl stk env :
  Forall (layer_locs_ok mem n nl) stk -> Forall (layer_locs_ok (mem ++ [env]) n nl) stk.
Proof.
  intros Hs. eapply Forall_impl; [exact Hs|].
  intros l (Hl & (env' & Henv & He) & Hx). split; [done|]. split; [|done].
  exists env'. split; [|done]. unfold Memory, EnvRef, Env in *.
  by apply lookup_app_l_Some.
Qed.

(** The layers when an environment of the memory is replaced. *)
Lemma layers_ok_mem_insert (mem : Memory) n nl stk (r : EnvRef) env env' :
  mem !! r = Some env -> env_locs_ok n env' ->
  Forall (layer_locs_ok mem n nl) stk ->
  Forall (layer_locs_ok (<[r := env']> mem) n nl) stk.
Proof.
  intros Hr Henv' Hs. eapply Forall_impl; [exact Hs|].
  intros l (Hl & (env1 & Henv & He) & Hx). split; [done|]. split; [|done].
  unfold Memory, EnvRef, Env in *.
  destruct (decide (layer_env l = r)) as [->|Hne].
  - exists env'. split; [|done]. apply list_lookup_insert_eq.
    by eapply lookup_lt_Some.
  - exists env1. split; [|done]. by rewrite list_lookup_insert_ne.
Qed.

Lemma layers_ok_mono mem n n' nl stk :
  n <= n' -> Forall (layer_locs_ok mem n nl) stk -> Forall (layer_locs_ok mem n' nl) stk.
Proof.
  intros Hn Hs. eapply Forall_impl; [exact Hs|]. intros l. by apply layer_locs_ok_mono.
Qed.

Lemma values_ok_mono n n' nl (heap : list Value) :
  n <= n' -> Forall (value_locs_ok n nl) heap -> Forall (value_locs_ok n' nl) heap.
Proof.
  intros Hn Hs. eapply Forall_impl; [exact Hs|]. intros l. by apply value_locs_ok_mono.
Qed.

Lemma heap_at_ok n nl (heap : list Value) l v :
  Forall (value_locs_ok n nl) heap -> heap_at heap l = Ok v -> value_locs_ok n nl v.
Proof.
  intros Hh Hv%heap_at_Some%vec_at_In. rewrite Forall_forall in Hh.
  by apply Hh, list_elem_of_In.
Qed.

End Slots.

Section Slots_step.

Context (H : Host).
Hypothesis Hhost :
  forall s w v w', eval_source H s w = Ok (v, w') -> ~ is_closure v.
Implicit Types (c : Config H) (layer : Layer) (below : list Layer) (env : Env).

Lemma zlen_snoc {A} (v : list A) (x : A) : zlen (v ++ [x]) = zlen v + 1.
Proof. unfold zlen. rewrite length_app. cbn. lia. Qed.

Lemma zlen_nonneg {A} (v : list A) : 0 <= zlen v.
Proof. unfold zlen. lia. Qed.

(** A step that appends one value and returns its location. *)
Lemma locs_ok_new c below v (w : World H) :
  locs_ok c ->
  Forall (layer_locs_ok (memory c) (zlen (heap (state c))) (numLiterals (state c))) below ->
  value_locs_ok (zlen (heap (state c))) (numLiterals (state c)) v ->
  locs_ok (mkConfig w (memory c)
             (set_stack (set_resultLoc (set_heap (state c) (heap (state c) ++ [v]))
                                       (zlen (heap (state c)))) below)).
Proof.
  intros (Hnl & Hstk & Hheap & Hres) Hbelow Hv. unfold locs_ok. cbn.
  rewrite zlen_snoc. split; [lia|]. split; [|split].
  - eapply layers_ok_mono; [|exact Hbelow]. lia.
  - apply Forall_app. split; [eapply values_ok_mono; [|exact Hheap]; lia|].
    constructor; [|constructor]. eapply value_locs_ok_mono; [|exact Hv]. lia.
  - pose proof (zlen_nonneg (heap (state c))). unfold loc_ok. lia.
Qed.

(** A step that changes the stack only. *)
Lemma locs_ok_stack c stk :
  locs_ok c ->
  Forall (layer_locs_ok (memory c) (zlen (heap (state c))) (numLiterals (state c))) stk ->
  locs_ok (mkConfig (world c) (memory c) (set_stack (state c) stk)).
Proof.
  intros (Hnl & Hstk & Hheap & Hres) Hs.
  split; [exact Hnl|]. split; [exact Hs|]. split; [exact Hheap|exact Hres].
Qed.

(** A step that returns a location that it has found. *)
Lemma locs_ok_publish c below loc :
  locs_ok c ->
  Forall (layer_locs_ok (memory c) (zlen (heap (state c))) (numLiterals (state c))) below ->
  loc_ok (zlen (heap (state c))) loc ->
  locs_ok (publish H c below (state c) loc).
Proof.
  intros (Hnl & Hstk & Hheap & Hres) Hs Hl.
  split; [exact Hnl|]. split; [exact Hs|]. split; [exact Hheap|exact Hl].
Qed.

Lemma locs_ok_push c layer layer' below e x :
  locs_ok c ->
  stack (state c) = layer :: below ->
  layer_expr layer = Some e -> In x (children e) ->
  layer_locs_ok (memory c) (zlen (heap (state c))) (numLiterals (state c)) layer' ->
  layer_expr layer' = Some e ->
  locs_ok (push_child H c layer' below x).
Proof.
  intros Hok Hstk He Hx Hl' He'. apply locs_ok_stack; [done|].
  destruct Hok as (_ & Hs & _). rewrite Hstk in Hs. apply Forall_cons in Hs as [_ Hb].
  constructor; [by eapply layer_ok_child|]. by constructor.
Qed.

Lemma locs_ok_step c b c' :
  locs_ok c -> step H c = Ok (b, c') -> locs_ok c'.
Proof.
  intros Hok Hs. destruct b; [|by apply step_halted in Hs as ->].
  unfold step in Hs.
  destruct (stack (state c)) as [|layer below] eqn:Hstk; [done|].
  destruct (layer_expr layer) as [e|] eqn:He; [|done].
  ok_inv Hs. injection Hs as <-. rename E into Hs.
  pose proof Hok as (Hnl & Hlayers & Hheap & Hres).
  rewrite Hstk in Hlayers. apply Forall_cons in Hlayers as [Hlayer Hbelow].
  pose proof Hlayer as (Hlocal & (env & Henv & Henvok) & Hexpr & Hpc & Hcall).
  rewrite He in Hcall.
  specialize (Hexpr e He).
  assert (Hderef : deref (memory c) (layer_env layer) = Ok env).
  { unfold deref. by rewrite Henv. }
  destruct e as [m val loc|m val loc|v|m varList expr|m vel expr|m cond b1 b2
                |m es|m name args|m callee args|m var expr].
  - (* Integer *)
    injection Hs as <-. apply locs_ok_publish; [done|done|].
    apply Forall_cons in Hexpr as [Hloc _]. eapply loc_ok_mono; [|exact Hloc]. lia.
  - injection Hs as <-. apply locs_ok_publish; [done|done|].
    apply Forall_cons in Hexpr as [Hloc _]. eapply loc_ok_mono; [|exact Hloc]. lia.
  - (* Variable *)
    unfold step_Variable in Hs. rewrite Hderef in Hs. cbn [mbind result_bind rbind] in Hs.
    unfold mbind, result_bind in Hs. cbn [rbind] in Hs.
    destruct (lookup_env _ _) as [loc|] eqn:Hl; [|discriminate Hs]. injection Hs as <-.
    apply locs_ok_publish; [done|done|]. by eapply lookup_env_ok.
  - (* Lambda *)
    unfold step_Lambda in Hs. rewrite Hderef in Hs.
    unfold mbind, result_bind in Hs. cbn [rbind] in Hs. cbn in Hs. injection Hs as <-.
    apply (locs_ok_new c below _ (world c)); [done|done|].
    split; [by apply capture_ok|done].
  - (* Letrec *)
    unfold step_Letrec in Hs. ok_inv Hs.
    lazymatch goal with
    | Hk : (if (1 <? _) && _ then _ else _) = Ok ?h |- _ =>
        rename Hk into Hknot; rename h into heap1
    end.
    assert (Hheap1 : zlen heap1 = zlen (heap (state c))
                     /\ Forall (value_locs_ok (zlen (heap (state c)))
                                              (numLiterals (state c))) heap1).
    { destruct (_ && _); [|by injection Hknot as <-].
      destruct (vec_at vel _) as [ve|]; [|done]. ok_inv Hknot.
      destruct (lookup_env _ _) as [L|]; [|done]. ok_inv Hknot.
      unfold vec_set in Hknot. destruct (_ && _); [|done]. injection Hknot as <-.
      split; [by rewrite zlen_insert|]. apply Forall_insert; [done|].
      by eapply heap_at_ok. }
    destruct Hheap1 as [Hlen1 Hheap1].
    set (c1 := mkConfig (world c) (memory c) (set_heap (state c) heap1)) in *.
    assert (Hok1 : locs_ok c1).
    { unfold locs_ok, c1. cbn. rewrite Hlen1, Hstk.
      split; [done|]. split; [by constructor|]. done. }
    destruct (layer_pc layer =? 0).
    { (* create all new locations *)
      rewrite Hderef in Hs. unfold mbind, result_bind in Hs. cbn [rbind] in Hs.
      rewrite letrec_alloc_spec in Hs. injection Hs as <-.
      unfold locs_ok. cbn. rewrite zlen_app, Hlen1.
      assert (Hrep : zlen (replicate (length vel) Void) = zlen vel).
      { unfold zlen. by rewrite length_replicate. }
      rewrite Hrep. pose proof (zlen_nonneg vel).
      split; [lia|]. split; [|split].
      - apply (layers_ok_mem_insert _ _ _ _ _ env); [done| |].
        + rewrite <- Hlen1. apply letrec_alloc_ok. by rewrite Hlen1.
        + eapply layers_ok_mono; [|constructor; [by apply layer_ok_next; [by rewrite ?He, ?He1|]|done]]. lia.
      - apply Forall_app. split; [eapply values_ok_mono; [|exact Hheap1]; lia|].
        by apply Forall_replicate.
      - eapply loc_ok_mono; [|exact Hres]. lia. }
    destruct (layer_pc layer <=? zlen vel).
    { destruct (vec_at vel (layer_pc layer + 1 - 2)) as [ve|] eqn:Hve; [|done].
      injection Hs as <-.
      eapply (locs_ok_push c1); [done|exact Hstk|exact He| | |done].
      - cbn. apply in_or_app. left. apply in_map. by eapply vec_at_In.
      - apply layer_ok_next; [by rewrite He|]. unfold c1. cbn. by rewrite Hlen1. }
    destruct (layer_pc layer =? zlen vel + 1).
    { injection Hs as <-.
      eapply (locs_ok_push c1); [done|exact Hstk|exact He| | |done].
      - cbn. apply in_or_app. right. by left.
      - apply layer_ok_next; [by rewrite He|]. unfold c1. cbn. by rewrite Hlen1. }
    rewrite Hderef in Hs. unfold mbind, result_bind in Hs. cbn [rbind] in Hs.
    unfold pop_n in Hs. destruct (_ <=? _)%nat; [|done]. cbn [rbind] in Hs.
    injection Hs as <-.
    unfold locs_ok. cbn. rewrite Hlen1. split; [done|]. split; [|done].
    apply (layers_ok_mem_insert _ _ _ _ _ env); [done| |done].
    by apply Forall_take.
  - (* If *)
    unfold step_If in Hs.
    destruct (layer_pc layer =? 0).
    { injection Hs as <-.
      eapply locs_ok_push; [done|done|exact He|by left|by apply layer_ok_next; [by rewrite ?He, ?He1|]|done]. }
    destruct (layer_pc layer =? 1).
    { ok_inv Hs. destruct a0 as [|z| |]; try done.
      destruct (truthy z); injection Hs as <-.
      - eapply locs_ok_push;
          [done|done|exact He|by right; left|by apply layer_ok_next; [by rewrite ?He, ?He1|]|done].
      - eapply locs_ok_push;
          [done|done|exact He|by right; right; left|by apply layer_ok_next; [by rewrite ?He, ?He1|]|done]. }
    injection Hs as <-. by apply locs_ok_stack.
  - (* Sequence *)
    unfold step_Sequence in Hs.
    destruct (layer_pc layer <? zlen es).
    { destruct (vec_at es _) as [x|] eqn:Hx; [|done]. injection Hs as <-.
      eapply locs_ok_push;
        [done|done|exact He|by eapply vec_at_In|by apply layer_ok_next; [by rewrite ?He, ?He1|]|done]. }
    injection Hs as <-. by apply locs_ok_stack.
  - (* IntrinsicCall *)
    unfold step_IntrinsicCall in Hs.
    set (layer1 := if (0 <? _) && _ then _ else _) in Hs.
    assert (Hlayer1 : layer_locs_ok (memory c) (zlen (heap (state c)))
                        (numLiterals (state c)) layer1).
    { subst layer1. destruct (_ && _); [by apply layer_ok_record|done]. }
    assert (He1 : layer_expr layer1 = Some (IntrinsicCallNode m name args)).
    { subst layer1. by destruct (_ && _). }
    assert (Hpc1 : layer_pc layer1 = layer_pc layer).
    { subst layer1. by destruct (_ && _). }
    destruct (layer_pc layer <? zlen args).
    { destruct (vec_at args _) as [x|] eqn:Hx; [|done]. injection Hs as <-.
      eapply locs_ok_push;
        [done|done|exact He|by eapply vec_at_In|rewrite <- Hpc1; apply layer_ok_next; [by rewrite He1|done]|done]. }
    ok_inv Hs. destruct a0 as [value w']. cbn in Hs. injection Hs as <-.
    apply (locs_ok_new c below value w'); [done|done|].
    apply _callIntrinsic_first_order in E; [|done]. by destruct value.
  - (* ExprCall *)
    unfold step_ExprCall in Hs.
    set (layer1 := if (2 <? _) && _ then _ else _) in Hs.
    assert (Hlayer1 : layer_locs_ok (memory c) (zlen (heap (state c)))
                        (numLiterals (state c)) layer1).
    { subst layer1. destruct (_ && _); [by apply layer_ok_record|done]. }
    assert (He1 : layer_expr layer1 = Some (ExprCallNode m callee args)).
    { subst layer1. by destruct (_ && _). }
    assert (Hpc1 : layer_pc layer1 = layer_pc layer).
    { subst layer1. by destruct (_ && _). }
    assert (Henv1 : layer_env layer1 = layer_env layer).
    { subst layer1. by destruct (_ && _). }
    assert (Hnext : forall pc, 0 <= pc -> (2 <= pc -> 2 <= layer_pc layer) ->
              layer_locs_ok (memory c) (zlen (heap (state c))) (numLiterals (state c))
                            (set_pc layer1 pc)).
    { intros pc Hpc0 Hpc2. pose proof Hlayer1 as (Hl1 & _ & _ & _ & Hc1).
      apply (layer_ok_update _ _ _ layer1); [done|done|done| |exact Hlayer1].
      split; [done|]. cbn. rewrite He1 in *. rewrite Hpc1 in Hc1. auto. }
    destruct (Z.eqb_spec (layer_pc layer) 0) as [Hpc0|Hpc0].
    { injection Hs as <-.
      eapply locs_ok_push; [done|done|exact He|by left|apply Hnext; lia|done]. }
    destruct (Z.eqb_spec (layer_pc layer) 1) as [Hpc1'|Hpc1'].
    { injection Hs as <-. apply locs_ok_stack; [done|].
      constructor; [|done]. pose proof Hlayer1 as (Hl1 & _ & _ & _ & _).
      apply (layer_ok_update _ _ _ layer1); [done|done| | |exact Hlayer1].
      - cbn. apply Forall_app. split; [done|]. by constructor.
      - split; [cbn; lia|]. cbn. rewrite He1. intros _. by destruct (layer_local layer1). }
    destruct (layer_pc layer <=? zlen args + 1).
    { destruct (vec_at args _) as [x|] eqn:Hx; [|done]. injection Hs as <-.
      eapply locs_ok_push;
        [done|done|exact He|right; by eapply vec_at_In|apply Hnext; lia|done]. }
    destruct (layer_pc layer =? zlen args + 2).
    { ok_inv Hs. destruct a1 as [| | |cenv fn]; try done.
      destruct (negb _); [done|]. ok_inv Hs. cbn in Hs. injection Hs as <-.
      destruct (heap_at_ok _ _ _ _ _ Hheap E0) as [Hcenv Hbody].
      set (layer2 := set_pc layer1 (layer_pc layer + 1)) in *.
      lazymatch goal with
      | Hb : bind_params _ _ _ _ = Ok ?env', Ht : (if tail m then _ else _) = Ok ?stk |- _ =>
          rename Hb into Hbind; rename env' into newEnv;
          rename Ht into Htail; rename stk into stk'
      end.
      assert (Hlayer2 : layer_locs_ok (memory c) (zlen (heap (state c)))
                          (numLiterals (state c)) layer2).
      { apply Hnext; lia. }
      assert (Hstk' : Forall (layer_locs_ok (memory c) (zlen (heap (state c)))
                                (numLiterals (state c))) stk').
      { destruct (tail m).
        - ok_inv Htail.
          lazymatch goal with
          | Hp : pop_to_frame _ = Ok _ |- _ =>
              apply pop_to_frame_inv in Hp as (above & f & rest & Hsplit & -> & _ & _)
          end.
          cbn in Htail. injection Htail as <-.
          assert (Hall : Forall (layer_locs_ok (memory c) (zlen (heap (state c)))
                                   (numLiterals (state c))) (layer2 :: below))
            by (by constructor).
          rewrite Hsplit in Hall. apply Forall_app in Hall as [_ Hall].
          by apply Forall_cons in Hall as [_ ?].
        - injection Htail as <-. by constructor. }
      unfold locs_ok. cbn. split; [done|]. split; [|done].
      constructor; [|by apply layers_ok_mem_app].
      split; [constructor|]. split; [|split].
      - exists newEnv. split.
        + unfold Memory, EnvRef, Env in *. by apply list_lookup_middle.
        + eapply bind_params_locs_ok; [|exact Hcenv|exact Hbind]. apply Hlayer2.
      - cbn. by intros ? [= <-].
      - split; [done|]. cbn. by destruct (lam_expr fn). }
    injection Hs as <-. by apply locs_ok_stack.
  - (* At *)
    unfold step_At in Hs.
    destruct (layer_pc layer =? 0).
    { injection Hs as <-.
      eapply locs_ok_push; [done|done|exact He|by left|by apply layer_ok_next; [by rewrite ?He, ?He1|]|done]. }
    ok_inv Hs. destruct a0 as [| | |cenv fn] eqn:Ha; try done.
    destruct (lookup_env _ _) as [loc|] eqn:Hl; [|done]. injection Hs as <-.
    apply locs_ok_publish; [done|done|].
    destruct (heap_at_ok _ _ _ _ _ Hheap E) as [Hcenv _]. by eapply lookup_env_ok.
Qed.

End Slots_step.

Section Slots_gc.

Context (H : Host).
Implicit Types (c : Config H) (layer : Layer) (env : Env).

Lemma stack_roots_ok (mem : Memory) n nl stk :
  Forall (layer_locs_ok mem n nl) stk ->
  exists locs, stack_roots mem stk = Ok locs /\ Forall (loc_ok n) locs.
Proof.
  induction 1 as [|l stk (Hl & (env & Henv & He) & _) _ (locs & Hroots & Hlocs)].
  - exists []. by split.
  - cbn [stack_roots]. rewrite Hroots. unfold deref. rewrite Henv.
    destruct (layer_frame l); unfold mbind, result_bind; cbn [rbind].
    + eexists. split; [reflexivity|]. rewrite !Forall_app. split; [|by split].
      unfold env_locs_ok in He. by rewrite Forall_fmap.
    + eexists. split; [reflexivity|]. cbn. rewrite Forall_app. by split.
Qed.

(** What the walk of the stack starts from: the locals of the layers
    and the environments of the frames. *)
Lemma stack_roots_In (mem : Memory) stk : forall locs,
  stack_roots mem stk = Ok locs ->
  forall l, In l stk ->
    (forall x, In x (layer_local l) -> In x locs)
    /\ (layer_frame l = true ->
        forall env p, mem !! layer_env l = Some env -> In p env -> In (snd p) locs).
Proof.
  induction stk as [|l0 stk IH]; intros locs Hr l Hin; [done|].
  cbn [stack_roots] in Hr. ok_inv Hr. ok_inv Hr. injection Hr as <-.
  destruct Hin as [<-|Hin].
  - split.
    + intros x Hx. rewrite !in_app_iff. tauto.
    + intros Hf env p Henv Hp. rewrite Hf in E. ok_inv E. injection E as <-.
      apply deref_inv in E1. unfold Memory, EnvRef, Env in *.
      rewrite Henv in E1. injection E1 as <-.
      apply in_or_app. left. by apply in_map.
  - destruct (IH _ eq_refl l Hin) as [Hloc Henv]. split.
    + intros x Hx. rewrite !in_app_iff. auto.
    + intros Hf env p He Hp. rewrite !in_app_iff. eauto.
Qed.

Lemma reachable_ok n nl (heap : list Value) locs l :
  Forall (loc_ok n) locs -> Forall (value_locs_ok n nl) heap ->
  reachable heap locs l -> loc_ok n l.
Proof.
  intros Hlocs Hheap (r & Hr & Hrtc).
  assert (Hstart : loc_ok n r).
  { rewrite Forall_forall in Hlocs. by apply Hlocs, list_elem_of_In. }
  clear Hr. induction Hrtc as [x|x y z (env & fn & Hv & Hin) _ IH]; [done|].
  apply IH. apply vec_at_In in Hv. rewrite Forall_forall in Hheap.
  apply list_elem_of_In, Hheap in Hv as [Henv _].
  apply in_map_iff in Hin as (p & <- & Hp).
  unfold env_locs_ok in Henv. rewrite Forall_forall in Henv.
  by apply Henv, list_elem_of_In.
Qed.

Lemma reloc_frames_returns rho stk : forall mem : Memory,
  Forall (fun l => is_Some (mem !! layer_env l)) stk ->
  exists mem', reloc_frames rho stk mem = Ok mem'.
Proof.
  induction stk as [|l stk IH]; intros mem Hall; [by eexists|].
  apply Forall_cons in Hall as [[env Henv] Hall]. cbn [reloc_frames].
  destruct (layer_frame l).
  - unfold deref. rewrite Henv. unfold mbind, result_bind; cbn [rbind].
    apply IH. eapply Forall_impl; [exact Hall|]. intros l' Hl'.
    unfold Memory, EnvRef, Env in *.
    apply lookup_lt_is_Some. rewrite length_insert. by apply lookup_lt_is_Some.
  - unfold mbind, result_bind; cbn [rbind]. by apply IH.
Qed.

(** A collection returns when every location is a slot of the heap. *)
Lemma locs_ok_gc_returns c :
  locs_ok c -> exists removed c', _gc H c = Done (Ok (removed, c')).
Proof.
  intros (Hnl & Hlayers & Hheap & Hres).
  destruct (stack_roots_ok (memory c) (zlen (heap (state c))) (numLiterals (state c))
              (rev (stack (state c))))
    as (locs & Hroots & Hlocs); [by apply Forall_rev|].
  assert (Hr : roots H c = Ok (locs ++ [resultLoc (state c)])).
  { unfold roots. by rewrite Hroots. }
  assert (Hall : Forall (loc_ok (zlen (heap (state c)))) (locs ++ [resultLoc (state c)])).
  { apply Forall_app. split; [done|]. by constructor. }
  unfold _gc. pose proof (_mark_returns H c) as Hret.
  destruct (_mark H c) as [[visited|err]|] eqn:Hm; [| |done].
  - destruct (_sweepAndCompact _ _) as [[removed rel] s] eqn:Hsweep.
    assert (Hs : stack s = stack (state c) /\ st_expr s = st_expr (state c)).
    { unfold _sweepAndCompact in Hsweep.
      destruct (sweep_loop _ _ _ _ _ _) as [[heap1 i] rel'].
      by injection Hsweep as <- <- <-. }
    unfold _relocate. cbn [state memory].
    destruct (reloc_frames_returns rel (rev (stack s)) (memory c)) as [mem' ->].
    { destruct Hs as [-> _]. apply Forall_rev.
      eapply Forall_impl; [exact Hlayers|]. intros l (_ & (env & -> & _) & _). by eexists. }
    cbn. by eexists _, _.
  - exfalso. unfold _mark in Hm. rewrite Hr in Hm.
    apply traverse_all_error in Hm as (_ & l & Hreach & Hnone).
    pose proof (reachable_ok _ _ _ _ _ Hall Hheap Hreach) as Hl.
    destruct (vec_at_lt (heap (state c)) l Hl) as [v Hv]. congruence.
Qed.

End Slots_gc.

Section Slots_collected.

Context (H : Host).
Implicit Types (c : Config H) (layer : Layer) (env : Env).

Lemma vec_at_loc_ok {A} (v : list A) l x : vec_at v l = Some x -> loc_ok (zlen v) l.
Proof.
  intros [Hl Hx%lookup_lt_Some]%vec_at_Some. unfold loc_ok, zlen. lia.
Qed.

Lemma frame_refs_In stk (r : EnvRef) :
  In r (frame_refs stk) -> exists f, In f stk /\ layer_frame f = true /\ layer_env f = r.
Proof.
  unfold frame_refs. intros (f & <- & [Hf Hfr]%List.filter_In)%in_map_iff. by exists f.
Qed.

(** A collection keeps every location a slot of the heap. *)
Lemma locs_ok_gc c removed c' :
  locs_ok c -> refs_ok (stack (state c)) ->
  (forall L v, L < numLiterals (state c) -> vec_at (heap (state c)) L = Some v ->
               ~ is_closure v) ->
  _gc H c = Done (Ok (removed, c')) -> locs_ok c'.
Proof.
  intros Hok Hrefs Hlits Hgc. pose proof Hok as (Hnl & Hlayers & Hheap & Hres).
  destruct (stack_roots_ok (memory c) (zlen (heap (state c))) (numLiterals (state c))
              (rev (stack (state c))))
    as (locs & Hroots & Hlocs); [by apply Forall_rev|].
  set (R := locs ++ [resultLoc (state c)]).
  assert (Hr : roots H c = Ok R).
  { unfold roots. by rewrite Hroots. }
  destruct (gc_graph H c removed c' R ltac:(lia) (refs_ok_NoDup _ Hrefs) Hr Hgc)
    as (Hroots' & Hval & _ & _).
  destruct (gc_heap H c removed c' R Hnl Hr Hgc) as (_ & _ & Hnl' & Hle' & Honto).
  pose proof (after_Collect H c c' (gc_after H _ _ _ Hgc)) as Hafter. cbv zeta in Hafter.
  destruct Hafter as (heap1 & _ & Hframes & Hstk' & _ & _).
  set (rho := gc_relocation c) in *.
  assert (Hmoved : forall l, reachable (heap (state c)) R l ->
                   loc_ok (zlen (heap (state c'))) (reloc rho l)).
  { intros l Hl. destruct (Hval l Hl) as (v & _ & Hv'). by eapply vec_at_loc_ok. }
  assert (Hroot : forall l, In l R -> reachable (heap (state c)) R l).
  { intros l Hl. exists l. split; [done|apply rtc_refl]. }
  assert (Hres' : resultLoc (state c') = reloc rho (resultLoc (state c))).
  { unfold roots in Hroots'. ok_inv Hroots'. unfold R in Hroots'.
    rewrite map_app in Hroots'. cbn in Hroots'. injection Hroots' as Heq.
    by apply app_inj_tail in Heq as [_ ?]. }
  apply reloc_frames_spec in Hframes as (_ & Hget & _).
  2:{ rewrite frame_refs_rev. by apply NoDup_rev', refs_ok_NoDup. }
  unfold locs_ok. rewrite Hnl'. split; [lia|]. split; [|split].
  - rewrite Hstk'. apply Forall_forall. intros l' Hl'%list_elem_of_In.
    apply in_map_iff in Hl' as (l & <- & Hl).
    pose proof Hlayers as Hl0. rewrite Forall_forall in Hl0.
    specialize (Hl0 l ltac:(by apply list_elem_of_In))
      as (Hlocal & (env & Henv & Henvok) & Hexpr & Hpc & Hcall).
    destruct (frame_refs_In _ _ (refs_ok_frame _ Hrefs l Hl)) as (f & Hf & Hframe & Hfenv).
    destruct (stack_roots_In _ _ _ Hroots l ltac:(by apply in_rev in Hl)) as [Hlroots _].
    destruct (stack_roots_In _ _ _ Hroots f ltac:(by apply in_rev in Hf)) as [_ Hfroots].
    split; [|split; [|split; [done|]]].
    + cbn. apply Forall_forall. intros x' Hx'%list_elem_of_In.
      apply in_map_iff in Hx' as (x & <- & Hx). apply Hmoved, Hroot.
      apply in_or_app. left. by apply Hlroots.
    + exists (reloc_env rho env). split.
      * cbn. rewrite Hget; [by rewrite Henv|].
        rewrite frame_refs_rev. apply -> in_rev. by apply refs_ok_frame.
      * apply Forall_forall. intros p' Hp'%list_elem_of_In.
        apply in_map_iff in Hp' as (p & <- & Hp). cbn. apply Hmoved, Hroot.
        apply in_or_app. left. eapply Hfroots; [done| |exact Hp]. by rewrite Hfenv.
    + split; [done|]. cbn. destruct (layer_expr l) as [[]|]; try done.
      intros Hpc2. specialize (Hcall Hpc2). by destruct (layer_local l).
  - apply Forall_lookup. intros j v' Hj.
    assert (Hv' : vec_at (heap (state c')) (Z.of_nat j) = Some v').
    { apply vec_at_Some. split; [lia|]. by rewrite Nat2Z.id. }
    destruct (Z.lt_ge_cases (Z.of_nat j) (numLiterals (state c))) as [Hlt|Hge].
    + rewrite (gc_literals H c removed c' _ Hnl Hgc Hlt) in Hv'.
      destruct (vec_at (heap (state c)) (Z.of_nat j)) as [v|] eqn:Hv; [|done].
      injection Hv' as <-. specialize (Hlits _ _ Hlt Hv). by destruct v.
    + destruct (Honto (Z.of_nat j)) as (l & Hl & _ & Hrl).
      { split; [done|]. apply vec_at_loc_ok in Hv'. apply Hv'. }
      destruct (Hval l Hl) as (v & Hv & Hmv). fold rho in Hrl. rewrite Hrl, Hv' in Hmv.
      injection Hmv as ->. destruct v as [| | |env fn]; try done.
      pose proof (heap_at_ok _ _ _ l _ Hheap ltac:(by apply heap_at_Some)) as [_ Hbody].
      split; [|done]. apply Forall_forall. intros p' Hp'%list_elem_of_In.
      apply in_map_iff in Hp' as (p & <- & Hp). cbn. apply Hmoved.
      eapply reachable_edge; [exact Hl|]. exists env, fn. split; [done|].
      by apply in_map.
  - rewrite Hres'. apply Hmoved, Hroot. apply in_or_app. right. by left.
Qed.

End Slots_collected.

Section Slots_run.

Context (H : Host).
Hypothesis Hhost :
  forall s w v w', eval_source H s w = Ok (v, w') -> ~ is_closure v.
Implicit Types (c : Config H).

Lemma first_order_distinct s (w : World H) v w' :
  eval_source H s w = Ok (v, w') -> distinct_value v.
Proof. intros Hv%Hhost. by destruct v. Qed.

Lemma locs_ok_boot (w : World H) e uninit (c0 : Config H) :
  boot H w e uninit = Ok c0 ->
  loc_ok (zlen (heap (state c0))) uninit ->
  locs_ok c0.
Proof.
  unfold boot, State_new. intros Hb. ok_inv Hb. destruct a as [mem s].
  injection Hb as <-. ok_inv E. destruct a0 as [e' heap']. cbn in E.
  injection E as <- <-. cbn. intros Hres.
  pose proof (preAllocate_literals (computeTail (computeFreeVars e) false) []) as Hpre.
  rewrite E1 in Hpre. destruct Hpre as (_ & Hlocs & vs & Hvs & ->). cbn in *.
  unfold locs_ok. cbn. split; [unfold zlen; lia|]. split; [|split; [|done]].
  - assert (Henv : exists env : Env,
               ([] ++ [[]] : Memory) !! length ([] : Memory) = Some env
               /\ env_locs_ok (zlen vs) env).
    { exists []. split; [done|constructor]. }
    constructor; [|constructor; [|constructor]].
    + split; [constructor|]. split; [exact Henv|]. split.
      * cbn. intros ? [= <-]. rewrite Hlocs. rewrite (zlen_Forall2 _ _ _ Hvs).
        apply Forall_forall. intros l Hl%elem_of_seqZ. unfold loc_ok.
        change (zlen (@nil Value)) with 0 in Hl. lia.
      * split; [done|]. cbn. by destruct e'.
    + split; [constructor|]. split; [exact Henv|]. by split.
  - assert (Hlit : Forall is_literal_value vs).
    { clear E1 Hlocs Hres. induction Hvs as [|l v ls vs Hlv _ IH]; [constructor|].
      constructor; [by eapply literal_value_is_literal|done]. }
    eapply Forall_impl; [exact Hlit|]. by intros v [[z ->]|[s ->]].
Qed.

Lemma locs_ok_run (w : World H) e uninit (c0 : Config H) evs :
  boot H w e uninit = Ok c0 ->
  loc_ok (zlen (heap (state c0))) uninit ->
  forall c, run_events c0 evs = Some c -> locs_ok c.
Proof.
  intros Hb Hres. induction evs as [|ev evs IH] using rev_ind; intros c Hrun.
  - injection Hrun as <-. by eapply locs_ok_boot.
  - rewrite run_events_app in Hrun.
    destruct (run_events c0 evs) as [c1|] eqn:Hr1; [|done].
    cbn in Hrun. destruct (after ev c1) as [c2|] eqn:Hev; [|done].
    injection Hrun as ->. specialize (IH c1 eq_refl). destruct ev.
    + cbn in Hev. destruct (step H c1) as [[b c2]|] eqn:Hs; [|done].
      injection Hev as ->. by eapply locs_ok_step.
    + cbn in Hev. destruct (_gc H c1) as [[[removed c2]|]|] eqn:Hgc; try done.
      injection Hev as ->.
      destruct (reachable_inv H first_order_distinct c0 w e uninit evs Hb c1 Hr1)
        as [gs Hinv].
      eapply locs_ok_gc; [exact IH|apply Hinv| |exact Hgc].
      intros L v HL Hv.
      destruct (literal_slots H first_order_distinct w e uninit c0 evs Hb c1 Hr1)
        as [Hnl Hslots].
      destruct (boot_literals H w e uninit c0 Hb) as [_ Hlit0].
      rewrite Hslots in Hv by lia. apply vec_at_In in Hv.
      rewrite Forall_forall in Hlit0. apply list_elem_of_In, Hlit0 in Hv.
      destruct Hv as [[z ->]|[s ->]]; by intros [].
Qed.

End Slots_run.

(** X14: In a run of a program whose [resultLoc] starts as a slot of the
    heap, every location that the machine holds stays a slot of the
    heap, and a collection returns at every state. *)
Theorem collection_returns (H : Host) (w : World H) (e : ExprNode)
    (uninit : Location) (c0 c : Config H) (evs : list event) :
  (forall s w v w', eval_source H s w = Ok (v, w') -> ~ is_closure v) ->
  boot H w e uninit = Ok c0 ->
  0 <= uninit < zlen (heap (state c0)) ->
  run_events c0 evs = Some c ->
  locs_ok c /\ exists removed c', _gc H c = Done (Ok (removed, c')).
Proof.
  intros Hhost Hb Hres Hrun.
  assert (Hok : locs_ok c) by (by eapply locs_ok_run).
  split; [done|]. by apply locs_ok_gc_returns.
Qed.

(** ** The undefined behaviour of a step *)

Section Defined.

Context (H : Host).
Implicit Types (c : Config H) (layer : Layer) (below : list Layer) (env : Env).

(** The environment of a Letrec layer that has allocated its bindings
    holds them. *)
Lemma inv_letrec_env (c0 : Config H) evs c gs layer below m vel expr env :
  Inv c0 evs c gs ->
  stack (state c) = layer :: below ->
  layer_expr layer = Some (LetrecNode m vel expr) ->
  1 <= layer_pc layer ->
  memory c !! layer_env layer = Some env ->
  (length vel <= length env)%nat.
Proof.
  intros [Hstk _ _ Htop _ Htr _ _ _ _] Hs He Hpc Henv.
  destruct gs as [|[l g] gs]; [by rewrite Hs in Hstk|].
  cbn in Hstk. rewrite Hs in Hstk. injection Hstk as -> Hrest.
  destruct Htop as [base Hbase]. cbn [fst] in Hbase.
  unfold Memory, EnvRef, Env in *. rewrite Henv in Hbase. injection Hbase as ->.
  apply Forall_cons in Htr as [Hg _]. unfold tracked_ok in Hg. cbn [fst snd] in Hg.
  rewrite He in Hg. destruct (Z.ltb_spec (layer_pc layer) 1); [lia|].
  cbn [pending]. unfold own, letrec_names. cbn [fst snd]. rewrite He.
  rewrite !length_app, length_combine. unfold bound_names. rewrite length_map. lia.
Qed.

Lemma pop_to_frame_main upper main :
  layer_frame main = true ->
  exists f rest, pop_to_frame (upper ++ [main]) = Ok (f :: rest).
Proof.
  intros Hm. induction upper as [|l upper IH]; cbn.
  - rewrite Hm. by eexists _, _.
  - destruct (layer_frame l); [by eexists _, _|done].
Qed.

Lemma loc_ok_heap_at (heap : list Value) l :
  loc_ok (zlen heap) l -> exists v, heap_at heap l = Ok v.
Proof.
  intros Hl. destruct (vec_at_lt heap l Hl) as [v Hv]. exists v.
  by apply heap_at_Some.
Qed.

Ltac settle Hs :=
  unfold mbind, result_bind, panic in Hs; cbn [rbind] in Hs;
  repeat first
    [ discriminate Hs
    | match type of Hs with
      | (if ?b then _ else _) = _ => destruct b
      | match ?x with _ => _ end = _ => destruct x
      end; cbn [rbind] in Hs ].

Lemma step_defined c what :
  (forall s w what, eval_source H s w <> Err (Undefined what)) ->
  locs_ok c ->
  main_kept (stack (state c)) ->
  (forall layer below m vel expr env,
     stack (state c) = layer :: below ->
     layer_expr layer = Some (LetrecNode m vel expr) ->
     1 <= layer_pc layer ->
     memory c !! layer_env layer = Some env ->
     (length vel <= length env)%nat) ->
  step H c = Err (Undefined what) ->
  what = overflow
  /\ exists layer below m name args,
       stack (state c) = layer :: below
       /\ layer_expr layer = Some (IntrinsicCallNode m name args)
       /\ zlen args <= layer_pc layer
       /\ name ∈ arithmetic_intrinsics.
Proof.
  intros Hhost Hok (upper & main & Hstk & Hme & Hmf & Hreg) Hletrec Hs.
  unfold step in Hs. destruct upper as [|layer upper].
  { rewrite Hstk in Hs. cbn in Hs. by rewrite Hme in Hs. }
  set (below := upper ++ [main]) in *. cbn [app] in Hstk. fold below in Hstk.
  rewrite Hstk in Hs.
  destruct (layer_expr layer) as [e|] eqn:He; [|done].
  assert (Hframe : forall l', exists f rest, pop_to_frame (l' :: below) = Ok (f :: rest)).
  { intros l'. apply (pop_to_frame_main (l' :: upper) main Hmf). }
  specialize (Hletrec layer below).
  pose proof Hok as (Hnl & Hlayers & Hheap & Hres).
  rewrite Hstk in Hlayers. apply Forall_cons in Hlayers as [Hlayer Hbelow].
  pose proof Hlayer as (Hlocal & (env & Henv & Henvok) & Hexpr & Hpc & Hcall).
  rewrite He in Hcall.
  assert (Hderef : deref (memory c) (layer_env layer) = Ok env).
  { unfold deref. by rewrite Henv. }
  destruct (loc_ok_heap_at _ _ Hres) as [vres Hvres].
  match type of Hs with
  | (?x ≫= _) = _ => destruct x as [c1|err] eqn:Hx; [done|]
  end.
  unfold mbind, result_bind in Hs. cbn [rbind] in Hs. injection Hs as ->.
  rename Hx into Hs.
  destruct e as [m val loc|m val loc|v|m varList expr|m vel expr|m cond b1 b2
                |m es|m name args|m callee args|m var expr].
  - done.
  - done.
  - unfold step_Variable in Hs. rewrite Hderef in Hs. settle Hs.
  - unfold step_Lambda in Hs. rewrite Hderef in Hs. settle Hs.
  - (* Letrec *)
    exfalso. specialize (Hletrec m vel expr env Hstk He).
    unfold step_Letrec in Hs. rewrite Hderef, Hvres in Hs.
    pose proof (zlen_nonneg vel) as Hn.
    assert (Hknot : exists r,
              (if (1 <? layer_pc layer) && (layer_pc layer <=? zlen vel + 1)
               then match vec_at vel (layer_pc layer - 2) with
                    | Some ve =>
                        env0 ← Ok env;
                        match lookup_env (name ve.1) env0 with
                        | Some loc =>
                            v ← Ok vres;
                            match vec_set (heap (state c)) loc v with
                            | Some h => Ok h
                            | None => Err (Undefined "heap index out of range")
                            end
                        | None =>
                            panic "runtime" ("undefined variable " ++ name ve.1) (sl m)
                        end
                    | None => Err (Undefined "varExprList index out of range")
                    end
               else Ok (heap (state c))) = r
              /\ match r with
                 | Ok _ => True
                 | Err err => forall what, err <> Undefined what
                 end).
    { eexists. split; [reflexivity|].
      destruct (Z.ltb_spec 1 (layer_pc layer)); [|done].
      destruct (Z.leb_spec (layer_pc layer) (zlen vel + 1)); [|done]. cbn [andb].
      destruct (vec_at_lt vel (layer_pc layer - 2)) as [ve ->]; [lia|].
      unfold mbind, result_bind. cbn [rbind].
      destruct (lookup_env _ _) as [loc|] eqn:Hl; [|done].
      unfold vec_set. pose proof (lookup_env_ok _ _ _ _ Henvok Hl) as [? ?].
      destruct (Z.leb_spec 0 loc); [|lia].
      destruct (Z.ltb_spec loc (zlen (heap (state c)))); [|lia]. done. }
    destruct Hknot as (r & Hr & Hundef).
    unfold mbind, result_bind in *. rewrite Hr in Hs.
    destruct r as [heap1|err']; cbn [rbind] in Hs.
    2:{ injection Hs as ->. by eapply Hundef. }
    destruct (Z.eqb_spec (layer_pc layer) 0); [by destruct (letrec_alloc _ _ _)|].
    destruct (Z.leb_spec (layer_pc layer) (zlen vel)).
    { destruct (vec_at_lt vel (layer_pc layer + 1 - 2)) as [ve Hve]; [lia|].
      by rewrite Hve in Hs. }
    destruct (Z.eqb_spec (layer_pc layer) (zlen vel + 1)); [done|].
    unfold pop_n in Hs. destruct (Nat.leb_spec (length vel) (length env)); [done|].
    specialize (Hletrec ltac:(lia) Henv). lia.
  - unfold step_If in Hs. rewrite Hvres in Hs. settle Hs.
  - (* Sequence *)
    unfold step_Sequence in Hs.
    destruct (Z.ltb_spec (layer_pc layer) (zlen es)); [|done].
    destruct (vec_at_lt es (layer_pc layer + 1 - 1)) as [x Hx]; [lia|].
    rewrite Hx in Hs. done.
  - (* IntrinsicCall *)
    unfold step_IntrinsicCall in Hs.
    set (layer1 := if (0 <? _) && _ then _ else _) in Hs.
    assert (Hlocal1 : Forall (loc_ok (zlen (heap (state c)))) (layer_local layer1)).
    { subst layer1. destruct (_ && _); [|done]. cbn. apply Forall_app.
      split; [done|]. by constructor. }
    destruct (Z.ltb_spec (layer_pc layer) (zlen args)).
    { destruct (vec_at_lt args (layer_pc layer + 1 - 1)) as [x Hx]; [lia|].
      rewrite Hx in Hs. done. }
    destruct (_callIntrinsic H _ _ _ _ _) as [[value w']|err] eqn:Hc; [done|].
    unfold mbind, result_bind in Hs. cbn [rbind] in Hs. injection Hs as ->.
    apply _callIntrinsic_defined in Hc as [-> Hname]; [|exact Hhost|].
    2:{ eapply Forall_impl; [exact Hlocal1|]. intros l Hl. by apply loc_ok_heap_at. }
    split; [done|]. exists layer, below, m, name, args.
    split; [done|]. split; [done|]. split; [|done].
    done.
  - (* ExprCall *)
    exfalso. unfold step_ExprCall in Hs.
    set (layer1 := if (2 <? _) && _ then _ else _) in Hs.
    assert (Hlocal1 : Forall (loc_ok (zlen (heap (state c)))) (layer_local layer1)
                      /\ (2 <= layer_pc layer -> layer_local layer1 <> [])).
    { subst layer1. destruct (_ && _); [|done]. cbn. split.
      - apply Forall_app. split; [done|]. by constructor.
      - intros _. by destruct (layer_local layer). }
    destruct Hlocal1 as [Hlocal1 Hne1].
    pose proof (zlen_nonneg args) as Hn.
    destruct (Z.eqb_spec (layer_pc layer) 0); [done|].
    destruct (Z.eqb_spec (layer_pc layer) 1); [done|].
    destruct (Z.leb_spec (layer_pc layer) (zlen args + 1)).
    { destruct (vec_at_lt args (layer_pc layer + 1 - 3)) as [x Hx]; [lia|].
      by rewrite Hx in Hs. }
    destruct (Z.eqb_spec (layer_pc layer) (zlen args + 2)); [|done].
    cbn [layer_local set_pc] in Hs.
    destruct (layer_local layer1) as [|l0 local] eqn:Hloc1; [by destruct Hne1; [lia|]|].
    rewrite arg_at_head in Hs. unfold mbind, result_bind in Hs. cbn [rbind] in Hs.
    apply Forall_cons in Hlocal1 as [Hl0 Hlocal1].
    destruct (loc_ok_heap_at _ _ Hl0) as [v0 Hv0]. rewrite Hv0 in Hs. cbn [rbind] in Hs.
    destruct v0 as [| | |cenv fn]; try done.
    destruct (Z.eqb_spec (zlen (l0 :: local) - 1) (zlen (lam_varList fn))) as [Harity|];
      [|done].
    cbn [negb] in Hs.
    rewrite bind_params_ok in Hs by lia. cbn [rbind] in Hs.
    destruct (tail m).
    + match type of Hs with
      | context [pop_to_frame (?l :: below)] =>
          destruct (Hframe l) as (f & rest & Hp); rewrite Hp in Hs
      end.
      done.
    + done.
  - unfold step_At in Hs. rewrite Hvres in Hs. settle Hs.
Qed.

End Defined.

(** X15: In a run of a program whose [resultLoc] starts as a slot of the
    heap and whose [.eval] returns no closure and has no undefined
    behaviour of its own, a step has no undefined behaviour but the
    overflow of an [int] operation, in the call of [.+], [.-], [.*],
    [./] or [.%]: no index is outside its vector, no environment is
    missing and the stack is not empty; and [getResult] finds a
    value. *)
Theorem step_is_memory_safe (H : Host) (w : World H) (e : ExprNode)
    (uninit : Location) (c0 c : Config H) (evs : list event) :
  (forall s w v w', eval_source H s w = Ok (v, w') -> ~ is_closure v) ->
  (forall s w what, eval_source H s w <> Err (Undefined what)) ->
  boot H w e uninit = Ok c0 ->
  0 <= uninit < zlen (heap (state c0)) ->
  run_events c0 evs = Some c ->
  (forall what, step H c = Err (Undefined what) ->
     what = overflow
     /\ exists layer below m name args,
          stack (state c) = layer :: below
          /\ layer_expr layer = Some (IntrinsicCallNode m name args)
          /\ zlen args <= layer_pc layer
          /\ name ∈ arithmetic_intrinsics)
  /\ exists v, getResult (state c) = Ok v.
Proof.
  intros Hhost Hdef Hb Hres Hrun.
  pose proof (locs_ok_run H Hhost w e uninit c0 evs Hb Hres c Hrun) as Hok.
  split.
  - intros what. apply step_defined; [done|done|by eapply main_kept_run|].
    destruct (reachable_inv H (first_order_distinct H Hhost) c0 w e uninit evs Hb c Hrun)
      as [gs Hinv].
    intros layer below m vel expr env. by eapply inv_letrec_env.
  - unfold getResult. apply loc_ok_heap_at. apply Hok.
Qed.

(** ** Free variables *)

Section Free_variables.

Implicit Types (e x : ExprNode) (es : list ExprNode).

(** Induction over a tree through [children]. *)
Lemma ExprNode_children_ind (P : ExprNode -> Prop) :
  (forall e, Forall P (children e) -> P e) -> forall e, P e.
Proof.
  intros HP.
  induction e as [m val loc|m val loc|v|m vl b IH|m vel b IHvel IHb
                 |m c b1 b2 IHc IH1 IH2|m es IH
                 |m f es IH|m f es IHf IH|m v b IH] using ExprNode_nested_ind;
    apply HP; cbn [children]; try done; repeat first [done|constructor].
  apply Forall_app. split; [|by repeat constructor].
  apply Forall_forall. intros x (ve & <- & Hin)%list_elem_of_In%in_map_iff.
  rewrite Forall_forall in IHvel. apply IHvel. by apply list_elem_of_In.
Qed.

Lemma free_vars_list es :
  (fix all (es : list ExprNode) : gset string :=
     match es with
     | [] => ∅
     | x :: es' => free_vars x ∪ all es'
     end) es = ⋃ (map free_vars es).
Proof. induction es as [|x es IH]; cbn; [done|]. by rewrite IH. Qed.

Lemma free_vars_pairs (ves : list (VariableNode * ExprNode)) :
  (fix go (ves : list (VariableNode * ExprNode)) : gset string :=
     match ves with
     | [] => ∅
     | ve :: ves' => free_vars (snd ve) ∪ go ves'
     end) ves = ⋃ (map free_vars (map snd ves)).
Proof. induction ves as [|x es IH]; cbn; [done|]. by rewrite IH. Qed.

Lemma union_list_app_gset (Xs Ys : list (gset string)) :
  ⋃ (Xs ++ Ys) = ⋃ Xs ∪ ⋃ Ys.
Proof. induction Xs as [|X Xs IH]; cbn; [set_solver|]. rewrite IH. set_solver. Qed.

(** The free variables of a node from those of its children. *)
Lemma free_vars_children e :
  free_vars e
  = (own_name e ∪ ⋃ (map free_vars (children e))) ∖ list_to_set (binders e).
Proof.
  destruct e as [m val loc|m val loc|v|m vl b|m vel b|m c b1 b2|m es|m f args
                |m f args|m v b]; cbn [free_vars own_name children binders map];
    rewrite ?free_vars_list, ?free_vars_pairs, ?map_app, ?union_list_app_gset;
    cbn [map union_list foldr list_to_set]; set_solver.
Qed.

Lemma free_vars_child e x :
  In x (children e) -> free_vars x ⊆ free_vars e ∪ list_to_set (binders e).
Proof.
  intros Hin. rewrite (free_vars_children e).
  assert (Hsub : free_vars x ⊆ ⋃ (map free_vars (children e))).
  { intros y Hy. apply elem_of_union_list. exists (free_vars x). split; [|done].
    apply list_elem_of_In, in_map_iff. by exists x. }
  intros y Hy. destruct (decide (y ∈ (list_to_set (binders e) : gset string)));
    set_solver.
Qed.

Lemma every_node_list (P : ExprNode -> Prop) es :
  (fix all (es : list ExprNode) : Prop :=
     match es with
     | [] => True
     | x :: es' => every_node P x /\ all es'
     end) es <-> Forall (every_node P) es.
Proof.
  induction es as [|x es IH]; cbn; [by split; [constructor|]|].
  rewrite Forall_cons, IH. done.
Qed.

Lemma every_node_pairs (P : ExprNode -> Prop) (ves : list (VariableNode * ExprNode)) :
  (fix go (ves : list (VariableNode * ExprNode)) : Prop :=
     match ves with
     | [] => True
     | ve :: ves' => every_node P (snd ve) /\ go ves'
     end) ves <-> Forall (every_node P) (map snd ves).
Proof.
  induction ves as [|x es IH]; cbn; [by split; [constructor|]|].
  rewrite Forall_cons, IH. done.
Qed.

(** [P] holds of every node when it holds of the root and of every
    node of the children. *)
Lemma every_node_children (P : ExprNode -> Prop) e :
  every_node P e <-> P e /\ Forall (every_node P) (children e).
Proof.
  destruct e as [m val loc|m val loc|v|m vl b|m vel b|m c b1 b2|m es|m f args
                |m f args|m v b]; cbn [every_node children];
    rewrite ?every_node_list, ?every_node_pairs, ?Forall_app, ?Forall_cons, ?Forall_nil;
    tauto.
Qed.

Lemma annotated_root e : annotated e -> freeVars (meta e) = free_vars e.
Proof. by intros [? _]%every_node_children. Qed.

Lemma annotated_child e x : annotated e -> In x (children e) -> annotated x.
Proof.
  intros [_ Hall]%every_node_children Hin. rewrite Forall_forall in Hall.
  apply Hall. by apply list_elem_of_In.
Qed.

(** *** [computeFreeVars] *)

Lemma erase_all_spec ns : forall fv : gset string,
  erase_all fv ns = fv ∖ list_to_set ns.
Proof.
  unfold erase_all. induction ns as [|n ns IH]; intros fv; cbn; [set_solver|].
  rewrite IH. set_solver.
Qed.

Lemma insert_all_spec es : forall fv : gset string,
  insert_all fv es = fv ∪ ⋃ (map (fun e => freeVars (meta e)) es).
Proof.
  unfold insert_all. induction es as [|x es IH]; intros fv; cbn; [set_solver|].
  rewrite IH. set_solver.
Qed.

Lemma computeFreeVars_children e :
  children (computeFreeVars e) = map computeFreeVars (children e).
Proof.
  destruct e as [m val loc|m val loc|v|m vl b|m vel b|m c b1 b2|m es|m f args
                |m f args|m v b]; cbn [computeFreeVars children map]; try done.
  by rewrite map_app, !map_map.
Qed.

Lemma computeFreeVars_names e :
  own_name (computeFreeVars e) = own_name e /\ binders (computeFreeVars e) = binders e.
Proof.
  destruct e as [m val loc|m val loc|v|m vl b|m vel b|m c b1 b2|m es|m f args
                |m f args|m v b]; cbn [computeFreeVars own_name binders]; try done.
  split; [done|]. unfold bound_names. by rewrite map_map.
Qed.

(** What [computeFreeVars] records at a node, from what it has recorded
    at the children. *)
Lemma computeFreeVars_meta e :
  freeVars (meta (computeFreeVars e))
  = freeVars (meta e)
    ∖ list_to_set (binders e)
    ∪ (own_name e
       ∪ ⋃ (map (fun x => freeVars (meta x)) (children (computeFreeVars e))))
      ∖ list_to_set (binders e).
Proof.
  destruct e as [m val loc|m val loc|v|m vl b|m vel b|m c b1 b2|m es|m f args
                |m f args|m v b];
    cbn [computeFreeVars meta var_meta set_freeVars freeVars own_name children binders map];
    rewrite ?erase_all_spec, ?insert_all_spec, ?map_app, ?union_list_app_gset, ?map_map;
    cbn [map union_list foldr list_to_set]; try set_solver.
  all: unfold bound_names; rewrite ?map_map; cbn [fst snd]; set_solver.
Qed.

Lemma union_list_map_ext {A} (f g : A -> gset string) (l : list A) :
  Forall (fun a => f a = g a) l -> ⋃ (map f l) = ⋃ (map g l).
Proof. induction 1 as [|a l Ha _ IH]; cbn; [done|]. by rewrite Ha, IH. Qed.

Lemma computeFreeVars_free_vars e : free_vars (computeFreeVars e) = free_vars e.
Proof.
  induction e as [e IH] using ExprNode_children_ind.
  rewrite (free_vars_children (computeFreeVars e)), (free_vars_children e).
  destruct (computeFreeVars_names e) as [-> ->].
  rewrite computeFreeVars_children, map_map.
  by rewrite (union_list_map_ext _ free_vars _ IH).
Qed.

Lemma computeFreeVars_annotated e : unannotated e -> annotated (computeFreeVars e).
Proof.
  induction e as [e IH] using ExprNode_children_ind.
  intros [Hroot Hall]%every_node_children. apply every_node_children.
  assert (Hchildren : Forall annotated (children (computeFreeVars e))).
  { rewrite computeFreeVars_children. apply Forall_forall.
    intros x' (x & <- & Hin)%list_elem_of_In%in_map_iff.
    rewrite Forall_forall in IH, Hall. apply list_elem_of_In in Hin.
    apply IH; [done|]. by apply Hall. }
  split; [|done].
  rewrite computeFreeVars_meta, Hroot, (free_vars_children (computeFreeVars e)).
  destruct (computeFreeVars_names e) as [-> ->].
  rewrite (union_list_map_ext (fun x => freeVars (meta x)) free_vars).
  - set_solver.
  - eapply Forall_impl; [exact Hchildren|]. intros x. apply annotated_root.
Qed.

End Free_variables.

(** *** Passes that keep the names *)

Section Same_names.

Variable R : ExprNode -> ExprNode -> Prop.
Hypothesis R_node : forall e e', R e e' ->
  own_name e' = own_name e /\ binders e' = binders e
  /\ freeVars (meta e') = freeVars (meta e)
  /\ Forall2 R (children e) (children e').

Lemma same_free_vars e : forall e', R e e' -> free_vars e' = free_vars e.
Proof.
  induction e as [e IH] using ExprNode_children_ind. intros e' Hr.
  destruct (R_node e e' Hr) as (Hown & Hbind & _ & Hch).
  rewrite (free_vars_children e'), (free_vars_children e), Hown, Hbind.
  f_equal. f_equal. clear Hown Hbind Hr.
  induction Hch as [|x x' xs xs' Hx _ IHch]; [done|].
  apply Forall_cons in IH as [IHx IH]. cbn. by rewrite (IHx x' Hx), IHch.
Qed.

Lemma same_annotated e : forall e', R e e' -> annotated e -> annotated e'.
Proof.
  induction e as [e IH] using ExprNode_children_ind. intros e' Hr.
  intros [Hroot Hall]%every_node_children. apply every_node_children.
  destruct (R_node e e' Hr) as (_ & _ & Hmeta & Hch).
  split; [by rewrite Hmeta, Hroot, (same_free_vars e e' Hr)|].
  clear Hroot Hmeta Hr.
  induction Hch as [|x x' xs xs' Hx _ IHch]; [constructor|].
  apply Forall_cons in IH as [IHx IH]. apply Forall_cons in Hall as [Hax Hall].
  constructor; [by apply (IHx x')|by apply IHch].
Qed.

End Same_names.

Section Passes.

Lemma Forall2_computeTail (t : bool) (es : list ExprNode) :
  Forall2 (fun e e' => exists t, e' = computeTail e t) es
          (map (fun a => computeTail a t) es).
Proof. induction es as [|x es IH]; cbn; constructor; [by exists t|done]. Qed.

Lemma computeTail_node e e' :
  (exists t, e' = computeTail e t) ->
  own_name e' = own_name e /\ binders e' = binders e
  /\ freeVars (meta e') = freeVars (meta e)
  /\ Forall2 (fun e e' => exists t, e' = computeTail e t) (children e) (children e').
Proof.
  intros [t ->].
  destruct e as [m val loc|m val loc|v|m vl b|m vel b|m c b1 b2|m es|m f args
                |m f args|m v b]; cbn [computeTail own_name binders meta children];
    try (by repeat split; repeat first [constructor|by eexists]).
  - (* Lambda *)
    repeat split; [|by repeat first [constructor|by eexists]].
    unfold names. rewrite map_map. by apply map_ext.
  - (* Letrec *)
    repeat split.
    + unfold bound_names. rewrite map_map. by apply map_ext.
    + rewrite map_map. cbn [snd]. apply Forall2_app; [|by constructor; [eexists|]].
      rewrite <- (map_map snd (fun x => computeTail x false)).
      apply Forall2_computeTail.
  - (* Sequence *)
    repeat split. induction es as [|x es IH]; [constructor|].
    destruct es as [|y es]; constructor; first [by eexists|done|constructor].
  - repeat split. apply Forall2_computeTail.
  - repeat split. constructor; [by eexists|apply Forall2_computeTail].
Qed.

Lemma computeTail_free_vars e t : free_vars (computeTail e t) = free_vars e.
Proof. apply (same_free_vars _ computeTail_node). by exists t. Qed.

Lemma computeTail_annotated e t : annotated e -> annotated (computeTail e t).
Proof. apply (same_annotated _ computeTail_node). by exists t. Qed.

Lemma preallocates_list es : forall heap es' heap',
  (fix go (es : list ExprNode) (heap : list Value)
     : result (list ExprNode * list Value) :=
     match es with
     | [] => Ok ([], heap)
     | x :: es' =>
         '(x', heap) ← preAllocate x heap;
         '(es'', heap) ← go es' heap;
         Ok (x' :: es'', heap)
     end) es heap = Ok (es', heap') ->
  Forall2 preallocates es es'.
Proof.
  induction es as [|x es IH]; intros heap es' heap' Hp.
  - injection Hp as <- <-. constructor.
  - ok_inv Hp. destruct a as [x' heap1]. ok_inv Hp. destruct a as [es1 heap2].
    injection Hp as <- <-. constructor; [by exists heap, heap1|by eapply IH].
Qed.

Lemma preallocates_pairs (ves : list (VariableNode * ExprNode)) : forall heap ves' heap',
  (fix go (ves : list (VariableNode * ExprNode)) (heap : list Value)
     : result (list (VariableNode * ExprNode) * list Value) :=
     match ves with
     | [] => Ok ([], heap)
     | ve :: ves' =>
         '(x', heap) ← preAllocate (snd ve) heap;
         '(ves'', heap) ← go ves' heap;
         Ok ((fst ve, x') :: ves'', heap)
     end) ves heap = Ok (ves', heap') ->
  bound_names ves' = bound_names ves
  /\ Forall2 preallocates (map snd ves) (map snd ves').
Proof.
  induction ves as [|x es IH]; intros heap es' heap' Hp.
  - injection Hp as <- <-. split; [done|constructor].
  - ok_inv Hp. destruct a as [x' heap1]. ok_inv Hp. destruct a as [es1 heap2].
    injection Hp as <- <-. destruct (IH _ _ _ E0) as [Hn Hf]. split.
    + cbn. f_equal. exact Hn.
    + cbn. constructor; [by exists heap, heap1|done].
Qed.

Lemma preallocates_node e e' :
  preallocates e e' ->
  own_name e' = own_name e /\ binders e' = binders e
  /\ freeVars (meta e') = freeVars (meta e)
  /\ Forall2 preallocates (children e) (children e').
Proof.
  intros (heap & heap' & Hp).
  destruct e as [m val loc|m val loc|v|m vl b|m vel b|m c b1 b2|m es|m f args
                |m f args|m v b]; cbn [preAllocate] in Hp.
  - ok_inv Hp. injection Hp as <- <-. by repeat split; constructor.
  - ok_inv Hp. injection Hp as <- <-. by repeat split; constructor.
  - injection Hp as <- <-. by repeat split; constructor.
  - ok_inv Hp. destruct a as [b' heap1]. injection Hp as <- <-.
    repeat split. constructor; [by eexists _, _|constructor].
  - ok_inv Hp. destruct a as [vel' heap1]. ok_inv Hp. destruct a as [b' heap2].
    injection Hp as <- <-. destruct (preallocates_pairs _ _ _ _ E) as [Hn Hf].
    repeat split; [done|]. cbn [children].
    apply Forall2_app; [done|]. constructor; [by eexists _, _|constructor].
  - ok_inv Hp. destruct a as [c' heap1]. ok_inv Hp. destruct a as [b1' heap2].
    ok_inv Hp. destruct a as [b2' heap3]. injection Hp as <- <-.
    repeat split. repeat first [constructor|by eexists _, _].
  - ok_inv Hp. destruct a as [es' heap1]. injection Hp as <- <-.
    repeat split. by eapply preallocates_list.
  - ok_inv Hp. destruct a as [es' heap1]. injection Hp as <- <-.
    repeat split. by eapply preallocates_list.
  - ok_inv Hp. destruct a as [f' heap1]. ok_inv Hp. destruct a as [es' heap2].
    injection Hp as <- <-.
    repeat split. constructor; [by eexists _, _|by eapply preallocates_list].
  - ok_inv Hp. destruct a as [b' heap1]. injection Hp as <- <-.
    repeat split. constructor; [by eexists _, _|constructor].
Qed.

Lemma preAllocate_free_vars e heap e' heap' :
  preAllocate e heap = Ok (e', heap') -> free_vars e' = free_vars e.
Proof. intros Hp. apply (same_free_vars _ preallocates_node). by exists heap, heap'. Qed.

Lemma preAllocate_annotated e heap e' heap' :
  preAllocate e heap = Ok (e', heap') -> annotated e -> annotated e'.
Proof. intros Hp. apply (same_annotated _ preallocates_node). by exists heap, heap'. Qed.

End Passes.

(** ** Variables in scope *)

Section Scopes.

Implicit Types (env ext : Env) (mem : Memory) (stk below : list Layer) (l : Layer)
  (r : EnvRef) (hidden k : nat).

Lemma names_of_app env ext : names_of (env ++ ext) = names_of env ∪ names_of ext.
Proof. unfold names_of. rewrite map_app, list_to_set_app_L. done. Qed.

Lemma names_of_combine (ns : list string) (locs : list Location) :
  length ns = length locs -> names_of (combine ns locs) = list_to_set ns.
Proof.
  intros Hlen. unfold names_of. f_equal.
  revert locs Hlen. induction ns as [|n ns IH]; intros [|x locs] Hlen; try done.
  cbn. f_equal. apply IH. by injection Hlen.
Qed.

Lemma names_of_take n env :
  names_of (take n env) = list_to_set (take n (map fst env)).
Proof. unfold names_of. by rewrite firstn_map. Qed.

(** A name of an environment is found in it. *)
Lemma names_of_lookup x env : x ∈ names_of env <-> is_Some (lookup_env x env).
Proof. unfold names_of. rewrite elem_of_list_to_set. apply lookup_env_bound. Qed.

(** The closure of a Lambda has the free variables that are bound
    where it is evaluated. *)
Lemma names_of_capture env (fv : gset string) : names_of (capture env fv) = fv ∩ names_of env.
Proof.
  apply set_eq. intros x. unfold names_of.
  rewrite elem_of_intersection, !elem_of_list_to_set. apply capture_names.
Qed.

Lemma bind_params_names varList : forall local i newEnv env',
  bind_params varList local i newEnv = Ok env' ->
  map fst env' = map fst newEnv ++ names varList.
Proof.
  induction varList as [|v vl IH]; intros local i newEnv env' Hb; cbn in Hb.
  - injection Hb as <-. by rewrite app_nil_r.
  - destruct (vec_at local (i + 1)) as [loc|]; [|done].
    rewrite (IH _ _ _ _ Hb), map_app. cbn. by rewrite <- app_assoc.
Qed.

(** *** The stack *)

(** The invariant looks at the names of the environments only. *)
Lemma scoped_stack_mem mem mem' stk : forall hidden,
  (forall l env, In l stk -> mem !! layer_env l = Some env ->
     exists env', mem' !! layer_env l = Some env' /\ map fst env' = map fst env) ->
  scoped_stack mem stk hidden -> scoped_stack mem' stk hidden.
Proof.
  induction stk as [|l stk IH]; intros hidden Hmem; cbn [scoped_stack]; [done|].
  intros [(env & Henv & Hh & Hl) Hrest]. split.
  - destruct (Hmem l env (or_introl eq_refl) Henv) as (env' & Henv' & Hnames).
    assert (Hlen : length env' = length env).
    { by rewrite <- (length_map fst env'), Hnames, length_map. }
    exists env'. split; [done|]. split; [lia|]. intros e He.
    rewrite names_of_take, Hnames, Hlen, <- names_of_take. by apply Hl.
  - apply IH; [|done]. intros l' env' Hin. apply Hmem. by right.
Qed.

Lemma scoped_stack_other mem r env' stk hidden :
  ~ In r (map layer_env stk) ->
  scoped_stack mem stk hidden -> scoped_stack (<[r := env']> mem) stk hidden.
Proof.
  intros Hr. apply scoped_stack_mem. intros l env Hin Henv. exists env. split; [|done].
  unfold Memory, EnvRef, Env in *. rewrite list_lookup_insert_ne; [done|].
  intros Heq. apply Hr, in_map_iff. by exists l.
Qed.

Lemma scoped_stack_app mem newEnv stk hidden :
  scoped_stack mem stk hidden -> scoped_stack (mem ++ [newEnv]) stk hidden.
Proof.
  apply scoped_stack_mem. intros l env _ Henv. exists env. split; [|done].
  unfold Memory, EnvRef, Env in *. by apply lookup_app_l_Some.
Qed.

(** A Letrec that pushes its bindings hides them from the layers under
    it in the frame. *)
Lemma scoped_stack_grow mem r env ext stk : forall hidden,
  refs_ok stk -> mem !! r = Some env ->
  (forall l, head stk = Some l -> layer_env l = r) ->
  scoped_stack mem stk hidden ->
  scoped_stack (<[r := env ++ ext]> mem) stk (hidden + length ext).
Proof.
  induction stk as [|l stk IH]; intros hidden Hrefs Hr Hhead; cbn [scoped_stack];
    [done|].
  intros [(env0 & Henv & Hh & Hl) Hrest].
  specialize (Hhead l eq_refl). rewrite Hhead in Henv.
  assert (env0 = env) as ->.
  { unfold Memory, EnvRef, Env in *. rewrite Hr in Henv. by injection Henv. }
  assert (Hlt : (r < length mem)%nat) by (by eapply lookup_lt_Some).
  split.
  - exists (env ++ ext). split.
    { rewrite Hhead. unfold Memory, EnvRef, Env in *. by apply list_lookup_insert_eq. }
    rewrite length_app. split; [lia|]. intros e He.
    replace (length env + length ext - (hidden + length ext))%nat
      with (length env - hidden)%nat by lia.
    rewrite take_app_le by lia. by apply Hl.
  - destruct Hrefs as [Hfirst Hrefs]. destruct (layer_frame l).
    + apply scoped_stack_other; [by rewrite <- Hhead|done].
    + replace (hidden + length ext + pushed l)%nat
        with (hidden + pushed l + length ext)%nat by lia.
      apply IH; [done|done| |done].
      intros l' Hl'. destruct stk as [|l0 stk]; [done|]. injection Hl' as <-.
      by rewrite <- Hfirst.
Qed.

(** ... and shows them no more when it has popped them. *)
Lemma scoped_stack_shrink mem r env k stk : forall hidden,
  refs_ok stk -> mem !! r = Some env -> (k <= hidden)%nat ->
  (forall l, head stk = Some l -> layer_env l = r) ->
  scoped_stack mem stk hidden ->
  scoped_stack (<[r := take (length env - k) env]> mem) stk (hidden - k).
Proof.
  induction stk as [|l stk IH]; intros hidden Hrefs Hr Hk Hhead; cbn [scoped_stack];
    [done|].
  intros [(env0 & Henv & Hh & Hl) Hrest].
  specialize (Hhead l eq_refl). rewrite Hhead in Henv.
  assert (env0 = env) as ->.
  { unfold Memory, EnvRef, Env in *. rewrite Hr in Henv. by injection Henv. }
  assert (Hlt : (r < length mem)%nat) by (by eapply lookup_lt_Some).
  split.
  - exists (take (length env - k) env). split.
    { rewrite Hhead. unfold Memory, EnvRef, Env in *. by apply list_lookup_insert_eq. }
    rewrite length_take. split; [lia|]. intros e He.
    rewrite take_take.
    replace ((length env - k) `min` length env - (hidden - k))%nat
      with (length env - hidden)%nat by lia.
    replace ((length env - hidden) `min` (length env - k))%nat
      with (length env - hidden)%nat by lia.
    by apply Hl.
  - destruct Hrefs as [Hfirst Hrefs]. destruct (layer_frame l).
    + apply scoped_stack_other; [by rewrite <- Hhead|done].
    + replace (hidden - k + pushed l)%nat with (hidden + pushed l - k)%nat by lia.
      apply IH; [done|done|lia| |done].
      intros l' Hl'. destruct stk as [|l0 stk]; [done|]. injection Hl' as <-.
      by rewrite <- Hfirst.
Qed.

(** Under a frame the layers see their whole environment. *)
Lemma scoped_stack_below_frame mem above f rest : forall hidden,
  layer_frame f = true ->
  scoped_stack mem (above ++ f :: rest) hidden -> scoped_stack mem rest 0.
Proof.
  induction above as [|l above IH]; intros hidden Hf; cbn [scoped_stack app].
  - rewrite Hf. by intros [_ ?].
  - intros [_ Hrest]. by eapply IH.
Qed.

(** A layer that changes its locals, or its program counter past the
    first step. *)
Lemma scoped_stack_update mem l l' below hidden :
  layer_env l' = layer_env l -> layer_expr l' = layer_expr l ->
  layer_frame l' = layer_frame l ->
  (forall m vel b, layer_expr l = Some (LetrecNode m vel b) ->
     (layer_pc l' =? 0) = (layer_pc l =? 0)) ->
  scoped_stack mem (l :: below) hidden -> scoped_stack mem (l' :: below) hidden.
Proof.
  intros Henv Hexpr Hframe Hpc. cbn [scoped_stack].
  assert (Hpushed : pushed l' = pushed l).
  { unfold pushed. rewrite Hexpr. destruct (layer_expr l) as [[]|]; try done.
    by erewrite Hpc. }
  assert (Hscope : forall e, layer_expr l = Some e -> in_scope l' e = in_scope l e).
  { intros e He. unfold in_scope. destruct e; try done. by erewrite Hpc. }
  rewrite Henv, Hexpr, Hframe, Hpushed.
  intros [(env & Hmem & Hh & Hl) Hrest]. split; [|done].
  exists env. split; [done|]. split; [done|]. intros e He.
  rewrite (Hscope e He). by apply Hl.
Qed.

Lemma scoped_stack_pop mem l below :
  pushed l = 0%nat -> scoped_stack mem (l :: below) 0 -> scoped_stack mem below 0.
Proof. cbn [scoped_stack]. intros ->. intros [_ Hrest]. by destruct (layer_frame l). Qed.

(** A layer whose node is no Letrec has pushed nothing. *)
Lemma pushed_other l e :
  layer_expr l = Some e -> ~ is_Letrec e -> pushed l = 0%nat.
Proof. unfold pushed. intros -> He. by destruct e. Qed.

(** The child of a node finds its names where the node finds the names
    in its scope. *)
Lemma scoped_stack_push mem l l' below e x :
  layer_expr l = Some e -> In x (children e) ->
  list_to_set (binders e) ⊆ in_scope l e ->
  layer_env l' = layer_env l -> layer_expr l' = layer_expr l ->
  layer_frame l' = layer_frame l ->
  (forall m vel b, e = LetrecNode m vel b -> (layer_pc l' =? 0) = (layer_pc l =? 0)) ->
  scoped_stack mem (l :: below) 0 ->
  scoped_stack mem (new_layer (layer_env l) (Some x) false :: l' :: below) 0.
Proof.
  intros He Hx Hbind Henv Hexpr Hframe Hpc Hs.
  pose proof Hs as [(env & Hmem & _ & Hl) _]. destruct (Hl e He) as [Hann Hscope].
  cbn [scoped_stack]. split.
  - exists env. split; [done|]. split; [lia|]. cbn. intros ? [= <-].
    split; [by eapply annotated_child|].
    pose proof (free_vars_child e x Hx) as Hsub.
    assert (Hin : in_scope (new_layer (layer_env l) (Some x) false) x = free_vars x).
    { unfold in_scope. destruct x; cbn; set_solver. }
    rewrite Hin. unfold in_scope in Hscope, Hbind |- *. set_solver.
  - cbn [layer_frame new_layer].
    replace (0 + pushed (new_layer (layer_env l) (Some x) false))%nat with 0%nat.
    + eapply scoped_stack_update; [done|done|done| |done].
      intros m vel b Hl'. apply (Hpc m vel b). congruence.
    + unfold pushed. cbn. by destruct x.
Qed.

End Scopes.

Lemma heap_at_scoped (heap : list Value) l v :
  Forall scoped_value heap -> heap_at heap l = Ok v -> scoped_value v.
Proof.
  intros Hh Hv%heap_at_Some%vec_at_In. rewrite Forall_forall in Hh.
  by apply Hh, list_elem_of_In.
Qed.

Lemma take_whole {A} (v : list A) : take (length v - 0) v = v.
Proof. by rewrite Nat.sub_0_r, firstn_all. Qed.

Lemma in_scope_new r x f : in_scope (new_layer r (Some x) f) x = free_vars x.
Proof. unfold in_scope. destruct x; cbn; set_solver. Qed.

Lemma in_scope_other (layer : Layer) e : ~ is_Letrec e -> in_scope layer e = free_vars e.
Proof. unfold in_scope. destruct e; cbn; set_solver. Qed.

Section Scope_step.

Context (H : Host).
Hypothesis Hhost :
  forall s w v w', eval_source H s w = Ok (v, w') -> ~ is_closure v.
Implicit Types (c : Config H) (layer : Layer) (below : list Layer) (env : Env).

(** A step that pops a layer whose node is no Letrec. *)
Lemma scope_ok_pop c c' layer below e :
  scoped_stack (memory c) (layer :: below) 0 ->
  layer_expr layer = Some e -> ~ is_Letrec e ->
  memory c' = memory c -> stack (state c') = below ->
  Forall scoped_value (heap (state c')) ->
  scope_ok c'.
Proof.
  intros Hs He Hne Hm Hstk Hh. split; [done|]. rewrite Hm, Hstk.
  eapply scoped_stack_pop; [|exact Hs]. by eapply pushed_other.
Qed.

(** A step that pushes a child of a node that is no Letrec. *)
Lemma scope_ok_push c layer layer' below e x :
  scope_ok c -> stack (state c) = layer :: below ->
  layer_expr layer = Some e -> ~ is_Letrec e ->
  (forall m varList expr, e <> LambdaNode m varList expr) ->
  In x (children e) ->
  layer_env layer' = layer_env layer -> layer_expr layer' = layer_expr layer ->
  layer_frame layer' = layer_frame layer ->
  scope_ok (push_child H c layer' below x).
Proof.
  intros [Hh Hs] Hstk He Hne Hnl Hx Henv Hexpr Hframe. split; [done|].
  unfold push_child. cbn [memory state stack set_stack].
  rewrite Hstk in Hs. rewrite Henv.
  eapply scoped_stack_push; try done.
  - destruct e; try done. by destruct (Hnl m varList e).
  - by intros m vel b ->.
Qed.

Lemma scope_ok_step c b c' :
  scope_ok c -> refs_ok (stack (state c)) -> step H c = Ok (b, c') -> scope_ok c'.
Proof.
  intros Hok Hrefs Hs. destruct b; [|by apply step_halted in Hs as ->].
  unfold step in Hs.
  destruct (stack (state c)) as [|layer below] eqn:Hstk; [done|].
  destruct (layer_expr layer) as [e|] eqn:He; [|done].
  ok_inv Hs. injection Hs as <-. rename E into Hs.
  pose proof Hok as [Hheap Hstack]. rewrite Hstk in Hstack.
  pose proof Hstack as [(env & Henv & _ & Hl) Hbelow].
  destruct (Hl e He) as [Hann Hscope]. rewrite take_whole in Hscope.
  assert (Hderef : deref (memory c) (layer_env layer) = Ok env).
  { unfold deref. unfold Memory, EnvRef, Env in *. by rewrite Henv. }
  destruct e as [m val loc|m val loc|v|m varList expr|m vel expr|m cond b1 b2
                |m es|m name args|m callee args|m var expr].
  - (* Integer *)
    injection Hs as <-. eapply (scope_ok_pop c _ layer below);
      [exact Hstack|exact He|by intros []|reflexivity|reflexivity|exact Hheap].
  - injection Hs as <-. eapply (scope_ok_pop c _ layer below);
      [exact Hstack|exact He|by intros []|reflexivity|reflexivity|exact Hheap].
  - (* Variable *)
    unfold step_Variable in Hs. rewrite Hderef in Hs.
    unfold mbind, result_bind in Hs. cbn [rbind] in Hs.
    destruct (lookup_env _ _) as [loc|] eqn:Hlook; [|discriminate Hs]. injection Hs as <-.
    eapply (scope_ok_pop c _ layer below);
      [exact Hstack|exact He|by intros []|reflexivity|reflexivity|exact Hheap].
  - (* Lambda *)
    unfold step_Lambda in Hs. rewrite Hderef in Hs.
    unfold mbind, result_bind in Hs. cbn [rbind] in Hs. cbn in Hs. injection Hs as <-.
    eapply (scope_ok_pop c _ layer below);
      [exact Hstack|exact He|by intros []|reflexivity|reflexivity|]. cbn.
    apply Forall_app. split; [done|]. constructor; [|constructor].
    split; [eapply annotated_child; [exact Hann|by left]|]. cbn [lam_expr lam_varList].
    rewrite names_of_capture.
    pose proof (annotated_root _ Hann) as Hroot. cbn [meta] in Hroot.
    rewrite in_scope_other in Hscope by (by intros []). rewrite Hroot.
    cbn [free_vars] in Hscope |- *. intros y Hy.
    destruct (decide (y ∈ (list_to_set (names varList) : gset string))); set_solver.
  - (* Letrec *)
    unfold step_Letrec in Hs. ok_inv Hs.
    lazymatch goal with
    | Hk : (if (1 <? _) && _ then _ else _) = Ok ?h |- _ =>
        rename Hk into Hknot; rename h into heap1
    end.
    assert (Hheap1 : Forall scoped_value heap1).
    { destruct (_ && _); [|by injection Hknot as <-].
      destruct (vec_at vel _) as [ve|]; [|done]. ok_inv Hknot.
      destruct (lookup_env _ _) as [L|]; [|done]. ok_inv Hknot.
      unfold vec_set in Hknot. destruct (_ && _); [|done]. injection Hknot as <-.
      apply Forall_insert; [done|]. by eapply heap_at_scoped. }
    set (c1 := mkConfig (world c) (memory c) (set_heap (state c) heap1)) in *.
    assert (Hok1 : scope_ok c1) by (split; [done|]; cbn; by rewrite Hstk).
    pose proof Hrefs as [Hfirst Hrbelow].
    assert (Hhead : layer_frame layer = false ->
                    forall l, head below = Some l -> layer_env l = layer_env layer).
    { intros Hf l Hl'. rewrite Hf in Hfirst. destruct below as [|l0 below']; [done|].
      injection Hl' as <-. done. }
    destruct (Z.eqb_spec (layer_pc layer) 0) as [Hpc0|Hpc0].
    { (* create all new locations *)
      rewrite Hderef in Hs. unfold mbind, result_bind in Hs. cbn [rbind] in Hs.
      rewrite letrec_alloc_spec in Hs. injection Hs as <-.
      set (ext := combine (bound_names vel) (fresh_locs (zlen heap1) (length vel))).
      assert (Hext : length ext = length vel).
      { unfold ext, bound_names, fresh_locs.
        rewrite length_combine, !length_map, length_seq. lia. }
      assert (Hnames : names_of ext = list_to_set (bound_names vel)).
      { apply names_of_combine. unfold bound_names, fresh_locs.
        by rewrite !length_map, length_seq. }
      assert (Hlt : (layer_env layer < length (memory c))%nat)
        by (by eapply lookup_lt_Some).
      split.
      { cbn. apply Forall_app. split; [done|]. by apply Forall_replicate. }
      cbn [memory state stack set_stack set_heap scoped_stack].
      cbn [set_pc layer_env layer_expr layer_frame].
      split.
      - exists (env ++ ext). split.
        { unfold Memory, EnvRef, Env in *. by apply list_lookup_insert_eq. }
        split; [lia|]. intros e He'. rewrite He in He'. injection He' as <-.
        split; [done|]. rewrite take_whole, names_of_app, Hnames.
        unfold in_scope in Hscope |- *. cbn [layer_pc set_pc].
        rewrite Hpc0 in Hscope |- *. cbn. set_solver.
      - assert (Hpushed : pushed (set_pc layer (layer_pc layer + 1)) = length vel).
        { unfold pushed. cbn. rewrite He, Hpc0. done. }
        assert (Hpushed0 : pushed layer = 0%nat).
        { unfold pushed. rewrite He, Hpc0. done. }
        rewrite Hpushed0 in Hbelow.
        destruct (layer_frame layer) eqn:Hframe.
        + by apply scoped_stack_other.
        + change (0 + pushed (set_pc layer (layer_pc layer + 1)))%nat
            with (pushed (set_pc layer (layer_pc layer + 1))).
          rewrite Hpushed, <- Hext.
          apply (scoped_stack_grow _ _ _ _ _ 0%nat); auto. }
    assert (Hbound : list_to_set (binders (LetrecNode m vel expr))
                     ⊆ in_scope layer (LetrecNode m vel expr)).
    { unfold in_scope. cbn [binders]. destruct (Z.eqb_spec (layer_pc layer) 0); [done|].
      set_solver. }
    destruct (layer_pc layer <=? zlen vel).
    { destruct (vec_at vel (layer_pc layer + 1 - 2)) as [ve|] eqn:Hve; [|done].
      injection Hs as <-. split; [done|].
      unfold push_child, c1. cbn [memory state stack set_stack set_heap].
      change (layer_env (set_pc layer (layer_pc layer + 1))) with (layer_env layer).
      eapply scoped_stack_push; try done.
      - cbn. apply in_or_app. left. apply in_map. by eapply vec_at_In.
      - intros ? ? ? _. cbn. apply vec_at_Some in Hve as [? _].
        destruct (Z.eqb_spec (layer_pc layer + 1) 0), (Z.eqb_spec (layer_pc layer) 0);
          try done; lia. }
    destruct (Z.eqb_spec (layer_pc layer) (zlen vel + 1)) as [Hpcn|Hpcn].
    { injection Hs as <-. split; [done|].
      unfold push_child, c1. cbn [memory state stack set_stack set_heap].
      change (layer_env (set_pc layer (layer_pc layer + 1))) with (layer_env layer).
      eapply scoped_stack_push; try done.
      - cbn. apply in_or_app. right. by left.
      - intros ? ? ? _. cbn. pose proof (zlen_nonneg vel).
        destruct (Z.eqb_spec (layer_pc layer + 1) 0), (Z.eqb_spec (layer_pc layer) 0);
          try done; lia. }
    rewrite Hderef in Hs. unfold mbind, result_bind in Hs. cbn [rbind] in Hs.
    unfold pop_n in Hs. destruct (_ <=? _)%nat eqn:Hle; [|done]. cbn [rbind] in Hs.
    injection Hs as <-. split; [done|]. cbn.
    assert (Hpushed : pushed layer = length vel).
    { unfold pushed. rewrite He. by destruct (Z.eqb_spec (layer_pc layer) 0). }
    rewrite Hpushed in Hbelow.
    destruct (layer_frame layer) eqn:Hframe.
    + by apply scoped_stack_other.
    + pose proof (scoped_stack_shrink (memory c) (layer_env layer) env (length vel) below
                    (length vel) Hrbelow Henv (le_n _) (Hhead eq_refl) Hbelow) as Hsh.
      by rewrite Nat.sub_diag in Hsh.
  - (* If *)
    unfold step_If in Hs.
    destruct (layer_pc layer =? 0).
    { injection Hs as <-.
      eapply scope_ok_push; [exact Hok|exact Hstk|exact He|by intros []|by intros|by left|done|done|done]. }
    destruct (layer_pc layer =? 1).
    { ok_inv Hs. destruct a0 as [|z| |]; try done.
      destruct (truthy z); injection Hs as <-.
      - eapply scope_ok_push;
          [exact Hok|exact Hstk|exact He|by intros []|by intros|by right; left|done|done|done].
      - eapply scope_ok_push;
          [exact Hok|exact Hstk|exact He|by intros []|by intros|by right; right; left|done|done|done]. }
    injection Hs as <-. eapply (scope_ok_pop c _ layer below);
      [exact Hstack|exact He|by intros []|reflexivity|reflexivity|exact Hheap].
  - (* Sequence *)
    unfold step_Sequence in Hs.
    destruct (layer_pc layer <? zlen es).
    { destruct (vec_at es _) as [x|] eqn:Hx; [|done]. injection Hs as <-.
      eapply scope_ok_push;
        [exact Hok|exact Hstk|exact He|by intros []|by intros|by eapply vec_at_In|done|done|done]. }
    injection Hs as <-. eapply (scope_ok_pop c _ layer below);
      [exact Hstack|exact He|by intros []|reflexivity|reflexivity|exact Hheap].
  - (* IntrinsicCall *)
    unfold step_IntrinsicCall in Hs.
    set (layer1 := if (0 <? _) && _ then _ else _) in Hs.
    assert (Hsame : layer_env layer1 = layer_env layer
                    /\ layer_expr layer1 = layer_expr layer
                    /\ layer_frame layer1 = layer_frame layer).
    { subst layer1. by destruct (_ && _). }
    destruct Hsame as (Henv1 & He1 & Hf1).
    destruct (layer_pc layer <? zlen args).
    { destruct (vec_at args _) as [x|] eqn:Hx; [|done]. injection Hs as <-.
      eapply scope_ok_push;
        [exact Hok|exact Hstk|exact He|by intros []|by intros|by eapply vec_at_In|done|done|done]. }
    ok_inv Hs. destruct a0 as [value w']. cbn in Hs. injection Hs as <-.
    eapply (scope_ok_pop c _ layer below);
      [exact Hstack|exact He|by intros []|reflexivity|reflexivity|]. cbn.
    apply Forall_app. split; [done|]. constructor; [|constructor].
    apply _callIntrinsic_first_order in E; [|done]. by destruct value.
  - (* ExprCall *)
    unfold step_ExprCall in Hs.
    set (layer1 := if (2 <? _) && _ then _ else _) in Hs.
    assert (Hsame : layer_env layer1 = layer_env layer
                    /\ layer_expr layer1 = layer_expr layer
                    /\ layer_frame layer1 = layer_frame layer).
    { subst layer1. by destruct (_ && _). }
    destruct Hsame as (Henv1 & He1 & Hf1).
    destruct (layer_pc layer =? 0).
    { injection Hs as <-.
      eapply scope_ok_push; [exact Hok|exact Hstk|exact He|by intros []|by intros|by left|done|done|done]. }
    destruct (layer_pc layer =? 1).
    { injection Hs as <-. split; [done|]. cbn [memory state stack set_stack].
      eapply (scoped_stack_update _ layer); [| | | |exact Hstack]; try done.
      by rewrite He. }
    destruct (layer_pc layer <=? zlen args + 1).
    { destruct (vec_at args _) as [x|] eqn:Hx; [|done]. injection Hs as <-.
      eapply scope_ok_push;
        [exact Hok|exact Hstk|exact He|by intros []|by intros|right; by eapply vec_at_In|done|done|done]. }
    destruct (layer_pc layer =? zlen args + 2).
    { ok_inv Hs. destruct a1 as [| | |cenv fn]; try done.
      destruct (negb _); [done|]. ok_inv Hs. cbn in Hs. injection Hs as <-.
      destruct (heap_at_scoped _ _ _ Hheap E0) as [Hbody Hfree].
      set (layer2 := set_pc layer1 (layer_pc layer + 1)) in *.
      lazymatch goal with
      | Hb : bind_params _ _ _ _ = Ok ?env', Ht : (if tail m then _ else _) = Ok ?stk |- _ =>
          rename Hb into Hbind; rename env' into newEnv;
          rename Ht into Htail; rename stk into stk'
      end.
      assert (Hstack2 : scoped_stack (memory c) (layer2 :: below) 0).
      { eapply (scoped_stack_update _ layer); [| | | |exact Hstack]; try done.
        by rewrite He. }
      assert (Hstk' : scoped_stack (memory c) stk' 0).
      { destruct (tail m).
        - ok_inv Htail.
          lazymatch goal with
          | Hp : pop_to_frame _ = Ok _ |- _ =>
              apply pop_to_frame_inv in Hp as (above & f & rest & Hsplit & -> & _ & Hf)
          end.
          cbn in Htail. injection Htail as <-. rewrite Hsplit in Hstack2.
          by eapply scoped_stack_below_frame.
        - by injection Htail as <-. }
      split; [done|]. cbn [memory state stack set_stack scoped_stack].
      cbn [new_layer layer_env layer_expr layer_frame]. split.
      - exists newEnv. split.
        { unfold Memory, EnvRef, Env in *. by apply list_lookup_middle. }
        split; [lia|]. intros ? [= <-]. split; [done|].
        rewrite take_whole. unfold names_of.
        rewrite (bind_params_names _ _ _ _ _ Hbind), list_to_set_app_L.
        fold (names_of cenv).
        change (mkLayer (length (memory c)) (Some (lam_expr fn)) true 0 [])
          with (new_layer (length (memory c)) (Some (lam_expr fn)) true).
        by rewrite in_scope_new.
      - by apply scoped_stack_app. }
    injection Hs as <-. eapply (scope_ok_pop c _ layer below);
      [exact Hstack|exact He|by intros []|reflexivity|reflexivity|exact Hheap].
  - (* At *)
    unfold step_At in Hs.
    destruct (layer_pc layer =? 0).
    { injection Hs as <-.
      eapply scope_ok_push; [exact Hok|exact Hstk|exact He|by intros []|by intros|by left|done|done|done]. }
    ok_inv Hs. destruct a0 as [| | |cenv fn] eqn:Ha; try done.
    destruct (lookup_env _ _) as [loc|] eqn:Hlook; [|done]. injection Hs as <-.
    eapply (scope_ok_pop c _ layer below);
      [exact Hstack|exact He|by intros []|reflexivity|reflexivity|exact Hheap].
Qed.

End Scope_step.

Section Scope_run.

Context (H : Host).
Hypothesis Hhost :
  forall s w v w', eval_source H s w = Ok (v, w') -> ~ is_closure v.
Implicit Types (c : Config H) (layer : Layer) (below : list Layer) (env : Env).

Lemma scoped_stack_reloc rho (mem : Memory) (stk : list Layer) : forall hidden : nat,
  scoped_stack mem stk hidden -> scoped_stack mem (map (reloc_layer rho) stk) hidden.
Proof.
  induction stk as [|l stk IH]; intros hidden; cbn [scoped_stack map]; [done|].
  intros [Hhead Hrest]. split; [exact Hhead|]. apply IH. exact Hrest.
Qed.

Lemma names_of_reloc rho env : map fst (reloc_env rho env) = map fst env.
Proof. unfold reloc_env. rewrite map_map. by apply map_ext. Qed.

Lemma scoped_value_reloc rho v : scoped_value v -> scoped_value (reloc_value rho v).
Proof.
  destruct v as [| | |env fn]; try done. cbn. unfold names_of.
  by rewrite names_of_reloc.
Qed.

(** A collection renames locations only. *)
Lemma scope_ok_gc c c' :
  scope_ok c -> refs_ok (stack (state c)) -> after Collect c = Some c' -> scope_ok c'.
Proof.
  intros [Hheap Hstack] Hrefs Hc.
  pose proof (after_Collect H c c' Hc) as Hafter. cbv zeta in Hafter.
  destruct Hafter as (heap1 & Hheap1 & Hframes & Hstk' & Hheap' & _).
  apply reloc_frames_spec in Hframes as (_ & Hget & Hkeep).
  2:{ rewrite frame_refs_rev. by apply NoDup_rev', refs_ok_NoDup. }
  split.
  - rewrite Hheap'. apply Forall_forall. intros v' Hv'%list_elem_of_In.
    apply in_map_iff in Hv' as (v & <- & Hv). apply scoped_value_reloc.
    rewrite Forall_forall in Hheap, Hheap1. apply Hheap, list_elem_of_In, Hheap1.
    by apply list_elem_of_In.
  - rewrite Hstk'. apply scoped_stack_reloc.
    eapply scoped_stack_mem; [|exact Hstack]. intros l env _ Henv.
    destruct (In_dec Nat.eq_dec (layer_env l) (frame_refs (rev (stack (state c)))))
      as [Hin|Hout].
    + exists (reloc_env (gc_relocation c) env). rewrite (Hget _ Hin).
      unfold Memory, EnvRef, Env in *. rewrite Henv. split; [done|].
      apply names_of_reloc.
    + exists env. rewrite (Hkeep _ Hout). done.
Qed.

(** The constructor leaves a closed program in scope. *)
Lemma scope_ok_boot (w : World H) e uninit (c0 : Config H) :
  unannotated e -> free_vars e = ∅ ->
  boot H w e uninit = Ok c0 -> scope_ok c0.
Proof.
  intros Hun Hclosed Hb.
  destruct (boot_literals H w e uninit c0 Hb) as [_ Hlits].
  unfold boot, State_new in Hb. ok_inv Hb. destruct a as [mem s].
  injection Hb as <-. ok_inv E. destruct a0 as [e' heap']. cbn in E.
  injection E as <- <-. cbn in Hlits. split.
  - cbn. eapply Forall_impl; [exact Hlits|]. by intros v [[z ->]|[s ->]].
  - assert (Hann : annotated e').
    { eapply preAllocate_annotated; [exact E1|].
      by apply computeTail_annotated, computeFreeVars_annotated. }
    assert (Hfree : free_vars e' = ∅).
    { by rewrite (preAllocate_free_vars _ _ _ _ E1), computeTail_free_vars,
        computeFreeVars_free_vars. }
    cbn [memory state stack scoped_stack new_layer layer_env layer_expr layer_frame].
    assert (Hp : pushed (new_layer 0%nat (Some e') false) = 0%nat).
    { unfold pushed. cbn. by destruct e'. }
    rewrite Hp.
    split; [|split; [|done]].
    + exists []. split; [done|]. split; [cbn; lia|]. intros ? [= <-].
      split; [done|]. rewrite in_scope_new, Hfree. set_solver.
    + exists []. split; [done|]. split; [cbn; lia|]. by intros ? [=].
Qed.

Lemma scope_ok_run (w : World H) e uninit (c0 : Config H) evs :
  unannotated e -> free_vars e = ∅ ->
  boot H w e uninit = Ok c0 ->
  forall c, run_events c0 evs = Some c -> scope_ok c.
Proof.
  intros Hun Hclosed Hb.
  induction evs as [|ev evs IH] using rev_ind; intros c Hrun.
  - injection Hrun as <-. by eapply scope_ok_boot.
  - rewrite run_events_app in Hrun.
    destruct (run_events c0 evs) as [c1|] eqn:Hr1; [|done].
    cbn in Hrun. destruct (after ev c1) as [c2|] eqn:Hev; [|done].
    injection Hrun as ->. specialize (IH c1 eq_refl).
    destruct (reachable_inv H (first_order_distinct H Hhost) c0 w e uninit evs Hb c1 Hr1)
      as [gs Hinv].
    destruct ev.
    + cbn in Hev. destruct (step H c1) as [[b c2]|] eqn:Hs; [|done].
      injection Hev as ->. eapply scope_ok_step; [exact Hhost|exact IH|apply Hinv|exact Hs].
    + eapply scope_ok_gc; [exact IH|apply Hinv|exact Hev].
Qed.

(** In a run of a closed program, the free variables of the node under
    evaluation are bound in the environment of its layer. *)
Lemma free_vars_bound (w : World H) e uninit (c0 c : Config H) evs layer below e' :
  unannotated e -> free_vars e = ∅ ->
  boot H w e uninit = Ok c0 ->
  run_events c0 evs = Some c ->
  stack (state c) = layer :: below -> layer_expr layer = Some e' ->
  exists env,
    memory c !! layer_env layer = Some env
    /\ annotated e'
    /\ free_vars e' ⊆ names_of env.
Proof.
  intros Hun Hclosed Hb Hrun Hstk He.
  destruct (scope_ok_run w e uninit c0 evs Hun Hclosed Hb c Hrun) as [_ Hstack].
  rewrite Hstk in Hstack. destruct Hstack as [(env & Henv & _ & Hl) _].
  destruct (Hl e' He) as [Hann Hscope]. rewrite take_whole in Hscope.
  exists env. split; [done|]. split; [done|]. unfold in_scope in Hscope. set_solver.
Qed.

End Scope_run.

(** X16: On a tree as the parser builds it, [computeFreeVars] records at
    every node the free variables of the node: the names of the
    variables in it that no Lambda and no Letrec of the node binds
    around them. *)
Theorem computeFreeVars_records_free_vars (e : ExprNode) :
  unannotated e ->
  annotated (computeFreeVars e)
  /\ freeVars (meta (computeFreeVars e)) = free_vars e.
Proof.
  intros Hun. pose proof (computeFreeVars_annotated e Hun) as Hann.
  split; [done|]. by rewrite (annotated_root _ Hann), computeFreeVars_free_vars.
Qed.

(** X17: In a run of a closed program, a tree as the parser builds it
    without free variables, whose [.eval] returns no closures, every
    free variable of the node under evaluation is bound in the
    environment of its layer; so the step of a variable finds its
    location and does not fail. *)
Theorem variables_are_bound (H : Host) (w : World H) (e : ExprNode)
    (uninit : Location) (c0 c : Config H) (evs : list event)
    (layer : Layer) (below : list Layer) (e' : ExprNode) :
  (forall s w v w', eval_source H s w = Ok (v, w') -> ~ is_closure v) ->
  unannotated e -> free_vars e = ∅ ->
  boot H w e uninit = Ok c0 ->
  run_events c0 evs = Some c ->
  stack (state c) = layer :: below -> layer_expr layer = Some e' ->
  exists env,
    memory c !! layer_env layer = Some env
    /\ (forall x, x ∈ free_vars e' -> is_Some (lookup_env x env))
    /\ (forall v, e' = VarNode v ->
          exists loc, lookup_env (name v) env = Some loc
                      /\ step H c = Ok (true, publish H c below (state c) loc)).
Proof.
  intros Hhost Hun Hclosed Hb Hrun Hstk He.
  destruct (free_vars_bound H Hhost w e uninit c0 c evs layer below e'
              Hun Hclosed Hb Hrun Hstk He) as (env & Henv & _ & Hsub).
  exists env. split; [done|]. split.
  - intros x Hx. apply names_of_lookup. set_solver.
  - intros v ->. destruct (proj1 (names_of_lookup (name v) env)) as [loc Hloc].
    { cbn in Hsub. set_solver. }
    exists loc. split; [done|].
    unfold step. rewrite Hstk, He. unfold step_Variable, deref.
    unfold Memory, EnvRef, Env in *. rewrite Henv. cbn. by rewrite Hloc.
Qed.

(** X18: In a run of a closed program, a tree as the parser builds it
    without free variables, whose [.eval] returns no closures, the
    closure that the step of a Lambda allocates binds each free
    variable of the Lambda once, to the location that the variable has
    where the Lambda is evaluated, and binds no other name. *)
Theorem closure_binds_free_vars (H : Host) (w : World H) (e : ExprNode)
    (uninit : Location) (c0 c : Config H) (evs : list event)
    (layer : Layer) (below : list Layer) m varList expr :
  (forall s w v w', eval_source H s w = Ok (v, w') -> ~ is_closure v) ->
  unannotated e -> free_vars e = ∅ ->
  boot H w e uninit = Ok c0 ->
  run_events c0 evs = Some c ->
  stack (state c) = layer :: below ->
  layer_expr layer = Some (LambdaNode m varList expr) ->
  exists env saved c',
    memory c !! layer_env layer = Some env
    /\ step H c = Ok (true, c')
    /\ getResult (state c') = Ok (Closure saved (mkLambda m varList expr))
    /\ (forall x, count_name x saved
                  = if decide (x ∈ free_vars (LambdaNode m varList expr))
                    then 1%nat else 0%nat)
    /\ (forall x, x ∈ free_vars (LambdaNode m varList expr) ->
          exists loc, lookup_env x saved = Some loc /\ lookup_env x env = Some loc).
Proof.
  intros Hhost Hun Hclosed Hb Hrun Hstk He.
  destruct (free_vars_bound H Hhost w e uninit c0 c evs layer below _
              Hun Hclosed Hb Hrun Hstk He) as (env & Henv & Hann & Hsub).
  pose proof (annotated_root _ Hann) as Hroot. cbn [meta] in Hroot.
  exists env, (capture env (freeVars m)). eexists. split; [done|]. split.
  { unfold step. rewrite Hstk, He. unfold step_Lambda, deref.
    unfold Memory, EnvRef, Env in *. rewrite Henv. reflexivity. }
  split; [apply heap_at_last|]. split.
  - intros x. rewrite count_name_NoDup by apply capture_NoDup.
    rewrite <- Hroot.
    assert (Hiff : x ∈ map fst (capture env (freeVars m)) <-> x ∈ freeVars m).
    { rewrite capture_names. split; [tauto|]. intros Hx. split; [done|].
      rewrite Hroot in Hx. apply Hsub in Hx. by apply elem_of_list_to_set in Hx. }
    repeat case_decide; tauto.
  - intros x Hx. destruct (proj1 (names_of_lookup x env)) as [loc Hloc]; [by apply Hsub|].
    exists loc. split; [|done]. rewrite capture_lookup; [done|]. by rewrite Hroot.
Qed.

(** *** The trees of the parser *)

Section Parsed.

Lemma yields_bind {A B} (P : A -> Prop) (P' : B -> Prop) (p : parser A) (k : A -> parser B) :
  yields P p -> (forall a, P a -> yields P' (k a)) -> yields P' (p ≫= k).
Proof.
  intros Hp Hk tokens b rest. unfold mbind, parser_bind, parser_bind_def.
  destruct (p tokens) as [[[a rest']|err]|] eqn:Ha; try done.
  intros Hb. eapply Hk; [|exact Hb]. by eapply Hp.
Qed.

Lemma yields_ret {A} (P : A -> Prop) (a : A) : P a -> yields P (mret a : parser A).
Proof. intros Ha tokens b rest [= <- _]. exact Ha. Qed.

Lemma yields_any {A} (p : parser A) : yields (fun _ => True) p.
Proof. by intros tokens a rest _. Qed.

Lemma yields_at {A} (P : A -> Prop) (p : parser A) tokens a rest :
  yields P p -> p tokens = Done (Ok (a, rest)) -> P a.
Proof. intros Hp. apply Hp. Qed.

Lemma unannotated_node e :
  freeVars (meta e) = ∅ -> Forall unannotated (children e) -> unannotated e.
Proof. intros Hroot Hall. by apply every_node_children. Qed.

Lemma parseVariable_yields : yields (fun v => freeVars (var_meta v) = ∅) parseVariable.
Proof.
  unfold parseVariable. apply (yields_bind (fun _ => True)); [apply yields_any|].
  intros t _. by apply yields_ret.
Qed.

Section Callback.

Variable parseExpr : parser ExprNode.
Hypothesis parseExpr_yields : yields unannotated parseExpr.

Lemma parseBindings_yields n : forall varExprList,
  Forall unannotated (map snd varExprList) ->
  yields (fun ves => Forall unannotated (map snd ves)) (parseBindings parseExpr n varExprList).
Proof.
  induction n as [|n IH]; intros vel Hvel tokens a rest Hp.
  - destruct tokens as [|t tokens]; cbn in Hp; [by injection Hp as <- _|].
    destruct (isVariableToken t); [done|]. by injection Hp as <- _.
  - destruct tokens as [|t tokens]; cbn [parseBindings] in Hp; [by injection Hp as <- _|].
    destruct (isVariableToken t); [|by injection Hp as <- _].
    revert Hp. apply (yields_at (fun ves => Forall unannotated (map snd ves))).
    apply (yields_bind (fun _ => True)); [apply yields_any|].
    intros v _. apply (yields_bind unannotated); [exact parseExpr_yields|].
    intros e He. apply IH. rewrite map_app. apply Forall_app. split; [done|].
    by constructor.
Qed.

Lemma parseExprs_yields n closing : forall exprList,
  Forall unannotated exprList ->
  yields (Forall unannotated) (parseExprs parseExpr n closing exprList).
Proof.
  induction n as [|n IH]; intros es Hes tokens a rest Hp.
  - destruct tokens as [|t tokens]; cbn in Hp; [by injection Hp as <- _|].
    destruct (negb _); [done|]. by injection Hp as <- _.
  - destruct tokens as [|t tokens]; cbn [parseExprs] in Hp; [by injection Hp as <- _|].
    destruct (negb _); [|by injection Hp as <- _].
    revert Hp. apply (yields_at (Forall unannotated)).
    apply (yields_bind unannotated); [exact parseExpr_yields|].
    intros e He. apply IH. apply Forall_app. split; [done|]. by constructor.
Qed.

Ltac skip_token :=
  apply (yields_bind (fun _ => True)); [apply yields_any|]; intros ? _.

Ltac read_expr e He :=
  apply (yields_bind unannotated); [exact parseExpr_yields|]; intros e He.

Ltac read_exprs es Hes :=
  apply (yields_bind (Forall unannotated)); [apply parseExprs_yields; constructor|];
  intros es Hes.

Lemma parseExpr_body_yields n : yields unannotated (parseExpr_body parseExpr n).
Proof.
  intros tokens a rest Hp. unfold parseExpr_body in Hp.
  destruct tokens as [|t0 rest0] eqn:Htokens; [done|]. rewrite <- Htokens in Hp.
  clear Htokens. revert Hp.
  destruct (isIntegerToken t0).
  { apply (yields_at unannotated). unfold parseInteger. skip_token. apply yields_ret. by apply unannotated_node. }
  destruct (isStringToken t0).
  { apply (yields_at unannotated). unfold parseString. skip_token. apply yields_ret. by apply unannotated_node. }
  destruct (String.eqb (tok_text t0) "lambda").
  { apply (yields_at unannotated). unfold parseLambda. skip_token. skip_token. skip_token. skip_token.
    read_expr e He. apply yields_ret. apply unannotated_node; [done|]. by constructor. }
  destruct (String.eqb (tok_text t0) "letrec").
  { apply (yields_at unannotated). unfold parseLetrec. skip_token. skip_token.
    apply (yields_bind (fun ves => Forall unannotated (map snd ves)));
      [apply parseBindings_yields; constructor|].
    intros vel Hvel. skip_token. read_expr e He. apply yields_ret.
    apply unannotated_node; [done|]. cbn. apply Forall_app. split; [done|].
    by constructor. }
  destruct (String.eqb (tok_text t0) "if").
  { apply (yields_at unannotated). unfold parseIf. skip_token. read_expr c Hc. read_expr b1 Hb1. read_expr b2 Hb2.
    apply yields_ret. apply unannotated_node; [done|]. by repeat constructor. }
  destruct (isVariableToken t0).
  { apply (yields_at unannotated).
    apply (yields_bind (fun v => freeVars (var_meta v) = ∅)); [apply parseVariable_yields|].
    intros v Hv. apply yields_ret. by apply unannotated_node. }
  destruct (String.eqb (tok_text t0) "{").
  { apply (yields_at unannotated). unfold parseSequence. skip_token. read_exprs es Hes. skip_token. skip_token.
    apply yields_ret. by apply unannotated_node. }
  destruct (String.eqb (tok_text t0) "(").
  { destruct rest0 as [|t1 rest1]; [done|]. destruct (isIntrinsicToken t1).
    - apply (yields_at unannotated). unfold parseIntrinsicCall. skip_token. skip_token. read_exprs es Hes. skip_token.
      apply yields_ret. by apply unannotated_node.
    - apply (yields_at unannotated). unfold parseExprCall. skip_token. read_expr f Hf. read_exprs es Hes. skip_token.
      apply yields_ret. apply unannotated_node; [done|]. by constructor. }
  destruct (String.eqb (tok_text t0) "@").
  { apply (yields_at unannotated). unfold parseAt. skip_token. skip_token. read_expr e He.
    apply yields_ret. apply unannotated_node; [done|]. by constructor. }
  done.
Qed.

End Callback.

Lemma parseExpr_yields fuel : yields unannotated (parseExpr fuel).
Proof.
  induction fuel as [|fuel IH]; [done|]. cbn [parseExpr].
  by apply parseExpr_body_yields.
Qed.

(** The parser leaves the free variables of every node empty. *)
Lemma parse_unannotated tokens e : parse tokens = Done (Ok e) -> unannotated e.
Proof.
  unfold parse. destruct (parseExpr _ tokens) as [[[e' rest]|err]|] eqn:Hp; try done.
  destruct rest; [|done]. intros [= <-]. by eapply parseExpr_yields.
Qed.

End Parsed.

(** X19: In the State that the constructor builds from a text, every
    node of the program records its free variables, and they are those
    of the node that the parser has built. *)
Theorem constructor_records_free_vars (source : string) (uninit : Location)
    (mem mem' : Memory) (s : State) :
  State_of_source source uninit mem = Done (Ok (mem', s)) ->
  annotated (st_expr s)
  /\ exists tokens e,
       lex source = Done (Ok tokens) /\ parse tokens = Done (Ok e)
       /\ unannotated e
       /\ free_vars (st_expr s) = free_vars e.
Proof.
  unfold State_of_source.
  destruct (lex source) as [[tokens|err]|] eqn:Hlex; try done.
  destruct (parse tokens) as [[e|err]|] eqn:Hparse; try done.
  intros [= Hnew]. pose proof (parse_unannotated tokens e Hparse) as Hun.
  unfold State_new in Hnew. ok_inv Hnew. ok_inv Hnew. destruct a0 as [e' heap'].
  cbn in Hnew. injection Hnew as <- <-. cbn [st_expr]. split.
  - eapply preAllocate_annotated; [exact E0|].
    by apply computeTail_annotated, computeFreeVars_annotated.
  - exists tokens, e. split; [done|]. split; [done|]. split; [done|].
    by rewrite (preAllocate_free_vars _ _ _ _ E0), computeTail_free_vars,
      computeFreeVars_free_vars.
Qed.

(** ** The nodes that the machine holds *)

Section Nodes.

Context (H : Host).
Hypothesis Hhost :
  forall s w v w', eval_source H s w = Ok (v, w') -> ~ is_closure v.
Variable P : ExprNode -> Prop.
Hypothesis P_children : forall e x, P e -> In x (children e) -> P x.
Implicit Types (c : Config H) (layer : Layer) (below : list Layer).

Lemma heap_at_closure_ok (heap : list Value) loc v :
  Forall (closure_ok P) heap -> heap_at heap loc = Ok v -> closure_ok P v.
Proof.
  intros Hh Hv%heap_at_Some%vec_at_In. rewrite Forall_forall in Hh.
  by apply Hh, list_elem_of_In.
Qed.

Lemma nodes_ok_step c b c' : nodes_ok P c -> step H c = Ok (b, c') -> nodes_ok P c'.
Proof.
  intros [Hstk Hheap] Hs. destruct b; [|by apply step_halted in Hs as ->].
  destruct (stack (state c)) as [|layer below] eqn:Hstack.
  { unfold step in Hs. by rewrite Hstack in Hs. }
  destruct (layer_expr layer) as [e|] eqn:He.
  2:{ unfold step in Hs. by rewrite Hstack, He in Hs. }
  pose proof (step_transition H c c' layer below e Hstack He Hs) as Ht.
  apply Forall_cons in Hstk as [Hl Hbelow]. pose proof (Hl e He) as HPe.
  assert (Hsame : forall layer', same_layer layer layer' ->
                    forall x, layer_expr layer' = Some x -> P x).
  { intros layer' (_ & Hexpr & _) x Hx. apply Hl. by rewrite <- Hexpr. }
  destruct Ht as [vs Hne Hmem Hstk' Hheap' Hprod
                 |layer' x Hne Hsl Hx Hmem Hstk' Hheap'
                 |layer' Hne Hsl Hmem Hstk' Hheap'
                 |m vel b env -> Hpc Henv Hmem Hstk' Hheap'
                 |m vel b x -> Hpc Hx Hmem Hstk' Hknot
                 |m vel b env -> Hpc Henv Hle Hmem Hstk' Hheap'
                 |layer' loc cenv fn newEnv Hne Hsl Hclos Hmem Hstk' Hheap'
                 |above f rest loc cenv fn newEnv Hne Hsplit Habove Hf Hclos Hmem Hstk' Hheap'];
    split; rewrite ?Hstk', ?Hheap'; try done.
  - (* a value is appended *)
    apply Forall_app. split; [done|]. eapply Forall_impl; [exact Hprod|].
    intros v [(m & vl & b & env & -> & ->)|(heap & sl & name & args & w & w' & Hcall)].
    + exact HPe.
    + apply _callIntrinsic_first_order in Hcall; [|done]. by destruct v.
  - constructor; [|constructor; [by apply Hsame|done]].
    cbn. intros ? [= <-]. by eapply P_children.
  - constructor; [by apply Hsame|done].
  - constructor; [|done]. apply Hsame, same_layer_set_pc.
  - apply Forall_app. split; [done|]. by apply Forall_replicate.
  - constructor; [|constructor; [|done]].
    + cbn. intros ? [= <-]. by eapply P_children.
    + apply Hsame, same_layer_set_pc.
  - unfold knot in Hknot. destruct (layer_pc layer <? 2); [by rewrite Hknot|].
    destruct Hknot as (ve & env & L & v & _ & _ & _ & Hv & _ & ->).
    apply Forall_insert; [done|]. by eapply heap_at_closure_ok.
  - constructor; [|constructor; [by apply Hsame|done]].
    cbn. intros ? [= <-].
    pose proof (heap_at_closure_ok _ _ _ Hheap Hclos) as Hfn. cbn in Hfn.
    eapply P_children; [exact Hfn|by left].
  - assert (Hall : Forall (fun l => forall e, layer_expr l = Some e -> P e)
                          (layer :: below)) by (by constructor).
    rewrite Hsplit in Hall. apply Forall_app in Hall as [_ Hall].
    apply Forall_cons in Hall as [_ Hrest]. constructor; [|done].
    cbn. intros ? [= <-].
    pose proof (heap_at_closure_ok _ _ _ Hheap Hclos) as Hfn. cbn in Hfn.
    eapply P_children; [exact Hfn|by left].
Qed.

Lemma nodes_ok_gc c c' : nodes_ok P c -> after Collect c = Some c' -> nodes_ok P c'.
Proof.
  intros [Hstk Hheap] Hc.
  pose proof (after_Collect H c c' Hc) as Hafter. cbv zeta in Hafter.
  destruct Hafter as (heap1 & Hheap1 & _ & Hstk' & Hheap' & _).
  split.
  - rewrite Hstk'. apply Forall_forall. intros l' Hl'%list_elem_of_In.
    apply in_map_iff in Hl' as (l & <- & Hl). cbn.
    rewrite Forall_forall in Hstk. by apply Hstk, list_elem_of_In.
  - rewrite Hheap'. apply Forall_forall. intros v' Hv'%list_elem_of_In.
    apply in_map_iff in Hv' as (v & <- & Hv).
    rewrite Forall_forall in Hheap, Hheap1.
    assert (Hok : closure_ok P v).
    { apply Hheap, list_elem_of_In, Hheap1. by apply list_elem_of_In. }
    by destruct v.
Qed.

(** The machine right after the constructor: the layer of the program
    over the main frame, and the literals in the heap. *)
Lemma boot_stack (w : World H) e uninit (c0 : Config H) :
  boot H w e uninit = Ok c0 ->
  exists r,
    stack (state c0) = [new_layer r (Some (st_expr (state c0))) false;
                        new_layer r None true]
    /\ Forall is_literal_value (heap (state c0)).
Proof.
  intros Hb. destruct (boot_literals H w e uninit c0 Hb) as [_ Hlits].
  unfold boot, State_new in Hb. ok_inv Hb. destruct a as [mem s].
  injection Hb as <-. ok_inv E. destruct a0 as [e' heap']. cbn in E.
  injection E as <- <-. by eexists.
Qed.

Lemma nodes_ok_boot (w : World H) e uninit (c0 : Config H) :
  boot H w e uninit = Ok c0 -> P (st_expr (state c0)) -> nodes_ok P c0.
Proof.
  intros Hb HP. destruct (boot_stack w e uninit c0 Hb) as (r & Hstk & Hlits).
  split.
  - rewrite Hstk. constructor; [by intros ? [= <-]|]. constructor; [done|constructor].
  - eapply Forall_impl; [exact Hlits|]. by intros v [[z ->]|[s ->]].
Qed.

Lemma nodes_ok_run (w : World H) e uninit (c0 : Config H) evs :
  boot H w e uninit = Ok c0 -> P (st_expr (state c0)) ->
  forall c, run_events c0 evs = Some c -> nodes_ok P c.
Proof.
  intros Hb HP. induction evs as [|ev evs IH] using rev_ind; intros c Hrun.
  - injection Hrun as <-. by eapply nodes_ok_boot.
  - rewrite run_events_app in Hrun.
    destruct (run_events c0 evs) as [c1|] eqn:Hr1; [|done].
    cbn in Hrun. destruct (after ev c1) as [c2|] eqn:Hev; [|done].
    injection Hrun as ->. specialize (IH c1 eq_refl). destruct ev.
    + cbn in Hev. destruct (step H c1) as [[b c2]|] eqn:Hs; [|done].
      injection Hev as ->. by eapply nodes_ok_step.
    + by eapply nodes_ok_gc.
Qed.

End Nodes.

(** *** The literals of the nodes *)

Section Literal_nodes.

Implicit Types (e x : ExprNode) (heap : list Value).

Lemma flat_map_map_snd {B} (f : ExprNode -> list B) (ves : list (VariableNode * ExprNode)) :
  flat_map f (map snd ves) = flat_map (fun ve => f (snd ve)) ves.
Proof. induction ves as [|ve ves IH]; cbn; [done|]. by rewrite IH. Qed.

Lemma literal_locs_eq e :
  literal_locs e = own_loc e ++ flat_map literal_locs (children e).
Proof.
  destruct e as [m val loc|m val loc|v|m vl b|m vel b|m c b1 b2|m es|m f args
                |m f args|m v b]; cbn [literal_locs own_loc children flat_map app];
    rewrite ?flat_map_app, ?flat_map_map_snd; cbn [flat_map];
    by rewrite ?app_nil_r.
Qed.

Lemma literals_eq e : literals e = own_lit e ++ flat_map literals (children e).
Proof.
  destruct e as [m val loc|m val loc|v|m vl b|m vel b|m c b1 b2|m es|m f args
                |m f args|m v b]; cbn [literals own_lit children flat_map app];
    rewrite ?flat_map_app, ?flat_map_map_snd; cbn [flat_map];
    by rewrite ?app_nil_r.
Qed.

Lemma own_length e : length (own_loc e) = length (own_lit e).
Proof. by destruct e. Qed.

Lemma literal_length e : length (literal_locs e) = length (literals e).
Proof.
  induction e as [e IH] using ExprNode_children_ind.
  rewrite literal_locs_eq, literals_eq, !length_app, own_length. f_equal.
  induction IH as [|x xs Hx _ IHxs]; cbn; [done|].
  by rewrite !length_app, Hx, IHxs.
Qed.

Lemma literals_at_child heap e x :
  literals_at heap e -> In x (children e) -> literals_at heap x.
Proof.
  unfold literals_at. rewrite (literal_locs_eq e), (literals_eq e).
  intros [_ Hall]%Forall2_app_inv; [|apply own_length]. revert Hall.
  induction (children e) as [|y ys IH]; cbn [flat_map]; [done|].
  intros [Hy Hys]%Forall2_app_inv; [|apply literal_length].
  intros [->|Hin]; [done|]. by apply IH.
Qed.

(** The constructor gives every literal of the program the location of
    its value. *)
Lemma boot_literals_at (H : Host) (w : World H) e uninit (c0 : Config H) :
  boot H w e uninit = Ok c0 ->
  literals_at (heap (state c0)) (st_expr (state c0)).
Proof.
  unfold boot, State_new. intros Hb. ok_inv Hb. destruct a as [mem s].
  injection Hb as <-. ok_inv E. destruct a0 as [e' heap']. cbn in E.
  injection E as <- <-. cbn [state heap st_expr].
  pose proof (preAllocate_literals (computeTail (computeFreeVars e) false) []) as Hpre.
  rewrite E1 in Hpre. destruct Hpre as (Hl & Hloc & vs & Hvs & ->). cbn [app] in *.
  unfold literals_at. rewrite Hl, Hloc.
  apply (located_values _ _ _ []). exact Hvs.
Qed.

End Literal_nodes.

Section Program_nodes.

Context (H : Host).
Hypothesis Hhost :
  forall s w v w', eval_source H s w = Ok (v, w') -> ~ is_closure v.

Ltac crunch_expr Hs :=
  repeat first
    [ progress ok_inv Hs
    | match type of Hs with
      | Ok _ = Ok _ => injection Hs as <-
      | Err _ = Ok _ => discriminate Hs
      | panic _ _ _ = Ok _ => discriminate Hs
      | (let '(_, _) := ?p in _) = _ => destruct p eqn:?
      | (if ?b then _ else _) = _ => destruct b eqn:?
      | match ?x with _ => _ end = _ => destruct x eqn:?
      end ].

Lemma step_st_expr (c : Config H) b c' :
  step H c = Ok (b, c') -> st_expr (state c') = st_expr (state c).
Proof.
  unfold step. intros Hs.
  destruct (stack (state c)) as [|layer below]; [done|].
  destruct (layer_expr layer) as [e|]; [|by injection Hs as <- <-].
  ok_inv Hs. injection Hs as <- <-. rename E into Hs.
  destruct e; unfold step_Variable, step_Lambda, step_Letrec, step_If, step_Sequence,
    step_IntrinsicCall, step_ExprCall, step_At, publish, push_child, _new,
    make_shared in Hs;
    crunch_expr Hs; try done.
Qed.

Lemma gc_st_expr (c c' : Config H) :
  after Collect c = Some c' -> st_expr (state c') = st_expr (state c).
Proof.
  cbn. unfold _gc. destruct (_mark H c) as [[visited|]|]; try done.
  unfold _sweepAndCompact. destruct (sweep_loop _ _ _ _ _ _) as [[heap1 i] rel].
  unfold _relocate. cbn. destruct (reloc_frames _ _ _); [|done]. cbn.
  by intros [= <-].
Qed.

Lemma run_st_expr (c0 c : Config H) evs :
  run_events c0 evs = Some c -> st_expr (state c) = st_expr (state c0).
Proof.
  revert c0. induction evs as [|ev evs IH]; intros c0 Hrun; [by injection Hrun as <-|].
  cbn in Hrun. destruct (after ev c0) as [c1|] eqn:Hev; [|done].
  rewrite (IH c1 Hrun). destruct ev.
  - cbn in Hev. destruct (step H c0) as [[b c2]|] eqn:Hs; [|done].
    injection Hev as ->. by eapply step_st_expr.
  - by apply gc_st_expr.
Qed.

(** In a run, the machine holds nodes of the program only, each
    literal of which has the location of its value. *)
Lemma program_nodes (w : World H) e uninit (c0 c : Config H) evs :
  boot H w e uninit = Ok c0 ->
  run_events c0 evs = Some c ->
  nodes_ok (fun x => node_of (st_expr (state c0)) x
                     /\ literals_at (heap (state c0)) x) c.
Proof.
  intros Hb Hrun. eapply (nodes_ok_run H Hhost); [|exact Hb| |exact Hrun].
  - intros x y [Hx Hl] Hin. split; [by eapply node_child|by eapply literals_at_child].
  - split; [constructor|by eapply boot_literals_at].
Qed.

End Program_nodes.

(** X20: In a run of a program whose [.eval] returns no closures, the
    machine evaluates nodes of the program only: the node of every
    layer and the Lambda of every closure of the heap are nodes of the
    tree that the constructor has stored, and that tree stays as it
    is. *)
Theorem machine_holds_program_nodes (H : Host) (w : World H) (e : ExprNode)
    (uninit : Location) (c0 c : Config H) (evs : list event) :
  (forall s w v w', eval_source H s w = Ok (v, w') -> ~ is_closure v) ->
  boot H w e uninit = Ok c0 ->
  run_events c0 evs = Some c ->
  st_expr (state c) = st_expr (state c0)
  /\ (forall l x, In l (stack (state c)) -> layer_expr l = Some x ->
        node_of (st_expr (state c)) x)
  /\ (forall env fn, In (Closure env fn) (heap (state c)) ->
        node_of (st_expr (state c)) (lambda_node fn)).
Proof.
  intros Hhost Hb Hrun. pose proof (run_st_expr H c0 c evs Hrun) as Hexpr.
  destruct (program_nodes H Hhost w e uninit c0 c evs Hb Hrun) as [Hstk Hheap].
  rewrite Hexpr. split; [done|]. split.
  - intros l x Hl Hx. rewrite Forall_forall in Hstk.
    by apply (Hstk l ltac:(by apply list_elem_of_In) x Hx).
  - intros env fn Hin. rewrite Forall_forall in Hheap.
    by apply (Hheap _ ltac:(by apply list_elem_of_In; exact Hin)).
Qed.

(** X21: In a run of a program whose [.eval] returns no closures, the step
    of a literal returns the value of the literal: the integer that
    [std::stoi] reads in the text of an integer literal, and the
    String that [unquote] makes of the text of a string literal. *)
Theorem literals_evaluate_to_their_values (H : Host) (w : World H) (e : ExprNode)
    (uninit : Location) (c0 c : Config H) (evs : list event)
    (layer : Layer) (below : list Layer) :
  (forall s w v w', eval_source H s w = Ok (v, w') -> ~ is_closure v) ->
  boot H w e uninit = Ok c0 ->
  run_events c0 evs = Some c ->
  stack (state c) = layer :: below ->
  match layer_expr layer with
  | Some (IntegerNode m val loc) =>
      exists z c', stoi val = Ok z /\ step H c = Ok (true, c')
                   /\ getResult (state c') = Ok (Integer z)
  | Some (StringNode m val loc) =>
      exists u c', unquote val = Ok u /\ step H c = Ok (true, c')
                   /\ getResult (state c') = Ok (StringV u)
  | _ => True
  end.
Proof.
  intros Hhost Hb Hrun Hstk.
  destruct (program_nodes H Hhost w e uninit c0 c evs Hb Hrun) as [Hlayers _].
  rewrite Hstk in Hlayers. apply Forall_cons in Hlayers as [Hl _].
  destruct (literal_heap_prefix H w e uninit c0 c evs
              (first_order_distinct H Hhost) Hb Hrun) as (_ & rest & Hheap).
  destruct (layer_expr layer) as [[m val loc|m val loc| | | | | | | |]|] eqn:He;
    try done.
  - destruct (Hl _ eq_refl) as [_ Hlit]. unfold literals_at in Hlit. cbn in Hlit.
    apply Forall2_cons in Hlit as [(v & Hv & Hloc) _].
    unfold literal_value in Hv. cbn in Hv. destruct (stoi val) as [z|] eqn:Hz; [|done].
    injection Hv as <-. exists z. eexists. split; [done|]. split.
    + unfold step. rewrite Hstk, He. reflexivity.
    + unfold getResult. cbn. rewrite Hheap. by apply heap_at_app_l, heap_at_Some.
  - destruct (Hl _ eq_refl) as [_ Hlit]. unfold literals_at in Hlit. cbn in Hlit.
    apply Forall2_cons in Hlit as [(v & Hv & Hloc) _].
    unfold literal_value in Hv. cbn in Hv. destruct (unquote val) as [u|] eqn:Hu; [|done].
    injection Hv as <-. exists u. eexists. split; [done|]. split.
    + unfold step. rewrite Hstk, He. reflexivity.
    + unfold getResult. cbn. rewrite Hheap. by apply heap_at_app_l, heap_at_Some.
Qed.

(** ** The stack trace *)

Section Trace.

Context (H : Host).
Hypothesis Hhost :
  forall s w v w', eval_source H s w = Ok (v, w') -> ~ is_closure v.
Variable root : ExprNode.
Implicit Types (c : Config H) (layer : Layer) (below : list Layer).

Lemma frame_bodies_step c b c' :
  nodes_ok (node_of root) c -> frame_bodies root (stack (state c)) ->
  step H c = Ok (b, c') -> frame_bodies root (stack (state c')).
Proof.
  intros [_ Hheap] Hstk Hs. destruct b; [|by apply step_halted in Hs as ->].
  destruct (stack (state c)) as [|layer below] eqn:Hstack.
  { unfold step in Hs. by rewrite Hstack in Hs. }
  destruct (layer_expr layer) as [e|] eqn:He.
  2:{ unfold step in Hs. by rewrite Hstack, He in Hs. }
  pose proof (step_transition H c c' layer below e Hstack He Hs) as Ht.
  unfold frame_bodies in *. pose proof Hstk as Hall.
  apply Forall_cons in Hstk as [Hl Hbelow].
  assert (Hsame : forall layer', same_layer layer layer' ->
            layer_frame layer' = true ->
            forall x, layer_expr layer' = Some x ->
              exists m varList, node_of root (LambdaNode m varList x)).
  { intros layer' (_ & Hexpr & Hframe) Hf x Hx. apply Hl; congruence. }
  assert (Hcall : forall loc cenv fn,
            heap_at (heap (state c)) loc = Ok (Closure cenv fn) ->
            exists m varList, node_of root (LambdaNode m varList (lam_expr fn))).
  { intros loc cenv fn Hclos%heap_at_Some%vec_at_In.
    rewrite Forall_forall in Hheap.
    specialize (Hheap _ ltac:(by apply list_elem_of_In; exact Hclos)).
    by exists (lam_meta fn), (lam_varList fn). }
  destruct Ht as [vs Hne Hmem Hstk' Hheap' Hprod
                 |layer' x Hne Hsl Hx Hmem Hstk' Hheap'
                 |layer' Hne Hsl Hmem Hstk' Hheap'
                 |m vel b env -> Hpc Henv Hmem Hstk' Hheap'
                 |m vel b x -> Hpc Hx Hmem Hstk' Hknot
                 |m vel b env -> Hpc Henv Hle Hmem Hstk' Hheap'
                 |layer' loc cenv fn newEnv Hne Hsl Hclos Hmem Hstk' Hheap'
                 |above f rest loc cenv fn newEnv Hne Hsplit Habove Hf Hclos Hmem Hstk' Hheap'];
    rewrite Hstk'; try done.
  - constructor; [done|]. constructor; [by apply Hsame|done].
  - constructor; [by apply Hsame|done].
  - constructor; [apply Hsame, same_layer_set_pc|done].
  - constructor; [done|]. constructor; [apply Hsame, same_layer_set_pc|done].
  - constructor; [|constructor; [by apply Hsame|done]].
    cbn. intros _ ? [= <-]. by eapply Hcall.
  - rewrite Hsplit in Hall. apply Forall_app in Hall as [_ Hall].
    apply Forall_cons in Hall as [_ Hrest]. constructor; [|done].
    cbn. intros _ ? [= <-]. by eapply Hcall.
Qed.

Lemma frame_bodies_gc c c' :
  frame_bodies root (stack (state c)) -> after Collect c = Some c' ->
  frame_bodies root (stack (state c')).
Proof.
  intros Hstk Hc. pose proof (after_Collect H c c' Hc) as Hafter. cbv zeta in Hafter.
  destruct Hafter as (heap1 & _ & _ & -> & _). unfold frame_bodies in *.
  apply Forall_forall. intros l' Hl'%list_elem_of_In.
  apply in_map_iff in Hl' as (l & <- & Hl). cbn.
  rewrite Forall_forall in Hstk. by apply Hstk, list_elem_of_In.
Qed.

End Trace.

Section Trace_run.

Context (H : Host).
Hypothesis Hhost :
  forall s w v w', eval_source H s w = Ok (v, w') -> ~ is_closure v.

Lemma frame_bodies_run (w : World H) e uninit (c0 : Config H) evs :
  boot H w e uninit = Ok c0 ->
  forall c, run_events c0 evs = Some c ->
    frame_bodies (st_expr (state c0)) (stack (state c)).
Proof.
  intros Hb. induction evs as [|ev evs IH] using rev_ind; intros c Hrun.
  - injection Hrun as <-. destruct (boot_stack H w e uninit c0 Hb) as (r & -> & _).
    constructor; [done|]. constructor; [done|constructor].
  - rewrite run_events_app in Hrun.
    destruct (run_events c0 evs) as [c1|] eqn:Hr1; [|done].
    cbn in Hrun. destruct (after ev c1) as [c2|] eqn:Hev; [|done].
    injection Hrun as ->. specialize (IH c1 eq_refl).
    assert (Hnodes : nodes_ok (node_of (st_expr (state c0))) c1).
    { destruct (program_nodes H Hhost w e uninit c0 c1 evs Hb Hr1) as [Hs Hh].
      split.
      - eapply Forall_impl; [exact Hs|]. intros l Hl x Hx. by apply (Hl x Hx).
      - eapply Forall_impl; [exact Hh|]. intros v Hv. destruct v; try done. apply Hv. }
    destruct ev.
    + cbn in Hev. destruct (step H c1) as [[b c2]|] eqn:Hs; [|done].
      injection Hev as ->. by eapply frame_bodies_step.
    + by eapply frame_bodies_gc.
Qed.

End Trace_run.

Section Trace_moves.

Context (H : Host).
Implicit Types (c : Config H) (layer : Layer) (below stk : list Layer).

Lemma _getFrameSLs_frames (s : State) :
  _getFrameSLs s = map frame_sl (frames_of (stack s)).
Proof.
  unfold _getFrameSLs, frames_of. induction (stack s) as [|l stk IH]; [done|].
  cbn [rev List.filter]. rewrite flat_map_app, IH. cbn [flat_map]. rewrite app_nil_r.
  destruct (layer_frame l); [|by rewrite app_nil_r].
  cbn [rev]. rewrite map_app. cbn [map]. f_equal.
  unfold frame_sl. by destruct (layer_expr l).
Qed.

Lemma frames_of_cons l stk :
  frames_of (l :: stk) = frames_of stk ++ (if layer_frame l then [l] else []).
Proof.
  unfold frames_of. cbn. destruct (layer_frame l); cbn; by rewrite ?app_nil_r.
Qed.

Lemma frames_of_app above stk :
  Forall (fun l => layer_frame l = false) above -> frames_of (above ++ stk) = frames_of stk.
Proof.
  induction 1 as [|l above Hl _ IH]; [done|].
  cbn [app]. by rewrite frames_of_cons, Hl, app_nil_r.
Qed.

Lemma frames_of_main upper main :
  layer_frame main = true -> frames_of (upper ++ [main]) = main :: frames_of upper.
Proof.
  intros Hm. induction upper as [|l upper IH].
  - unfold frames_of. cbn. by rewrite Hm.
  - cbn [app]. by rewrite !frames_of_cons, IH.
Qed.

Lemma frame_sl_same l l' : same_layer l l' -> frame_sl l' = frame_sl l.
Proof. intros (_ & He & _). unfold frame_sl. by rewrite He. Qed.

Lemma trace_same l l' stk :
  same_layer l l' ->
  map frame_sl (frames_of (l' :: stk)) = map frame_sl (frames_of (l :: stk)).
Proof.
  intros Hs. rewrite !frames_of_cons, !map_app. f_equal.
  destruct Hs as (_ & He & ->). destruct (layer_frame l); [|done].
  cbn. unfold frame_sl. by rewrite He.
Qed.

Lemma trace_reloc rho stk :
  map frame_sl (frames_of (map (reloc_layer rho) stk)) = map frame_sl (frames_of stk).
Proof.
  induction stk as [|l stk IH]; [done|].
  cbn [map]. rewrite !frames_of_cons, !map_app, IH. f_equal.
  cbn. by destruct (layer_frame l).
Qed.

Ltac same_as :=
  first
    [ apply same_layer_refl
    | eassumption
    | (eapply same_layer_trans; [|apply same_layer_set_pc]; same_as)
    | (eapply same_layer_trans; [|apply same_layer_push_local]; same_as) ].

Ltac popped := left; reflexivity.
Ltac stays layer' := right; exists layer'; split; [same_as|left; reflexivity].
Ltac pushes layer' :=
  right; exists layer'; split; [same_as|right; eexists _, _; cbn; reflexivity].

Lemma step_call_move c c' layer below e :
  stack (state c) = layer :: below ->
  layer_expr layer = Some e ->
  step H c = Ok (true, c') ->
  call_move c c' layer below.
Proof.
  intros Hstk He Hs. unfold call_move, callee. rewrite Hstk, He.
  unfold step in Hs. rewrite Hstk, He in Hs.
  ok_inv Hs. injection Hs as <-. rename E into Hs.
  destruct e as [m val loc|m val loc|v|m varList expr|m vel expr|m cond b1 b2
                |m es|m name args|m fexpr args|m var expr].
  - injection Hs as <-. popped.
  - injection Hs as <-. popped.
  - unfold step_Variable in Hs. ok_inv Hs.
    destruct (lookup_env _ _); [|discriminate Hs]. injection Hs as <-. popped.
  - unfold step_Lambda in Hs. ok_inv Hs. cbn in Hs. injection Hs as <-. popped.
  - (* Letrec *)
    unfold step_Letrec in Hs. ok_inv Hs.
    destruct (layer_pc layer =? 0).
    { ok_inv Hs. destruct (letrec_alloc _ _ _) as [env heap2]. injection Hs as <-.
      stays (set_pc layer (layer_pc layer + 1)). }
    destruct (layer_pc layer <=? zlen vel).
    { destruct (vec_at vel (layer_pc layer + 1 - 2)) as [ve|] eqn:Hve; [|done].
      injection Hs as <-. pushes (set_pc layer (layer_pc layer + 1)). }
    destruct (layer_pc layer =? zlen vel + 1).
    { injection Hs as <-. pushes (set_pc layer (layer_pc layer + 1)). }
    ok_inv Hs. ok_inv Hs. injection Hs as <-. popped.
  - (* If *)
    unfold step_If in Hs.
    destruct (layer_pc layer =? 0).
    { injection Hs as <-. pushes (set_pc layer (layer_pc layer + 1)). }
    destruct (layer_pc layer =? 1).
    { ok_inv Hs. destruct a0 as [|z| |]; try done.
      destruct (truthy z); injection Hs as <-;
        pushes (set_pc layer (layer_pc layer + 1)). }
    injection Hs as <-. popped.
  - (* Sequence *)
    unfold step_Sequence in Hs.
    destruct (layer_pc layer <? zlen es).
    { destruct (vec_at es _) as [x|] eqn:Hx; [|done]. injection Hs as <-.
      pushes (set_pc layer (layer_pc layer + 1)). }
    injection Hs as <-. popped.
  - (* IntrinsicCall *)
    unfold step_IntrinsicCall in Hs.
    set (layer1 := if (0 <? _) && _ then _ else _) in Hs.
    assert (Hsame : same_layer layer layer1).
    { apply same_layer_if; [apply same_layer_push_local|apply same_layer_refl]. }
    destruct (layer_pc layer <? zlen args).
    { destruct (vec_at args _) as [x|] eqn:Hx; [|done]. injection Hs as <-.
      pushes (set_pc layer1 (layer_pc layer + 1)). }
    ok_inv Hs. destruct a0 as [value w']. cbn in Hs. injection Hs as <-. popped.
  - (* ExprCall *)
    unfold step_ExprCall in Hs. cbv zeta.
    set (layer1 := if (2 <? _) && _ then _ else _) in *.
    assert (Hsame : same_layer layer layer1).
    { apply same_layer_if; [apply same_layer_push_local|apply same_layer_refl]. }
    pose proof (zlen_nonneg args) as Hn.
    destruct (Z.eqb_spec (layer_pc layer) 0) as [Hpc0|Hpc0].
    { destruct (Z.eqb_spec (layer_pc layer) (zlen args + 2)); [lia|].
      injection Hs as <-. pushes (set_pc layer1 (layer_pc layer + 1)). }
    destruct (Z.eqb_spec (layer_pc layer) 1) as [Hpc1|Hpc1].
    { destruct (Z.eqb_spec (layer_pc layer) (zlen args + 2)); [lia|].
      injection Hs as <-.
      stays (push_local (set_pc layer1 (layer_pc layer + 1)) (resultLoc (state c))). }
    destruct (Z.leb_spec (layer_pc layer) (zlen args + 1)) as [Hle|Hle].
    { destruct (Z.eqb_spec (layer_pc layer) (zlen args + 2)); [lia|].
      destruct (vec_at args _) as [x|] eqn:Hx; [|done]. injection Hs as <-.
      pushes (set_pc layer1 (layer_pc layer + 1)). }
    destruct (Z.eqb_spec (layer_pc layer) (zlen args + 2)) as [Hpc|Hpc].
    2:{ injection Hs as <-. popped. }
    cbn [layer_local set_pc] in Hs. unfold arg_at in Hs.
    destruct (vec_at (layer_local layer1) 0) as [exprLoc|]; [|done].
    unfold mbind, result_bind in Hs. cbn [rbind] in Hs.
    unfold heap_at in Hs. destruct (vec_at (heap (state c)) exprLoc) as [v|]; [|done].
    cbn [rbind] in Hs. destruct v as [| | |cenv fn]; try done.
    destruct (negb _); [done|]. ok_inv Hs. cbn in Hs. injection Hs as <-.
    exists (set_pc layer1 (layer_pc layer + 1)), (length (memory c)).
    split; [same_as|]. destruct (tail m) eqn:Htail.
    + ok_inv E0.
      match type of E1 with
      | _ = Ok ?stk => destruct stk as [|f rest]; [by cbn in E0|]
      end.
      cbn in E0. injection E0 as <-. by exists f, rest.
    + by injection E0 as <-.
  - (* At *)
    unfold step_At in Hs.
    destruct (layer_pc layer =? 0).
    { injection Hs as <-. pushes (set_pc layer (layer_pc layer + 1)). }
    ok_inv Hs. destruct a0 as [| | |cenv fn]; try done.
    destruct (lookup_env _ _); [|done]. injection Hs as <-. popped.
Qed.

Lemma callee_closure c is_tail fn :
  callee c = Some (is_tail, fn) -> exists cenv, In (Closure cenv fn) (heap (state c)).
Proof.
  unfold callee. destruct (stack (state c)) as [|layer below]; [done|].
  destruct (layer_expr layer) as [[]|]; try done.
  cbv zeta. destruct (_ =? _); [|done].
  destruct (vec_at (layer_local _) 0) as [exprLoc|]; [|done].
  destruct (vec_at (heap (state c)) exprLoc) as [[| | |cenv fn']|] eqn:Hv; try done.
  intros [= _ <-]. exists cenv. by eapply vec_at_In.
Qed.

(** What a step does to the trace of a stack that keeps its main
    frame, before and after. *)
Lemma step_trace c b c' root :
  main_kept (stack (state c)) -> main_kept (stack (state c')) ->
  Forall (closure_ok (node_of root)) (heap (state c)) ->
  st_expr (state c) = root ->
  step H c = Ok (b, c') ->
  trace_step c c'.
Proof.
  intros Hk Hk' Hheap Hroot Hs. unfold trace_step.
  destruct b.
  2:{ pose proof (step_halted _ _ _ Hs) as ->.
      destruct (callee c) as [[t fn]|] eqn:Hc; [|by left].
      exfalso. unfold callee in Hc. unfold step in Hs.
      destruct (stack (state c)) as [|layer below]; [done|].
      destruct (layer_expr layer) as [e|]; [|done]. ok_inv Hs. done. }
  destruct (stack (state c)) as [|layer below] eqn:Hstk.
  { unfold step in Hs. by rewrite Hstk in Hs. }
  destruct (layer_expr layer) as [e|] eqn:He.
  2:{ unfold step in Hs. by rewrite Hstk, He in Hs. }
  pose proof (step_call_move c c' layer below e Hstk He Hs) as Hmove.
  unfold call_move in Hmove. rewrite !_getFrameSLs_frames, Hstk.
  destruct (callee c) as [[is_tail fn]|] eqn:Hc.
  - split.
    { destruct (callee_closure c is_tail fn Hc) as [cenv Hin].
      rewrite Forall_forall in Hheap. rewrite Hroot.
      apply (Hheap (Closure cenv fn)). by apply list_elem_of_In. }
    destruct Hmove as (layer' & r & Hsame & Hmove). destruct is_tail.
    + destruct Hmove as (f & rest & Hpop & Hstk2).
      apply pop_to_frame_inv in Hpop as (above & f' & rest' & Hsplit & [= <- <-] & Hab & Hf).
      destruct Hk' as (upper' & main' & Hstk' & Hme' & Hmf' & _).
      rewrite Hstk2 in Hstk' |- *.
      destruct upper' as [|top upper'].
      { cbn in Hstk'. injection Hstk' as <- _. done. }
      cbn in Hstk'. injection Hstk' as _ ->.
      exists (map frame_sl (frames_of upper')), (frame_sl f).
      rewrite <- (trace_same layer layer') by done. rewrite Hsplit.
      rewrite frames_of_app by done.
      rewrite !frames_of_cons, Hf, frames_of_main by done. cbn [new_layer layer_frame].
      rewrite !map_app. cbn.
      assert (Hmain : frame_sl main' = mkSL 1 1) by (unfold frame_sl; by rewrite Hme').
      by rewrite Hmain.
    + rewrite Hmove. rewrite (frames_of_cons (new_layer _ _ _)). cbn [new_layer layer_frame].
      rewrite map_app. by rewrite (trace_same layer layer').
  - destruct Hmove as [->|(layer' & Hsame & [->|(r & x & ->)])].
    + destruct (layer_frame layer) eqn:Hf.
      * right. exists layer, below. repeat (split; [done|]).
        by rewrite frames_of_cons, Hf, map_app.
      * left. by rewrite frames_of_cons, Hf, app_nil_r.
    + left. by apply trace_same.
    + left. rewrite (frames_of_cons (new_layer _ _ _)). cbn [new_layer layer_frame].
      rewrite app_nil_r. by apply trace_same.
Qed.

End Trace_moves.

(** X22: In a run of a program whose [.eval] returns no closures, the stack
    trace starts with the main frame, at line 1, column 1, and goes on
    with the locations of the nodes of the other frames of the stack,
    from its bottom to its top, each of which is the body of a Lambda
    of the program; [_errorStack] prints one line for each.  The
    trace is the stack of the calls in progress, the oldest first: a
    step that calls a closure adds the location of the body of its
    Lambda at the end, a tail call in place of the last entry, which is
    not that of the main frame; a step that makes no call leaves the
    trace as it is, or removes its last entry when it pops a frame; a
    collection leaves the trace as it is; and the trace starts as the
    main frame alone. *)
Theorem stack_trace_lists_calls (H : Host) (w : World H) (e : ExprNode)
    (uninit : Location) (c0 c : Config H) (evs : list event) :
  (forall s w v w', eval_source H s w = Ok (v, w') -> ~ is_closure v) ->
  boot H w e uninit = Ok c0 ->
  run_events c0 evs = Some c ->
  (exists calls,
     _getFrameSLs (state c) = mkSL 1 1 :: calls
     /\ mkSL 1 1 :: calls = map frame_sl (frames_of (stack (state c)))
     /\ S (length calls) = length (List.filter layer_frame (stack (state c)))
     /\ Forall (fun l => exists m varList body,
                  node_of (st_expr (state c)) (LambdaNode m varList body)
                  /\ l = sl (meta body)) calls
     /\ _errorStack (state c)
        = (String ch_newline (">>> stack trace printed below"
                              ++ String ch_newline EmptyString)
           ++ ("calling function body at (SourceLocation 1 1)"
               ++ String ch_newline EmptyString)
           ++ fold_right (fun l out => trace_line l ++ out) EmptyString calls)%string)
  /\ (forall b c', step H c = Ok (b, c') -> trace_step c c')
  /\ (forall removed c',
        _gc H c = Done (Ok (removed, c')) ->
        _getFrameSLs (state c') = _getFrameSLs (state c))
  /\ _getFrameSLs (state c0) = [mkSL 1 1].
Proof.
  intros Hhost Hb Hrun. split; [|split; [|split]].
  4:{ destruct (boot_stack H w e uninit c0 Hb) as (r & Hstk0 & _).
      unfold _getFrameSLs. by rewrite Hstk0. }
  - destruct (main_frame_at_bottom H w e uninit c0 c evs Hb Hrun)
      as (upper & main & Hstk & Hme & Hmf & Hupper & _).
    pose proof (frame_bodies_run H Hhost w e uninit c0 evs Hb c Hrun) as Hframes.
    rewrite <- (run_st_expr H c0 c evs Hrun) in Hframes.
    rewrite <- _getFrameSLs_frames.
    unfold _errorStack, _getFrameSLs. rewrite Hstk in Hframes |- *.
    rewrite rev_app_distr. cbn [rev app flat_map]. rewrite Hmf, Hme. cbn [app].
    eexists. split; [reflexivity|]. split; [reflexivity|].
    apply Forall_app in Hframes as [Hframes _]. clear Hstk.
    split; [|split; [|reflexivity]].
    + rewrite List.filter_app. cbn. rewrite Hmf, length_app. cbn.
      replace (length (List.filter layer_frame upper) + 1)%nat
        with (S (length (List.filter layer_frame upper))) by lia.
      f_equal. clear Hframes.
      induction Hupper as [|l upper [x Hx] _ IH]; [done|].
      cbn [rev flat_map]. rewrite flat_map_app, length_app, IH. cbn.
      rewrite Hx. destruct (layer_frame l); cbn; lia.
    + induction Hframes as [|l upper Hl _ IH]; [constructor|].
      apply Forall_cons in Hupper as [[x Hx] Hupper].
      cbn [rev]. rewrite flat_map_app. apply Forall_app. split; [by apply IH|].
      cbn. rewrite Hx. destruct (layer_frame l) eqn:Hf; [|constructor].
      constructor; [|constructor]. destruct (Hl eq_refl x Hx) as (m & vl & Hn).
      by exists m, vl, x.
  - intros b c' Hs.
    assert (Hrun' : run_events c0 (evs ++ [Step]) = Some c').
    { rewrite run_events_app, Hrun. cbn. by rewrite Hs. }
    eapply (step_trace H c b c' (st_expr (state c0))); [| | | |exact Hs].
    + by eapply main_kept_run.
    + by eapply main_kept_run.
    + destruct (program_nodes H Hhost w e uninit c0 c evs Hb Hrun) as [_ Hh].
      eapply Forall_impl; [exact Hh|]. intros v Hv. destruct v; try done. apply Hv.
    + by eapply run_st_expr.
  - intros removed c' Hgc.
    assert (Hc : after Collect c = Some c') by (cbn; by rewrite Hgc).
    destruct (after_Collect H c c' Hc) as (_ & _ & _ & Hstk' & _).
    rewrite !_getFrameSLs_frames, Hstk'. apply trace_reloc.
Qed.

(** *** Where the tokens are *)

Section Positions.

Lemma advance_app l (a b : string) : advance l (a ++ b) = advance (advance l a) b.
Proof. revert l. induction a as [|c a IH]; intros l; [done|]. cbn. apply IH. Qed.

Lemma after_blank_app (a r : string) : forall b b',
  after_blank b a = Some b' -> after_blank b (a ++ r) = after_blank b' r.
Proof.
  induction a as [|c a IH]; intros b b' Ha; cbn in Ha.
  - by injection Ha as ->.
  - rewrite string_app_cons. cbn. destruct b; [by apply IH|].
    destruct (is_space c); [by apply IH|]. destruct (Ascii.eqb c "#"); [by apply IH|done].
Qed.

Lemma after_blank_spaces s : after_blank false (take_while is_space s) = Some false.
Proof. induction s as [|c s IH]; [done|]. cbn. destruct (is_space c) eqn:Hc; [|done]. cbn. by rewrite Hc. Qed.

Lemma after_blank_comment s :
  after_blank true (take_while (fun c => negb (Ascii.eqb c ch_newline)) s) = Some true.
Proof.
  induction s as [|c s IH]; [done|]. cbn.
  destruct (Ascii.eqb c ch_newline) eqn:Hc; cbn; [done|]. by rewrite Hc.
Qed.

Lemma string_loop_at src : forall l text escape text' ss,
  string_loop src l text escape = (text', ss, true) ->
  exists body,
    text' = (text ++ body ++ String ch_dquote EmptyString)%string
    /\ src = (body ++ String ch_dquote (ss_source ss))%string
    /\ ss_sl ss = advance l (body ++ String ch_dquote EmptyString).
Proof.
  induction src as [|c src IH]; intros l text escape text' ss Hs; [done|].
  cbn in Hs. destruct (negb escape && Ascii.eqb c ch_dquote) eqn:Hq.
  - injection Hs as <- <-. apply andb_true_iff in Hq as [He ->%Ascii.eqb_eq].
    exists EmptyString. cbn. done.
  - destruct (IH _ _ _ _ _ Hs) as (body & -> & -> & Hl).
    exists (String c body). rewrite push_back_app. by repeat split.
Qed.

Lemma nextToken_positions fuel : forall ss, nextToken_at ss (nextToken fuel ss).
Proof.
  induction fuel as [|fuel IH]; intros [src l]; [done|].
  cbn [nextToken ss_source ss_sl] in *. rewrite pop_while_spec.
  cbv beta iota zeta. cbn [ss_source ss_sl].
  pose proof (take_drop_while is_space src) as Hsrc0.
  pose proof (after_blank_spaces src) as Hblank.
  destruct (drop_while is_space src) as [|c rest] eqn:Hsrc.
  { cbn [nextToken_at ss_source]. rewrite string_app_nil in Hsrc0.
    rewrite <- Hsrc0. by eexists. }
  pose proof (drop_while_head _ _ _ _ Hsrc) as Hspace.
  set (ws := take_while is_space src) in *.
  set (l1 := advance l ws).
  assert (Hfound : forall text rest' l',
            String c rest = (text ++ rest')%string ->
            (exists s0, text = String c s0) ->
            l' = advance l1 text ->
            nextToken_at (mkSS src l)
              (Done (Ok (Some (mkToken l1 text), mkSS rest' l')))).
  { intros text rest' l' Heq [s0 Hs0] ->. cbn [nextToken_at ss_source ss_sl tok_text tok_sl].
    exists ws. rewrite <- Heq. split; [done|]. split; [done|]. split; [done|].
    split; [done|]. by exists c, s0. }
  destruct (is_digit c || Ascii.eqb c "-" || Ascii.eqb c "+") eqn:Hint.
  { (* integer literal *)
    destruct (Ascii.eqb c "-" || Ascii.eqb c "+") eqn:Hsign.
    - cbv beta iota zeta. cbn [ss_source ss_sl]. rewrite digits_loop_spec.
      cbv beta iota zeta. destruct (negb _); [done|].
      unfold push_back. rewrite string_app_nil_l, string_app_cons, string_app_nil_l.
      apply Hfound; [|by eexists|done].
      by rewrite string_app_cons, take_drop_while.
    - cbv beta iota zeta. cbn [ss_source ss_sl]. rewrite digits_loop_spec.
      cbv beta iota zeta. destruct (negb _); [done|].
      apply orb_false_iff in Hsign as [Hminus Hplus].
      rewrite Hminus, Hplus, !orb_false_r in Hint.
      rewrite string_app_nil_l.
      apply Hfound; [by rewrite take_drop_while| |done].
      rewrite (take_while_cons _ _ _ Hint). by eexists. }
  destruct (Ascii.eqb c ch_dquote) eqn:Hquote.
  { (* string literal *)
    destruct (string_loop rest _ _ false) as [[text ss'] complete] eqn:Hloop.
    destruct complete; cbn [negb]; [|done].
    apply string_loop_at in Hloop as (body & -> & Hrest & Hl). destruct ss' as [rest' l'].
    cbn [ss_source ss_sl] in *. subst l'.
    unfold push_back. rewrite string_app_nil_l, string_app_cons, string_app_nil_l.
    apply Hfound; [|by eexists|done].
    by rewrite Hrest, string_app_cons, string_app_assoc, string_app_cons, string_app_nil_l. }
  destruct (is_alpha c || Ascii.eqb c "_") eqn:Hvar.
  { rewrite pop_while_spec. rewrite string_app_nil_l.
    assert (Hp : (fun c => is_alpha c || is_digit c || Ascii.eqb c "_") c = true).
    { cbn. apply orb_true_iff in Hvar as [->| ->]; [done|by rewrite orb_true_r]. }
    apply Hfound; [by rewrite take_drop_while| |done].
    rewrite (take_while_cons _ _ _ Hp). by eexists. }
  destruct (Ascii.eqb c ".") eqn:Hdot.
  { rewrite pop_while_spec. rewrite string_app_nil_l.
    apply Hfound; [by rewrite take_drop_while| |done].
    rewrite take_while_cons; [by eexists|]. cbn. rewrite Hspace. cbn.
    apply Ascii.eqb_eq in Hdot as ->. done. }
  destruct (is_special c) eqn:Hspecial.
  { unfold push_back. rewrite string_app_nil_l.
    apply Hfound; [done|by eexists|done]. }
  destruct (Ascii.eqb c "#") eqn:Hhash; [|done].
  (* comment *)
  apply Ascii.eqb_eq in Hhash as ->.
  rewrite pop_while_spec. cbv beta iota zeta.
  set (p := fun c => negb (Ascii.eqb c ch_newline)) in *.
  assert (Hp : p "#"%char = true) by done.
  rewrite (take_while_cons _ _ _ Hp), (drop_while_cons _ _ _ Hp).
  set (body := take_while p rest). set (d := drop_while p rest).
  assert (Hrest : rest = (body ++ d)%string) by (symmetry; apply take_drop_while).
  assert (Hcomment : after_blank false (ws ++ String "#" body) = Some true).
  { rewrite (after_blank_app _ _ _ _ Hblank). cbn. apply after_blank_comment. }
  match goal with
  | |- nextToken_at _ (nextToken fuel ?ss1) =>
      specialize (IH ss1); cbn [ss_source ss_sl] in IH;
      destruct (nextToken fuel ss1) as [[[[t|] ss2]|e]|]
  end; cbn [nextToken_at ss_source ss_sl] in *; try done.
  - destruct IH as (skipped1 & Hd & Hb1 & Hsl & Hsl2 & c0 & s0 & Htext & Hc0).
    assert (Hnl : exists s1, skipped1 = String ch_newline s1).
    { destruct d as [|x d'] eqn:Hdd.
      - destruct skipped1; [|done]. rewrite Htext in Hd. done.
      - pose proof (drop_while_head p rest x d' Hdd) as Hx. unfold p in Hx.
        apply negb_false_iff, Ascii.eqb_eq in Hx as ->.
        destruct skipped1 as [|y s1].
        + rewrite Htext in Hd. cbn in Hd. injection Hd as <- _. done.
        + rewrite string_app_cons in Hd. injection Hd as <- _. by eexists. }
    destruct Hnl as [s1 ->].
    exists (ws ++ String "#" body ++ String ch_newline s1)%string.
    split; [|split; [|split; [|split; [done|by exists c0, s0]]]].
    + rewrite <- Hsrc0, Hrest, Hd.
      by rewrite !string_app_assoc, ?string_app_cons, ?string_app_assoc.
    + change (String "#" body ++ String ch_newline s1)%string
        with (String "#" (body ++ String ch_newline s1))%string.
      rewrite (after_blank_app _ _ _ _ Hblank). cbn [after_blank].
      change (is_space "#") with false. cbv iota. change (Ascii.eqb "#" "#") with true.
      cbv iota. rewrite (after_blank_app _ _ _ _ (after_blank_comment rest)).
      cbn [after_blank]. rewrite Ascii.eqb_refl. cbn [negb].
      cbn [after_blank] in Hb1. exact Hb1.
    + rewrite Hsl. unfold l1.
      rewrite !advance_app. by cbn [advance].
  - (* the text ends in white space and comments *)
    destruct IH as [b Hb].
    rewrite <- Hsrc0, Hrest.
    change (String "#" (body ++ d)) with (String "#" body ++ d)%string.
    rewrite <- string_app_assoc.
    rewrite (after_blank_app _ _ _ _ Hcomment).
    destruct d as [|x d'] eqn:Hdd; [by eexists|].
    pose proof (drop_while_head p rest x d' Hdd) as Hx. unfold p in Hx.
    apply negb_false_iff, Ascii.eqb_eq in Hx as ->.
    cbn [after_blank] in Hb |- *. rewrite Ascii.eqb_refl. cbn [negb].
    change (is_space ch_newline) with true in Hb. cbv iota in Hb. by eexists.
Qed.

Lemma lex_loop_positions fuel : forall ss tokens tokens',
  lex_loop fuel ss tokens = Done (Ok tokens') ->
  exists new, tokens' = tokens ++ new /\ tokens_in (ss_sl ss) (ss_source ss) new.
Proof.
  induction fuel as [|fuel IH]; intros ss tokens tokens' Hl; [done|].
  cbn [lex_loop] in Hl.
  pose proof (nextToken_positions (S (String.length (ss_source ss))) ss) as Hnext.
  destruct (nextToken _ ss) as [[[[t|] ss']|e]|]; cbn [nextToken_at] in Hnext; try done.
  - destruct Hnext as (skipped & Hsrc & Hb & Hsl & Hsl' & _).
    destruct (IH _ _ _ Hl) as (new & -> & Hnew).
    exists (t :: new). split; [by rewrite <- app_assoc|].
    cbn [tokens_in]. exists skipped, (ss_source ss'). by rewrite <- Hsl'.
  - injection Hl as <-. exists []. split; [by rewrite app_nil_r|done].
Qed.

End Positions.

(** X23: The tokens that the lexer returns are in the text, in their order,
    with nothing but white space and comments before them, between
    them and after them; and each token has the line and the column of
    its first character. *)
Theorem lex_tokens_in_source (source : string) (tokens : list Token) :
  lex source = Done (Ok tokens) -> tokens_in (mkSL 1 1) source tokens.
Proof.
  unfold lex. destruct (SourceStream_new source) as [ss|] eqn:Hss; [|done].
  unfold SourceStream_new in Hss. ok_inv Hss. injection Hss as <-.
  intros Hl. destruct (lex_loop_positions _ _ _ _ Hl) as (new & -> & Hnew).
  exact Hnew.
Qed.

(** * Instances of the theorems *)

Lemma arithmetic_without_overflow_witness :
  heap_at [Integer 7; Integer (-2)] 0 = Ok (Integer 7)
  /\ heap_at [Integer 7; Integer (-2)] 1 = Ok (Integer (-2))
  /\ -2 <> 0 /\ in_int (7 ÷ -2)
  /\ _callIntrinsic no_host [Integer 7; Integer (-2)] noSL "./" [0; 1] tt
     = Ok (Integer (7 ÷ -2), tt).
Proof.
  assert (Hq : in_int (7 ÷ -2)) by (vm_compute; split; discriminate).
  split; [reflexivity|]. split; [reflexivity|]. split; [lia|]. split; [exact Hq|].
  pose proof (arithmetic_without_overflow no_host [Integer 7; Integer (-2)] noSL 0 1 7 (-2) tt
                eq_refl eq_refl) as (_ & _ & _ & _ & _ & Hdiv & _).
  apply Hdiv; [lia|exact Hq].
Defined.


Lemma comparison_results_are_0_or_1_witness :
  ".and"%string ∈ comparison_intrinsics
  /\ _callIntrinsic no_host [Integer 5; Integer (-3)] noSL ".and" [0; 1] tt = Ok (Integer 1, tt)
  /\ (Integer 1 = Integer 0 \/ Integer 1 = Integer 1).
Proof.
  assert (Hin : ".and"%string ∈ comparison_intrinsics) by (unfold comparison_intrinsics; set_solver).
  split; [exact Hin|]. split; [reflexivity|].
  exact (proj1 (comparison_results_are_0_or_1 no_host ".and" [Integer 5; Integer (-3)]
                  noSL [0; 1] tt (Integer 1) tt Hin eq_refl)).
Defined.

Lemma type_tag_witness :
  heap_at [StringV "abc"] 0 = Ok (StringV "abc")
  /\ _callIntrinsic no_host [StringV "abc"] noSL ".type" [0] tt = Ok (Integer 2, tt).
Proof.
  split; [reflexivity|].
  exact (type_tag no_host [StringV "abc"] noSL 0 (StringV "abc") tt eq_refl).
Defined.

Lemma substring_range_witness :
  heap_at [StringV "hello"; Integer 1; Integer 3] 0 = Ok (StringV "hello")
  /\ heap_at [StringV "hello"; Integer 1; Integer 3] 1 = Ok (Integer 1)
  /\ heap_at [StringV "hello"; Integer 1; Integer 3] 2 = Ok (Integer 3)
  /\ _callIntrinsic no_host [StringV "hello"; Integer 1; Integer 3] noSL ".s[]" [0; 1; 2] tt
     = Ok (StringV (String.substring (Z.to_nat 1) (Z.to_nat (3 - 1)) "hello"), tt).
Proof.
  split; [reflexivity|]. split; [reflexivity|]. split; [reflexivity|].
  pose proof (substring_range no_host [StringV "hello"; Integer 1; Integer 3] noSL 0 1 2
                "hello" 1 3 tt eq_refl eq_refl eq_refl) as (_ & Hok & _).
  apply Hok. cbn. lia.
Defined.

Lemma lambda_capture_witness :
  exists (c : Config no_host) layer below m varList expr env,
    stack (state c) = layer :: below
    /\ layer_expr layer = Some (LambdaNode m varList expr)
    /\ memory c !! layer_env layer = Some env
    /\ env = [("x"%string, 0); ("y"%string, 1); ("x"%string, 2)]
    /\ capture env (freeVars m) `sublist_of` env
    /\ lookup_env "x" (capture env (freeVars m)) = lookup_env "x" env.
Proof.
  set (m := mkMeta noSL {["x"%string]} false).
  set (env := [("x"%string, 0); ("y"%string, 1); ("x"%string, 2)]).
  set (layer := new_layer 0%nat (Some (LambdaNode m [] (Syntax.EVar "x"))) false).
  set (c := mkConfig (H:=no_host) tt [env]
              (mkState (LambdaNode m [] (Syntax.EVar "x")) [layer] [Void; Void; Void] 0 0)).
  exists c, layer, [], m, [], (Syntax.EVar "x"), env.
  pose proof (lambda_capture no_host c layer [] m [] (Syntax.EVar "x") env
                eq_refl eq_refl eq_refl) as (_ & Hsub & _ & Hlook & _).
  split; [reflexivity|]. split; [reflexivity|]. split; [reflexivity|].
  split; [reflexivity|]. split; [exact Hsub|].
  apply Hlook. subst m. cbn. set_solver.
Defined.

Lemma heap_slots_change_only_at_knot_witness :
  exists c0 c c' : Config no_host,
    boot no_host tt garbage_then_letrec 0 = Ok c0
    /\ run_events c0 (repeat Step 10 ++ [Collect]) = Some c
    /\ after Step c = Some c'
    /\ vec_at (heap (state c)) 3 = Some Void
    /\ vec_at (heap (state c')) 3 = Some (Integer 5)
    /\ (unchanged c c' \/ knot_tied c0 (repeat Step 10 ++ [Collect]) c c').
Proof.
  let r0 := eval vm_compute in (boot no_host tt garbage_then_letrec 0) in
  lazymatch r0 with
  | Ok ?c0 =>
      let r1 := eval vm_compute in (run_events c0 (repeat Step 10 ++ [Collect])) in
      lazymatch r1 with
      | Some ?c =>
          let r2 := eval vm_compute in (after Step c) in
          lazymatch r2 with
          | Some ?c' =>
              assert (Hb : boot no_host tt garbage_then_letrec 0 = Ok c0)
                by (vm_compute; reflexivity);
              assert (Hr : run_events c0 (repeat Step 10 ++ [Collect]) = Some c)
                by (vm_compute; reflexivity);
              assert (Ha : after Step c = Some c') by (vm_compute; reflexivity);
              exists c0, c, c'
          end
      end
  end.
  split; [exact Hb|]. split; [exact Hr|]. split; [exact Ha|].
  split; [reflexivity|]. split; [reflexivity|].
  refine (heap_slots_change_only_at_knot no_host tt garbage_then_letrec 0 _ _ Hb
            _ _ Step _ Hr Ha).
  intros s w v w' Hs. discriminate Hs.
Defined.

Lemma stoi_to_string_witness : in_int (-2147483648) /\ stoi (to_string (-2147483648)) = Ok (-2147483648).
Proof.
  assert (H : in_int (-2147483648)) by (unfold in_int, INT_MIN, INT_MAX; lia).
  split; [exact H|]. exact (stoi_to_string _ H).
Defined.

Lemma lex_quote_witness :
  all_chars charset_contains "a\b" = true
  /\ lex (quote "a\b") = Done (Ok [mkToken (mkSL 1 1) (quote "a\b")])
  /\ lex (quote "ab\") = Done (panic "lexer" "incomplete string literal" (mkSL 1 1)).
Proof.
  split; [reflexivity|]. split.
  - exact (lex_quote "a\b" eq_refl).
  - exact (lex_quote "ab\" eq_refl).
Defined.

Lemma intrinsic_typecheck_witness :
  Forall (fun l => is_Ok (heap_at [Integer 1; StringV "a"] l)) [0; 1]
  /\ (_callIntrinsic no_host [Integer 1; StringV "a"] noSL ".+" [0; 1] tt
      = panic "runtime" "type error on intrinsic call" noSL)
  /\ (".-"%string <> ".eval"%string ->
      ~ bad_access (_callIntrinsic no_host [Integer 1; StringV "a"] noSL ".-" [0; 0] tt)
      /\ _callIntrinsic no_host [Integer 1; StringV "a"] noSL ".-" [0; 0] tt
         <> panic "runtime" "type error on intrinsic call" noSL
      /\ (forall what,
            _callIntrinsic no_host [Integer 1; StringV "a"] noSL ".-" [0; 0] tt
            = Err (Undefined what) ->
            ".-"%string ∈ arithmetic_intrinsics)).
Proof.
  assert (Hall : Forall (fun l => is_Ok (heap_at [Integer 1; StringV "a"] l)) [0; 1])
    by (repeat constructor; by eexists).
  assert (Hall' : Forall (fun l => is_Ok (heap_at [Integer 1; StringV "a"] l)) [0; 0])
    by (repeat constructor; by eexists).
  split; [exact Hall|]. split.
  - exact (intrinsic_typecheck no_host [Integer 1; StringV "a"] noSL ".+" [0; 1] tt Hall).
  - exact (intrinsic_typecheck no_host [Integer 1; StringV "a"] noSL ".-" [0; 0] tt Hall').
Defined.

Lemma mark_visits_reachable_witness :
  exists (c0 : Config no_host) locs visited,
    boot no_host tt garbage_then_letrec 0 = Ok c0
    /\ roots no_host c0 = Ok locs
    /\ _mark no_host c0 = Done (Ok visited)
    /\ forall l, l ∈ visited <-> reachable (heap (state c0)) locs l.
Proof.
  let r0 := eval vm_compute in (boot no_host tt garbage_then_letrec 0) in
  lazymatch r0 with
  | Ok ?c0 =>
      let r1 := eval vm_compute in (roots no_host c0) in
      let r2 := eval vm_compute in (_mark no_host c0) in
      lazymatch r1 with
      | Ok ?locs =>
          lazymatch r2 with
          | Done (Ok ?visited) =>
              assert (Hb : boot no_host tt garbage_then_letrec 0 = Ok c0)
                by (vm_compute; reflexivity);
              assert (Hroots : roots no_host c0 = Ok locs)
                by (vm_compute; reflexivity);
              assert (Hm : _mark no_host c0 = Done (Ok visited))
                by (vm_compute; reflexivity);
              exists c0, locs, visited
          end
      end
  end.
  split; [exact Hb|]. split; [exact Hroots|]. split; [exact Hm|].
  match type of Hm with
  | _mark _ ?c = _ =>
      match type of Hroots with
      | _ = Ok ?locs =>
          generalize (mark_visits_reachable no_host c locs Hroots)
      end
  end.
  rewrite Hm. exact (fun Hmark => proj1 Hmark).
Defined.

Ltac collect_garbage k :=
  let r0 := eval vm_compute in (boot no_host tt garbage_then_letrec 0) in
  lazymatch r0 with
  | Ok ?c0 =>
      let r1 := eval vm_compute in (run_events c0 (repeat Step 10)) in
      lazymatch r1 with
      | Some ?c =>
          let r2 := eval vm_compute in (roots no_host c) in
          let r3 := eval vm_compute in (_gc no_host c) in
          lazymatch r2 with
          | Ok ?locs =>
              lazymatch r3 with
              | Done (Ok (?removed, ?c')) =>
                  assert (Hb : boot no_host tt garbage_then_letrec 0 = Ok c0)
                    by (vm_compute; reflexivity);
                  assert (Hr : run_events c0 (repeat Step 10) = Some c)
                    by (vm_compute; reflexivity);
                  assert (Hroots : roots no_host c = Ok locs)
                    by (vm_compute; reflexivity);
                  assert (Hgc : _gc no_host c = Done (Ok (removed, c')))
                    by (vm_compute; reflexivity);
                  k c0 c c' locs removed
              end
          end
      end
  end.

Lemma gc_keeps_reachable_graph_witness :
  exists (c0 c c' : Config no_host) locs removed,
    boot no_host tt garbage_then_letrec 0 = Ok c0
    /\ run_events c0 (repeat Step 10) = Some c
    /\ roots no_host c = Ok locs
    /\ _gc no_host c = Done (Ok (removed, c'))
    /\ roots no_host c' = Ok (map (reloc (gc_relocation c)) locs).
Proof.
  collect_garbage ltac:(fun c0 c c' locs removed => exists c0, c, c', locs, removed).
  split; [exact Hb|]. split; [exact Hr|]. split; [exact Hroots|]. split; [exact Hgc|].
  refine (proj1 (gc_keeps_reachable_graph no_host tt garbage_then_letrec 0 _ _ _ _ _ _
            _ Hb Hr Hroots Hgc)).
  intros s w v w' Hs. discriminate Hs.
Defined.

Lemma gc_removes_unreachable_witness :
  exists (c0 c c' : Config no_host) locs removed,
    boot no_host tt garbage_then_letrec 0 = Ok c0
    /\ run_events c0 (repeat Step 10) = Some c
    /\ roots no_host c = Ok locs
    /\ _gc no_host c = Done (Ok (removed, c'))
    /\ removed = 1
    /\ zlen (heap (state c')) = zlen (heap (state c)) - removed.
Proof.
  collect_garbage ltac:(fun c0 c c' locs removed => exists c0, c, c', locs, removed).
  split; [exact Hb|]. split; [exact Hr|]. split; [exact Hroots|]. split; [exact Hgc|].
  split; [reflexivity|].
  refine (proj1 (proj2 (gc_removes_unreachable no_host tt garbage_then_letrec 0 _ _ _ _
            _ _ Hb Hr Hroots Hgc))).
Defined.

Lemma main_frame_stays_witness :
  exists (c0 c : Config no_host) upper main,
    boot no_host tt garbage_then_letrec 0 = Ok c0
    /\ run_events c0 (repeat Step 10) = Some c
    /\ stack (state c) = upper ++ [main]
    /\ layer_expr main = None /\ layer_frame main = true.
Proof.
  let r0 := eval vm_compute in (boot no_host tt garbage_then_letrec 0) in
  lazymatch r0 with
  | Ok ?c0 =>
      let r1 := eval vm_compute in (run_events c0 (repeat Step 10)) in
      lazymatch r1 with
      | Some ?c =>
          assert (Hb : boot no_host tt garbage_then_letrec 0 = Ok c0)
            by (vm_compute; reflexivity);
          assert (Hr : run_events c0 (repeat Step 10) = Some c)
            by (vm_compute; reflexivity);
          exists c0, c
      end
  end.
  destruct (main_frame_stays no_host tt garbage_then_letrec 0 _ _ _ Hb Hr)
    as (upper & main & Hstk & Hme & Hmf & _).
  exists upper, main. split; [exact Hb|]. split; [exact Hr|]. split; [exact Hstk|].
  split; [exact Hme|exact Hmf].
Defined.

Ltac run_garbage evs k :=
  let r0 := eval vm_compute in (boot no_host tt garbage_then_letrec 0) in
  lazymatch r0 with
  | Ok ?c0 =>
      let r1 := eval vm_compute in (run_events c0 evs) in
      lazymatch r1 with
      | Some ?c =>
          assert (Hb : boot no_host tt garbage_then_letrec 0 = Ok c0)
            by (vm_compute; reflexivity);
          assert (Hr : run_events c0 evs = Some c)
            by (vm_compute; reflexivity);
          k c0 c
      end
  end.

Lemma no_host_first_order s (w : World no_host) v w' :
  eval_source no_host s w = Ok (v, w') -> ~ is_closure v.
Proof. intros Hs. discriminate Hs. Defined.

Lemma no_host_defined s (w : World no_host) what :
  eval_source no_host s w <> Err (Undefined what).
Proof. intros Hs. discriminate Hs. Defined.

Lemma step_is_memory_safe_witness :
  exists c0 c : Config no_host,
    boot no_host tt overflowing_sum 0 = Ok c0
    /\ 0 <= 0 < zlen (heap (state c0))
    /\ run_events c0 (repeat Step 4) = Some c
    /\ step no_host c = Err (Undefined overflow)
    /\ exists layer below m name args,
         stack (state c) = layer :: below
         /\ layer_expr layer = Some (IntrinsicCallNode m name args)
         /\ zlen args <= layer_pc layer
         /\ name ∈ arithmetic_intrinsics.
Proof.
  let r0 := eval vm_compute in (boot no_host tt overflowing_sum 0) in
  lazymatch r0 with
  | Ok ?c0 =>
      let r1 := eval vm_compute in (run_events c0 (repeat Step 4)) in
      lazymatch r1 with
      | Some ?c =>
          assert (Hb : boot no_host tt overflowing_sum 0 = Ok c0)
            by (vm_compute; reflexivity);
          assert (Hr : run_events c0 (repeat Step 4) = Some c)
            by (vm_compute; reflexivity);
          assert (Hs : step no_host c = Err (Undefined overflow))
            by (vm_compute; reflexivity);
          exists c0, c
      end
  end.
  assert (Hres : 0 <= 0 < zlen (heap (state
            match boot no_host tt overflowing_sum 0 with
            | Ok c0 => c0
            | Err _ => mkConfig (tt : World no_host) [] (mkState overflowing_sum [] [] 0 0)
            end))) by (vm_compute; split; [discriminate|reflexivity]).
  rewrite Hb in Hres.
  split; [exact Hb|]. split; [exact Hres|]. split; [exact Hr|]. split; [exact Hs|].
  exact (proj2 (proj1 (step_is_memory_safe no_host tt overflowing_sum 0 _ _ _
                         no_host_first_order no_host_defined Hb Hres Hr) overflow Hs)).
Defined.

Lemma collection_returns_witness :
  exists c0 c : Config no_host,
    boot no_host tt garbage_then_letrec 0 = Ok c0
    /\ 0 <= 0 < zlen (heap (state c0))
    /\ run_events c0 (repeat Step 10) = Some c
    /\ exists removed c', _gc no_host c = Done (Ok (removed, c')).
Proof.
  run_garbage (repeat Step 10) ltac:(fun c0 c => exists c0, c).
  assert (Hres : 0 <= 0 < zlen (heap (state
            match boot no_host tt garbage_then_letrec 0 with
            | Ok c0 => c0
            | Err _ => mkConfig (tt : World no_host) [] (mkState garbage_then_letrec [] [] 0 0)
            end))) by (vm_compute; split; [discriminate|reflexivity]).
  rewrite Hb in Hres.
  split; [exact Hb|]. split; [exact Hres|]. split; [exact Hr|].
  exact (proj2 (collection_returns no_host tt garbage_then_letrec 0 _ _ _
                  no_host_first_order Hb Hres Hr)).
Defined.

Lemma literals_stay_in_place_witness :
  exists c0 c : Config no_host,
    boot no_host tt garbage_then_letrec 0 = Ok c0
    /\ run_events c0 (repeat Step 10 ++ [Collect]) = Some c
    /\ numLiterals (state c) = zlen (heap (state c0))
    /\ exists rest, heap (state c) = heap (state c0) ++ rest.
Proof.
  run_garbage (repeat Step 10 ++ [Collect]) ltac:(fun c0 c => exists c0, c).
  split; [exact Hb|]. split; [exact Hr|].
  refine (literals_stay_in_place no_host tt garbage_then_letrec 0 _ _ _ _ Hb Hr).
  intros s w v w' Hs. discriminate Hs.
Defined.

Lemma execute_returns_at_main_frame_witness :
  exists c0 c : Config no_host,
    boot no_host tt garbage_then_letrec 0 = Ok c0
    /\ execute no_host 100 c0 = Done (Ok c)
    /\ exists main,
         stack (state c) = [main] /\ layer_expr main = None /\ layer_frame main = true.
Proof.
  let r0 := eval vm_compute in (boot no_host tt garbage_then_letrec 0) in
  lazymatch r0 with
  | Ok ?c0 =>
      let r1 := eval vm_compute in (execute no_host 100 c0) in
      lazymatch r1 with
      | Done (Ok ?c) =>
          assert (Hb : boot no_host tt garbage_then_letrec 0 = Ok c0)
            by (vm_compute; reflexivity);
          assert (He : execute no_host 100 c0 = Done (Ok c))
            by (vm_compute; reflexivity);
          exists c0, c
      end
  end.
  split; [exact Hb|]. split; [exact He|].
  refine (proj1 (execute_returns_at_main_frame no_host tt garbage_then_letrec 0 _ _ 100
                   _ Hb He)).
  intros s w v w' Hs. discriminate Hs.
Defined.

Ltac run_closure evs k :=
  let r0 := eval vm_compute in (boot no_host tt closure_in_letrec 0) in
  lazymatch r0 with
  | Ok ?c0 =>
      let r1 := eval vm_compute in (run_events c0 evs) in
      lazymatch r1 with
      | Some ?c =>
          assert (Hb : boot no_host tt closure_in_letrec 0 = Ok c0)
            by (vm_compute; reflexivity);
          assert (Hr : run_events c0 evs = Some c)
            by (vm_compute; reflexivity);
          k c0 c
      end
  end.

Lemma closure_in_letrec_unannotated : unannotated closure_in_letrec.
Proof. vm_compute. repeat split. Defined.

Lemma closure_in_letrec_closed : free_vars closure_in_letrec = ∅.
Proof. vm_compute. reflexivity. Defined.

Lemma computeFreeVars_records_free_vars_witness :
  unannotated closure_in_letrec
  /\ annotated (computeFreeVars closure_in_letrec)
  /\ freeVars (meta (computeFreeVars closure_in_letrec)) = free_vars closure_in_letrec.
Proof.
  split; [exact closure_in_letrec_unannotated|].
  exact (computeFreeVars_records_free_vars closure_in_letrec closure_in_letrec_unannotated).
Defined.

Lemma variables_are_bound_witness :
  exists (c0 c : Config no_host) layer below v,
    boot no_host tt closure_in_letrec 0 = Ok c0
    /\ run_events c0 (repeat Step 8) = Some c
    /\ stack (state c) = layer :: below
    /\ layer_expr layer = Some (VarNode v)
    /\ exists env,
         memory c !! layer_env layer = Some env
         /\ (forall x, x ∈ free_vars (VarNode v) -> is_Some (lookup_env x env))
         /\ (forall v', VarNode v = VarNode v' ->
               exists loc, lookup_env (name v') env = Some loc
                           /\ step no_host c
                              = Ok (true, publish no_host c below (state c) loc)).
Proof.
  run_closure (repeat Step 8) ltac:(fun c0 c => exists c0, c).
  match type of Hr with
  | _ = Some ?c =>
      let s := eval vm_compute in (stack (state c)) in
      lazymatch s with
      | ?layer :: ?below =>
          lazymatch eval vm_compute in (layer_expr layer) with
          | Some (VarNode ?v) =>
              exists layer, below, v;
              assert (Hstk : stack (state c) = layer :: below)
                by (vm_compute; reflexivity);
              assert (He : layer_expr layer = Some (VarNode v))
                by (vm_compute; reflexivity)
          end
      end
  end.
  split; [exact Hb|]. split; [exact Hr|]. split; [exact Hstk|]. split; [exact He|].
  exact (variables_are_bound no_host tt closure_in_letrec 0 _ _ _ _ _ _
           no_host_first_order closure_in_letrec_unannotated closure_in_letrec_closed
           Hb Hr Hstk He).
Defined.

Lemma closure_binds_free_vars_witness :
  exists (c0 c : Config no_host) layer below m varList expr,
    boot no_host tt closure_in_letrec 0 = Ok c0
    /\ run_events c0 (repeat Step 5) = Some c
    /\ stack (state c) = layer :: below
    /\ layer_expr layer = Some (LambdaNode m varList expr)
    /\ exists env saved c',
         memory c !! layer_env layer = Some env
         /\ step no_host c = Ok (true, c')
         /\ getResult (state c') = Ok (Closure saved (mkLambda m varList expr))
         /\ (forall x, count_name x saved
                       = if decide (x ∈ free_vars (LambdaNode m varList expr))
                         then 1%nat else 0%nat)
         /\ (forall x, x ∈ free_vars (LambdaNode m varList expr) ->
               exists loc, lookup_env x saved = Some loc /\ lookup_env x env = Some loc).
Proof.
  run_closure (repeat Step 5) ltac:(fun c0 c => exists c0, c).
  match type of Hr with
  | _ = Some ?c =>
      let s := eval vm_compute in (stack (state c)) in
      lazymatch s with
      | ?layer :: ?below =>
          lazymatch eval vm_compute in (layer_expr layer) with
          | Some (LambdaNode ?m ?vl ?b) =>
              exists layer, below, m, vl, b;
              assert (Hstk : stack (state c) = layer :: below)
                by (vm_compute; reflexivity);
              assert (He : layer_expr layer = Some (LambdaNode m vl b))
                by (vm_compute; reflexivity)
          end
      end
  end.
  split; [exact Hb|]. split; [exact Hr|]. split; [exact Hstk|]. split; [exact He|].
  exact (closure_binds_free_vars no_host tt closure_in_letrec 0 _ _ _ _ _ _ _ _
           no_host_first_order closure_in_letrec_unannotated closure_in_letrec_closed
           Hb Hr Hstk He).
Defined.

Lemma constructor_records_free_vars_witness :
  exists mem' s,
    State_of_source "letrec (x 5) ((lambda (y) x) x)" 0 [] = Done (Ok (mem', s))
    /\ annotated (st_expr s).
Proof.
  let r := eval vm_compute in (State_of_source "letrec (x 5) ((lambda (y) x) x)" 0 []) in
  lazymatch r with
  | Done (Ok (?mem', ?s)) =>
      assert (Hs : State_of_source "letrec (x 5) ((lambda (y) x) x)" 0 []
                   = Done (Ok (mem', s))) by (vm_compute; reflexivity);
      exists mem', s
  end.
  split; [exact Hs|].
  exact (proj1 (constructor_records_free_vars _ _ _ _ _ Hs)).
Defined.

Lemma machine_holds_program_nodes_witness :
  exists c0 c : Config no_host,
    boot no_host tt garbage_then_letrec 0 = Ok c0
    /\ run_events c0 (repeat Step 10 ++ [Collect]) = Some c
    /\ st_expr (state c) = st_expr (state c0)
    /\ (forall l x, In l (stack (state c)) -> layer_expr l = Some x ->
          node_of (st_expr (state c)) x)
    /\ (forall env fn, In (Closure env fn) (heap (state c)) ->
          node_of (st_expr (state c)) (lambda_node fn)).
Proof.
  run_garbage (repeat Step 10 ++ [Collect]) ltac:(fun c0 c => exists c0, c).
  split; [exact Hb|]. split; [exact Hr|].
  exact (machine_holds_program_nodes no_host tt garbage_then_letrec 0 _ _ _
           no_host_first_order Hb Hr).
Defined.

Lemma literals_evaluate_to_their_values_witness :
  exists (c0 c : Config no_host) layer below,
    boot no_host tt garbage_then_letrec 0 = Ok c0
    /\ run_events c0 (repeat Step 2) = Some c
    /\ stack (state c) = layer :: below
    /\ match layer_expr layer with
       | Some (IntegerNode m val loc) =>
           exists z c', stoi val = Ok z /\ step no_host c = Ok (true, c')
                        /\ getResult (state c') = Ok (Integer z)
       | Some (StringNode m val loc) =>
           exists u c', unquote val = Ok u /\ step no_host c = Ok (true, c')
                        /\ getResult (state c') = Ok (StringV u)
       | _ => True
       end.
Proof.
  run_garbage (repeat Step 2) ltac:(fun c0 c => exists c0, c).
  match type of Hr with
  | _ = Some ?c =>
      let s := eval vm_compute in (stack (state c)) in
      lazymatch s with
      | ?layer :: ?below =>
          lazymatch eval vm_compute in (layer_expr layer) with
          | Some (IntegerNode _ _ _) =>
              exists layer, below;
              assert (Hstk : stack (state c) = layer :: below)
                by (vm_compute; reflexivity)
          end
      end
  end.
  split; [exact Hb|]. split; [exact Hr|]. split; [exact Hstk|].
  exact (literals_evaluate_to_their_values no_host tt garbage_then_letrec 0 _ _ _ _ _
           no_host_first_order Hb Hr Hstk).
Defined.

Lemma stack_trace_lists_calls_witness :
  exists (c0 c c' : Config no_host) fn,
    boot no_host tt closure_in_letrec 0 = Ok c0
    /\ run_events c0 (repeat Step 9) = Some c
    /\ step no_host c = Ok (true, c')
    /\ callee c = Some (false, fn)
    /\ _getFrameSLs (state c) = [mkSL 1 1]
    /\ _getFrameSLs (state c') = _getFrameSLs (state c) ++ [sl (meta (lam_expr fn))].
Proof.
  run_closure (repeat Step 9) ltac:(fun c0 c =>
    let r2 := eval vm_compute in (step no_host c) in
    lazymatch r2 with
    | Ok (true, ?c') =>
        let r3 := eval vm_compute in (callee c) in
        lazymatch r3 with
        | Some (false, ?fn) =>
            assert (Hs : step no_host c = Ok (true, c')) by (vm_compute; reflexivity);
            assert (Hc : callee c = Some (false, fn)) by (vm_compute; reflexivity);
            exists c0, c, c', fn
        end
    end).
  pose proof (proj1 (proj2 (stack_trace_lists_calls no_host tt closure_in_letrec 0 _ _ _
                              no_host_first_order Hb Hr)) true _ Hs) as Ht.
  unfold trace_step in Ht. rewrite Hc in Ht.
  split; [exact Hb|]. split; [exact Hr|]. split; [exact Hs|]. split; [exact Hc|].
  split; [vm_compute; reflexivity|]. exact (proj2 Ht).
Defined.

Lemma lex_tokens_in_source_witness :
  lex "f (x)"
  = Done (Ok [mkToken (mkSL 1 1) "f"; mkToken (mkSL 1 3) "(";
              mkToken (mkSL 1 4) "x"; mkToken (mkSL 1 5) ")"])
  /\ tokens_in (mkSL 1 1) "f (x)"
       [mkToken (mkSL 1 1) "f"; mkToken (mkSL 1 3) "(";
        mkToken (mkSL 1 4) "x"; mkToken (mkSL 1 5) ")"].
Proof.
  assert (Hl : lex "f (x)"
               = Done (Ok [mkToken (mkSL 1 1) "f"; mkToken (mkSL 1 3) "(";
                           mkToken (mkSL 1 4) "x"; mkToken (mkSL 1 5) ")"]))
    by (vm_compute; reflexivity).
  split; [exact Hl|]. exact (lex_tokens_in_source _ _ Hl).
Defined.

